(** * libp11: identifier codec, object selection, PIN handling and the
      RSA sign/decrypt interceptor

    A shallow embedding of [src/util_uri.c] and [src/p11_pkey.c].

    Conventions.
    - A C [char] or byte is a [Z]; a C string is the [list Z] of the
      characters in front of its terminator.  Reading past the end of the
      list yields the terminator [0] (see [cur]), and a [0] inside a list
      ends the string there, as it does for the C code.
    - [size_t] counters that the code only ever increments up to a
      checked bound or decrements after a zero test are [nat].
    - [int] values are [Z].
    - A caller-owned output buffer is a [list Z] written by index. *)

From Stdlib Require Import ZArith List Bool Lia.
From stdpp Require Import base list.
Import ListNotations.

#[local] Open Scope Z_scope.

(** ** Characters and C strings *)

Module CStr.

(** [*p] for a string pointer: the terminator once the list is used up. *)
Definition cur (s : list Z) : Z := hd 0 s.

(** [p + 1]. *)
Definition next (s : list Z) : list Z := tl s.

(** [p[i]]. *)
Definition at_ (s : list Z) (i : nat) : Z := nth i s 0.

(** The characters in front of the first terminator: what [strlen],
    [strcmp] and friends see. *)
Fixpoint c_string (s : list Z) : list Z :=
  match s with
  | [] => []
  | c :: r => if c =? 0 then [] else c :: c_string r
  end.

Definition strlen (s : list Z) : nat := length (c_string s).

Definition ch_colon : Z := 58.
Definition ch_percent : Z := 37.
Definition ch_newline : Z := 10.
Definition ch_bar : Z := 124.

End CStr.
Import CStr.

(** ** C integers *)

Module CInt.

(** A value brought into the range of a 32-bit [int] (a conversion from
    a wider type, or arithmetic that leaves the range). *)
Definition int32 (x : Z) : Z := (x + 2 ^ 31) mod 2 ^ 32 - 2 ^ 31.

(** Conversion of an [int] to [CK_ULONG] or [size_t] (64 bits). *)
Definition to_ulong (x : Z) : Z := x mod 2 ^ 64.

End CInt.
Import CInt.

(** ** Hex / percent codec ([util_uri.c], lines 94-141 and 394-429) *)

Module Codec.

(** The three accepted digit ranges of [hex_to_bin]; [None] is the
    "invalid char" branch. *)
Definition hexval (c : Z) : option Z :=
  if (48 <=? c) && (c <=? 57) then Some (c - 48)
  else if (97 <=? c) && (c <=? 102) then Some (c - 97 + 10)
  else if (65 <=? c) && (c <=? 70) then Some (c - 65 + 10)
  else None.

(** The inner [while] loop (two nybbles, stopping at the terminator or a
    colon): reads at most [nybbles]
    digits into [byte]; [None] when a character is not a hex digit. *)
Fixpoint nybble_loop (nybbles : nat) (s : list Z) (byte : Z)
  : option (Z * list Z) :=
  match nybbles with
  | O => Some (byte, s)
  | S n =>
      if (cur s =? 0) || (cur s =? ch_colon) then Some (byte, s)
      else match hexval (cur s) with
           | None => None
           | Some v => nybble_loop n (next s) (Z.lor (Z.shiftl byte 4) v)
           end
  end.

(** What [hex_to_bin] leaves behind: the return value, the bytes stored
    through [out] (in order, from [out[0]]) and the final [*outlen]. *)
Record hex_out := HexOut {
  hx_ret : Z;
  hx_out : list Z;
  hx_outlen : nat
}.

(** The outer [while] loop, which runs until the terminator.  [left] is
    the remaining capacity, [out] the bytes stored so far
    ([count = length out]).  Every round consumes at least one character,
    so a [fuel] above the length of the input never runs out
    (lemma [hex_loop_fuel]). *)
Fixpoint hex_loop (fuel : nat) (s : list Z) (left : nat) (out : list Z)
  : option hex_out :=
  match fuel with
  | O => None
  | S f =>
      if cur s =? 0 then Some (HexOut 1 out (length out))
      else match nybble_loop 2 s 0 with
           | None => Some (HexOut 0 out 0)            (* invalid char *)
           | Some (byte, s1) =>
               let s2 := if cur s1 =? ch_colon then next s1 else s1 in
               match left with
               | O => Some (HexOut 0 out 0)           (* string too long *)
               | S l => hex_loop f s2 l (out ++ [byte])
               end
           end
  end.

(** [hex_to_bin(ctx, in, out, outlen)]; [input = None] is a null [in],
    [cap] the capacity found in [*outlen] on entry.  The last branch is
    never taken (lemma [hex_loop_fuel]). *)
Definition hex_to_bin (input : option (list Z)) (cap : nat) : hex_out :=
  match input with
  | None => HexOut 1 [] 0
  | Some s =>
      if cur s =? 0 then HexOut 1 [] 0
      else match hex_loop (S (length s)) s cap [] with
           | Some r => r
           | None => HexOut 0 [] 0
           end
  end.

(** Stores [bytes] at [buf[pos]], [buf[pos+1]], ... *)
Fixpoint store (buf : list Z) (pos : nat) (bytes : list Z) : list Z :=
  match bytes with
  | [] => buf
  | b :: r => store (<[pos:=b]> buf) (S pos) r
  end.

(** State of the [while (ret && attrlen && outlen < max)] loop of
    [parse_uri_attr_len] when it is left. *)
Record attr_state := AttrState {
  as_ret : Z;
  as_attrlen : Z;
  as_field : list Z;
  as_outlen : nat
}.

(** The loop itself.  [room] is [max - outlen]: every round stores into
    one more output cell, so the recursion is on the cells still free.
    An escape hands the two characters after the percent sign to
    [hex_to_bin] as a string of their own, with capacity 1, writing at
    [field[outlen]]. *)
Fixpoint attr_loop (room : nat) (attr : list Z) (attrlen : Z)
    (field : list Z) (outlen : nat) : attr_state :=
  match room with
  | O => AttrState 1 attrlen field outlen
  | S r =>
      if attrlen =? 0 then AttrState 1 attrlen field outlen
      else if cur attr =? ch_percent then
        if attrlen <? 3 then AttrState 0 attrlen field outlen
        else
          let h := hex_to_bin (Some [at_ attr 1; at_ attr 2]) 1 in
          let field' := store field outlen (hx_out h) in
          if hx_ret h =? 0
          then AttrState 0 (attrlen - 3) field' (S outlen)
          else attr_loop r (skipn 3 attr) (attrlen - 3) field' (S outlen)
      else
        attr_loop r (next attr) (attrlen - 1)
          (<[outlen:=cur attr]> field) (S outlen)
  end.

(** Result of [parse_uri_attr_len]: return value, the output buffer and
    [*field_len] afterwards (untouched on failure). *)
Record attr_out := AttrOut {
  ao_ret : Z;
  ao_field : list Z;
  ao_len : nat
}.

(** [parse_uri_attr_len(ctx, attr, attrlen, field, field_len)]. *)
Definition parse_uri_attr_len (attr : list Z) (attrlen : Z)
    (field : list Z) (field_len : nat) : attr_out :=
  let st := attr_loop field_len attr attrlen field 0 in
  let ret :=
    if negb (as_attrlen st =? 0) && Nat.eqb (as_outlen st) field_len
    then 0 else as_ret st in
  AttrOut ret (as_field st)
    (if ret =? 0 then field_len else as_outlen st).

(** [parse_uri_attr(ctx, attr, attrlen, field)]: decodes into a fresh
    buffer of [attrlen + 1] bytes and terminates it.  [fresh] is what
    the allocator returned ([None]: allocation failure); the result is
    the pointer stored in [*field], present exactly when the function
    returns 1. *)
Definition parse_uri_attr (attr : list Z) (attrlen : Z)
    (fresh : option (list Z)) : option (list Z) :=
  match fresh with
  | None => None
  | Some out =>
      let r := parse_uri_attr_len attr attrlen out (Z.to_nat (attrlen + 1)) in
      if ao_ret r =? 0 then None
      else Some (<[ao_len r:=0]> (ao_field r))
  end.

End Codec.
Import Codec.

(** ** PIN source ([util_uri.c], lines 454-502) *)

Module PinSource.

(** OpenSSL's [BIO_gets] on a file BIO, which the repository calls but
    does not define; it behaves as [fgets]: at most [size - 1] characters
    are read, reading stops after a newline, which is kept, and at the end
    of the file.  [line_upto n content] is what lands in the buffer in
    front of the terminator. *)
Fixpoint line_upto (n : nat) (content : list Z) : list Z :=
  match n, content with
  | O, _ => []
  | _, [] => []
  | S m, c :: r => if c =? ch_newline then [c] else c :: line_upto m r
  end.

(** Buffer contents after [BIO_gets(fp, txt, size)] and its return value
    (the length of the string read, 0 when nothing was read). *)
Definition BIO_gets (content : list Z) (txt : list Z) (size : nat)
  : list Z * Z :=
  let line := line_upto (pred size) content in
  let txt' := store txt 0 (line ++ [0]) in
  (txt', Z.of_nat (strlen txt')).

(** [memcpy(dst, src, n)]. *)
Definition memcpy (dst src : list Z) (n : nat) : list Z :=
  firstn n src ++ skipn n dst.

Record file_out := FileOut {
  fo_ret : Z;
  fo_field : list Z;
  fo_len : nat
}.

(** [read_from_file(ctx, path, field, field_len)].  [file] is what
    [BIO_new_file(path, "r")] finds ([None]: cannot be opened), [txt0]
    the uninitialised scratch buffer of [*field_len + 1] bytes. *)
Definition read_from_file (file : option (list Z)) (txt0 : list Z)
    (field : list Z) (field_len : nat) : file_out :=
  match file with
  | None => FileOut 0 field field_len
  | Some content =>
      let '(txt, n) := BIO_gets content txt0 (field_len + 1) in
      if 0 <? n
      then FileOut 1 (memcpy field txt field_len) (strlen txt)
      else FileOut 1 field 0
  end.

(** ASCII [tolower], for [strncasecmp]. *)
Definition tolower (c : Z) : Z :=
  if (65 <=? c) && (c <=? 90) then c + 32 else c.

(** ["file:"]. *)
Definition file_prefix : list Z := [102; 105; 108; 101; 58].

(** [!strncasecmp(val, "file:", 5)]. *)
Definition has_file_prefix (val : list Z) : bool :=
  bool_decide (map tolower (firstn 5 (c_string val)) = file_prefix).

(** [parse_pin_source(ctx, attr, attrlen, field, field_len)].  [fs] maps
    a path (a C string) to the contents of the file it names; [fresh] and
    [txt0] are the two allocations made on the way. *)
Definition parse_pin_source (fs : list Z -> option (list Z))
    (attr : list Z) (attrlen : Z) (fresh : option (list Z)) (txt0 : list Z)
    (field : list Z) (field_len : nat) : file_out :=
  match parse_uri_attr attr attrlen fresh with
  | None => FileOut 0 field field_len
  | Some val =>
      if has_file_prefix val then
        read_from_file (fs (c_string (skipn 5 val))) txt0 field field_len
      else if cur val =? ch_bar then FileOut 0 field field_len
      else read_from_file (fs (c_string val)) txt0 field field_len
  end.

(** The PIN a caller sees: the first [*field_len] bytes of [field]. *)
Definition pin_of (r : file_out) : list Z := firstn (fo_len r) (fo_field r).

(** What the specification says a PIN file yields: the first line with
    the newline taken off.  (Follows the words of the specification, not
    the code.) *)
Fixpoint spec_first_line_stripped (content : list Z) : list Z :=
  match content with
  | [] => []
  | c :: r => if c =? ch_newline then [] else c :: spec_first_line_stripped r
  end.

End PinSource.
Import PinSource.

(** ** Object selection ([util_uri.c], lines 931-1161) *)

Module Selector.

(** [strcmp(a, b) == 0]. *)
Definition streq (a b : list Z) : bool :=
  bool_decide (c_string a = c_string b).

(** [memcmp(a, b, n) == 0]. *)
Definition memeq (a b : list Z) (n : nat) : bool :=
  bool_decide (firstn n a = firstn n b).

(** [k->label && strcmp(k->label, obj_label) == 0]. *)
Definition label_is (label : option (list Z)) (obj_label : list Z) : bool :=
  match label with
  | None => false
  | Some l => streq l obj_label
  end.

(** [k->id_len == obj_id_len && memcmp(k->id, obj_id, obj_id_len) == 0];
    an id is the list of its [id_len] bytes. *)
Definition id_is (id obj_id : list Z) : bool :=
  Nat.eqb (length id) (length obj_id) && memeq id obj_id (length obj_id).

(** The three-way test on id and label that the key loop and the
    certificate loop share.  Nothing is selected by this test when
    neither an id nor a label was asked for. *)
Definition selects (id : list Z) (label : option (list Z))
    (obj_id : list Z) (obj_label : option (list Z)) : bool :=
  match obj_label, negb (Nat.eqb (length obj_id) 0) with
  | Some l, true => label_is label l && id_is id obj_id
  | Some l, false => label_is label l
  | None, true => id_is id obj_id
  | None, false => false
  end.

(** *** Keys *)

(** The public fields of [PKCS11_KEY]. *)
Record PKCS11_KEY := {
  key_id : list Z;
  key_label : option (list Z);
  isPrivate : bool;
  needLogin : bool
}.

(** The [for] loop of [match_key]; [m] is the index of the head of
    [keys] in the enumerated array, and a pointer [keys + m] is the
    index [m]. *)
Fixpoint key_loop (keys : list PKCS11_KEY) (m : nat)
    (obj_id : list Z) (obj_label : option (list Z))
    (selected_key : option nat) : option nat :=
  match keys with
  | [] => selected_key
  | k :: rest =>
      key_loop rest (S m) obj_id obj_label
        (if selects (key_id k) (key_label k) obj_id obj_label
         then Some m else selected_key)
  end.

(** [match_key(ctx, key_type, keys, key_count, obj_id, obj_id_len,
    obj_label)], with [key_count = length keys] and
    [obj_id_len = length obj_id]. *)
Definition match_key (keys : list PKCS11_KEY)
    (obj_id : list Z) (obj_label : option (list Z)) : option nat :=
  match keys with
  | [] => None
  | _ :: _ =>
      if negb (Nat.eqb (length obj_id) 0) || bool_decide (is_Some obj_label)
      then key_loop keys 0 obj_id obj_label None
      else Some 0%nat
  end.

(** *** Certificates *)

(** OpenSSL's [ASN1_TIME]: the instant it denotes in seconds, [None] for
    a value whose text does not parse. *)
Definition ASN1_TIME := option Z.

(** What the selector reads of an [X509]: its not-after time and its
    encoding. *)
Record X509 := {
  notAfter : ASN1_TIME;
  der : list Z
}.

Definition X509_get0_notAfter (x : X509) : ASN1_TIME := notAfter x.

(** OpenSSL's [ASN1_TIME_diff(&pday, &psec, from, to)], which the
    repository calls but does not define: it fails on a time that does
    not parse, and otherwise splits [to - from] into days and seconds of
    the same sign, the seconds below one day. *)
Definition ASN1_TIME_diff (from to : ASN1_TIME) : option (Z * Z) :=
  match from, to with
  | Some f, Some t => Some (Z.quot (t - f) 86400, Z.rem (t - f) 86400)
  | _, _ => None
  end.

(** The public fields of [PKCS11_CERT]. *)
Record PKCS11_CERT := {
  cert_id : list Z;
  cert_label : option (list Z);
  x509 : option X509
}.

Section Certs.

(** OpenSSL's [X509_cmp], which the repository calls but does not
    define. *)
Variable X509_cmp : X509 -> X509 -> Z.

(** The enumerated array; a [PKCS11_CERT *] into it is an index, a
    null pointer is [None]. *)
Variable certs : list PKCS11_CERT.

(** [p->x509] for a possibly null [p]: [None] when [!p || !p->x509]. *)
Definition x509_of (p : option nat) : option X509 :=
  match p with
  | None => None
  | Some i => match certs !! i with
              | Some c => x509 c
              | None => None
              end
  end.

(** [cert_cmp(a, b)]. *)
Definition cert_cmp (a b : option nat) : option nat :=
  match x509_of a with
  | None => b
  | Some xa =>
      match x509_of b with
      | None => a
      | Some xb =>
          let by_time :=
            match ASN1_TIME_diff (X509_get0_notAfter xa)
                                 (X509_get0_notAfter xb) with
            | Some (pday, psec) =>
                if (pday <? 0) || (psec <? 0) then Some a
                else if (pday >? 0) || (psec >? 0) then Some b
                else None
            | None => None
            end in
          match by_time with
          | Some r => r
          | None => if X509_cmp xa xb <? 1 then b else a
          end
      end
  end.

(** First loop of [match_cert] (an id or a label was given), from
    index [m] over the remaining [n] entries. *)
Fixpoint cert_loop (n m : nat) (obj_id : list Z)
    (obj_label : option (list Z)) (selected_cert : option nat)
  : option nat :=
  match n with
  | O => selected_cert
  | S n' =>
      let selected_cert' :=
        match certs !! m with
        | Some k =>
            if selects (cert_id k) (cert_label k) obj_id obj_label
            then cert_cmp selected_cert (Some m)
            else selected_cert
        | None => selected_cert
        end in
      cert_loop n' (S m) obj_id obj_label selected_cert'
  end.

(** [k->id && *k->id]: the id is there and its first byte is not 0. *)
Definition id_present (k : PKCS11_CERT) : bool :=
  match cert_id k with
  | [] => false
  | b :: _ => negb (b =? 0)
  end.

(** Second loop of [match_cert] (neither id nor label given). *)
Fixpoint first_with_id (n m : nat) (selected_cert : option nat)
  : option nat :=
  match n with
  | O => selected_cert
  | S n' =>
      let selected_cert' :=
        match selected_cert, certs !! m with
        | None, Some k => if id_present k then Some m else None
        | _, _ => selected_cert
        end in
      first_with_id n' (S m) selected_cert'
  end.

End Certs.

(** [match_cert(ctx, tok, obj_id, obj_id_len, obj_label)].
    [template_ok] says that the two allocations for the search template
    succeeded; [enum] is the answer of [PKCS11_enumerate_certs_ext]
    ([None]: the enumeration failed). *)
Definition match_cert (X509_cmp : X509 -> X509 -> Z) (template_ok : bool)
    (enum : option (list PKCS11_CERT))
    (obj_id : list Z) (obj_label : option (list Z)) : option nat :=
  if negb template_ok then None
  else match enum with
       | None => None
       | Some certs =>
           if Nat.eqb (length certs) 0 then None
           else if negb (Nat.eqb (length obj_id) 0)
                   || bool_decide (is_Some obj_label)
           then cert_loop X509_cmp certs (length certs) 0 obj_id obj_label None
           else match first_with_id certs (length certs) 0 None with
                | Some m => Some m
                | None => Some 0%nat
                end
       end.

End Selector.
Import Selector.

(** ** RSA sign / decrypt interceptor ([p11_pkey.c]) *)

Module Pkey.

(** *** Constants of the OpenSSL and PKCS#11 headers *)

Definition NID_sha1 : Z := 64.
Definition NID_sha224 : Z := 675.
Definition NID_sha256 : Z := 672.
Definition NID_sha384 : Z := 673.
Definition NID_sha512 : Z := 674.

Definition CKM_SHA_1 : Z := 0x220.
Definition CKM_SHA224 : Z := 0x255.
Definition CKM_SHA256 : Z := 0x250.
Definition CKM_SHA384 : Z := 0x260.
Definition CKM_SHA512 : Z := 0x270.

Definition CKG_MGF1_SHA1 : Z := 1.
Definition CKG_MGF1_SHA256 : Z := 2.
Definition CKG_MGF1_SHA384 : Z := 3.
Definition CKG_MGF1_SHA512 : Z := 4.
Definition CKG_MGF1_SHA224 : Z := 5.

Definition RSA_PKCS1_OAEP_PADDING : Z := 4.
Definition RSA_PKCS1_PSS_PADDING : Z := 6.
Definition CKM_RSA_PKCS : Z := 1.
Definition CKM_RSA_PKCS_OAEP : Z := 9.
Definition CKM_RSA_PKCS_PSS : Z := 0xD.
Definition CKR_OK : Z := 0.

(** *** Framework objects *)

(** A digest: what [EVP_MD_type] and [EVP_MD_size] answer for it. *)
Record EVP_MD := {
  md_type : Z;
  md_size : Z
}.

Definition EVP_MD_type (md : EVP_MD) : Z := md_type md.
Definition EVP_MD_size (md : EVP_MD) : Z := md_size md.

(** The token key behind an RSA object ([PKCS11_KEY] and its private
    part). *)
Record token_key := {
  always_authenticate : bool
}.

(** An RSA object; [rsa_ex_data] is [pkcs11_get_ex_data_rsa], present
    when the key lives on a token. *)
Record RSA := {
  rsa_ex_data : option token_key
}.

Record EVP_PKEY := {
  pkey_rsa : option RSA;       (* EVP_PKEY_get0_RSA *)
  pkey_size : Z;               (* EVP_PKEY_size *)
  pkey_bits : Z                (* EVP_PKEY_bits *)
}.

(** The per-call context.  For the digest getters [None] is a return
    value [<= 0]; the salt length getter is kept as its return value and
    the value it stored, because the code tests it with [!]. *)
Record EVP_PKEY_CTX := {
  ctx_pkey : option EVP_PKEY;          (* EVP_PKEY_CTX_get0_pkey *)
  ctx_signature_md : option EVP_MD;    (* EVP_PKEY_CTX_get_signature_md *)
  ctx_oaep_md : option EVP_MD;         (* EVP_PKEY_CTX_get_rsa_oaep_md *)
  ctx_mgf1_md : option EVP_MD;         (* EVP_PKEY_CTX_get_rsa_mgf1_md *)
  ctx_saltlen_rv : Z;                  (* EVP_PKEY_CTX_get_rsa_pss_saltlen *)
  ctx_saltlen : Z;
  ctx_padding : Z                      (* EVP_PKEY_CTX_get_rsa_padding *)
}.

(** *** Mechanism parameters *)

Record CK_RSA_PKCS_PSS_PARAMS := {
  pss_hashAlg : Z;
  pss_mgf : Z;
  pss_sLen : Z
}.

Record CK_RSA_PKCS_OAEP_PARAMS := {
  oaep_hashAlg : Z;
  oaep_mgf : Z;
  oaep_source : Z;
  oaep_ulSourceDataLen : Z
}.

Inductive mech_parameter :=
| NoParameter
| PssParameter (p : CK_RSA_PKCS_PSS_PARAMS)
| OaepParameter (p : CK_RSA_PKCS_OAEP_PARAMS).

(** [mechanism] is [None] where the code leaves the field unset. *)
Record CK_MECHANISM := {
  mechanism : option Z;
  pParameter : mech_parameter
}.

Definition pkcs11_md2ckm (md : EVP_MD) : Z :=
  let t := EVP_MD_type md in
  if t =? NID_sha1 then CKM_SHA_1
  else if t =? NID_sha224 then CKM_SHA224
  else if t =? NID_sha256 then CKM_SHA256
  else if t =? NID_sha512 then CKM_SHA512
  else if t =? NID_sha384 then CKM_SHA384
  else 0.

Definition pkcs11_md2ckg (md : EVP_MD) : Z :=
  let t := EVP_MD_type md in
  if t =? NID_sha1 then CKG_MGF1_SHA1
  else if t =? NID_sha224 then CKG_MGF1_SHA224
  else if t =? NID_sha256 then CKG_MGF1_SHA256
  else if t =? NID_sha512 then CKG_MGF1_SHA512
  else if t =? NID_sha384 then CKG_MGF1_SHA384
  else 0.

(** The [switch (salt_len)] of [pkcs11_params_pss]: the salt length to
    use, [None] for the two [return -1] inside the switch. *)
Definition pss_salt_len (ctx : EVP_PKEY_CTX) (sig_md : EVP_MD) (salt_len : Z)
  : option Z :=
  if salt_len =? -1 then Some (EVP_MD_size sig_md)
  else if salt_len =? -2 then
    match ctx_pkey ctx with
    | None => None
    | Some evp_pkey =>
        let salt_len1 :=
          int32 (int32 (pkey_size evp_pkey - EVP_MD_size sig_md) - 2) in
        let salt_len2 :=
          if Z.land (int32 (pkey_bits evp_pkey - 1)) 0x7 =? 0
          then int32 (salt_len1 - 1) else salt_len1 in
        if salt_len2 <? 0 then None else Some salt_len2
    end
  else Some salt_len.

(** [pkcs11_params_pss(pss, ctx)]: the filled structure when it returns
    0, [None] when it returns -1. *)
Definition pkcs11_params_pss (ctx : EVP_PKEY_CTX)
  : option CK_RSA_PKCS_PSS_PARAMS :=
  match ctx_signature_md ctx with
  | None => None
  | Some sig_md =>
      match ctx_mgf1_md ctx with
      | None => None
      | Some mgf1_md =>
          if ctx_saltlen_rv ctx =? 0 then None
          else match pss_salt_len ctx sig_md (ctx_saltlen ctx) with
               | None => None
               | Some salt_len =>
                   let hashAlg := pkcs11_md2ckm sig_md in
                   let mgf := pkcs11_md2ckg mgf1_md in
                   if (hashAlg =? 0) || (mgf =? 0) then None
                   else Some {| pss_hashAlg := hashAlg;
                                pss_mgf := mgf;
                                pss_sLen := to_ulong salt_len |}
               end
      end
  end.

(** [pkcs11_params_oaep(oaep, ctx)]. *)
Definition pkcs11_params_oaep (ctx : EVP_PKEY_CTX)
  : option CK_RSA_PKCS_OAEP_PARAMS :=
  match ctx_oaep_md ctx with
  | None => None
  | Some oaep_md =>
      match ctx_mgf1_md ctx with
      | None => None
      | Some mgf1_md =>
          let hashAlg := pkcs11_md2ckm oaep_md in
          let mgf := pkcs11_md2ckg mgf1_md in
          if (hashAlg =? 0) || (mgf =? 0) then None
          else Some {| oaep_hashAlg := hashAlg;
                       oaep_mgf := mgf;
                       oaep_source := 0;
                       oaep_ulSourceDataLen := 0 |}
      end
  end.

(** *** The token and the software implementation *)

(** What is observable of one call: the token primitives issued, the
    lock operations on the context lock, and calls of the original
    (software) method. *)
Inductive event :=
| EvWriteLock
| EvUnlock
| EvSignInit (m : CK_MECHANISM)
| EvDecryptInit (m : CK_MECHANISM)
| EvAuthenticate
| EvSign
| EvDecrypt
| EvOrigSign
| EvOrigDecrypt.

(** The answers of the token during one call (each primitive is issued
    at most once per call) and of the original methods. *)
Record replies := {
  rv_SignInit : Z;
  rv_DecryptInit : Z;
  rv_authenticate : Z;
  rv_Sign : Z;
  size_Sign : Z;                (* length stored by a successful C_Sign *)
  rv_Decrypt : Z;
  size_Decrypt : Z;             (* length stored by a successful C_Decrypt *)
  orig_sign : Z * Z;            (* return value and [*siglen] of the original sign *)
  orig_decrypt : Z * Z          (* return value and [*outlen] of the original decrypt *)
}.

(** The part of [PKCS11_CTX_private] the interceptor changes, with the
    events so far (latest last). *)
Record state := {
  sign_initialized : bool;
  decrypt_initialized : bool;
  trace : list event
}.

Definition emit (e : event) (s : state) : state :=
  {| sign_initialized := sign_initialized s;
     decrypt_initialized := decrypt_initialized s;
     trace := trace s ++ [e] |}.

Definition set_sign_initialized (b : bool) (s : state) : state :=
  {| sign_initialized := b;
     decrypt_initialized := decrypt_initialized s;
     trace := trace s |}.

Definition set_decrypt_initialized (b : bool) (s : state) : state :=
  {| sign_initialized := sign_initialized s;
     decrypt_initialized := b;
     trace := trace s |}.

(** Result of a method: return value, the length left in [*siglen] or
    [*outlen], and the state. *)
Record outcome := {
  ret : Z;
  len : Z;
  st : state
}.

(** The key behind the context, as the first three tests of both
    methods look it up. *)
Definition token_key_of (ctx : EVP_PKEY_CTX) : option token_key :=
  match ctx_pkey ctx with
  | None => None
  | Some pkey =>
      match pkey_rsa pkey with
      | None => None
      | Some rsa => rsa_ex_data rsa
      end
  end.

(** The tail of [pkcs11_try_pkey_rsa_sign] from [if (!rv)] on; [rv] is
    what the initialisation left. *)
Definition sign_tail (tok : replies) (sig_null : bool) (siglen : Z)
    (rv : Z) (s : state) : outcome :=
  let '(rv1, size, s1) :=
    if rv =? 0
    then (rv_Sign tok,
          (if rv_Sign tok =? 0 then size_Sign tok else siglen),
          emit EvSign s)
    else (rv, siglen, s) in
  let initialized := (rv1 =? 0) && sig_null in
  let s2 := set_sign_initialized initialized s1 in
  let s3 := if initialized then s2 else emit EvUnlock s2 in
  if negb (rv1 =? 0) then {| ret := -1; len := siglen; st := s3 |}
  else {| ret := 1; len := size; st := s3 |}.

(** [pkcs11_try_pkey_rsa_sign(evp_pkey_ctx, sig, siglen, tbs, tbslen)];
    [sig_null] says that [sig] is null, [siglen] is [*siglen] on entry.
    The context itself is not null: the code reads it before it tests
    it. *)
Definition pkcs11_try_pkey_rsa_sign (tok : replies) (ctx : EVP_PKEY_CTX)
    (sig_null : bool) (siglen tbslen : Z) (s : state) : outcome :=
  let na := {| ret := -1; len := siglen; st := s |} in
  match token_key_of ctx with
  | None => na
  | Some key =>
      match ctx_signature_md ctx with
      | None => na
      | Some sig_md =>
          if negb (tbslen =? to_ulong (EVP_MD_size sig_md)) then na
          else if negb (sign_initialized s) then
            if negb (ctx_padding ctx =? RSA_PKCS1_PSS_PADDING) then na
            else match pkcs11_params_pss ctx with
                 | None => na
                 | Some params =>
                     let m := {| mechanism := Some CKM_RSA_PKCS_PSS;
                                 pParameter := PssParameter params |} in
                     let s1 := emit (EvSignInit m) (emit EvWriteLock s) in
                     let '(rv, s2) :=
                       if (rv_SignInit tok =? 0) && always_authenticate key
                       then (rv_authenticate tok, emit EvAuthenticate s1)
                       else (rv_SignInit tok, s1) in
                     sign_tail tok sig_null siglen rv s2
                 end
          else sign_tail tok sig_null siglen 0 s
      end
  end.

(** [pkcs11_pkey_rsa_sign]: the method installed in the table. *)
Definition pkcs11_pkey_rsa_sign (tok : replies) (ctx : EVP_PKEY_CTX)
    (sig_null : bool) (siglen tbslen : Z) (s : state) : outcome :=
  let r := pkcs11_try_pkey_rsa_sign tok ctx sig_null siglen tbslen s in
  if ret r <? 0
  then {| ret := fst (orig_sign tok); len := snd (orig_sign tok);
          st := emit EvOrigSign (st r) |}
  else r.

(** [sizeof(out_buf)] in [pkcs11_try_pkey_rsa_decrypt]. *)
Definition out_buf_size : Z := 20480.

(** The tail of [pkcs11_try_pkey_rsa_decrypt] from the
    re-authentication test on. *)
Definition decrypt_tail (tok : replies) (key : token_key) (out_null : bool)
    (outlen : Z) (rv : Z) (s : state) : outcome :=
  let '(rv1, s1) :=
    if (rv =? 0) && always_authenticate key
    then (rv_authenticate tok, emit EvAuthenticate s)
    else (rv, s) in
  let '(rv2, size, s2) :=
    if rv1 =? 0
    then (rv_Decrypt tok,
          (if rv_Decrypt tok =? 0 then size_Decrypt tok else out_buf_size),
          emit EvDecrypt s1)
    else (rv1, out_buf_size, s1) in
  let initialized := (rv2 =? 0) && out_null in
  let s3 := set_decrypt_initialized initialized s2 in
  let s4 := if initialized then s3 else emit EvUnlock s3 in
  if negb (rv2 =? CKR_OK) then {| ret := -1; len := outlen; st := s4 |}
  else if negb out_null && (outlen <? size)
  then {| ret := -1; len := outlen; st := s4 |}
  else {| ret := 1;
          len := (if (outlen >=? size) || out_null || (outlen =? 0)
                  then size else outlen);
          st := s4 |}.

(** [pkcs11_try_pkey_rsa_decrypt(evp_pkey_ctx, out, outlen, in, inlen)]. *)
Definition pkcs11_try_pkey_rsa_decrypt (tok : replies) (ctx : EVP_PKEY_CTX)
    (out_null : bool) (outlen : Z) (s : state) : outcome :=
  let na := {| ret := -1; len := outlen; st := s |} in
  match token_key_of ctx with
  | None => na
  | Some key =>
      if negb (decrypt_initialized s) then
        let init (m : CK_MECHANISM) :=
          let s1 := emit (EvDecryptInit m) (emit EvWriteLock s) in
          decrypt_tail tok key out_null outlen (rv_DecryptInit tok) s1 in
        if ctx_padding ctx =? RSA_PKCS1_OAEP_PADDING then
          match pkcs11_params_oaep ctx with
          | None => na
          | Some oaep_params =>
              init {| mechanism := Some CKM_RSA_PKCS_OAEP;
                      pParameter := OaepParameter oaep_params |}
          end
        else if ctx_padding ctx =? CKM_RSA_PKCS then
          init {| mechanism := None; pParameter := NoParameter |}
        else na
      else decrypt_tail tok key out_null outlen 0 s
  end.

(** [pkcs11_pkey_rsa_decrypt]: the method installed in the table. *)
Definition pkcs11_pkey_rsa_decrypt (tok : replies) (ctx : EVP_PKEY_CTX)
    (out_null : bool) (outlen : Z) (s : state) : outcome :=
  let r := pkcs11_try_pkey_rsa_decrypt tok ctx out_null outlen s in
  if ret r <? 0
  then {| ret := fst (orig_decrypt tok); len := snd (orig_decrypt tok);
          st := emit EvOrigDecrypt (st r) |}
  else r.

End Pkey.

(** ** PIN handling, login and object lookup ([util_uri.c], lines
       148-261 and 593-925) *)

Module Lookup.

(** *** Slots and tokens *)

(** A token as the library fills it in for a slot that holds one. *)
Record PKCS11_TOKEN := {
  label : list Z;
  manufacturer : list Z;
  model : list Z;
  serialnr : list Z;
  initialized : bool;
  loginRequired : bool;
  secureLogin : bool;
  userPinSet : bool;
  readOnly : bool
}.

Record PKCS11_SLOT := {
  slot_id : Z;                       (* PKCS11_get_slotid_from_slot *)
  description : list Z;
  token : option PKCS11_TOKEN
}.

(** The token searched for ([match_tok]): the same structure, filled in
    by the URI parser, where every string may be null. *)
Record token_filter := {
  f_label : option (list Z);
  f_manufacturer : option (list Z);
  f_serialnr : option (list Z);
  f_model : option (list Z)
}.

(** What the parsing prelude of [ctx_try_load_object] leaves in its
    local variables. *)
Record selector := {
  match_tok : option token_filter;
  slot_nr : Z;
  obj_id : list Z;
  obj_label : option (list Z)
}.

(** No identifier given: the initial values of the locals. *)
Definition no_selector : selector :=
  {| match_tok := None; slot_nr := -1; obj_id := []; obj_label := None |}.

(** *** Memory holding PINs *)

(** An allocation: its bytes and whether it has been freed.  A freed
    block keeps the bytes it held when it was freed. *)
Record block := {
  bytes : list Z;
  live : bool
}.

(** The fields of [ENGINE_CTX] used here; [pin] is the address of the
    PIN buffer. *)
Record ENGINE_CTX := {
  pin : option nat;
  pin_length : nat;
  forced_pin : bool;
  force_login : bool
}.

(** *** Observable steps *)

Inductive event :=
| EvCtxLogin (slot : PKCS11_SLOT)          (* ctx_login is called *)
| EvPKCS11Login (slot : PKCS11_SLOT) (pin : option (list Z))
| EvMatch (slot : PKCS11_SLOT)             (* match_func on the slot's token *)
| EvMultipleMatching (init_count : nat)    (* "Multiple matching slots (n); will not try to login" *)
| EvCandidate (m : nat) (slot : PKCS11_SLOT). (* "- [m] description: label" *)

(** The engine context, the PIN memory, the slots with a session logged
    in, and the steps so far (latest last). *)
Record world := {
  ctx : ENGINE_CTX;
  heap : list block;
  session : list Z;
  trace : list event
}.

(** How a call ends: it returns a value, or on its way it reads through
    a null pointer, from where on C does not say what the program
    does. *)
Inductive run (A : Type) : Type :=
| Returns (a : A)
| NullRead.

Arguments Returns {A}.
Arguments NullRead {A}.

(** Answers of the user interface to [ctx_get_pin], in the order the
    calls are made. *)
Inductive ui_reply :=
| UI_new_fails                              (* UI_new_method returns null *)
| UI_prompt_fails                           (* UI_construct_prompt returns null *)
| UI_dup_fails                              (* UI_dup_input_string <= 0 *)
| UI_processed (rv : Z) (entered : list Z). (* UI_process: result, text typed *)

Section WithObjects.

(** [MAX_PIN_LENGTH] of [util.h]. *)
Variable MAX_PIN_LENGTH : nat.

(** What a match function returns a pointer to. *)
Variable object : Type.

(** What lies outside the two files: the allocator, the user
    interface, the token layer, the match function handed in by the
    caller, [PKCS11_find_token], and the prelude of
    [ctx_try_load_object] (lines 614-674: parsing the identifier and
    storing a PIN found in it), which works on the context and the PIN
    memory and yields the selector, or nothing when it jumps to
    [cleanup]. *)
Record env := {
  malloc_ok : nat -> bool;     (* by number of allocations made before *)
  junk : nat -> Z;             (* contents of fresh memory *)
  calloc_ok : nat -> bool;     (* 0 matched_slots, 1 init_slots, 2 uninit_slots *)
  ui : ui_reply;
  is_logged_in_rv : PKCS11_SLOT -> Z;
  login_rv : PKCS11_SLOT -> option (list Z) -> Z;
  match_func :
    list Z -> PKCS11_SLOT -> list Z -> option (list Z) -> option object;
  PKCS11_find_token : list PKCS11_SLOT -> option PKCS11_SLOT;
  prelude :
    ENGINE_CTX -> list block -> ENGINE_CTX * list block * option selector
}.

Variable e : env.

Definition set_ctx (c : ENGINE_CTX) (w : world) : world :=
  {| ctx := c; heap := heap w; session := session w; trace := trace w |}.

Definition set_heap (h : list block) (w : world) : world :=
  {| ctx := ctx w; heap := h; session := session w; trace := trace w |}.

Definition emit (ev : event) (w : world) : world :=
  {| ctx := ctx w; heap := heap w; session := session w;
     trace := trace w ++ [ev] |}.

(** [OPENSSL_malloc(n)]: the address, and the heap with the new
    block. *)
Definition OPENSSL_malloc (n : nat) (h : list block)
  : option nat * list block :=
  if malloc_ok e (length h)
  then (Some (length h),
        h ++ [{| bytes := map (junk e) (seq 0 n); live := true |}])
  else (None, h).

Definition update_bytes (f : list Z -> list Z) (p : nat) (h : list block)
  : list block :=
  match h !! p with
  | Some b => <[p:={| bytes := f (bytes b); live := live b |}]> h
  | None => h
  end.

(** The first [n] bytes set to 0. *)
Fixpoint zero (n : nat) (bs : list Z) : list Z :=
  match n, bs with
  | S n', _ :: r => 0 :: zero n' r
  | _, _ => bs
  end.

(** [OPENSSL_cleanse(p, n)] and [memset(p, 0, n)]. *)
Definition OPENSSL_cleanse (p n : nat) (h : list block) : list block :=
  update_bytes (zero n) p h.

Definition memset0 (p n : nat) (h : list block) : list block :=
  update_bytes (zero n) p h.

(** [OPENSSL_free(p)]. *)
Definition OPENSSL_free (p : nat) (h : list block) : list block :=
  match h !! p with
  | Some b => <[p:={| bytes := bytes b; live := false |}]> h
  | None => h
  end.

(** [ctx_destroy_pin(ctx)]. *)
Definition ctx_destroy_pin (w : world) : world :=
  match pin (ctx w) with
  | Some p =>
      let h1 := OPENSSL_cleanse p (pin_length (ctx w)) (heap w) in
      let h2 := OPENSSL_free p h1 in
      set_ctx {| pin := None; pin_length := 0; forced_pin := false;
                 force_login := force_login (ctx w) |}
              (set_heap h2 w)
  | None => w
  end.

(** [ctx->pin = OPENSSL_malloc(MAX_PIN_LENGTH+1)]. *)
Definition alloc_pin (w : world) : world :=
  let '(p, h) := OPENSSL_malloc (MAX_PIN_LENGTH + 1) (heap w) in
  set_ctx {| pin := p; pin_length := pin_length (ctx w);
             forced_pin := forced_pin (ctx w);
             force_login := force_login (ctx w) |}
          (set_heap h w).

Definition set_pin_length (n : nat) (w : world) : world :=
  set_ctx {| pin := pin (ctx w); pin_length := n;
             forced_pin := forced_pin (ctx w);
             force_login := force_login (ctx w) |} w.

(** The user interface stores the text typed, at most
    [MAX_PIN_LENGTH] characters and a terminator, in the result
    buffer it was given. *)
Definition ui_store (entered : list Z) (p : nat) (h : list block)
  : list block :=
  update_bytes
    (fun bs => store bs 0 (firstn MAX_PIN_LENGTH entered ++ [0])) p h.

(** [ctx_get_pin(ctx, token_label, ui_method, callback_data)]: the
    return value and the world. *)
Definition ctx_get_pin (w : world) : Z * world :=
  match ui e with
  | UI_new_fails => (0, w)
  | reply =>
      let w1 := alloc_pin (ctx_destroy_pin w) in
      match pin (ctx w1) with
      | None => (0, w1)
      | Some p =>
          let w2 :=
            set_pin_length MAX_PIN_LENGTH
              (set_heap (memset0 p (MAX_PIN_LENGTH + 1) (heap w1)) w1) in
          match reply with
          | UI_processed rv entered =>
              let w3 := set_heap (ui_store entered p (heap w2)) w2 in
              if negb (rv =? 0) then (0, w3) else (1, w3)
          | _ => (0, w2)
          end
      end
  end.

(** [slot_logged_in(ctx, slot)]. *)
Definition slot_logged_in (w : world) (slot : PKCS11_SLOT) : bool :=
  if negb (is_logged_in_rv e slot =? 0) then false
  else bool_decide (slot_id slot ∈ session w).

(** The C string at [ctx->pin], as [PKCS11_login] reads it. *)
Definition pin_string (w : world) : option (list Z) :=
  match pin (ctx w) with
  | None => None
  | Some p => match heap w !! p with
              | Some b => Some (c_string (bytes b))
              | None => Some []
              end
  end.

(** [PKCS11_login(slot, 0, ctx->pin)]: its return value; a success
    opens the session. *)
Definition PKCS11_login (w : world) (slot : PKCS11_SLOT) : Z * world :=
  let rv := login_rv e slot (pin_string w) in
  let w1 := emit (EvPKCS11Login slot (pin_string w)) w in
  if rv =? 0
  then (rv, {| ctx := ctx w1; heap := heap w1;
               session := slot_id slot :: session w1;
               trace := trace w1 |})
  else (rv, w1).

(** The steps of [ctx_login] after the early return. *)
Definition ctx_login_body (w : world) (slot : PKCS11_SLOT)
    (tok : PKCS11_TOKEN) : Z * world :=
  let finish (w1 : world) : Z * world :=
    let '(rv, w2) := PKCS11_login w1 slot in
    if negb (rv =? 0) then (0, ctx_destroy_pin w2) else (1, w2) in
  if secureLogin tok && negb (forced_pin (ctx w)) then
    finish (ctx_destroy_pin w)
  else match pin (ctx w) with
       | Some _ => finish w
       | None =>
           let w1 := set_pin_length MAX_PIN_LENGTH (alloc_pin w) in
           match pin (ctx w1) with
           | None => (0, w1)
           | Some p =>
               let w2 :=
                 set_heap (memset0 p (MAX_PIN_LENGTH + 1) (heap w1)) w1 in
               let '(got, w3) := ctx_get_pin w2 in
               if got =? 0 then (0, ctx_destroy_pin w3)
               else finish w3
           end
       end.

(** [ctx_login(ctx, slot, tok, ui_method, callback_data)]. *)
Definition ctx_login (w0 : world) (slot : PKCS11_SLOT) (tok : PKCS11_TOKEN)
  : Z * world :=
  let w := emit (EvCtxLogin slot) w0 in
  if negb (force_login (ctx w) || loginRequired tok)
     || slot_logged_in w slot
  then (1, w)
  else ctx_login_body w slot tok.

(** *** Slot matching (the [for] loop over [ctx->slot_list]) *)

(** [!f || !strcmp(f, v)] for a field [f] of the token searched for. *)
Definition field_ok (f : option (list Z)) (v : list Z) : bool :=
  match f with
  | None => true
  | Some str => streq str v
  end.

Definition token_matches (mt : token_filter) (tok : PKCS11_TOKEN) : bool :=
  field_ok (f_label mt) (label tok)
  && field_ok (f_manufacturer mt) (manufacturer tok)
  && field_ok (f_serialnr mt) (serialnr tok)
  && field_ok (f_model mt) (model tok).

(** Whether one round of the loop sets [found_slot]: by slot number,
    or by the token searched for. *)
Definition slot_found (sel : selector) (slot : PKCS11_SLOT) : bool :=
  (negb (slot_nr sel =? -1) && (slot_nr sel =? int32 (slot_id slot)))
  || match match_tok sel, token slot with
     | Some mt, Some tok => token_matches mt tok
     | _, _ => false
     end.

Definition has_token (slot : PKCS11_SLOT) : bool :=
  bool_decide (is_Some (token slot)).

(** One round after the other of the [for] loop over [ctx->slot_list];
    [matched] is the array [matched_slots] filled so far.  Every round
    ends with a diagnostic line whose last argument,
    [slot->token->label[0] ? slot->token->label : "no label"], is
    evaluated whether or not the slot holds a token: on a slot without a
    token the round reads through a null pointer. *)
Fixpoint slot_loop (sel : selector) (slot_list matched : list PKCS11_SLOT)
  : run (list PKCS11_SLOT) :=
  match slot_list with
  | [] => Returns matched
  | slot :: rest =>
      let found_slot := if slot_found sel slot then Some slot else None in
      match token slot with
      | None => NullRead
      | Some _ =>
          slot_loop sel rest
            match found_slot with
            | Some found =>
                if has_token found then matched ++ [found] else matched
            | None => matched
            end
      end
  end.

(** [matched_slots] after the loop and the [matched_count == 0]
    fallback; [None] where the code jumps to [cleanup]. *)
Definition matched_slots (sel : selector) (slot_list : list PKCS11_SLOT)
  : run (option (list PKCS11_SLOT)) :=
  match slot_loop sel slot_list [] with
  | NullRead => NullRead
  | Returns [] =>
      Returns
        (if bool_decide (is_Some (match_tok sel)) then None
         else if negb (slot_nr sel =? -1) then None
         else match PKCS11_find_token e slot_list with
              | Some found_slot =>
                  if has_token found_slot then Some [found_slot] else None
              | None => None
              end)
  | Returns matched => Returns (Some matched)
  end.

(** *** Searching the matched slots *)

(** [object = match_func(ctx, slot->token, obj_id, obj_id_len,
    obj_label)]. *)
Definition call_match (sel : selector) (slot : PKCS11_SLOT) (w : world)
  : option object * world :=
  (match_func e (session w) slot (obj_id sel) (obj_label sel),
   emit (EvMatch slot) w).

(** The single slot chosen for login: log in if the token asks for it
    or login is forced, then search it.  A failed login ends the
    lookup. *)
Definition login_and_match (sel : selector) (slot : PKCS11_SLOT) (w : world)
  : option object * world :=
  match token slot with
  | None => (None, w)
  | Some tok =>
      if loginRequired tok || force_login (ctx w) then
        let '(ok, w1) := ctx_login w slot tok in
        if ok =? 0 then (None, w1) else call_match sel slot w1
      else call_match sel slot w
  end.

(** The warning lines naming the initialized candidates. *)
Fixpoint list_candidates (m : nat) (slots : list PKCS11_SLOT) (w : world)
  : world :=
  match slots with
  | [] => w
  | slot :: rest => list_candidates (S m) rest (emit (EvCandidate (S m) slot) w)
  end.

(** The loop over the uninitialized tokens: the first object found. *)
Fixpoint scan_uninit (sel : selector) (slots : list PKCS11_SLOT) (w : world)
  : option object * world :=
  match slots with
  | [] => (None, w)
  | slot :: rest =>
      match call_match sel slot w with
      | (Some obj, w1) => (Some obj, w1)
      | (None, w1) => scan_uninit sel rest w1
      end
  end.

Definition is_initialized (slot : PKCS11_SLOT) : bool :=
  match token slot with
  | Some tok => initialized tok
  | None => false
  end.

Definition is_uninitialized (slot : PKCS11_SLOT) : bool :=
  match token slot with
  | Some tok => negb (initialized tok)
  | None => false
  end.

(** The branch for [matched_count != 1] of the login pass. *)
Definition multiple_slots (sel : selector) (matched : list PKCS11_SLOT)
    (w : world) : option object * world :=
  if negb (calloc_ok e 1) then (None, w)
  else if negb (calloc_ok e 2) then (None, w)
  else
    let init_slots := List.filter is_initialized matched in
    let uninit_slots := List.filter is_uninitialized matched in
    match init_slots with
    | [slot] => login_and_match sel slot w
    | _ =>
        let w1 :=
          if (1 <? length init_slots)%nat
          then emit (EvMultipleMatching (length init_slots)) w else w in
        scan_uninit sel uninit_slots (list_candidates 0 init_slots w1)
    end.

(** The loop of the pass without login. *)
Fixpoint scan_public (sel : selector) (slots : list PKCS11_SLOT) (w : world)
  : option object * world :=
  match slots with
  | [] => (None, w)
  | slot :: rest =>
      match token slot with
      | None => (None, w)
      | Some _ =>
          match call_match sel slot w with
          | (Some obj, w1) => (Some obj, w1)
          | (None, w1) => scan_public sel rest w1
          end
      end
  end.

(** [ctx_try_load_object(ctx, object_typestr, match_func, object_uri,
    login, ui_method, callback_data)] over the slots [slot_list] of the
    context. *)
Definition ctx_try_load_object (slot_list : list PKCS11_SLOT) (login : bool)
    (w : world) : run (option object * world) :=
  let '(c, h, parsed) := prelude e (ctx w) (heap w) in
  let w1 := set_heap h (set_ctx c w) in
  match parsed with
  | None => Returns (None, w1)
  | Some sel =>
      if negb (calloc_ok e 0) then Returns (None, w1)
      else match matched_slots sel slot_list with
           | NullRead => NullRead
           | Returns None => Returns (None, w1)
           | Returns (Some matched) =>
               Returns
                 (if login then
                    match matched with
                    | [slot] => login_and_match sel slot w1
                    | _ => multiple_slots sel matched w1
                    end
                  else scan_public sel matched w1)
           end
  end.

(** [ctx_load_object(ctx, object_typestr, match_func, object_uri,
    ui_method, callback_data)]. *)
Definition ctx_load_object (slot_list : list PKCS11_SLOT) (w : world)
  : run (option object * world) :=
  let first :=
    if negb (force_login (ctx w))
    then ctx_try_load_object slot_list false w
    else Returns (None, w) in
  match first with
  | NullRead => NullRead
  | Returns (Some obj, w1) => Returns (Some obj, w1)
  | Returns (None, w1) => ctx_try_load_object slot_list true w1
  end.

(** The slots on which [ctx_login] was called, in order. *)
Fixpoint ctx_login_calls (tr : list event) : list PKCS11_SLOT :=
  match tr with
  | [] => []
  | EvCtxLogin slot :: rest => slot :: ctx_login_calls rest
  | _ :: rest => ctx_login_calls rest
  end.

(** The slots handed to [PKCS11_login], in order. *)
Fixpoint token_logins (tr : list event) : list PKCS11_SLOT :=
  match tr with
  | [] => []
  | EvPKCS11Login slot _ :: rest => slot :: token_logins rest
  | _ :: rest => token_logins rest
  end.

End WithObjects.

Arguments malloc_ok {object}.
Arguments junk {object}.
Arguments calloc_ok {object}.
Arguments ui {object}.
Arguments is_logged_in_rv {object}.
Arguments login_rv {object}.
Arguments match_func {object}.
Arguments PKCS11_find_token {object}.
Arguments prelude {object}.
Arguments OPENSSL_malloc {object}.
Arguments alloc_pin _ {object}.
Arguments ctx_get_pin _ {object}.
Arguments slot_logged_in {object}.
Arguments PKCS11_login {object}.
Arguments ctx_login_body _ {object}.
Arguments ctx_login _ {object}.
Arguments matched_slots {object}.
Arguments call_match {object}.
Arguments login_and_match _ {object}.
Arguments scan_uninit {object}.
Arguments multiple_slots _ {object}.
Arguments scan_public {object}.
Arguments ctx_try_load_object _ {object}.
Arguments ctx_load_object _ {object}.

End Lookup.

(** ** Hex dump ([util_uri.c], lines 50-65) *)

Module Hex.

(** The digit [sprintf] prints for a value below 16 with [%X]. *)
Definition hex_digit (v : Z) : Z :=
  if v <? 10 then 48 + v else 65 + (v - 10).

(** What [sprintf(buf, "%02X", val[i])] prints for the [unsigned char]
    [val[i]]: two digits (a terminator follows). *)
Definition sprintf_02X (b : Z) : list Z :=
  let u := b mod 256 in
  [hex_digit (u / 16); hex_digit (u mod 16)].

(** The [for] loop of [dump_hex]: every round prints two digits and a
    terminator at [hexbuf + j]. *)
Fixpoint dump_loop (val : list Z) (j : nat) (hexbuf : list Z) : list Z :=
  match val with
  | [] => hexbuf
  | b :: rest =>
      dump_loop rest (j + 2) (store hexbuf j (sprintf_02X b ++ [0]))
  end.

(** [dump_hex(val, len)] with [len = length val]; [fresh] is the block of
    [2 * len + 1] bytes the allocator returned ([None]: allocation
    failure).  Nothing is stored for [len = 0]. *)
Definition dump_hex (val : list Z) (fresh : option (list Z))
  : option (list Z) :=
  match fresh with
  | None => None
  | Some hexbuf => Some (dump_loop val 0 hexbuf)
  end.

End Hex.
Import Hex.


(** ** Legacy identifiers ([util_uri.c], lines 266-392) *)

Module SlotId.

(** The two character sets of [parse_slot_id_string]. *)
Definition HEXDIGITS : list Z :=
  [48; 49; 50; 51; 52; 53; 54; 55; 56; 57; 48;
   65; 66; 67; 68; 69; 70; 97; 98; 99; 100; 101; 102].

Definition DIGITS : list Z := [48; 49; 50; 51; 52; 53; 54; 55; 56; 57].

Definition lit_id : list Z := [105; 100; 95].                  (* "id_" *)
Definition lit_label : list Z := [108; 97; 98; 101; 108; 95].  (* "label_" *)
Definition lit_slot : list Z := [115; 108; 111; 116; 95].      (* "slot_" *)
Definition ch_minus : Z := 45.
Definition ch_plus : Z := 43.

(** [strspn(s, accept)]: the length of the longest prefix of the string
    made of characters of [accept]. *)
Fixpoint strspn (s accept : list Z) : nat :=
  match s with
  | [] => O
  | c :: r =>
      if c =? 0 then O
      else if existsb (Z.eqb c) accept then S (strspn r accept)
      else O
  end.

(** [strncmp(s, lit, n) == 0] for a literal [lit] of [n] characters. *)
Fixpoint strncmp_0 (s lit : list Z) {struct lit} : bool :=
  match lit with
  | [] => true
  | l :: lr =>
      match s with
      | [] => false
      | c :: r => (c =? l) && strncmp_0 r lr
      end
  end.

(** [sscanf(s, "%d", &n)] of the C library, which the repository calls
    but does not define: white space is skipped, then an optional sign
    and at least one decimal digit are read.  [Some n] is a return value
    of 1 with the number stored; [None] any other return value.  The C
    standard leaves the number stored undefined when the digits do not
    fit an [int]; the value here is the number the digits denote. *)
Definition isspace (c : Z) : bool := (c =? 32) || ((9 <=? c) && (c <=? 13)).

Definition isdigit (c : Z) : bool := (48 <=? c) && (c <=? 57).

Fixpoint skip_space (s : list Z) : list Z :=
  match s with
  | [] => []
  | c :: r => if isspace c then skip_space r else s
  end.

Fixpoint digits_value (s : list Z) (acc : Z) : Z :=
  match s with
  | [] => acc
  | c :: r => if isdigit c then digits_value r (10 * acc + (c - 48)) else acc
  end.

Definition sscanf_d (s : list Z) : option Z :=
  let s1 := skip_space s in
  let '(negative, s2) :=
    if cur s1 =? ch_minus then (true, next s1)
    else if cur s1 =? ch_plus then (false, next s1)
    else (false, s1) in
  if isdigit (cur s2)
  then Some (if negative then - digits_value s2 0 else digits_value s2 0)
  else None.

(** What [parse_slot_id_string] leaves behind: the return value, [*slot],
    the bytes stored through [id] (in order, from [id[0]]), [*id_len]
    and [*label]. *)
Record slot_id_out := SlotIdOut {
  so_ret : Z;
  so_slot : Z;
  so_id : list Z;
  so_id_len : nat;
  so_label : option (list Z)
}.

(** [*slot = n; return hex_to_bin(ctx, s, id, id_len);]. *)
Definition hex_id (n : Z) (s : list Z) (id_len : nat)
    (label : option (list Z)) : slot_id_out :=
  let h := hex_to_bin (Some s) id_len in
  SlotIdOut (hx_ret h) n (hx_out h) (hx_outlen h) label.

(** [*slot = n; *label = OPENSSL_strdup(s); *id_len = 0;
    return *label != NULL;]. *)
Definition dup_label (strdup_ok : bool) (n : Z) (s : list Z) : slot_id_out :=
  if strdup_ok then SlotIdOut 1 n [] 0 (Some (c_string s))
  else SlotIdOut 0 n [] 0 None.

(** [parse_slot_id_string(ctx, slot_id, slot, id, id_len, label)].
    [slot], [id_len] and [label] are the values found behind the three
    pointers on entry, [strdup_ok] whether [OPENSSL_strdup] finds
    memory.  Lengths and indices are natural numbers: strings of 2^31
    characters and more are outside the model. *)
Definition parse_slot_id_string (strdup_ok : bool) (slot_id : list Z)
    (slot : Z) (id_len : nat) (label : option (list Z)) : slot_id_out :=
  let fail := SlotIdOut 0 slot [] id_len label in
  let len := strlen slot_id in
  if (strspn slot_id HEXDIGITS =? len)%nat then
    if (id_len <? (len + 1) / 2)%nat then fail
    else hex_id (-1) slot_id id_len label
  else
    match sscanf_d slot_id with
    | Some n =>
        let i := strspn slot_id DIGITS in
        if negb (at_ slot_id i =? ch_colon) then fail
        else
          let i := S i in
          if at_ slot_id i =? 0 then SlotIdOut 1 n [] 0 label
          else if negb (strspn (skipn i slot_id) HEXDIGITS + i =? len)%nat
          then fail
          else if (id_len <? (len - i + 1) / 2)%nat then fail
          else hex_id n (skipn i slot_id) id_len label
    | None =>
        if strncmp_0 slot_id lit_id then
          if negb (strspn (skipn 3 slot_id) HEXDIGITS + 3 =? len)%nat
          then fail
          else if (id_len <? (len - 3 + 1) / 2)%nat then fail
          else hex_id (-1) (skipn 3 slot_id) id_len label
        else if strncmp_0 slot_id lit_label then
          dup_label strdup_ok (-1) (skipn 6 slot_id)
        else if negb (strncmp_0 slot_id lit_slot) then fail
        else
          match sscanf_d (skipn 5 slot_id) with
          | None => fail
          | Some n =>
              let i := strspn (skipn 5 slot_id) DIGITS in
              if at_ slot_id (i + 5) =? 0 then SlotIdOut 1 n [] 0 label
              else if negb (at_ slot_id (i + 5) =? ch_minus) then fail
              else
                let i := (5 + i + 1)%nat in
                if strncmp_0 (skipn i slot_id) lit_id then
                  if negb (strspn (skipn (i + 3) slot_id) HEXDIGITS + 3 + i
                           =? len)%nat
                  then fail
                  else if (id_len <? (len - i - 3 + 1) / 2)%nat then fail
                  else hex_id n (skipn (i + 3) slot_id) id_len label
                else if strncmp_0 (skipn i slot_id) lit_label then
                  dup_label strdup_ok n (skipn (i + 6) slot_id)
                else fail
          end
    end.

End SlotId.
Import SlotId.


(** ** PKCS#11 URIs ([util_uri.c], lines 504-587) *)

Module Uri.

(** The characters that end an attribute: [";?&"]. *)
Definition delimiters : list Z := [59; 63; 38].

Definition ch_equals : Z := 61.

(** The attribute names, each with its equals sign, and the three
    object types. *)
Definition lit_model : list Z := [109; 111; 100; 101; 108; 61].
Definition lit_manufacturer : list Z :=
  [109; 97; 110; 117; 102; 97; 99; 116; 117; 114; 101; 114; 61].
Definition lit_token : list Z := [116; 111; 107; 101; 110; 61].
Definition lit_serial : list Z := [115; 101; 114; 105; 97; 108; 61].
Definition lit_object : list Z := [111; 98; 106; 101; 99; 116; 61].
Definition lit_id_eq : list Z := [105; 100; 61].
Definition lit_pin_value : list Z :=
  [112; 105; 110; 45; 118; 97; 108; 117; 101; 61].
Definition lit_pin_source : list Z :=
  [112; 105; 110; 45; 115; 111; 117; 114; 99; 101; 61].
Definition lit_type : list Z := [116; 121; 112; 101; 61].
Definition lit_object_type : list Z :=
  [111; 98; 106; 101; 99; 116; 45; 116; 121; 112; 101; 61].
Definition lit_cert : list Z := [99; 101; 114; 116].
Definition lit_public : list Z := [112; 117; 98; 108; 105; 99].
Definition lit_private : list Z := [112; 114; 105; 118; 97; 116; 101].

(** [end = strpbrk(p, ";?&"); if (!end) end = p + strlen(p);]: the
    position of the first delimiter, or of the terminator. *)
Fixpoint attr_end (p : list Z) : list Z :=
  match p with
  | [] => []
  | c :: r =>
      if (c =? 0) || existsb (Z.eqb c) delimiters then p else attr_end r
  end.

(** [strchr(p, '=') + 1].  It is called on a string that starts with
    ["type="] or ["object-type="], so the character is found. *)
Fixpoint after_equals (p : list Z) : list Z :=
  match p with
  | [] => []
  | c :: r =>
      if c =? 0 then []
      else if c =? ch_equals then r
      else after_equals r
  end.

(** The locals of [parse_pkcs11_uri] and what its pointer arguments
    point to, between two rounds of the loop. *)
Record uri_state := UriState {
  u_rv : Z;
  u_end : list Z;
  u_tok : Lookup.token_filter;
  u_newlabel : option (list Z);
  u_id : list Z;
  u_id_len : nat;
  u_id_set : bool;
  u_pin : list Z;
  u_pin_len : nat;
  u_pin_set : bool
}.

Definition set_rv (rv : Z) (st : uri_state) : uri_state :=
  UriState rv (u_end st) (u_tok st) (u_newlabel st)
    (u_id st) (u_id_len st) (u_id_set st)
    (u_pin st) (u_pin_len st) (u_pin_set st).

Definition set_end (e : list Z) (st : uri_state) : uri_state :=
  UriState (u_rv st) e (u_tok st) (u_newlabel st)
    (u_id st) (u_id_len st) (u_id_set st)
    (u_pin st) (u_pin_len st) (u_pin_set st).

Definition set_tok (tok : Lookup.token_filter) (st : uri_state)
  : uri_state :=
  UriState (u_rv st) (u_end st) tok (u_newlabel st)
    (u_id st) (u_id_len st) (u_id_set st)
    (u_pin st) (u_pin_len st) (u_pin_set st).

Definition set_newlabel (l : option (list Z)) (st : uri_state)
  : uri_state :=
  UriState (u_rv st) (u_end st) (u_tok st) l
    (u_id st) (u_id_len st) (u_id_set st)
    (u_pin st) (u_pin_len st) (u_pin_set st).

(** [rv = ...(id, id_len); id_set = 1;]. *)
Definition set_id (rv : Z) (id : list Z) (id_len : nat) (st : uri_state)
  : uri_state :=
  UriState rv (u_end st) (u_tok st) (u_newlabel st)
    id id_len true (u_pin st) (u_pin_len st) (u_pin_set st).

(** [rv = ...(pin, pin_len); pin_set = 1;]. *)
Definition set_pin (rv : Z) (pin : list Z) (pin_len : nat) (st : uri_state)
  : uri_state :=
  UriState rv (u_end st) (u_tok st) (u_newlabel st)
    (u_id st) (u_id_len st) (u_id_set st) pin pin_len true.

(** What [parse_pkcs11_uri] leaves behind: the return value, [*p_tok],
    the [id] buffer and [*id_len], the [pin] buffer and [*pin_len], and
    [*label]. *)
Record uri_out := UriOut {
  uo_ret : Z;
  uo_tok : option Lookup.token_filter;
  uo_id : list Z;
  uo_id_len : nat;
  uo_pin : list Z;
  uo_pin_len : nat;
  uo_label : option (list Z)
}.

Section WithFiles.

(** The allocator ([alloc n] is the fresh memory of an allocation of
    [n] bytes, if there is any: the buffer of [parse_uri_attr];
    [scratch n] the line buffer of [read_from_file]) and the files. *)
Variable alloc : nat -> option (list Z).
Variable scratch : nat -> list Z.
Variable fs : list Z -> option (list Z).

(** [rv = parse_uri_attr(ctx, p, n, &field)]: the return value and the
    field, which a failure leaves as it was. *)
Definition string_attr (p : list Z) (n : nat) (old : option (list Z))
  : Z * option (list Z) :=
  match parse_uri_attr p (Z.of_nat n) (alloc (n + 1)) with
  | Some v => (1, Some v)
  | None => (0, old)
  end.

(** One round of the loop.  [len q] is [end - q] for a position [q]
    inside the attribute. *)
Definition uri_step (st : uri_state) : uri_state :=
  let p := next (u_end st) in
  let e := attr_end p in
  let len (q : list Z) : nat := (length q - length e)%nat in
  let tok := u_tok st in
  let st1 := set_end e st in
  if strncmp_0 p lit_model then
    let q := skipn 6 p in
    let '(rv, v) := string_attr q (len q) (Lookup.f_model tok) in
    set_rv rv
      (set_tok {| Lookup.f_label := Lookup.f_label tok;
                  Lookup.f_manufacturer := Lookup.f_manufacturer tok;
                  Lookup.f_serialnr := Lookup.f_serialnr tok;
                  Lookup.f_model := v |} st1)
  else if strncmp_0 p lit_manufacturer then
    let q := skipn 13 p in
    let '(rv, v) := string_attr q (len q) (Lookup.f_manufacturer tok) in
    set_rv rv
      (set_tok {| Lookup.f_label := Lookup.f_label tok;
                  Lookup.f_manufacturer := v;
                  Lookup.f_serialnr := Lookup.f_serialnr tok;
                  Lookup.f_model := Lookup.f_model tok |} st1)
  else if strncmp_0 p lit_token then
    let q := skipn 6 p in
    let '(rv, v) := string_attr q (len q) (Lookup.f_label tok) in
    set_rv rv
      (set_tok {| Lookup.f_label := v;
                  Lookup.f_manufacturer := Lookup.f_manufacturer tok;
                  Lookup.f_serialnr := Lookup.f_serialnr tok;
                  Lookup.f_model := Lookup.f_model tok |} st1)
  else if strncmp_0 p lit_serial then
    let q := skipn 7 p in
    let '(rv, v) := string_attr q (len q) (Lookup.f_serialnr tok) in
    set_rv rv
      (set_tok {| Lookup.f_label := Lookup.f_label tok;
                  Lookup.f_manufacturer := Lookup.f_manufacturer tok;
                  Lookup.f_serialnr := v;
                  Lookup.f_model := Lookup.f_model tok |} st1)
  else if strncmp_0 p lit_object then
    let q := skipn 7 p in
    let '(rv, v) := string_attr q (len q) (u_newlabel st) in
    set_rv rv (set_newlabel v st1)
  else if strncmp_0 p lit_id_eq then
    let q := skipn 3 p in
    let r := parse_uri_attr_len q (Z.of_nat (len q))
               (u_id st) (u_id_len st) in
    set_id (ao_ret r) (ao_field r) (ao_len r) st1
  else if strncmp_0 p lit_pin_value then
    let q := skipn 10 p in
    if u_pin_set st then set_pin 0 (u_pin st) (u_pin_len st) st1
    else
      let r := parse_uri_attr_len q (Z.of_nat (len q))
                 (u_pin st) (u_pin_len st) in
      set_pin (ao_ret r) (ao_field r) (ao_len r) st1
  else if strncmp_0 p lit_pin_source then
    let q := skipn 11 p in
    if u_pin_set st then set_pin 0 (u_pin st) (u_pin_len st) st1
    else
      let r := parse_pin_source fs q (Z.of_nat (len q))
                 (alloc (len q + 1)) (scratch (u_pin_len st + 1))
                 (u_pin st) (u_pin_len st) in
      set_pin (fo_ret r) (fo_field r) (fo_len r) st1
  else if strncmp_0 p lit_type || strncmp_0 p lit_object_type then
    let q := after_equals p in
    if ((len q =? 4)%nat && strncmp_0 q lit_cert)
       || ((len q =? 6)%nat && strncmp_0 q lit_public)
       || ((len q =? 7)%nat && strncmp_0 q lit_private)
    then st1
    else set_rv 0 st1
  else set_rv 0 st1.

(** [while (rv && end[0] && end[1])].  Every round moves [end] forward
    by one character at least, so a [fuel] above the length of the URI
    never runs out (lemma [uri_loop_fuel]). *)
Fixpoint uri_loop (fuel : nat) (st : uri_state) : option uri_state :=
  match fuel with
  | O => None
  | S f =>
      if negb (u_rv st =? 0) && negb (cur (u_end st) =? 0)
         && negb (at_ (u_end st) 1 =? 0)
      then uri_loop f (uri_step st)
      else Some st
  end.

(** [parse_pkcs11_uri(ctx, uri, p_tok, id, id_len, pin, pin_len,
    label)] for a [uri] that starts with ["pkcs11:"], as its caller makes
    sure.  [tok_ok] says whether the token structure can be allocated;
    [tok0] and [label0] are what [*p_tok] and [*label] hold on entry.
    The last branch is never taken (lemma [uri_loop_fuel]). *)
Definition parse_pkcs11_uri (tok_ok : bool) (uri : list Z)
    (tok0 : option Lookup.token_filter) (id : list Z) (id_len : nat)
    (pin : list Z) (pin_len : nat) (label0 : option (list Z)) : uri_out :=
  if negb tok_ok then UriOut 0 tok0 id id_len pin pin_len label0
  else
    let st0 :=
      UriState 1 (skipn 6 uri)
        {| Lookup.f_label := None; Lookup.f_manufacturer := None;
           Lookup.f_serialnr := None; Lookup.f_model := None |}
        None id id_len false pin pin_len false in
    match uri_loop (S (length uri)) st0 with
    | None => UriOut 0 tok0 id id_len pin pin_len label0
    | Some st =>
        let id_len' := if u_id_set st then u_id_len st else O in
        let pin_len' := if u_pin_set st then u_pin_len st else O in
        if negb (u_rv st =? 0)
        then UriOut (u_rv st) (Some (u_tok st)) (u_id st) id_len'
               (u_pin st) pin_len' (u_newlabel st)
        else UriOut 0 tok0 (u_id st) id_len' (u_pin st) pin_len' label0
    end.

End WithFiles.

End Uri.
Import Uri.


(** ** Predicates used to state the properties *)

Module Props.

(** Entry [i] of the enumeration is [c], and [c] passes the test on id
    and label. *)
Definition cert_match (certs : list PKCS11_CERT) (obj_id : list Z)
    (obj_label : option (list Z)) (i : nat) (c : PKCS11_CERT) : Prop :=
  certs !! i = Some c
  /\ selects (cert_id c) (cert_label c) obj_id obj_label = true.

(** [cs] is at least as good as [ci]: when [ci] has a not-after time,
    [cs] has one that is not earlier, and on equal times [ci] does not
    come after [cs] in the order of [X509_cmp]. *)
Definition not_worse (X509_cmp : X509 -> X509 -> Z) (cs ci : PKCS11_CERT)
  : Prop :=
  forall xi ti,
    x509 ci = Some xi -> notAfter xi = Some ti ->
    exists xs ts,
      x509 cs = Some xs /\ notAfter xs = Some ts
      /\ ti <= ts /\ (ti = ts -> X509_cmp xi xs < 1).

(** What [selected_cert] holds when the loop of [match_cert] has looked
    at the entries below [m]. *)
Definition best_below (X509_cmp : X509 -> X509 -> Z)
    (certs : list PKCS11_CERT) (obj_id : list Z)
    (obj_label : option (list Z)) (m : nat) (selected : option nat) : Prop :=
  match selected with
  | None => forall i c, (i < m)%nat -> ~ cert_match certs obj_id obj_label i c
  | Some s =>
      exists cs,
        cert_match certs obj_id obj_label s cs
        /\ forall i ci,
             (i < m)%nat -> cert_match certs obj_id obj_label i ci ->
             not_worse X509_cmp cs ci
  end.

(** The largest salt a PSS signature with this key and digest has room
    for, in the words of the specification: the key size in bytes minus
    the digest size minus 2, less one when the bit length minus 1 is a
    multiple of 8. *)
Definition max_salt_len (key_bytes key_bits digest_size : Z) : Z :=
  key_bytes - digest_size - 2
  - (if (key_bits - 1) mod 8 =? 0 then 1 else 0).

(** The events a method call added to the trace of the state [s] it
    started in. *)
Definition events_since (s : Pkey.state) (r : Pkey.outcome) : list Pkey.event :=
  skipn (length (Pkey.trace s)) (Pkey.trace (Pkey.st r)).

(** The specification's rule for the sign method, in its words: once
    [C_Sign] has been issued, a failure reported by the token is
    returned as a failure and the original implementation is not
    called. *)
Definition sign_failure_is_final (tok : Pkey.replies)
    (ctx : Pkey.EVP_PKEY_CTX) (sig_null : bool) (siglen tbslen : Z)
    (s : Pkey.state) : Prop :=
  let r := Pkey.pkcs11_pkey_rsa_sign tok ctx sig_null siglen tbslen s in
  In Pkey.EvSign (events_since s r) ->
  Pkey.rv_Sign tok <> 0 ->
  Pkey.ret r <= 0 /\ ~ In Pkey.EvOrigSign (events_since s r).

(** A block of PIN memory is in order when it is either the live buffer
    the context points to, [pin_length + 1] bytes long with a terminator
    in its last byte, or a freed block that held nothing but zeros when
    it was freed. *)
Definition block_ok (c : Lookup.ENGINE_CTX) (p : nat) (b : Lookup.block)
  : Prop :=
  if Lookup.live b
  then Lookup.pin c = Some p
       /\ length (Lookup.bytes b) = S (Lookup.pin_length c)
       /\ Lookup.bytes b !! Lookup.pin_length c = Some 0
  else Forall (fun x => x = 0) (Lookup.bytes b).

(** The PIN memory is in order: every block is, and the buffer the
    context points to is live. *)
Definition mem_ok (c : Lookup.ENGINE_CTX) (h : list Lookup.block) : Prop :=
  (forall p b, h !! p = Some b -> block_ok c p b)
  /\ (forall p, Lookup.pin c = Some p ->
                exists b, h !! p = Some b /\ Lookup.live b = true).

Definition pin_memory_ok (w : Lookup.world) : Prop :=
  mem_ok (Lookup.ctx w) (Lookup.heap w).

(** The warning lines for the initialized candidates, numbered from
    [m + 1]. *)
Fixpoint candidate_lines (m : nat) (slots : list Lookup.PKCS11_SLOT)
  : list Lookup.event :=
  match slots with
  | [] => []
  | slot :: rest =>
      Lookup.EvCandidate (S m) slot :: candidate_lines (S m) rest
  end.

(** The steps a lookup added to the trace of the world [w] it started
    in. *)
Definition steps_since (w w' : Lookup.world) : list Lookup.event :=
  skipn (length (Lookup.trace w)) (Lookup.trace w').

(** The specification's rule for a single matching slot, in its words:
    with login requested and exactly one slot matched, login is
    attempted on that slot. *)
Definition single_match_logs_in (MAX_PIN_LENGTH : nat) {object : Type}
    (e : Lookup.env object) (slot_list : list Lookup.PKCS11_SLOT)
    (w : Lookup.world) : Prop :=
  forall sel slot r,
    snd (Lookup.prelude e (Lookup.ctx w) (Lookup.heap w)) = Some sel ->
    Lookup.matched_slots e sel slot_list = Lookup.Returns (Some [slot]) ->
    Lookup.ctx_try_load_object MAX_PIN_LENGTH e slot_list true w
    = Lookup.Returns r ->
    In slot (Lookup.ctx_login_calls (steps_since w (snd r))).

(** A search of [slots], one after the other, for an object that [find]
    looks up on a slot: [searched] are the slots looked at and [result]
    is what the search ends with.  The search stops behind the first
    slot on which the object is found, and this object is the result;
    when it is found on no slot, every slot was looked at and the result
    is null. *)
Definition searched_in_order {object : Type}
    (find : Lookup.PKCS11_SLOT -> option object)
    (slots searched : list Lookup.PKCS11_SLOT) (result : option object)
  : Prop :=
  match result with
  | None => searched = slots /\ Forall (fun s => find s = None) slots
  | Some obj =>
      exists before slot rest,
        slots = before ++ slot :: rest
        /\ searched = before ++ [slot]
        /\ Forall (fun s => find s = None) before
        /\ find slot = Some obj
  end.

(** The specification's rule for certificates, in its words: with an id
    or a label given, the certificate returned is a matching one whose
    not-after time is latest among the matching certificates. *)
Definition returns_latest_expiry (X509_cmp : X509 -> X509 -> Z)
    (certs : list PKCS11_CERT) (obj_id : list Z)
    (obj_label : option (list Z)) : Prop :=
  exists s cs,
    match_cert X509_cmp true (Some certs) obj_id obj_label = Some s
    /\ cert_match certs obj_id obj_label s cs
    /\ forall i ci xi ti,
         cert_match certs obj_id obj_label i ci ->
         x509 ci = Some xi -> notAfter xi = Some ti ->
         exists xs ts,
           x509 cs = Some xs /\ notAfter xs = Some ts /\ ti <= ts.

End Props.
Import Props.

(** ** Sample data *)

Module Fixtures.

(** Three keys: the first and the last carry the label ["a"]. *)
Definition three_keys : list PKCS11_KEY :=
  let k (l : Z) := {| key_id := [1]; key_label := Some [l];
                      isPrivate := true; needLogin := true |} in
  [k 97; k 98; k 97].

(** Three certificates with the same label: the not-after times are 100,
    200 and 200, the encodings [[1]], [[2]] and [[3]]. *)
Definition three_certs : list PKCS11_CERT :=
  let c (t d : Z) :=
    {| cert_id := [7]; cert_label := Some [97];
       x509 := Some {| notAfter := Some t; der := [d] |} |} in
  [c 100 1; c 200 3; c 200 2].

(** A comparison of certificates for the examples: by the first byte of
    the encoding. *)
Definition cmp_first_byte (x y : X509) : Z :=
  hd 0 (der x) - hd 0 (der y).

Definition sha256 : Pkey.EVP_MD :=
  {| Pkey.md_type := Pkey.NID_sha256; Pkey.md_size := 32 |}.

(** A key on a token: [bits] long, re-authentication not required. *)
Definition token_pkey (bits : Z) : Pkey.EVP_PKEY :=
  {| Pkey.pkey_rsa :=
       Some {| Pkey.rsa_ex_data :=
                 Some {| Pkey.always_authenticate := false |} |};
     Pkey.pkey_size := (bits + 7) / 8;
     Pkey.pkey_bits := bits |}.

(** A PSS signing context over SHA-256 for such a key, with the salt
    length code [saltlen]. *)
Definition pss_ctx (bits saltlen : Z) : Pkey.EVP_PKEY_CTX :=
  {| Pkey.ctx_pkey := Some (token_pkey bits);
     Pkey.ctx_signature_md := Some sha256;
     Pkey.ctx_oaep_md := Some sha256;
     Pkey.ctx_mgf1_md := Some sha256;
     Pkey.ctx_saltlen_rv := 1;
     Pkey.ctx_saltlen := saltlen;
     Pkey.ctx_padding := Pkey.RSA_PKCS1_PSS_PADDING |}.

(** No operation in progress, nothing observed yet. *)
Definition idle : Pkey.state :=
  {| Pkey.sign_initialized := false;
     Pkey.decrypt_initialized := false;
     Pkey.trace := [] |}.

(** A token on which [C_Sign] and [C_Decrypt] fail with
    [CKR_DEVICE_ERROR] while the software implementation succeeds. *)
Definition device_error : Pkey.replies :=
  {| Pkey.rv_SignInit := 0;
     Pkey.rv_DecryptInit := 0;
     Pkey.rv_authenticate := 0;
     Pkey.rv_Sign := 0x30;
     Pkey.size_Sign := 0;
     Pkey.rv_Decrypt := 0x30;
     Pkey.size_Decrypt := 0;
     Pkey.orig_sign := (1, 256);
     Pkey.orig_decrypt := (1, 32) |}.

(** A token that asks for login, without a keypad of its own. *)
Definition demo_token (init : bool) : Lookup.PKCS11_TOKEN :=
  {| Lookup.label := [68]; Lookup.manufacturer := [109];
     Lookup.model := [77]; Lookup.serialnr := [49];
     Lookup.initialized := init; Lookup.loginRequired := true;
     Lookup.secureLogin := false; Lookup.userPinSet := true;
     Lookup.readOnly := false |}.

Definition demo_slot (id : Z) (init : bool) : Lookup.PKCS11_SLOT :=
  {| Lookup.slot_id := id; Lookup.description := [115];
     Lookup.token := Some (demo_token init) |}.

(** Surroundings in which every login is refused ([CKR_PIN_INCORRECT]),
    no object is found, and the prelude yields the selector [sel]. *)
Definition refusing (sel : Lookup.selector) : Lookup.env nat :=
  {| Lookup.malloc_ok := fun _ => true;
     Lookup.junk := fun _ => 0xAA;
     Lookup.calloc_ok := fun _ => true;
     Lookup.ui := Lookup.UI_new_fails;
     Lookup.is_logged_in_rv := fun _ => 0;
     Lookup.login_rv := fun _ _ => 0xA0;
     Lookup.match_func := fun _ _ _ _ => None;
     Lookup.PKCS11_find_token := fun _ => None;
     Lookup.prelude := fun c h => (c, h, Some sel) |}.

(** A context caching the PIN ["1234"] in a buffer of its own. *)
Definition world_with_pin : Lookup.world :=
  {| Lookup.ctx := {| Lookup.pin := Some 0%nat; Lookup.pin_length := 4;
                      Lookup.forced_pin := true;
                      Lookup.force_login := false |};
     Lookup.heap := [{| Lookup.bytes := [49; 50; 51; 52; 0];
                        Lookup.live := true |}];
     Lookup.session := [];
     Lookup.trace := [] |}.

(** A slot whose token does not ask for login. *)
Definition open_slot : Lookup.PKCS11_SLOT :=
  {| Lookup.slot_id := 0; Lookup.description := [111];
     Lookup.token :=
       Some {| Lookup.label := [79]; Lookup.manufacturer := [109];
               Lookup.model := [77]; Lookup.serialnr := [50];
               Lookup.initialized := true; Lookup.loginRequired := false;
               Lookup.secureLogin := false; Lookup.userPinSet := true;
               Lookup.readOnly := false |} |}.

(** The selector of the legacy identifier [slot_0]. *)
Definition slot_0 : Lookup.selector :=
  {| Lookup.match_tok := None; Lookup.slot_nr := 0;
     Lookup.obj_id := []; Lookup.obj_label := None |}.

(** The selector of a URI naming the token label of [demo_token]. *)
Definition by_label : Lookup.selector :=
  {| Lookup.match_tok :=
       Some {| Lookup.f_label := Some [68]; Lookup.f_manufacturer := None;
               Lookup.f_serialnr := None; Lookup.f_model := None |};
     Lookup.slot_nr := -1;
     Lookup.obj_id := []; Lookup.obj_label := None |}.

(** Two initialized tokens and an uninitialized one, all with that
    label. *)
Definition three_slots : list Lookup.PKCS11_SLOT :=
  [demo_slot 0 true; demo_slot 1 true; demo_slot 2 false].

(** A context without a PIN, login not forced. *)
Definition world0 : Lookup.world :=
  {| Lookup.ctx := {| Lookup.pin := None; Lookup.pin_length := 0;
                      Lookup.forced_pin := false;
                      Lookup.force_login := false |};
     Lookup.heap := [];
     Lookup.session := [];
     Lookup.trace := [] |}.

(** Surroundings in which the object (numbered 7) is found on every
    token without login. *)
Definition public_object (sel : Lookup.selector) : Lookup.env nat :=
  {| Lookup.malloc_ok := fun _ => true;
     Lookup.junk := fun _ => 0xAA;
     Lookup.calloc_ok := fun _ => true;
     Lookup.ui := Lookup.UI_new_fails;
     Lookup.is_logged_in_rv := fun _ => 0;
     Lookup.login_rv := fun _ _ => 0;
     Lookup.match_func := fun _ _ _ _ => Some 7%nat;
     Lookup.PKCS11_find_token := fun _ => None;
     Lookup.prelude := fun c h => (c, h, Some sel) |}.

(** Three certificates with the same label: the first expires at 100,
    the not-after time of the second does not parse, the third expires
    at 50; the encodings are [[1]], [[2]] and [[3]]. *)
Definition unreadable_expiry : list PKCS11_CERT :=
  let c (t : ASN1_TIME) (d : Z) :=
    {| cert_id := [7]; cert_label := Some [97];
       x509 := Some {| notAfter := t; der := [d] |} |} in
  [c (Some 100) 1; c None 2; c (Some 50) 3].

(** A slot without a token. *)
Definition empty_slot : Lookup.PKCS11_SLOT :=
  {| Lookup.slot_id := 9; Lookup.description := [101];
     Lookup.token := None |}.

(** The file system of the PIN file test: [/p] holds ["1234"] and a
    newline, and there is no other file. *)
Definition pin_file (path : list Z) : option (list Z) :=
  match path with
  | [47; 112] => Some [49; 50; 51; 52; 10]
  | _ => None
  end.

End Fixtures.
Import Fixtures.

(** ** Renderings used to state round trips *)

Module Render.

(** A byte as the code stores it. *)
Definition is_byte (b : Z) : Prop := 0 <= b < 256.

(** A hex string: each byte as two digits, followed by a colon where the
    flag says so. *)
Definition hex_groups (groups : list (Z * bool)) : list Z :=
  flat_map (fun g : Z * bool =>
              sprintf_02X (fst g) ++ if snd g then [ch_colon] else [])
           groups.

(** A part of an attribute value of a URI: a character standing for
    itself, or a byte written as a percent escape. *)
Inductive uri_item :=
| Lit (c : Z)
| Esc (b : Z).

Definition item_text (i : uri_item) : list Z :=
  match i with
  | Lit c => [c]
  | Esc b => ch_percent :: sprintf_02X b
  end.

Definition item_value (i : uri_item) : Z :=
  match i with
  | Lit c => c
  | Esc b => b
  end.

(** A literal is any character but the percent sign and the terminator;
    an escape holds a byte. *)
Definition item_ok (i : uri_item) : Prop :=
  match i with
  | Lit c => c <> ch_percent /\ c <> 0
  | Esc b => is_byte b
  end.

Definition uri_text (items : list uri_item) : list Z :=
  flat_map item_text items.

(** A hex digit of either case. *)
Definition is_hex (c : Z) : Prop := is_Some (hexval c).

(** Bytes written as two upper-case digits each, with nothing between
    them. *)
Definition hex_text (val : list Z) : list Z := flat_map sprintf_02X val.

Definition is_digit (c : Z) : Prop := 48 <= c <= 57.

(** The number a string of decimal digits denotes. *)
Definition decimal_value (ds : list Z) : Z :=
  fold_left (fun a c => 10 * a + (c - 48)) ds 0.

(** The value of a hex digit of either case. *)
Definition digit_value (c : Z) : Z :=
  if (48 <=? c) && (c <=? 57) then c - 48
  else if (97 <=? c) && (c <=? 102) then c - 87
  else c - 55.

(** The bytes a string of hex digits denotes, read from the left: two
    digits to a byte, the first of them its high half, and a byte of
    its own for a last digit left over. *)
Fixpoint hex_bytes (hex : list Z) : list Z :=
  match hex with
  | a :: b :: rest => (16 * digit_value a + digit_value b) :: hex_bytes rest
  | [a] => [digit_value a]
  | [] => []
  end.

(** [parse_slot_id_string] took the slot [n] and an identifier from the
    hex digits [hex]: the bytes stored are the bytes the digits denote,
    one for every two digits and one for a last digit left over; they
    are the bytes themselves when the digits are bytes written out in
    upper case. *)
Definition accepts_id (hex : list Z) (n : Z) (label : option (list Z))
    (r : slot_id_out) : Prop :=
  so_ret r = 1 /\ so_slot r = n /\ so_label r = label
  /\ so_id r = hex_bytes hex
  /\ so_id_len r = ((length hex + 1) / 2)%nat
  /\ length (so_id r) = so_id_len r
  /\ (forall val, Forall is_byte val -> hex = hex_text val -> so_id r = val).

(** The two characters after a percent sign do not make an escape the
    decoder takes: the first is no hex digit (nor a colon or the
    terminator), or the first is one and the second is neither a hex
    digit nor a colon nor the terminator. *)
Definition bad_escape (a b : Z) : Prop :=
  (hexval a = None /\ a <> 0 /\ a <> ch_colon)
  \/ (is_hex a /\ hexval b = None /\ b <> 0 /\ b <> ch_colon).

End Render.
Import Render.


(** ** URIs written out, and what they say *)

Module UriText.

Inductive str_key := KModel | KManufacturer | KToken | KSerial | KObject.

Inductive obj_kind := Cert | Public | Private.

(** An attribute of a URI: one of the five strings, the object id, the
    PIN given in the URI, or the object type in either spelling. *)
Inductive uri_attr :=
| AStr (k : str_key) (items : list uri_item)
| AId (items : list uri_item)
| APin (items : list uri_item)
| AType (long : bool) (k : obj_kind).

Definition key_text (k : str_key) : list Z :=
  match k with
  | KModel => lit_model
  | KManufacturer => lit_manufacturer
  | KToken => lit_token
  | KSerial => lit_serial
  | KObject => lit_object
  end.

Definition kind_text (k : obj_kind) : list Z :=
  match k with
  | Cert => lit_cert
  | Public => lit_public
  | Private => lit_private
  end.

Definition attr_text (a : uri_attr) : list Z :=
  match a with
  | AStr k items => key_text k ++ uri_text items
  | AId items => lit_id_eq ++ uri_text items
  | APin items => lit_pin_value ++ uri_text items
  | AType long k => (if long then lit_object_type else lit_type) ++ kind_text k
  end.

(** Attributes, each behind the character that separates it from what
    is in front of it. *)
Definition attrs_text (l : list (Z * uri_attr)) : list Z :=
  flat_map (fun da : Z * uri_attr => fst da :: attr_text (snd da)) l.

(** ["pkcs11"]; the colon is the separator of the first attribute. *)
Definition lit_pkcs11 : list Z := [112; 107; 99; 115; 49; 49].

(** A character that does not end an attribute. *)
Definition plain (c : Z) : Prop :=
  ((c =? 0) || existsb (Z.eqb c) delimiters) = false.

(** An attribute value: well-formed items, no literal delimiter. *)
Definition value_ok (items : list uri_item) : Prop :=
  Forall item_ok items
  /\ Forall (fun i => match i with Lit c => plain c | Esc _ => True end) items.

Definition attr_ok (id_cap pin_cap : nat) (a : uri_attr) : Prop :=
  match a with
  | AStr _ items => value_ok items
  | AId items => value_ok items /\ (length items <= id_cap)%nat
  | APin items => value_ok items /\ (length items <= pin_cap)%nat
  | AType _ _ => True
  end.

Definition is_id (a : uri_attr) : bool :=
  match a with AId _ => true | _ => false end.

Definition is_pin (a : uri_attr) : bool :=
  match a with APin _ => true | _ => false end.

Definition key_eqb (k k' : str_key) : bool :=
  match k, k' with
  | KModel, KModel | KManufacturer, KManufacturer | KToken, KToken
  | KSerial, KSerial | KObject, KObject => true
  | _, _ => false
  end.

(** What a list of attributes says: for a string the value of the last
    attribute of that name, cut at a zero byte; for the id and the PIN
    the bytes of the last such attribute. *)
Definition str_step (k : str_key) (acc : option (list Z)) (a : uri_attr)
  : option (list Z) :=
  match a with
  | AStr k' items =>
      if key_eqb k k' then Some (c_string (map item_value items)) else acc
  | _ => acc
  end.

Definition str_of (k : str_key) (attrs : list uri_attr) : option (list Z) :=
  fold_left (str_step k) attrs None.

Definition id_step (acc : option (list Z)) (a : uri_attr)
  : option (list Z) :=
  match a with AId items => Some (map item_value items) | _ => acc end.

Definition id_of (attrs : list uri_attr) : option (list Z) :=
  fold_left id_step attrs None.

Definition pin_step (acc : option (list Z)) (a : uri_attr)
  : option (list Z) :=
  match a with APin items => Some (map item_value items) | _ => acc end.

Definition pin_value_of (attrs : list uri_attr) : option (list Z) :=
  fold_left pin_step attrs None.

(** A buffer and its length hold the value [expected]; with no value,
    the buffer is as it was and the length is [len0]. *)
Definition holds (expected : option (list Z)) (buf0 : list Z) (len0 : nat)
    (buf : list Z) (len : nat) : Prop :=
  match expected with
  | Some v => len = length v /\ firstn len buf = v
  | None => buf = buf0 /\ len = len0
  end.

(** The string a field points to. *)
Definition string_at (field : option (list Z)) : option (list Z) :=
  option_map c_string field.

Definition field_of (k : str_key) (st : uri_state) : option (list Z) :=
  match k with
  | KModel => Lookup.f_model (u_tok st)
  | KManufacturer => Lookup.f_manufacturer (u_tok st)
  | KToken => Lookup.f_label (u_tok st)
  | KSerial => Lookup.f_serialnr (u_tok st)
  | KObject => u_newlabel st
  end.

(** The state of the loop after the attributes [done], all accepted. *)
Definition reads (done : list uri_attr) (id0 : list Z) (id_len0 : nat)
    (pin0 : list Z) (pin_len0 : nat) (st : uri_state) : Prop :=
  u_rv st = 1
  /\ (forall k, string_at (field_of k st) = str_of k done)
  /\ u_id_set st = existsb is_id done
  /\ holds (id_of done) id0 id_len0 (u_id st) (u_id_len st)
  /\ u_pin_set st = existsb is_pin done
  /\ holds (pin_value_of done) pin0 pin_len0 (u_pin st) (u_pin_len st).

(** The allocator finds memory of the size asked for. *)
Definition allocates (alloc : nat -> option (list Z)) : Prop :=
  forall n, exists buf, alloc n = Some buf /\ length buf = n.

(** Where an attribute ends: at a delimiter or at the end of the
    string. *)
Definition stops (tail : list Z) : Prop :=
  ((cur tail =? 0) || existsb (Z.eqb (cur tail)) delimiters) = true.

(** A URI: ["pkcs11"], then the attributes, the first behind the colon
    and the others behind a delimiter. *)
Definition uri_of (attrs : list (Z * uri_attr)) : list Z :=
  lit_pkcs11 ++ attrs_text attrs.

Definition separated (attrs : list (Z * uri_attr)) : Prop :=
  match attrs with
  | [] => True
  | (d, _) :: more =>
      d = ch_colon /\ Forall (fun da => In (fst da) delimiters) more
  end.

(** Well-formed attributes, with at most one id and at most one PIN,
    which fit the buffers. *)
Definition attrs_ok (id_cap pin_cap : nat) (attrs : list uri_attr) : Prop :=
  Forall (attr_ok id_cap pin_cap) attrs
  /\ (length (List.filter is_id attrs) <= 1)%nat
  /\ (length (List.filter is_pin attrs) <= 1)%nat.

(** What may follow the last attribute: the end of the string, or one
    delimiter and then the end. *)
Definition last_stop (rest : list Z) : Prop :=
  stops rest /\ (cur rest = 0 \/ at_ rest 1 = 0).

(** The text of an attribute starts with one of the ten names. *)
Definition known_key (p : list Z) : bool :=
  strncmp_0 p lit_model || strncmp_0 p lit_manufacturer
  || strncmp_0 p lit_token || strncmp_0 p lit_serial
  || strncmp_0 p lit_object || strncmp_0 p lit_id_eq
  || strncmp_0 p lit_pin_value || strncmp_0 p lit_pin_source
  || strncmp_0 p lit_type || strncmp_0 p lit_object_type.

(** An attribute that is not accepted: an unknown name, a second PIN,
    or an object type other than the three. *)
Inductive bad_segment (has_pin : bool) : list Z -> Prop :=
| BadKey (seg : list Z) :
    known_key seg = false -> bad_segment has_pin seg
| BadPinValue (v : list Z) :
    has_pin = true -> bad_segment has_pin (lit_pin_value ++ v)
| BadPinSource (v : list Z) :
    has_pin = true -> bad_segment has_pin (lit_pin_source ++ v)
| BadType (long : bool) (v : list Z) :
    v <> lit_cert -> v <> lit_public -> v <> lit_private ->
    bad_segment has_pin ((if long then lit_object_type else lit_type) ++ v).

End UriText.
Import UriText.


(** ** The context lock *)

Module Locking.

(** The context lock, which is not recursive: it is free or held. *)
Inductive lock :=
| Free
| Held.

(** The lock after one more event.  A request for the lock while it is
    held does not come back in the thread that holds it, and a release
    of a free lock is an error: [None] stands for both, and stays. *)
Definition lock_step (l : option lock) (ev : Pkey.event) : option lock :=
  match l with
  | None => None
  | Some Free =>
      match ev with
      | Pkey.EvWriteLock => Some Held
      | Pkey.EvUnlock => None
      | _ => l
      end
  | Some Held =>
      match ev with
      | Pkey.EvWriteLock => None
      | Pkey.EvUnlock => Some Free
      | _ => l
      end
  end.

(** The lock after the events [tr] (latest last), free at the start. *)
Definition lock_after (tr : list Pkey.event) : option lock :=
  fold_left lock_step tr (Some Free).

(** The lock as the operations left initialized on the token ask for
    it: held when there is one. *)
Definition lock_wanted (s : Pkey.state) : lock :=
  if Pkey.sign_initialized s || Pkey.decrypt_initialized s
  then Held else Free.

(** A token on which everything succeeds; signatures and plaintexts are
    [n] bytes long. *)
Definition ready_token (n : Z) : Pkey.replies :=
  {| Pkey.rv_SignInit := 0;
     Pkey.rv_DecryptInit := 0;
     Pkey.rv_authenticate := 0;
     Pkey.rv_Sign := 0;
     Pkey.size_Sign := n;
     Pkey.rv_Decrypt := 0;
     Pkey.size_Decrypt := n;
     Pkey.orig_sign := (1, n);
     Pkey.orig_decrypt := (1, n) |}.

(** An OAEP decryption context over SHA-256 for a key on a token. *)
Definition oaep_ctx (bits : Z) : Pkey.EVP_PKEY_CTX :=
  {| Pkey.ctx_pkey := Some (token_pkey bits);
     Pkey.ctx_signature_md := Some sha256;
     Pkey.ctx_oaep_md := Some sha256;
     Pkey.ctx_mgf1_md := Some sha256;
     Pkey.ctx_saltlen_rv := 1;
     Pkey.ctx_saltlen := -1;
     Pkey.ctx_padding := Pkey.RSA_PKCS1_OAEP_PADDING |}.

End Locking.
Import Locking.


(** ** Slots a lookup works on *)

Module LookupSteps.

(** The slots on which a login was started or made, or which were
    searched, in the order of the steps. *)
Definition slots_of (evs : list Lookup.event) : list Lookup.PKCS11_SLOT :=
  flat_map (fun ev => match ev with
                      | Lookup.EvCtxLogin slot => [slot]
                      | Lookup.EvPKCS11Login slot _ => [slot]
                      | Lookup.EvMatch slot => [slot]
                      | _ => []
                      end) evs.

(** The slot is one the identifier selects: by its number or by the
    token searched for; or no selection was made at all and it is the
    slot [PKCS11_find_token] proposes. *)
Definition selected {object : Type} (e : Lookup.env object)
    (sel : Lookup.selector) (slot_list : list Lookup.PKCS11_SLOT)
    (slot : Lookup.PKCS11_SLOT) : Prop :=
  (In slot slot_list /\ Lookup.slot_found sel slot = true)
  \/ (Lookup.match_tok sel = None /\ Lookup.slot_nr sel = -1
      /\ Lookup.PKCS11_find_token e slot_list = Some slot).

(** Surroundings in which the user types [entered] when asked for the
    PIN, memory is always found and the token accepts every login. *)
Definition typing (entered : list Z) : Lookup.env nat :=
  {| Lookup.malloc_ok := fun _ => true;
     Lookup.junk := fun _ => 0xAA;
     Lookup.calloc_ok := fun _ => true;
     Lookup.ui := Lookup.UI_processed 0 entered;
     Lookup.is_logged_in_rv := fun _ => 0;
     Lookup.login_rv := fun _ _ => 0;
     Lookup.match_func := fun _ _ _ _ => None;
     Lookup.PKCS11_find_token := fun _ => None;
     Lookup.prelude := fun c h => (c, h, None) |}.

End LookupSteps.
Import LookupSteps.


(** * Properties *)

(** ** The hex decoder *)

Section HexToBin.

Lemma cur_nonzero_cons (s : list Z) :
  cur s <> 0 -> exists c r, s = c :: r /\ c <> 0.
Proof.
  destruct s as [|c r]; simpl; intros H; [congruence|].
  exists c, r. split; [reflexivity|exact H].
Qed.

(** The inner loop only moves forward. *)
Lemma nybble_loop_length (n : nat) : forall s b b' s1,
  nybble_loop n s b = Some (b', s1) -> (length s1 <= length s)%nat.
Proof.
  induction n as [|n IH]; simpl; intros s b b' s1 H.
  - injection H as _ <-. lia.
  - destruct ((cur s =? 0) || (cur s =? ch_colon)).
    + injection H as _ <-. lia.
    + destruct (hexval (cur s)); [|discriminate].
      apply IH in H. destruct s; simpl in *; lia.
Qed.

(** One round of the outer loop consumes at least one character. *)
Lemma round_shorter (s s1 : list Z) (byte : Z) :
  cur s <> 0 ->
  nybble_loop 2 s 0 = Some (byte, s1) ->
  (length (if (cur s1 =? ch_colon)%Z then next s1 else s1) < length s)%nat.
Proof.
  intros Hs H.
  destruct (cur_nonzero_cons s Hs) as (c & r & -> & Hc).
  apply Z.eqb_neq in Hc.
  cbn [nybble_loop cur hd next tl] in H. rewrite Hc in H.
  cbn [orb] in H.
  destruct (c =? ch_colon) eqn:Ec.
  - injection H as _ <-. cbn [cur hd next tl]. rewrite Ec. simpl. lia.
  - destruct (hexval c); [|discriminate].
    destruct ((cur r =? 0) || (cur r =? ch_colon)).
    + injection H as _ <-.
      destruct (cur r =? ch_colon); destruct r; simpl; lia.
    + destruct (hexval (cur r)); [|discriminate].
      injection H as _ <-.
      destruct (cur (next r) =? ch_colon);
        destruct r as [|? [|? ?]]; simpl; lia.
Qed.

(** The fuel handed over by [hex_to_bin] is enough: the loop always
    comes to an end. *)
Lemma hex_loop_fuel (fuel : nat) : forall s left out,
  (length s < fuel)%nat -> exists r, hex_loop fuel s left out = Some r.
Proof.
  induction fuel as [|f IH]; intros s left out Hf; [lia|].
  cbn [hex_loop]. destruct (cur s =? 0) eqn:E0; [eauto|].
  destruct (nybble_loop 2 s 0) as [[byte s1]|] eqn:En; [|eauto].
  destruct left as [|l]; [eauto|].
  apply IH. apply Z.eqb_neq in E0.
  pose proof (round_shorter s s1 byte E0 En). lia.
Qed.

(** A failure always reports length 0, a success the number of bytes
    stored, which fits the capacity. *)
Lemma hex_loop_result (fuel : nat) : forall s left out r,
  hex_loop fuel s left out = Some r ->
  (hx_ret r = 0 /\ hx_outlen r = 0%nat)
  \/ (hx_ret r = 1 /\ hx_outlen r = length (hx_out r)
      /\ (length (hx_out r) <= length out + left)%nat).
Proof.
  induction fuel as [|f IH]; intros s left out r H; [discriminate|].
  cbn [hex_loop] in H. destruct (cur s =? 0).
  - injection H as <-. right. simpl. repeat split; lia.
  - destruct (nybble_loop 2 s 0) as [[byte s1]|].
    + destruct left as [|l].
      * injection H as <-. left. auto.
      * apply IH in H. rewrite length_app in H. simpl in H.
        destruct H as [H|(H1 & H2 & H3)]; [left; exact H|right].
        repeat split; try assumption. lia.
    + injection H as <-. left. auto.
Qed.

(** A character that is neither a hex digit nor a colon is never
    skipped by the inner loop... *)
Lemma nybble_loop_keeps (n : nat) : forall s b b' s1 c,
  nybble_loop n s b = Some (b', s1) ->
  In c (c_string s) -> hexval c = None -> In c (c_string s1).
Proof.
  induction n as [|n IH]; simpl; intros s b b' s1 c H Hin Hc.
  - injection H as _ <-. exact Hin.
  - destruct ((cur s =? 0) || (cur s =? ch_colon)).
    + injection H as _ <-. exact Hin.
    + destruct (hexval (cur s)) eqn:Ev; [|discriminate].
      destruct s as [|c0 r]; [contradiction|].
      unfold cur in Ev. simpl in Ev, H, Hin.
      destruct (c0 =? 0); [contradiction|].
      destruct Hin as [->|Hin]; [congruence|].
      eapply IH; eauto.
Qed.

(** ... nor by the colon test after it. *)
Lemma colon_skip_keeps (s1 : list Z) (c : Z) :
  In c (c_string s1) -> c <> ch_colon ->
  In c (c_string (if cur s1 =? ch_colon then next s1 else s1)).
Proof.
  intros Hin Hc. destruct (cur s1 =? ch_colon) eqn:E; [|exact Hin].
  destruct s1 as [|c1 r]; [contradiction|].
  unfold cur in E. simpl in E. apply Z.eqb_eq in E. subst c1.
  simpl in Hin. destruct Hin as [E'|Hin]; [|exact Hin].
  exfalso. apply Hc. symmetry. exact E'.
Qed.

Lemma c_string_nonempty_cur (s : list Z) (c : Z) :
  In c (c_string s) -> cur s <> 0.
Proof.
  destruct s as [|c0 r]; simpl; [contradiction|].
  destruct (c0 =? 0) eqn:E; [contradiction|].
  intros _. apply Z.eqb_neq in E. exact E.
Qed.

Lemma hex_loop_invalid (fuel : nat) : forall s left out r c,
  hex_loop fuel s left out = Some r ->
  In c (c_string s) -> hexval c = None -> c <> ch_colon ->
  hx_ret r = 0 /\ hx_outlen r = 0%nat.
Proof.
  induction fuel as [|f IH]; intros s left out r c H Hin Hv Hc;
    [discriminate|].
  cbn [hex_loop] in H.
  pose proof (c_string_nonempty_cur s c Hin) as Hs.
  apply Z.eqb_neq in Hs. rewrite Hs in H.
  destruct (nybble_loop 2 s 0) as [[byte s1]|] eqn:En.
  - destruct left as [|l]; [injection H as <-; auto|].
    eapply IH; eauto.
    apply colon_skip_keeps; [|assumption].
    eapply nybble_loop_keeps; eauto.
  - injection H as <-. auto.
Qed.

(** With less room than the bytes the string decodes to, the loop ends
    in the "too long" branch. *)
Lemma hex_loop_overlong (fuel : nat) : forall s left out r left',
  hex_loop fuel s left out = Some r -> hx_ret r = 1 ->
  (length out + left' < hx_outlen r)%nat ->
  exists r', hex_loop fuel s left' out = Some r'
             /\ hx_ret r' = 0 /\ hx_outlen r' = 0%nat.
Proof.
  induction fuel as [|f IH]; intros s left out r left' H Hr Hlt;
    [discriminate|].
  cbn [hex_loop] in H |- *. destruct (cur s =? 0).
  - injection H as <-. simpl in Hlt. lia.
  - destruct (nybble_loop 2 s 0) as [[byte s1]|].
    + destruct left as [|l]; [injection H as <-; discriminate|].
      destruct left' as [|l']; [eexists; eauto|].
      eapply IH; eauto. rewrite length_app. simpl. lia.
    + injection H as <-. discriminate.
Qed.

End HexToBin.

(** C9.  [hex_to_bin] on a null or empty string returns 1 with length 0;
    on a string holding a character that is neither a hex digit nor a
    colon it returns 0 and sets the length to 0; and it does the same
    when the string decodes to more bytes than the capacity allows. *)
Theorem hex_to_bin_empty_invalid_overlong :
  (forall cap,
      hex_to_bin None cap = HexOut 1 [] 0
      /\ hex_to_bin (Some []) cap = HexOut 1 [] 0)
  /\ (forall s cap c,
        In c (c_string s) -> hexval c = None -> c <> ch_colon ->
        hx_ret (hex_to_bin (Some s) cap) = 0
        /\ hx_outlen (hex_to_bin (Some s) cap) = 0%nat)
  /\ (forall s cap cap',
        hx_ret (hex_to_bin (Some s) cap) = 1 ->
        (cap' < hx_outlen (hex_to_bin (Some s) cap))%nat ->
        hx_ret (hex_to_bin (Some s) cap') = 0
        /\ hx_outlen (hex_to_bin (Some s) cap') = 0%nat).
Proof.
  split; [|split].
  - intros cap. split; reflexivity.
  - intros s cap c Hin Hv Hc. unfold hex_to_bin.
    pose proof (c_string_nonempty_cur s c Hin) as Hs.
    apply Z.eqb_neq in Hs. rewrite Hs.
    destruct (hex_loop_fuel (S (length s)) s cap []) as [r Hr]; [lia|].
    rewrite Hr. eapply hex_loop_invalid; eauto.
  - intros s cap cap'. unfold hex_to_bin.
    destruct (cur s =? 0); [simpl; lia|].
    destruct (hex_loop_fuel (S (length s)) s cap []) as [r Hr]; [lia|].
    rewrite Hr. intros H1 Hlt.
    destruct (hex_loop_overlong _ _ _ _ _ cap' Hr H1) as (r' & Hr' & H0 & Hl);
      [simpl; lia|].
    rewrite Hr'. auto.
Qed.

(** ["zz"] is rejected, and ["0102:03"] does not fit two bytes. *)
Lemma hex_to_bin_empty_invalid_overlong_witness :
  (hx_ret (hex_to_bin (Some [122; 122]) 4) = 0
   /\ hx_outlen (hex_to_bin (Some [122; 122]) 4) = 0%nat)
  /\ (hx_ret (hex_to_bin (Some [48; 49; 48; 50; 58; 48; 51]) 2) = 0
      /\ hx_outlen (hex_to_bin (Some [48; 49; 48; 50; 58; 48; 51]) 2) = 0%nat).
Proof.
  destruct hex_to_bin_empty_invalid_overlong as (_ & Hinv & Hlong).
  split.
  - apply (Hinv [122; 122] 4%nat 122).
    + simpl. left. reflexivity.
    + reflexivity.
    + discriminate.
  - apply (Hlong [48; 49; 48; 50; 58; 48; 51] 3%nat 2%nat).
    + reflexivity.
    + vm_compute. lia.
Defined.

(** ** The percent decoder *)

Section PercentDecoder.

(** The loop is left with an error, with the input used up, or with
    the output full. *)
Lemma attr_loop_exit (room : nat) : forall attr attrlen field outlen,
  let st := attr_loop room attr attrlen field outlen in
  as_ret st = 0
  \/ (as_ret st = 1
      /\ (as_attrlen st = 0 \/ as_outlen st = (outlen + room)%nat)
      /\ (as_outlen st <= outlen + room)%nat).
Proof.
  induction room as [|r IH]; intros attr attrlen field outlen;
    cbn [attr_loop].
  - right. cbn. repeat split; [right|]; lia.
  - destruct (attrlen =? 0) eqn:E0.
    + right. cbn. apply Z.eqb_eq in E0. repeat split; [left|]; lia.
    + destruct (cur attr =? ch_percent).
      * destruct (attrlen <? 3); [left; reflexivity|].
        destruct (hx_ret _ =? 0); [left; reflexivity|].
        specialize (IH (skipn 3 attr) (attrlen - 3)
          (store field outlen
             (hx_out (hex_to_bin (Some [at_ attr 1; at_ attr 2]) 1)))
          (S outlen)).
        cbn zeta in IH.
        destruct IH as [IH|(H1 & H2 & H3)]; [left; exact IH|right].
        repeat split; [exact H1| |lia].
        destruct H2; [left; assumption|right; lia].
      * specialize (IH (next attr) (attrlen - 1)
          (<[outlen:=cur attr]> field) (S outlen)).
        cbn zeta in IH.
        destruct IH as [IH|(H1 & H2 & H3)]; [left; exact IH|right].
        repeat split; [exact H1| |lia].
        destruct H2; [left; assumption|right; lia].
Qed.

(** No silent truncation: a success means that the loop used up all
    the input, and the length reported is within the capacity. *)
Lemma parse_uri_attr_len_no_truncation
    (attr : list Z) (attrlen : Z) (field : list Z) (field_len : nat) :
  ao_ret (parse_uri_attr_len attr attrlen field field_len) <> 0 ->
  as_attrlen (attr_loop field_len attr attrlen field 0) = 0
  /\ (ao_len (parse_uri_attr_len attr attrlen field field_len)
      <= field_len)%nat.
Proof.
  unfold parse_uri_attr_len. cbn zeta.
  pose proof (attr_loop_exit field_len attr attrlen field 0) as H.
  cbn zeta in H.
  set (st := attr_loop field_len attr attrlen field 0) in *.
  cbn [ao_ret ao_len].
  destruct (as_attrlen st =? 0) eqn:E0; cbn [negb andb].
  - apply Z.eqb_eq in E0. intros Hr.
    destruct (as_ret st =? 0) eqn:Er.
    + apply Z.eqb_eq in Er. congruence.
    + split; [exact E0|]. destruct H as [H|(_ & _ & H)]; lia.
  - destruct (Nat.eqb (as_outlen st) field_len) eqn:Ef.
    + intros Hr. congruence.
    + intros Hr. apply Z.eqb_neq in E0. apply Nat.eqb_neq in Ef.
      destruct H as [H|(_ & [H|H] & _)]; [congruence|congruence|].
      simpl in H. congruence.
Qed.

End PercentDecoder.

(** C8.  The escape percent-A-colon is accepted, although a colon is not
    a hex digit: [parse_uri_attr_len] returns 1, reports one byte, and
    that byte is 10.  The escape goes to [hex_to_bin], which takes a
    colon for a separator between bytes. *)
Theorem percent_escape_with_colon_accepted :
  hexval ch_colon = None
  /\ ao_ret (parse_uri_attr_len [ch_percent; 65; ch_colon] 3 [0; 0; 0; 0] 4) = 1
  /\ ao_len (parse_uri_attr_len [ch_percent; 65; ch_colon] 3 [0; 0; 0; 0] 4)
     = 1%nat
  /\ ao_field (parse_uri_attr_len [ch_percent; 65; ch_colon] 3 [0; 0; 0; 0] 4)
     = [10; 0; 0; 0].
Proof. repeat split. Qed.

(** ** The PIN source *)

Section PinFile.

Lemma store_spec (bs : list Z) : forall (buf : list Z) (pos : nat),
  (pos + length bs <= length buf)%nat ->
  store buf pos bs = firstn pos buf ++ bs ++ skipn (pos + length bs) buf.
Proof.
  induction bs as [|b r IH]; intros buf pos Hlen; cbn [store].
  - rewrite Nat.add_0_r. cbn. symmetry. apply firstn_skipn.
  - cbn [length] in Hlen. rewrite IH by (rewrite length_insert; lia).
    rewrite (take_S_r _ pos b) by (apply list_lookup_insert_eq; lia).
    rewrite take_insert_ge by lia.
    rewrite drop_insert_lt by lia.
    rewrite <- app_assoc. cbn [length app].
    replace (S pos + length r)%nat with (pos + S (length r))%nat by lia.
    reflexivity.
Qed.

(** A string ends at its first terminator. *)
Lemma c_string_app_zero (l r : list Z) :
  c_string (l ++ 0 :: r) = c_string l.
Proof.
  induction l as [|c l IH]; cbn; [reflexivity|].
  destruct (c =? 0); [reflexivity|]. f_equal. exact IH.
Qed.

Lemma c_string_prefix (l : list Z) :
  firstn (length (c_string l)) l = c_string l.
Proof.
  induction l as [|c l IH]; cbn; [reflexivity|].
  destruct (c =? 0); cbn; [reflexivity|]. f_equal. exact IH.
Qed.

Lemma c_string_length (l : list Z) : (length (c_string l) <= length l)%nat.
Proof.
  induction l as [|c l IH]; cbn; [lia|].
  destruct (c =? 0); cbn; lia.
Qed.

Lemma line_upto_length (n : nat) : forall content,
  (length (line_upto n content) <= n)%nat.
Proof.
  induction n as [|n IH]; intros [|c r]; cbn; try lia.
  destruct (c =? ch_newline); cbn; [lia|].
  specialize (IH r). lia.
Qed.

(** What [read_from_file] hands back for a file that can be opened:
    the characters of the first line in front of a terminator, newline
    included, as far as the capacity goes. *)
Lemma read_from_file_pin (content txt0 field : list Z) (field_len : nat) :
  length txt0 = (field_len + 1)%nat ->
  (field_len <= length field)%nat ->
  fo_ret (read_from_file (Some content) txt0 field field_len) = 1
  /\ pin_of (read_from_file (Some content) txt0 field field_len)
     = c_string (line_upto field_len content).
Proof.
  intros Htxt Hfield. unfold read_from_file, BIO_gets.
  replace (pred (field_len + 1)) with field_len by lia.
  pose proof (line_upto_length field_len content) as Hline.
  set (line := line_upto field_len content) in *.
  assert (Hst : store txt0 0 (line ++ [0])
                = line ++ 0 :: skipn (length line + 1) txt0).
  { rewrite store_spec by (rewrite length_app; cbn; lia).
    cbn [firstn app]. rewrite <- app_assoc, length_app. reflexivity. }
  rewrite Hst. unfold strlen. rewrite c_string_app_zero.
  pose proof (c_string_length line) as Hc.
  destruct (0 <? Z.of_nat (length (c_string line))) eqn:En;
    unfold pin_of; cbn [fo_ret fo_field fo_len]; split; try reflexivity.
  - unfold memcpy. rewrite firstn_app.
    rewrite length_take.
    replace (length (c_string line)
             - Nat.min field_len
                 (length (line ++ 0%Z :: skipn (length line + 1) txt0)))%nat
      with 0%nat by (rewrite length_app; cbn; lia).
    cbn [firstn]. rewrite app_nil_r, take_take.
    rewrite Nat.min_l by lia.
    rewrite take_app_le by lia. apply c_string_prefix.
  - apply Z.ltb_ge in En.
    destruct (c_string line); [reflexivity|cbn in En; lia].
Qed.

End PinFile.

Section PinSourceLine.

Lemma line_upto_newline (l rest : list Z) : forall n,
  (length l < n)%nat -> ~ In ch_newline l ->
  line_upto n (l ++ ch_newline :: rest) = l ++ [ch_newline].
Proof.
  induction l as [|c l IH]; intros n Hn Hnl.
  - destruct n; [cbn in Hn; lia|]. reflexivity.
  - destruct n; [cbn in Hn; lia|]. cbn [app line_upto].
    destruct (c =? ch_newline) eqn:E.
    + apply Z.eqb_eq in E. exfalso. apply Hnl. left. cbn. congruence.
    + f_equal. apply IH; [cbn in Hn; lia|].
      intros Hin. apply Hnl. right. exact Hin.
Qed.

Lemma c_string_no_zero (l : list Z) : ~ In 0 l -> c_string l = l.
Proof.
  induction l as [|c l IH]; intros H0; cbn; [reflexivity|].
  destruct (c =? 0) eqn:E.
  - apply Z.eqb_eq in E. exfalso. apply H0. left. congruence.
  - f_equal. apply IH. intros Hin. apply H0. right. exact Hin.
Qed.

End PinSourceLine.

(** What the code makes of a PIN file named by pin-source, with or
    without the file: prefix: the first line of the file as [BIO_gets]
    delivers it, cut at the capacity of the PIN buffer and at a
    terminator.  The newline that ends the line is not taken off: for a
    file starting with a line [l] that fits, the PIN is [l] followed by
    the newline. *)
Theorem pin_source_first_line_with_newline
    (fs : list Z -> option (list Z)) (attr : list Z) (attrlen : Z)
    (fresh : option (list Z)) (txt0 field : list Z) (field_len : nat)
    (val content : list Z) :
  parse_uri_attr attr attrlen fresh = Some val ->
  (if has_file_prefix val
   then fs (c_string (skipn 5 val)) = Some content
   else cur val <> ch_bar /\ fs (c_string val) = Some content) ->
  length txt0 = (field_len + 1)%nat ->
  (field_len <= length field)%nat ->
  let r := parse_pin_source fs attr attrlen fresh txt0 field field_len in
  fo_ret r = 1
  /\ pin_of r = c_string (line_upto field_len content)
  /\ (forall l rest,
        content = l ++ ch_newline :: rest ->
        ~ In ch_newline l -> ~ In 0 l -> (length l < field_len)%nat ->
        pin_of r = l ++ [ch_newline]).
Proof.
  intros Hval Hfile Htxt Hfield. cbn zeta.
  assert (Hr : parse_pin_source fs attr attrlen fresh txt0 field field_len
               = read_from_file (Some content) txt0 field field_len).
  { unfold parse_pin_source. rewrite Hval.
    destruct (has_file_prefix val).
    - rewrite Hfile. reflexivity.
    - destruct Hfile as [Hbar Hfs]. apply Z.eqb_neq in Hbar.
      rewrite Hbar, Hfs. reflexivity. }
  rewrite Hr.
  destruct (read_from_file_pin content txt0 field field_len Htxt Hfield)
    as [H1 H2].
  split; [exact H1|]. split; [exact H2|].
  intros l rest -> Hnl H0 Hlen. rewrite H2.
  rewrite line_upto_newline by assumption.
  apply c_string_no_zero. intros Hin. apply in_app_or in Hin.
  destruct Hin as [Hin|[Hin|[]]]; [exact (H0 Hin)|discriminate Hin].
Qed.

(** The file named by [file:/p] holds ["1234"], a newline, and a second
    line; the PIN is ["1234"] with the newline. *)
Lemma pin_source_first_line_with_newline_witness :
  pin_of (parse_pin_source (fun _ => Some [49; 50; 51; 52; 10; 53; 54; 10])
            [102; 105; 108; 101; 58; 47; 112] 7
            (Some (repeat 0 8)) (repeat 0 9) (repeat 0 8) 8)
  = [49; 50; 51; 52; 10].
Proof.
  refine (proj2 (proj2
    (pin_source_first_line_with_newline
       (fun _ => Some [49; 50; 51; 52; 10; 53; 54; 10])
       [102; 105; 108; 101; 58; 47; 112] 7
       (Some (repeat 0 8)) (repeat 0 9) (repeat 0 8) 8
       [102; 105; 108; 101; 58; 47; 112; 0]
       [49; 50; 51; 52; 10; 53; 54; 10] _ _ _ _))
    [49; 50; 51; 52] [53; 54; 10] _ _ _ _).
  - reflexivity.
  - reflexivity.
  - reflexivity.
  - cbn. lia.
  - reflexivity.
  - cbn. intros [H|[H|[H|[H|[]]]]]; discriminate H.
  - cbn. intros [H|[H|[H|[H|[]]]]]; discriminate H.
  - cbn. lia.
Defined.

(** C7.  The code does not do what the claim says.  The PIN file of the
    repository's test holds ["1234"] and a newline, and the test expects
    the key to load with that file named by pin-source, with and without
    the file: prefix.  [parse_pin_source] returns 1 and hands back five
    characters, the newline among them, where the claim has the four
    characters of the line. *)
Theorem pin_file_newline_kept :
  let plain :=
    parse_pin_source pin_file [47; 112] 2
      (Some (repeat 0 3)) (repeat 0 33) (repeat 0 32) 32 in
  let prefixed :=
    parse_pin_source pin_file [102; 105; 108; 101; 58; 47; 112] 7
      (Some (repeat 0 8)) (repeat 0 33) (repeat 0 32) 32 in
  fo_ret plain = 1 /\ pin_of plain = [49; 50; 51; 52; 10]
  /\ fo_ret prefixed = 1 /\ pin_of prefixed = [49; 50; 51; 52; 10]
  /\ spec_first_line_stripped [49; 50; 51; 52; 10] = [49; 50; 51; 52].
Proof. vm_compute. repeat split. Qed.

(** ** Key selection *)

Section KeySelection.

Variables (obj_id : list Z) (obj_label : option (list Z)).

#[local] Abbreviation sel k :=
  (selects (key_id k) (key_label k) obj_id obj_label).

(** The loop returns the highest index that passes the test, or what
    it started with when no entry passes. *)
Lemma key_loop_last (keys : list PKCS11_KEY) : forall m selected,
  (exists i k,
      keys !! i = Some k /\ sel k = true
      /\ (forall j k', (i < j)%nat -> keys !! j = Some k' -> sel k' = false)
      /\ key_loop keys m obj_id obj_label selected = Some (m + i)%nat)
  \/ ((forall j k', keys !! j = Some k' -> sel k' = false)
      /\ key_loop keys m obj_id obj_label selected = selected).
Proof.
  induction keys as [|k rest IH]; intros m selected; cbn [key_loop].
  - right. split; [|reflexivity]. intros j k' H. discriminate H.
  - destruct (IH (S m)
      (if selects (key_id k) (key_label k) obj_id obj_label
       then Some m else selected))
      as [(i & k0 & Hi & Hs & Hlast & Hres)|[Hnone Hres]].
    + left. exists (S i), k0. repeat split; try assumption.
      * intros [|j] k' Hj Hk; [lia|]. apply (Hlast j); [lia|exact Hk].
      * rewrite Hres. f_equal. lia.
    + destruct (sel k) eqn:Ek.
      * left. exists 0%nat, k. repeat split; try assumption.
        -- intros [|j] k' Hj Hk; [lia|]. apply (Hnone j). exact Hk.
        -- rewrite Hres. f_equal. lia.
      * right. split.
        -- intros [|j] k' Hk; [|apply (Hnone j); exact Hk].
           cbn in Hk. injection Hk as <-. exact Ek.
        -- rewrite Hres. reflexivity.
Qed.

End KeySelection.

(** C4.  With an id or a label given, [match_key] returns the last
    entry of the enumeration that matches (every later entry fails the
    test), and nothing when no entry matches; with neither given it
    returns the first entry of a non-empty enumeration. *)
Theorem match_key_last_match
    (keys : list PKCS11_KEY) (obj_id : list Z) (obj_label : option (list Z)) :
  (obj_id <> [] \/ obj_label <> None ->
   match match_key keys obj_id obj_label with
   | Some m =>
       exists k,
         keys !! m = Some k
         /\ selects (key_id k) (key_label k) obj_id obj_label = true
         /\ forall j k',
              (m < j)%nat -> keys !! j = Some k' ->
              selects (key_id k') (key_label k') obj_id obj_label = false
   | None =>
       forall j k',
         keys !! j = Some k' ->
         selects (key_id k') (key_label k') obj_id obj_label = false
   end)
  /\ (obj_id = [] -> obj_label = None -> keys <> [] ->
      match_key keys obj_id obj_label = Some 0%nat).
Proof.
  split.
  - intros Hgiven.
    assert (Hcond : negb (Nat.eqb (length obj_id) 0)
                    || bool_decide (is_Some obj_label) = true).
    { destruct Hgiven as [H|H].
      - destruct obj_id; [congruence|reflexivity].
      - destruct obj_label; [|congruence].
        rewrite bool_decide_eq_true_2 by eauto. apply orb_true_r. }
    unfold match_key. destruct keys as [|k0 rest] eqn:Ek.
    + intros j k' H. discriminate H.
    + rewrite Hcond.
      destruct (key_loop_last obj_id obj_label (k0 :: rest) 0 None)
        as [(i & k & Hi & Hs & Hlast & Hres)|[Hnone Hres]];
        rewrite Hres.
      * exists k. cbn [Nat.add]. repeat split; assumption.
      * exact Hnone.
  - intros -> -> Hne. unfold match_key.
    destruct keys; [congruence|reflexivity].
Qed.

(** For [three_keys] and the label of the first and the last, the key
    returned has no match after it; without id and label the first key
    is returned. *)
Lemma match_key_last_match_witness :
  match match_key three_keys [] (Some [97]) with
  | Some m =>
      exists k,
        three_keys !! m = Some k
        /\ selects (key_id k) (key_label k) [] (Some [97]) = true
        /\ forall j k',
             (m < j)%nat -> three_keys !! j = Some k' ->
             selects (key_id k') (key_label k') [] (Some [97]) = false
  | None =>
      forall j k',
        three_keys !! j = Some k' ->
        selects (key_id k') (key_label k') [] (Some [97]) = false
  end
  /\ match_key three_keys [] None = Some 0%nat.
Proof.
  split.
  - apply (proj1 (match_key_last_match three_keys [] (Some [97]))).
    right. discriminate.
  - apply (proj2 (match_key_last_match three_keys [] None));
      [reflexivity|reflexivity|discriminate].
Defined.

Example match_key_three_keys :
  match_key three_keys [] (Some [97]) = Some 2%nat.
Proof. reflexivity. Qed.

(** ** Certificate selection *)

Section CertSelection.

Variable X509_cmp : X509 -> X509 -> Z.

(** [X509_cmp] compares by a total preorder. *)
Hypothesis cmp_total : forall x y, X509_cmp x y < 1 \/ X509_cmp y x < 1.
Hypothesis cmp_trans :
  forall x y z, X509_cmp x y < 1 -> X509_cmp y z < 1 -> X509_cmp x z < 1.

Variable certs : list PKCS11_CERT.
Variables (obj_id : list Z) (obj_label : option (list Z)).

#[local] Abbreviation is_match := (cert_match certs obj_id obj_label).

(** Every matching certificate that was parsed has a not-after time that
    can be read. *)
Hypothesis times_parse :
  forall i c x, is_match i c -> x509 c = Some x -> notAfter x <> None.

Lemma cmp_refl (x : X509) : X509_cmp x x < 1.
Proof. destruct (cmp_total x x); assumption. Qed.

Lemma diff_negative (d : Z) :
  (Z.quot d 86400 <? 0) || (Z.rem d 86400 <? 0) = true <-> d < 0.
Proof.
  rewrite orb_true_iff, !Z.ltb_lt. split.
  - intros H. destruct (Z_lt_le_dec d 0) as [Hd|Hd]; [exact Hd|].
    pose proof (Z.quot_pos d 86400 Hd ltac:(lia)).
    pose proof (Z.rem_nonneg d 86400 ltac:(lia) Hd). lia.
  - intros H. pose proof (Z.quot_rem' d 86400). lia.
Qed.

Lemma diff_positive (d : Z) :
  (Z.quot d 86400 >? 0) || (Z.rem d 86400 >? 0) = true <-> 0 < d.
Proof.
  rewrite orb_true_iff, !Z.gtb_lt. split.
  - intros H. destruct (Z_lt_le_dec 0 d) as [Hd|Hd]; [exact Hd|].
    pose proof (Z.quot_rem' d 86400).
    assert (Hq : Z.quot d 86400 <= 0).
    { rewrite <- (Z.opp_involutive d), Z.quot_opp_l by lia.
      pose proof (Z.quot_pos (- d) 86400 ltac:(lia) ltac:(lia)). lia. }
    assert (Hr : Z.rem d 86400 <= 0).
    { apply Z.rem_nonpos; lia. }
    lia.
  - intros H. pose proof (Z.quot_rem' d 86400).
    pose proof (Z.quot_pos d 86400 ltac:(lia) ltac:(lia)).
    pose proof (Z.rem_nonneg d 86400 ltac:(lia) ltac:(lia)). lia.
Qed.

(** One call of [cert_cmp] keeps the invariant of the loop. *)
Lemma cert_cmp_step (m : nat) (k : PKCS11_CERT) (selected : option nat) :
  is_match m k ->
  best_below X509_cmp certs obj_id obj_label m selected ->
  best_below X509_cmp certs obj_id obj_label (S m)
    (cert_cmp X509_cmp certs selected (Some m)).
Proof.
  intros Hk Hinv.
  assert (Hself : not_worse X509_cmp k k).
  { intros xi ti Hx Ht. exists xi, ti. repeat split; try assumption; [lia|].
    intros _. apply cmp_refl. }
  assert (Hnew : best_below X509_cmp certs obj_id obj_label m selected ->
                 (forall i ci, (i < m)%nat -> is_match i ci ->
                               not_worse X509_cmp k ci) ->
                 best_below X509_cmp certs obj_id obj_label (S m) (Some m)).
  { intros _ Hall. exists k. split; [exact Hk|].
    intros i ci Hi Hci. destruct (Nat.eq_dec i m) as [->|Hne].
    - destruct Hk as [Hk1 _], Hci as [Hci1 _].
      rewrite Hk1 in Hci1. injection Hci1 as <-. exact Hself.
    - apply (Hall i); [lia|exact Hci]. }
  unfold cert_cmp.
  destruct selected as [s|]; cbn [x509_of].
  2:{ apply Hnew; [exact Hinv|]. intros i ci Hi Hci.
      exfalso. exact (Hinv i ci Hi Hci). }
  destruct Hinv as (cs & Hcs & Hbest).
  pose proof Hcs as [Hcs1 Hcs2]. pose proof Hk as [Hk1 Hk2].
  rewrite Hcs1.
  destruct (x509 cs) as [xa|] eqn:Exa.
  2:{ apply Hnew.
      - exists cs. split; [exact Hcs|exact Hbest].
      - intros i ci Hi Hci xi ti Hxi Hti.
        destruct (Hbest i ci Hi Hci xi ti Hxi Hti) as (xs & ts & Hxs & _).
        congruence. }
  rewrite Hk1.
  assert (Hkeep : not_worse X509_cmp cs k ->
                  best_below X509_cmp certs obj_id obj_label (S m) (Some s)).
  { intros Hck. exists cs. split; [exact Hcs|].
    intros i ci Hi Hci. destruct (Nat.eq_dec i m) as [->|Hne].
    - destruct Hci as [Hci1 _]. rewrite Hk1 in Hci1.
      injection Hci1 as <-. exact Hck.
    - apply (Hbest i); [lia|exact Hci]. }
  destruct (x509 k) as [xb|] eqn:Exb.
  2:{ apply Hkeep. intros xi ti Hxi. congruence. }
  destruct (notAfter xa) as [ta|] eqn:Eta;
    [|exfalso; exact (times_parse s cs xa Hcs Exa Eta)].
  destruct (notAfter xb) as [tb|] eqn:Etb;
    [|exfalso; exact (times_parse m k xb Hk Exb Etb)].
  unfold X509_get0_notAfter, ASN1_TIME_diff. rewrite Eta, Etb.
  assert (Hswitch :
    tb <= ta -> (tb = ta -> X509_cmp xb xa < 1) ->
    not_worse X509_cmp cs k).
  { intros Hle Htie xi ti Hxi Hti. exists xa, ta.
    replace xi with xb by congruence.
    replace ti with tb by congruence.
    repeat split; assumption. }
  assert (Htake :
    ta <= tb -> (ta = tb -> X509_cmp xa xb < 1) ->
    best_below X509_cmp certs obj_id obj_label (S m) (Some m)).
  { intros Hle Htie. apply Hnew.
    - exists cs. split; [exact Hcs|exact Hbest].
    - intros i ci Hi Hci xi ti Hxi Hti.
      destruct (Hbest i ci Hi Hci xi ti Hxi Hti)
        as (xs & ts & Hxs & Hts & Hle' & Htie').
      replace xs with xa in * by congruence.
      replace ts with ta in * by congruence.
      exists xb, tb. repeat split; try assumption; [lia|].
      intros ->. apply (cmp_trans xi xa xb);
        [apply Htie'|apply Htie]; lia. }
  destruct ((Z.quot (tb - ta) 86400 <? 0) || (Z.rem (tb - ta) 86400 <? 0))
    eqn:Eneg.
  { apply diff_negative in Eneg. apply Hkeep, Hswitch; lia. }
  destruct ((Z.quot (tb - ta) 86400 >? 0) || (Z.rem (tb - ta) 86400 >? 0))
    eqn:Epos.
  { apply diff_positive in Epos. apply Htake; lia. }
  assert (Heq : tb = ta).
  { destruct (Z.lt_trichotomy (tb - ta) 0) as [H|[H|H]].
    - apply diff_negative in H. congruence.
    - lia.
    - apply diff_positive in H. congruence. }
  subst tb.
  destruct (X509_cmp xa xb <? 1) eqn:Ecmp.
  - apply Z.ltb_lt in Ecmp. apply Htake; [lia|intros _; exact Ecmp].
  - apply Z.ltb_ge in Ecmp. apply Hkeep, Hswitch; [lia|].
    intros _. destruct (cmp_total xa xb); [lia|assumption].
Qed.

Lemma cert_loop_best (n : nat) : forall m selected,
  (m + n <= length certs)%nat ->
  best_below X509_cmp certs obj_id obj_label m selected ->
  best_below X509_cmp certs obj_id obj_label (m + n)
    (cert_loop X509_cmp certs n m obj_id obj_label selected).
Proof.
  induction n as [|n IH]; intros m selected Hlen Hinv; cbn [cert_loop].
  - rewrite Nat.add_0_r. exact Hinv.
  - replace (m + S n)%nat with (S m + n)%nat by lia.
    apply IH; [lia|].
    destruct (certs !! m) as [k|] eqn:Ek.
    2:{ apply lookup_ge_None in Ek. lia. }
    destruct (selects (cert_id k) (cert_label k) obj_id obj_label) eqn:Es.
    + apply (cert_cmp_step m k); [split; assumption|exact Hinv].
    + destruct selected as [s|].
      * destruct Hinv as (cs & Hcs & Hbest). exists cs.
        split; [exact Hcs|]. intros i ci Hi Hci.
        destruct (Nat.eq_dec i m) as [->|Hne].
        -- destruct Hci as [Hci1 Hci2]. congruence.
        -- apply (Hbest i); [lia|exact Hci].
      * intros i c Hi Hc. destruct (Nat.eq_dec i m) as [->|Hne].
        -- destruct Hc as [Hc1 Hc2]. congruence.
        -- apply (Hinv i c); [lia|exact Hc].
Qed.

End CertSelection.

(** C3 (amended).  With an id or a label given, at least one certificate
    of the enumeration matching it, and the not-after time of every
    matching certificate that was parsed readable, [match_cert] returns
    a matching certificate that is not worse than any matching one: its
    not-after time is the latest, and among the matching certificates
    with that same time it is a greatest one in the order of
    [X509_cmp], which is taken to be a total preorder. *)
Theorem match_cert_latest_expiry
    (X509_cmp : X509 -> X509 -> Z)
    (certs : list PKCS11_CERT) (obj_id : list Z) (obj_label : option (list Z)) :
  (forall x y, X509_cmp x y < 1 \/ X509_cmp y x < 1) ->
  (forall x y z, X509_cmp x y < 1 -> X509_cmp y z < 1 -> X509_cmp x z < 1) ->
  (forall i c x,
      cert_match certs obj_id obj_label i c ->
      x509 c = Some x -> notAfter x <> None) ->
  obj_id <> [] \/ obj_label <> None ->
  (exists i c, cert_match certs obj_id obj_label i c) ->
  exists s cs,
    match_cert X509_cmp true (Some certs) obj_id obj_label = Some s
    /\ cert_match certs obj_id obj_label s cs
    /\ forall i ci,
         cert_match certs obj_id obj_label i ci ->
         not_worse X509_cmp cs ci.
Proof.
  intros Htotal Htrans Htimes Hgiven (i0 & c0 & Hm0).
  assert (Hcond : negb (Nat.eqb (length obj_id) 0)
                  || bool_decide (is_Some obj_label) = true).
  { destruct Hgiven as [H|H].
    - destruct obj_id; [congruence|reflexivity].
    - destruct obj_label; [|congruence].
      rewrite bool_decide_eq_true_2 by eauto. apply orb_true_r. }
  assert (Hi0 : (i0 < length certs)%nat).
  { destruct Hm0 as [H _]. apply lookup_lt_Some in H. exact H. }
  unfold match_cert. cbn [negb].
  destruct (Nat.eqb (length certs) 0) eqn:Elen;
    [apply Nat.eqb_eq in Elen; lia|].
  rewrite Hcond.
  pose proof (cert_loop_best X509_cmp Htotal Htrans certs obj_id obj_label
                Htimes (length certs) 0 None) as Hloop.
  cbn [Nat.add] in Hloop.
  specialize (Hloop ltac:(lia)).
  assert (Hinit : best_below X509_cmp certs obj_id obj_label 0 None).
  { intros i c Hi. lia. }
  specialize (Hloop Hinit).
  destruct (cert_loop X509_cmp certs (length certs) 0 obj_id obj_label None)
    as [s|].
  - destruct Hloop as (cs & Hcs & Hbest). exists s, cs.
    split; [reflexivity|]. split; [exact Hcs|].
    intros i ci Hci. apply (Hbest i); [|exact Hci].
    destruct Hci as [H _]. apply lookup_lt_Some in H. exact H.
  - exfalso. exact (Hloop i0 c0 Hi0 Hm0).
Qed.

Lemma cmp_first_byte_total (x y : X509) :
  cmp_first_byte x y < 1 \/ cmp_first_byte y x < 1.
Proof. unfold cmp_first_byte. lia. Qed.

Lemma cmp_first_byte_trans (x y z : X509) :
  cmp_first_byte x y < 1 -> cmp_first_byte y z < 1 -> cmp_first_byte x z < 1.
Proof. unfold cmp_first_byte. lia. Qed.

Lemma three_certs_times_parse (i : nat) (c : PKCS11_CERT) (x : X509) :
  cert_match three_certs [] (Some [97]) i c ->
  x509 c = Some x -> notAfter x <> None.
Proof.
  intros [Hi _] Hx.
  destruct i as [|[|[|i]]]; cbn in Hi; try discriminate Hi;
    injection Hi as <-; injection Hx as <-; discriminate.
Qed.

(** For [three_certs], all carrying the label asked for, a certificate
    that is not worse than any of the three is returned. *)
Lemma match_cert_latest_expiry_witness :
  exists s cs,
    match_cert cmp_first_byte true (Some three_certs) [] (Some [97]) = Some s
    /\ cert_match three_certs [] (Some [97]) s cs
    /\ forall i ci,
         cert_match three_certs [] (Some [97]) i ci ->
         not_worse cmp_first_byte cs ci.
Proof.
  apply (match_cert_latest_expiry cmp_first_byte three_certs [] (Some [97])
           cmp_first_byte_total cmp_first_byte_trans three_certs_times_parse).
  - right. discriminate.
  - exists 0%nat. eexists. split; reflexivity.
Defined.

(** It is the second one: not-after 200, and the greater encoding of the
    two that expire then. *)
Example match_cert_three_certs :
  match_cert cmp_first_byte true (Some three_certs) [] (Some [97])
  = Some 1%nat.
Proof. reflexivity. Qed.

(** With a not-after time that cannot be read among the matches the
    comparison by time is skipped for that certificate, and the order
    of the encodings decides: of [unreadable_expiry] the second
    displaces the first and the third the second. *)
Example match_cert_unreadable :
  match_cert cmp_first_byte true (Some unreadable_expiry) [] (Some [97])
  = Some 2%nat.
Proof. reflexivity. Qed.

(** C3 as stated fails: the three certificates of [unreadable_expiry]
    carry the label asked for, the first expires at 100 and the third
    at 50, and the third is returned. *)
Lemma match_cert_not_latest_expiry :
  ~ returns_latest_expiry cmp_first_byte unreadable_expiry [] (Some [97]).
Proof.
  intros (s & cs & Hm & [Hcs _] & Hall).
  rewrite match_cert_unreadable in Hm. injection Hm as <-.
  injection Hcs as <-.
  destruct (Hall 0%nat
              {| cert_id := [7]; cert_label := Some [97];
                 x509 := Some {| notAfter := Some 100; der := [1] |} |}
              {| notAfter := Some 100; der := [1] |} 100
              (conj eq_refl eq_refl) eq_refl eq_refl)
    as (xs & ts & Hxs & Hts & Hle).
  injection Hxs as <-. injection Hts as <-. lia.
Qed.

(** ** The interceptor *)

Section Interceptor.

Import Pkey.

Variable tok : replies.
Variable ctx : EVP_PKEY_CTX.

Lemma events_since_app (s : state) (r : outcome) (evs : list event) :
  trace (st r) = trace s ++ evs -> events_since s r = evs.
Proof. intros H. unfold events_since. rewrite H. apply drop_app_length. Qed.

(** The conditions under which the sign method leaves before anything is
    sent to the token. *)
Lemma try_sign_not_applicable (sig_null : bool) (siglen tbslen : Z)
    (s : state) :
  token_key_of ctx = None
  \/ ctx_signature_md ctx = None
  \/ (sign_initialized s = false
      /\ ctx_padding ctx <> RSA_PKCS1_PSS_PADDING) ->
  pkcs11_try_pkey_rsa_sign tok ctx sig_null siglen tbslen s
  = {| ret := -1; len := siglen; st := s |}.
Proof.
  unfold pkcs11_try_pkey_rsa_sign. intros [H|[H|[H1 H2]]].
  - rewrite H. reflexivity.
  - rewrite H. destruct (token_key_of ctx); reflexivity.
  - destruct (token_key_of ctx); [|reflexivity].
    destruct (ctx_signature_md ctx); [|reflexivity].
    destruct (negb (tbslen =? _)); [reflexivity|].
    rewrite H1. cbn [negb]. apply Z.eqb_neq in H2. rewrite H2. reflexivity.
Qed.

(** The same for the decrypt method. *)
Lemma try_decrypt_not_applicable (out_null : bool) (outlen : Z) (s : state) :
  token_key_of ctx = None
  \/ (decrypt_initialized s = false
      /\ ctx_padding ctx <> RSA_PKCS1_OAEP_PADDING
      /\ ctx_padding ctx <> CKM_RSA_PKCS) ->
  pkcs11_try_pkey_rsa_decrypt tok ctx out_null outlen s
  = {| ret := -1; len := outlen; st := s |}.
Proof.
  unfold pkcs11_try_pkey_rsa_decrypt. intros [H|(H1 & H2 & H3)].
  - rewrite H. reflexivity.
  - destruct (token_key_of ctx); [|reflexivity].
    rewrite H1. cbn [negb]. apply Z.eqb_neq in H2, H3.
    rewrite H2, H3. reflexivity.
Qed.

(** The tail of the sign method: [C_Sign] is issued exactly when the
    initialisation left no error, and the result is 1 exactly when
    neither the initialisation nor [C_Sign] reported one. *)
Lemma sign_tail_spec (sig_null : bool) (siglen rv : Z) (s : state) :
  let r := sign_tail tok sig_null siglen rv s in
  exists evs,
    trace (st r) = trace s ++ evs
    /\ (In EvSign evs <-> rv = 0)
    /\ ~ In EvOrigSign evs
    /\ (ret r = 1 /\ rv = 0 /\ rv_Sign tok = 0
        \/ ret r = -1 /\ len r = siglen /\ (rv <> 0 \/ rv_Sign tok <> 0)).
Proof.
  unfold sign_tail.
  destruct (rv =? 0) eqn:Erv;
    [apply Z.eqb_eq in Erv|apply Z.eqb_neq in Erv].
  - destruct (rv_Sign tok =? 0) eqn:Es;
      [apply Z.eqb_eq in Es|apply Z.eqb_neq in Es];
      destruct sig_null; cbn;
      eexists; (split; [try rewrite <- app_assoc; reflexivity|]);
      cbn; intuition (try discriminate; auto).
  - apply Z.eqb_neq in Erv. rewrite Erv. cbn.
    exists [EvUnlock]. split; [reflexivity|]. apply Z.eqb_neq in Erv.
    cbn; intuition (try discriminate; auto).
Qed.

(** The sign method on the token: it only adds events, none of them a
    call of the original method; the result is 1 or -1; and a [C_Sign]
    that fails makes it -1. *)
Lemma try_sign_spec (sig_null : bool) (siglen tbslen : Z) (s : state) :
  let r := pkcs11_try_pkey_rsa_sign tok ctx sig_null siglen tbslen s in
  exists evs,
    trace (st r) = trace s ++ evs
    /\ (ret r = 1 \/ ret r = -1)
    /\ ~ In EvOrigSign evs
    /\ (In EvSign evs -> rv_Sign tok <> 0 -> ret r = -1).
Proof.
  unfold pkcs11_try_pkey_rsa_sign.
  assert (Hna : let r := {| ret := -1; len := siglen; st := s |} in
                exists evs,
                  trace (st r) = trace s ++ evs
                  /\ (ret r = 1 \/ ret r = -1)
                  /\ ~ In EvOrigSign evs
                  /\ (In EvSign evs -> rv_Sign tok <> 0 -> ret r = -1)).
  { exists []. cbn. rewrite app_nil_r. intuition. }
  assert (Htail : forall rv s1 pre,
    trace s1 = trace s ++ pre ->
    ~ In EvSign pre -> ~ In EvOrigSign pre ->
    let r := sign_tail tok sig_null siglen rv s1 in
    exists evs,
      trace (st r) = trace s ++ evs
      /\ (ret r = 1 \/ ret r = -1)
      /\ ~ In EvOrigSign evs
      /\ (In EvSign evs -> rv_Sign tok <> 0 -> ret r = -1)).
  { intros rv s1 pre Hpre Hn1 Hn2. cbn zeta.
    destruct (sign_tail_spec sig_null siglen rv s1)
      as (evs & Htr & Hsign & Horig & Hret).
    exists (pre ++ evs).
    split; [rewrite Htr, Hpre, app_assoc; reflexivity|].
    split; [destruct Hret as [(? & _)|(? & _)]; auto|].
    split.
    - intros Hin. apply in_app_or in Hin. tauto.
    - intros Hin Hfail.
      destruct Hret as [(_ & _ & ?)|(? & _)]; [congruence|assumption]. }
  destruct (token_key_of ctx) as [key|]; [|exact Hna].
  destruct (ctx_signature_md ctx) as [sig_md|]; [|exact Hna].
  destruct (negb (tbslen =? to_ulong (EVP_MD_size sig_md))); [exact Hna|].
  destruct (negb (sign_initialized s)).
  - destruct (negb (ctx_padding ctx =? RSA_PKCS1_PSS_PADDING)); [exact Hna|].
    destruct (pkcs11_params_pss ctx) as [params|]; [|exact Hna].
    destruct ((rv_SignInit tok =? 0) && always_authenticate key).
    + eapply Htail; cbn; [rewrite <- !app_assoc; reflexivity| |];
        cbn; intuition discriminate.
    + eapply Htail; cbn; [rewrite <- !app_assoc; reflexivity| |];
        cbn; intuition discriminate.
  - apply (Htail 0 s []); [symmetry; apply app_nil_r| |]; cbn; tauto.
Qed.

(** The mechanism handed to [C_SignInit] is the PSS mechanism with the
    parameters [pkcs11_params_pss] produced. *)
Lemma try_sign_mechanism (sig_null : bool) (siglen tbslen : Z) (s : state)
    (m : CK_MECHANISM) :
  let r := pkcs11_try_pkey_rsa_sign tok ctx sig_null siglen tbslen s in
  In (EvSignInit m) (events_since s r) ->
  exists params,
    pkcs11_params_pss ctx = Some params
    /\ m = {| mechanism := Some CKM_RSA_PKCS_PSS;
              pParameter := PssParameter params |}.
Proof.
  cbn zeta. unfold pkcs11_try_pkey_rsa_sign.
  assert (Hna : In (EvSignInit m)
                   (events_since s {| ret := -1; len := siglen; st := s |}) ->
                exists params,
                  pkcs11_params_pss ctx = Some params
                  /\ m = {| mechanism := Some CKM_RSA_PKCS_PSS;
                            pParameter := PssParameter params |}).
  { rewrite (events_since_app s _ []) by (cbn; symmetry; apply app_nil_r).
    intros []. }
  assert (Htail : forall rv s1 pre,
    trace s1 = trace s ++ pre ->
    In (EvSignInit m) (events_since s (sign_tail tok sig_null siglen rv s1)) ->
    In (EvSignInit m) pre).
  { intros rv s1 pre Hpre Hin.
    destruct (sign_tail_spec sig_null siglen rv s1)
      as (evs & Htr & Hsign & Horig & Hret).
    cbn zeta in Htr.
    rewrite (events_since_app s _ (pre ++ evs)) in Hin
      by (rewrite Htr, Hpre, app_assoc; reflexivity).
    apply in_app_or in Hin. destruct Hin as [Hin|Hin]; [exact Hin|].
    exfalso. clear - Htr Hin.
    unfold sign_tail in Htr.
    destruct (rv =? 0) eqn:Erv; destruct (rv_Sign tok =? 0) eqn:Es;
      destruct sig_null; cbn in Htr; rewrite ?Erv, ?Es in Htr; cbn in Htr;
      rewrite <- ?app_assoc in Htr; apply app_inv_head in Htr;
      subst evs; cbn in Hin; intuition discriminate. }
  destruct (token_key_of ctx) as [key|]; [|exact Hna].
  destruct (ctx_signature_md ctx) as [sig_md|]; [|exact Hna].
  destruct (negb (tbslen =? to_ulong (EVP_MD_size sig_md))); [exact Hna|].
  destruct (negb (sign_initialized s)).
  - destruct (negb (ctx_padding ctx =? RSA_PKCS1_PSS_PADDING)); [exact Hna|].
    destruct (pkcs11_params_pss ctx) as [params|]; [|exact Hna].
    intros Hin. exists params. split; [reflexivity|].
    assert (Hpre : In (EvSignInit m)
                     [EvWriteLock;
                      EvSignInit {| mechanism := Some CKM_RSA_PKCS_PSS;
                                    pParameter := PssParameter params |};
                      EvAuthenticate]).
    { destruct ((rv_SignInit tok =? 0) && always_authenticate key).
      - eapply Htail; [|exact Hin]. cbn. rewrite <- !app_assoc. reflexivity.
      - eapply Htail in Hin; [|cbn; rewrite <- !app_assoc; reflexivity].
        cbn in Hin |- *. tauto. }
    cbn in Hpre. destruct Hpre as [H|[H|[H|[]]]]; try discriminate H.
    injection H as <-. reflexivity.
  - intros Hin. eapply Htail in Hin; [|symmetry; apply app_nil_r].
    destruct Hin.
Qed.

(** The tail of the decrypt method, likewise. *)
Lemma decrypt_tail_spec (key : token_key) (out_null : bool)
    (outlen rv : Z) (s : state) :
  let r := decrypt_tail tok key out_null outlen rv s in
  exists evs,
    trace (st r) = trace s ++ evs
    /\ ~ In EvOrigDecrypt evs
    /\ (ret r = 1 \/ ret r = -1)
    /\ (In EvDecrypt evs -> rv_Decrypt tok <> 0 -> ret r = -1).
Proof.
  unfold decrypt_tail, CKR_OK.
  pose proof (proj1 (Z.eqb_eq (rv_Decrypt tok) 0)) as Hd.
  destruct (rv =? 0) eqn:Erv; destruct (always_authenticate key);
    cbn [andb];
    destruct (rv_authenticate tok =? 0) eqn:Eau;
    destruct (rv_Decrypt tok =? 0) eqn:Ed;
    destruct out_null; cbn; rewrite ?Erv, ?Eau, ?Ed; cbn;
    repeat match goal with
           | |- context [if ?b then _ else _] => destruct b; cbn
           end;
    eexists; (split; [try rewrite <- !app_assoc; reflexivity|]);
    cbn; intuition (try discriminate; try congruence; auto).
Qed.

Lemma try_decrypt_spec (out_null : bool) (outlen : Z) (s : state) :
  let r := pkcs11_try_pkey_rsa_decrypt tok ctx out_null outlen s in
  exists evs,
    trace (st r) = trace s ++ evs
    /\ (ret r = 1 \/ ret r = -1)
    /\ ~ In EvOrigDecrypt evs
    /\ (In EvDecrypt evs -> rv_Decrypt tok <> 0 -> ret r = -1).
Proof.
  unfold pkcs11_try_pkey_rsa_decrypt.
  assert (Hna : let r := {| ret := -1; len := outlen; st := s |} in
                exists evs,
                  trace (st r) = trace s ++ evs
                  /\ (ret r = 1 \/ ret r = -1)
                  /\ ~ In EvOrigDecrypt evs
                  /\ (In EvDecrypt evs -> rv_Decrypt tok <> 0 -> ret r = -1)).
  { exists []. cbn. rewrite app_nil_r. intuition. }
  assert (Htail : forall key rv s1 pre,
    trace s1 = trace s ++ pre ->
    ~ In EvDecrypt pre -> ~ In EvOrigDecrypt pre ->
    let r := decrypt_tail tok key out_null outlen rv s1 in
    exists evs,
      trace (st r) = trace s ++ evs
      /\ (ret r = 1 \/ ret r = -1)
      /\ ~ In EvOrigDecrypt evs
      /\ (In EvDecrypt evs -> rv_Decrypt tok <> 0 -> ret r = -1)).
  { intros key rv s1 pre Hpre Hn1 Hn2. cbn zeta.
    destruct (decrypt_tail_spec key out_null outlen rv s1)
      as (evs & Htr & Horig & Hret & Hfail).
    exists (pre ++ evs).
    split; [rewrite Htr, Hpre, app_assoc; reflexivity|].
    split; [exact Hret|]. split.
    - intros Hin. apply in_app_or in Hin. tauto.
    - intros Hin. apply in_app_or in Hin. tauto. }
  destruct (token_key_of ctx) as [key|]; [|exact Hna].
  destruct (negb (decrypt_initialized s)).
  - destruct (ctx_padding ctx =? RSA_PKCS1_OAEP_PADDING).
    + destruct (pkcs11_params_oaep ctx); [|exact Hna].
      eapply Htail; cbn; [rewrite <- !app_assoc; reflexivity| |];
        cbn; intuition discriminate.
    + destruct (ctx_padding ctx =? CKM_RSA_PKCS); [|exact Hna].
      eapply Htail; cbn; [rewrite <- !app_assoc; reflexivity| |];
        cbn; intuition discriminate.
  - apply (Htail key 0 s []); [symmetry; apply app_nil_r| |]; cbn; tauto.
Qed.

End Interceptor.

(** C1 (amended).  The methods installed for RSA sign and decrypt return
    the result of the token path only when it is a success.  Whenever
    the token path ends with -1 the original software method is called
    and its result returned: for the conditions found before anything is
    sent to the token (key not on a token, no digest in the context,
    padding not handled), and just as well when [C_Sign] or [C_Decrypt]
    has been issued and the token reported a failure. *)
Theorem interceptor_delegates_every_failure
    (tok : Pkey.replies) (ctx : Pkey.EVP_PKEY_CTX)
    (sig_null out_null : bool) (siglen tbslen outlen : Z) (s : Pkey.state) :
  let t := Pkey.pkcs11_try_pkey_rsa_sign tok ctx sig_null siglen tbslen s in
  let r := Pkey.pkcs11_pkey_rsa_sign tok ctx sig_null siglen tbslen s in
  let t' := Pkey.pkcs11_try_pkey_rsa_decrypt tok ctx out_null outlen s in
  let r' := Pkey.pkcs11_pkey_rsa_decrypt tok ctx out_null outlen s in
  (* sign *)
  (Pkey.ret t = 1 /\ r = t /\ ~ In Pkey.EvOrigSign (events_since s r)
   \/ Pkey.ret t = -1
      /\ Pkey.ret r = fst (Pkey.orig_sign tok)
      /\ Pkey.len r = snd (Pkey.orig_sign tok)
      /\ events_since s r = events_since s t ++ [Pkey.EvOrigSign])
  /\ (In Pkey.EvSign (events_since s r) -> Pkey.rv_Sign tok <> 0 ->
      Pkey.ret r = fst (Pkey.orig_sign tok)
      /\ In Pkey.EvOrigSign (events_since s r))
  /\ (Pkey.token_key_of ctx = None
      \/ Pkey.ctx_signature_md ctx = None
      \/ (Pkey.sign_initialized s = false
          /\ Pkey.ctx_padding ctx <> Pkey.RSA_PKCS1_PSS_PADDING) ->
      events_since s r = [Pkey.EvOrigSign])
  (* decrypt *)
  /\ (Pkey.ret t' = 1 /\ r' = t'
      /\ ~ In Pkey.EvOrigDecrypt (events_since s r')
      \/ Pkey.ret t' = -1
         /\ Pkey.ret r' = fst (Pkey.orig_decrypt tok)
         /\ Pkey.len r' = snd (Pkey.orig_decrypt tok)
         /\ events_since s r' = events_since s t' ++ [Pkey.EvOrigDecrypt])
  /\ (In Pkey.EvDecrypt (events_since s r') -> Pkey.rv_Decrypt tok <> 0 ->
      Pkey.ret r' = fst (Pkey.orig_decrypt tok)
      /\ In Pkey.EvOrigDecrypt (events_since s r'))
  /\ (Pkey.token_key_of ctx = None
      \/ (Pkey.decrypt_initialized s = false
          /\ Pkey.ctx_padding ctx <> Pkey.RSA_PKCS1_OAEP_PADDING
          /\ Pkey.ctx_padding ctx <> Pkey.CKM_RSA_PKCS) ->
      events_since s r' = [Pkey.EvOrigDecrypt]).
Proof.
  cbn zeta.
  destruct (try_sign_spec tok ctx sig_null siglen tbslen s)
    as (evs & Htr & Hret & Horig & Hfail).
  destruct (try_decrypt_spec tok ctx out_null outlen s)
    as (evs' & Htr' & Hret' & Horig' & Hfail').
  unfold Pkey.pkcs11_pkey_rsa_sign, Pkey.pkcs11_pkey_rsa_decrypt.
  repeat split.
  - destruct Hret as [H1|H1]; rewrite H1; cbn [Z.ltb Z.compare].
    + left. repeat split. rewrite (events_since_app s _ evs Htr). exact Horig.
    + right. repeat split.
      rewrite (events_since_app s _ evs Htr).
      apply events_since_app. cbn. rewrite Htr, app_assoc. reflexivity.
  - destruct Hret as [H1|H1]; rewrite H1 in *; cbn [Z.ltb Z.compare] in *.
    + rewrite (events_since_app s _ evs Htr) in H. exfalso.
      specialize (Hfail H H0). discriminate Hfail.
    + reflexivity.
  - destruct Hret as [H1|H1]; rewrite H1 in *; cbn [Z.ltb Z.compare] in *.
    + rewrite (events_since_app s _ evs Htr) in H. exfalso.
      specialize (Hfail H H0). discriminate Hfail.
    + erewrite events_since_app
        by (cbn; rewrite Htr, <- app_assoc; reflexivity).
      apply in_or_app. right. left. reflexivity.
  - intros Hna.
    rewrite (try_sign_not_applicable tok ctx sig_null siglen tbslen s Hna).
    cbn. apply events_since_app. reflexivity.
  - destruct Hret' as [H1|H1]; rewrite H1; cbn [Z.ltb Z.compare].
    + left. repeat split. rewrite (events_since_app s _ evs' Htr').
      exact Horig'.
    + right. repeat split.
      rewrite (events_since_app s _ evs' Htr').
      apply events_since_app. cbn. rewrite Htr', app_assoc. reflexivity.
  - destruct Hret' as [H1|H1]; rewrite H1 in *; cbn [Z.ltb Z.compare] in *.
    + rewrite (events_since_app s _ evs' Htr') in H. exfalso.
      specialize (Hfail' H H0). discriminate Hfail'.
    + reflexivity.
  - destruct Hret' as [H1|H1]; rewrite H1 in *; cbn [Z.ltb Z.compare] in *.
    + rewrite (events_since_app s _ evs' Htr') in H. exfalso.
      specialize (Hfail' H H0). discriminate Hfail'.
    + erewrite events_since_app
        by (cbn; rewrite Htr', <- app_assoc; reflexivity).
      apply in_or_app. right. left. reflexivity.
  - intros Hna.
    rewrite (try_decrypt_not_applicable tok ctx out_null outlen s Hna).
    cbn. apply events_since_app. reflexivity.
Qed.

(** A 2048-bit key on a token, PSS over SHA-256, a digest of 32 bytes to
    sign: [C_Sign] is issued, the token answers [CKR_DEVICE_ERROR], and
    the call ends in the original method, whose success is returned. *)
Lemma interceptor_delegates_every_failure_witness :
  Pkey.ret (Pkey.pkcs11_pkey_rsa_sign device_error (pss_ctx 2048 (-1))
              false 256 32 idle) = 1
  /\ In Pkey.EvOrigSign
       (events_since idle
          (Pkey.pkcs11_pkey_rsa_sign device_error (pss_ctx 2048 (-1))
             false 256 32 idle)).
Proof.
  destruct (interceptor_delegates_every_failure device_error
              (pss_ctx 2048 (-1)) false false 256 32 256 idle)
    as (_ & Hfail & _).
  apply Hfail.
  - vm_compute. right. right. left. reflexivity.
  - vm_compute. discriminate.
Defined.

(** C1 as stated fails: in that call [C_Sign] was issued and failed, yet
    the result is not a failure and the original method was called. *)
Lemma sign_failure_not_final :
  ~ sign_failure_is_final device_error (pss_ctx 2048 (-1)) false 256 32 idle.
Proof.
  unfold sign_failure_is_final. intros H.
  assert (Hin : In Pkey.EvSign
                  (events_since idle
                     (Pkey.pkcs11_pkey_rsa_sign device_error
                        (pss_ctx 2048 (-1)) false 256 32 idle))).
  { vm_compute. right. right. left. reflexivity. }
  assert (Hrv : Pkey.rv_Sign device_error <> 0).
  { vm_compute. discriminate. }
  destruct (H Hin Hrv) as [Hret _].
  vm_compute in Hret. apply Hret. reflexivity.
Qed.

Example sign_failure_trace :
  events_since idle
    (Pkey.pkcs11_pkey_rsa_sign device_error (pss_ctx 2048 (-1))
       false 256 32 idle)
  = [Pkey.EvWriteLock;
     Pkey.EvSignInit
       {| Pkey.mechanism := Some Pkey.CKM_RSA_PKCS_PSS;
          Pkey.pParameter :=
            Pkey.PssParameter
              {| Pkey.pss_hashAlg := Pkey.CKM_SHA256;
                 Pkey.pss_mgf := Pkey.CKG_MGF1_SHA256;
                 Pkey.pss_sLen := 32 |} |};
     Pkey.EvSign; Pkey.EvUnlock; Pkey.EvOrigSign].
Proof. reflexivity. Qed.

(** ** PSS parameters *)

Section PssParameters.

Import Pkey.

Lemma int32_id (x : Z) : - 2 ^ 31 <= x < 2 ^ 31 -> int32 x = x.
Proof.
  intros H. unfold int32.
  rewrite Z.mod_small by lia. lia.
Qed.

Lemma land_7_mod_8 (x : Z) : Z.land x 0x7 = x mod 8.
Proof. change 0x7 with (Z.ones 3). rewrite Z.land_ones by lia. reflexivity. Qed.

Lemma to_ulong_id (x : Z) : 0 <= x < 2 ^ 31 -> to_ulong x = x.
Proof. intros H. unfold to_ulong. apply Z.mod_small. lia. Qed.

(** The switch computes [max_salt_len] for the code -2. *)
Lemma pss_salt_len_max (ctx : EVP_PKEY_CTX) (sig_md : EVP_MD)
    (pkey : EVP_PKEY) :
  ctx_pkey ctx = Some pkey ->
  0 <= EVP_MD_size sig_md <= 64 ->
  0 <= pkey_size pkey < 2 ^ 31 ->
  - 2 ^ 31 < pkey_bits pkey < 2 ^ 31 ->
  pss_salt_len ctx sig_md (-2)
  = let m := max_salt_len (pkey_size pkey) (pkey_bits pkey)
               (EVP_MD_size sig_md) in
    if m <? 0 then None else Some m.
Proof.
  intros Hp Hmd Hsize Hbits. unfold pss_salt_len, max_salt_len.
  cbn [Z.eqb]. rewrite Hp. cbn zeta.
  rewrite (int32_id (pkey_size pkey - EVP_MD_size sig_md)) by lia.
  rewrite (int32_id (pkey_size pkey - EVP_MD_size sig_md - 2)) by lia.
  rewrite (int32_id (pkey_bits pkey - 1)) by lia.
  rewrite land_7_mod_8.
  destruct ((pkey_bits pkey - 1) mod 8 =? 0).
  - rewrite int32_id by lia. reflexivity.
  - rewrite Z.sub_0_r. reflexivity.
Qed.

End PssParameters.

(** C5.  For a PSS signing context whose digests the token knows,
    [pkcs11_params_pss] puts into [sLen]: the size of the signature
    digest for the salt length code -1; and for the code -2 the key size
    in bytes minus the digest size minus 2, less one when the bit length
    minus 1 is a multiple of 8 -- unless that is negative, in which case
    the translation fails.  The sizes are those of C [int]s, the digest
    at most 64 bytes long.  These parameters are the ones a sign call
    hands to the token with the PSS mechanism in [C_SignInit]. *)
Theorem pss_salt_length
    (ctx : Pkey.EVP_PKEY_CTX) (sig_md mgf1_md : Pkey.EVP_MD) :
  Pkey.ctx_signature_md ctx = Some sig_md ->
  Pkey.ctx_mgf1_md ctx = Some mgf1_md ->
  Pkey.ctx_saltlen_rv ctx <> 0 ->
  Pkey.pkcs11_md2ckm sig_md <> 0 ->
  Pkey.pkcs11_md2ckg mgf1_md <> 0 ->
  0 <= Pkey.EVP_MD_size sig_md <= 64 ->
  (Pkey.ctx_saltlen ctx = -1 ->
   exists p,
     Pkey.pkcs11_params_pss ctx = Some p
     /\ Pkey.pss_sLen p = Pkey.EVP_MD_size sig_md)
  /\ (Pkey.ctx_saltlen ctx = -2 ->
      forall pkey,
        Pkey.ctx_pkey ctx = Some pkey ->
        0 <= Pkey.pkey_size pkey < 2 ^ 31 ->
        - 2 ^ 31 < Pkey.pkey_bits pkey < 2 ^ 31 ->
        let m := max_salt_len (Pkey.pkey_size pkey) (Pkey.pkey_bits pkey)
                   (Pkey.EVP_MD_size sig_md) in
        if m <? 0 then Pkey.pkcs11_params_pss ctx = None
        else exists p,
               Pkey.pkcs11_params_pss ctx = Some p /\ Pkey.pss_sLen p = m)
  /\ (forall tok sig_null siglen tbslen s mech,
        In (Pkey.EvSignInit mech)
           (events_since s
              (Pkey.pkcs11_pkey_rsa_sign tok ctx sig_null siglen tbslen s)) ->
        exists p,
          Pkey.pkcs11_params_pss ctx = Some p
          /\ mech = {| Pkey.mechanism := Some Pkey.CKM_RSA_PKCS_PSS;
                       Pkey.pParameter := Pkey.PssParameter p |}).
Proof.
  intros Hsig Hmgf Hrv Hckm Hckg Hmd.
  split; [|split].
  - apply Z.eqb_neq in Hrv, Hckm, Hckg.
    unfold Pkey.pkcs11_params_pss. rewrite Hsig, Hmgf, Hrv.
    intros ->. cbn [Pkey.pss_salt_len Z.eqb].
    rewrite Hckm, Hckg. cbn [orb].
    eexists. split; [reflexivity|]. cbn [Pkey.pss_sLen].
    apply to_ulong_id. lia.
  - apply Z.eqb_neq in Hrv, Hckm, Hckg.
    unfold Pkey.pkcs11_params_pss. rewrite Hsig, Hmgf, Hrv.
    intros -> pkey Hp Hsize Hbits. cbn zeta.
    rewrite (pss_salt_len_max ctx sig_md pkey Hp Hmd Hsize Hbits).
    cbn zeta.
    destruct (max_salt_len _ _ _ <? 0) eqn:Em; [reflexivity|].
    rewrite Hckm, Hckg. cbn [orb].
    eexists. split; [reflexivity|]. cbn [Pkey.pss_sLen].
    apply Z.ltb_ge in Em. apply to_ulong_id.
    unfold max_salt_len in *.
    destruct ((Pkey.pkey_bits pkey - 1) mod 8 =? 0); lia.
  - intros tok sig_null siglen tbslen s mech Hin.
    apply (try_sign_mechanism tok ctx sig_null siglen tbslen s).
    destruct (try_sign_spec tok ctx sig_null siglen tbslen s)
      as (evs & Htr & Hret & _).
    rewrite (events_since_app s _ evs Htr).
    unfold Pkey.pkcs11_pkey_rsa_sign in Hin.
    destruct (Pkey.ret _ <? 0).
    + rewrite (events_since_app s _ (evs ++ [Pkey.EvOrigSign])) in Hin
        by (cbn; rewrite Htr, app_assoc; reflexivity).
      apply in_app_or in Hin. destruct Hin as [Hin|[Hin|[]]];
        [exact Hin|discriminate Hin].
    + rewrite (events_since_app s _ evs Htr) in Hin. exact Hin.
Qed.

(** SHA-256 and a 2048-bit key: the code -1 gives 32, the code -2 gives
    256 - 32 - 2 = 222; a 2049-bit key gives 257 - 32 - 2 - 1 = 222; and
    a 264-bit key, 33 - 32 - 2 < 0, makes the translation fail. *)
Lemma pss_salt_length_witness :
  (exists p, Pkey.pkcs11_params_pss (pss_ctx 2048 (-1)) = Some p
             /\ Pkey.pss_sLen p = 32)
  /\ (exists p, Pkey.pkcs11_params_pss (pss_ctx 2048 (-2)) = Some p
                /\ Pkey.pss_sLen p = 222)
  /\ (exists p, Pkey.pkcs11_params_pss (pss_ctx 2049 (-2)) = Some p
                /\ Pkey.pss_sLen p = 222)
  /\ Pkey.pkcs11_params_pss (pss_ctx 264 (-2)) = None.
Proof.
  assert (H : forall bits code,
    Pkey.ctx_signature_md (pss_ctx bits code) = Some sha256
    /\ Pkey.ctx_mgf1_md (pss_ctx bits code) = Some sha256
    /\ Pkey.ctx_saltlen_rv (pss_ctx bits code) <> 0
    /\ Pkey.pkcs11_md2ckm sha256 <> 0
    /\ Pkey.pkcs11_md2ckg sha256 <> 0
    /\ 0 <= Pkey.EVP_MD_size sha256 <= 64).
  { intros bits code. repeat split; try reflexivity;
      try (cbn; lia); vm_compute; discriminate. }
  pose proof (fun bits code =>
    match H bits code with
    | conj a (conj b (conj c (conj d (conj e f)))) =>
        pss_salt_length (pss_ctx bits code) sha256 sha256 a b c d e f
    end) as T.
  split; [|split; [|split]].
  - apply (proj1 (T 2048 (-1))). reflexivity.
  - apply (proj1 (proj2 (T 2048 (-2))) eq_refl (token_pkey 2048) eq_refl);
      clear; vm_compute; split; (discriminate || reflexivity).
  - apply (proj1 (proj2 (T 2049 (-2))) eq_refl (token_pkey 2049) eq_refl);
      clear; vm_compute; split; (discriminate || reflexivity).
  - apply (proj1 (proj2 (T 264 (-2))) eq_refl (token_pkey 264) eq_refl);
      clear; vm_compute; split; (discriminate || reflexivity).
Defined.

(** ** PIN memory *)

Section PinMemory.

Import Lookup.

Variable MAX_PIN_LENGTH : nat.
Variable object : Type.
Variable e : env object.

Lemma length_zero (n : nat) : forall bs, length (zero n bs) = length bs.
Proof.
  induction n as [|n IH]; intros [|b r]; cbn; try reflexivity.
  f_equal. apply IH.
Qed.

(** Zeroing all but the last byte of a buffer whose last byte is the
    terminator leaves nothing but zeros. *)
Lemma zero_all_but_terminator (n : nat) : forall bs,
  length bs = S n -> bs !! n = Some 0 ->
  Forall (fun x => x = 0) (zero n bs).
Proof.
  induction n as [|n IH]; intros [|b r] Hlen Hlast; cbn in *;
    try discriminate Hlen.
  - injection Hlast as ->. destruct r; [|discriminate Hlen].
    repeat constructor.
  - constructor; [reflexivity|]. apply IH; [lia|exact Hlast].
Qed.

(** Zeroing a whole buffer. *)
Lemma zero_whole (n : nat) : forall bs,
  (length bs <= n)%nat -> Forall (fun x => x = 0) (zero n bs).
Proof.
  induction n as [|n IH]; intros [|b r] Hlen; cbn in *;
    try constructor; try lia; try reflexivity.
  apply IH. lia.
Qed.

Lemma update_bytes_at (f : list Z -> list Z) (p : nat) (h : list block)
    (b : block) :
  h !! p = Some b ->
  update_bytes f p h = <[p:={| bytes := f (bytes b); live := live b |}]> h.
Proof. intros H. unfold update_bytes. rewrite H. reflexivity. Qed.

Lemma insert_last (h : list block) (b b' : block) :
  <[length h:=b']> (h ++ [b]) = h ++ [b'].
Proof.
  replace (length h) with (length h + 0)%nat by lia.
  rewrite insert_app_r. reflexivity.
Qed.

(** Dropping the reference to a buffer that does not exist changes
    nothing for the blocks. *)
Lemma mem_ok_no_pin (c c' : ENGINE_CTX) (h : list block) :
  mem_ok c h -> pin c = None -> pin c' = None -> mem_ok c' h.
Proof.
  intros [Hb Hp] Hc Hc'. split.
  - intros p b Hl. specialize (Hb p b Hl). unfold block_ok in *.
    destruct (live b); [|exact Hb]. destruct Hb as [Hb _]. congruence.
  - intros p Hpin. congruence.
Qed.

(** [ctx_destroy_pin]: the buffer is zeroed, then freed, and the context
    no longer refers to it. *)
Lemma destroy_ok (w : world) :
  pin_memory_ok w ->
  pin_memory_ok (ctx_destroy_pin w)
  /\ pin (ctx (ctx_destroy_pin w)) = None
  /\ force_login (ctx (ctx_destroy_pin w)) = force_login (ctx w).
Proof.
  unfold pin_memory_ok, ctx_destroy_pin. intros Hok.
  destruct (pin (ctx w)) as [p|] eqn:Ep; [|auto].
  destruct Hok as [Hb Hp].
  destruct (Hp p Ep) as (b & Hl & Hlive).
  pose proof (Hb p b Hl) as Hbp. unfold block_ok in Hbp.
  rewrite Hlive in Hbp. destruct Hbp as (_ & Hlen & Hterm).
  unfold OPENSSL_cleanse, OPENSSL_free.
  rewrite (update_bytes_at _ p _ b Hl).
  rewrite list_lookup_insert_eq by (eapply lookup_lt_Some; eauto).
  rewrite list_insert_insert_eq. cbn.
  split; [|auto]. split.
  - intros q bq Hq.
    destruct (Nat.eq_dec q p) as [->|Hne].
    + rewrite list_lookup_insert_eq in Hq by (eapply lookup_lt_Some; eauto).
      injection Hq as <-. unfold block_ok. cbn.
      apply zero_all_but_terminator; assumption.
    + rewrite list_lookup_insert_ne in Hq by congruence.
      specialize (Hb q bq Hq). unfold block_ok in *.
      destruct (live bq); [|exact Hb]. destruct Hb as [Hb _]. congruence.
  - cbn. intros q Hq. discriminate Hq.
Qed.

(** A fresh PIN buffer, once cleared, with the length set: the memory
    is in order. *)
Lemma fresh_ok (c : ENGINE_CTX) (h : list block) (junk0 : list Z) :
  mem_ok c h -> pin c = None ->
  length junk0 = S MAX_PIN_LENGTH ->
  mem_ok {| pin := Some (length h); pin_length := MAX_PIN_LENGTH;
            forced_pin := forced_pin c; force_login := force_login c |}
         (h ++ [{| bytes := zero (MAX_PIN_LENGTH + 1) junk0; live := true |}]).
Proof.
  intros [Hb Hp] Hc Hj.
  assert (Hz : Forall (fun x => x = 0) (zero (MAX_PIN_LENGTH + 1) junk0))
    by (apply zero_whole; lia).
  split.
  - intros q bq Hq. apply lookup_snoc_Some in Hq.
    destruct Hq as [[Hlt Hq]|[-> <-]].
    + specialize (Hb q bq Hq). unfold block_ok in *.
      destruct (live bq); [|exact Hb]. destruct Hb as [Hb _]. congruence.
    + unfold block_ok. cbn. split; [reflexivity|].
      split; [rewrite length_zero; exact Hj|].
      rewrite Forall_lookup in Hz.
      destruct (lookup_lt_is_Some_2 (zero (MAX_PIN_LENGTH + 1) junk0)
                  MAX_PIN_LENGTH) as [x Hx];
        [rewrite length_zero; lia|].
      rewrite Hx. f_equal. exact (Hz _ _ Hx).
  - cbn. intros q [= <-]. eexists. split.
    + apply lookup_snoc_Some. right. split; reflexivity.
    + reflexivity.
Qed.

(** The text typed, stored in the buffer: still [pin_length + 1] bytes
    with a terminator at the end. *)
Lemma ui_store_ok (c : ENGINE_CTX) (h : list block) (p : nat)
    (entered : list Z) :
  mem_ok c h -> pin c = Some p -> pin_length c = MAX_PIN_LENGTH ->
  mem_ok c (ui_store MAX_PIN_LENGTH entered p h).
Proof.
  intros [Hb Hp] Hc Hlen.
  destruct (Hp p Hc) as (b & Hl & Hlive).
  pose proof (Hb p b Hl) as Hbp. unfold block_ok in Hbp.
  rewrite Hlive, Hlen in Hbp. destruct Hbp as (_ & Hblen & Hterm).
  unfold ui_store. rewrite (update_bytes_at _ p _ b Hl).
  set (txt := firstn MAX_PIN_LENGTH entered).
  assert (Htxt : (length txt <= MAX_PIN_LENGTH)%nat)
    by (unfold txt; rewrite length_take; lia).
  assert (Hst : store (bytes b) 0 (txt ++ [0])
                = (txt ++ [0]) ++ skipn (length txt + 1) (bytes b)).
  { rewrite store_spec by (rewrite length_app; cbn; lia).
    cbn [firstn app Nat.add]. rewrite length_app. reflexivity. }
  split.
  - intros q bq Hq.
    destruct (Nat.eq_dec q p) as [->|Hne].
    + rewrite list_lookup_insert_eq in Hq by (eapply lookup_lt_Some; eauto).
      injection Hq as <-. unfold block_ok. cbn. rewrite Hlive.
      split; [exact Hc|]. rewrite Hlen, Hst. split.
      * rewrite !length_app, length_drop. cbn. lia.
      * destruct (Nat.eq_dec (length txt) MAX_PIN_LENGTH) as [Heq|Hneq].
        -- rewrite lookup_app_l by (rewrite length_app; cbn; lia).
           rewrite lookup_app_r by lia.
           replace (MAX_PIN_LENGTH - length txt)%nat with 0%nat by lia.
           reflexivity.
        -- rewrite lookup_app_r by (rewrite length_app; cbn; lia).
           rewrite lookup_drop, length_app. cbn [length].
           replace (length txt + 1 + (MAX_PIN_LENGTH - (length txt + 1)))%nat
             with MAX_PIN_LENGTH by lia.
           exact Hterm.
    + rewrite list_lookup_insert_ne in Hq by congruence.
      exact (Hb q bq Hq).
  - intros q Hq. rewrite Hc in Hq. injection Hq as <-.
    eexists. split.
    + apply list_lookup_insert_eq. eapply lookup_lt_Some; eauto.
    + exact Hlive.
Qed.

(** Allocating the PIN buffer and clearing it. *)
Lemma alloc_clear_ok (w : world) :
  pin_memory_ok w -> pin (ctx w) = None ->
  match pin (ctx (alloc_pin MAX_PIN_LENGTH e w)) with
  | None => pin_memory_ok (alloc_pin MAX_PIN_LENGTH e w)
  | Some p =>
      pin_memory_ok
        (set_pin_length MAX_PIN_LENGTH
           (set_heap
              (memset0 p (MAX_PIN_LENGTH + 1)
                 (heap (alloc_pin MAX_PIN_LENGTH e w)))
              (alloc_pin MAX_PIN_LENGTH e w)))
  end.
Proof.
  unfold pin_memory_ok, alloc_pin, OPENSSL_malloc. intros Hok Hpin.
  destruct (malloc_ok e (length (heap w))); cbn.
  - unfold memset0.
    erewrite update_bytes_at
      by (apply lookup_snoc_Some; right; split; reflexivity).
    rewrite insert_last. cbn [bytes live].
    apply fresh_ok; [exact Hok|exact Hpin|].
    rewrite length_map, length_seq. lia.
  - eapply mem_ok_no_pin; [exact Hok|exact Hpin|reflexivity].
Qed.

(** [ctx_get_pin] keeps the memory in order. *)
Lemma ctx_get_pin_ok (w : world) :
  pin_memory_ok w ->
  pin_memory_ok (snd (ctx_get_pin MAX_PIN_LENGTH e w)).
Proof.
  intros Hok. unfold ctx_get_pin.
  destruct (destroy_ok w Hok) as (Hd & Hnone & _).
  pose proof (alloc_clear_ok (ctx_destroy_pin w) Hd Hnone) as Ha.
  destruct (ui e) as [| | |rv entered]; [exact Hok| | |];
    cbn zeta;
    destruct (pin (ctx (alloc_pin MAX_PIN_LENGTH e (ctx_destroy_pin w))))
      as [p|] eqn:Ep; try exact Ha.
  assert (Hs : pin_memory_ok
    (set_heap
       (ui_store MAX_PIN_LENGTH entered p
          (heap
             (set_pin_length MAX_PIN_LENGTH
                (set_heap
                   (memset0 p (MAX_PIN_LENGTH + 1)
                      (heap (alloc_pin MAX_PIN_LENGTH e (ctx_destroy_pin w))))
                   (alloc_pin MAX_PIN_LENGTH e (ctx_destroy_pin w))))))
       (set_pin_length MAX_PIN_LENGTH
          (set_heap
             (memset0 p (MAX_PIN_LENGTH + 1)
                (heap (alloc_pin MAX_PIN_LENGTH e (ctx_destroy_pin w))))
             (alloc_pin MAX_PIN_LENGTH e (ctx_destroy_pin w)))))).
  { unfold pin_memory_ok in *. cbn in *.
    apply ui_store_ok; [exact Ha|exact Ep|reflexivity]. }
  destruct (negb (rv =? 0)); exact Hs.
Qed.

(** [PKCS11_login] does not touch the context or the PIN memory. *)
Lemma PKCS11_login_frame (w : world) (slot : PKCS11_SLOT) :
  ctx (snd (PKCS11_login e w slot)) = ctx w
  /\ heap (snd (PKCS11_login e w slot)) = heap w.
Proof.
  unfold PKCS11_login.
  destruct (login_rv e slot (pin_string w) =? 0); split; reflexivity.
Qed.

(** The login itself and what follows a refusal. *)
Lemma login_finish_ok (w : world) (slot : PKCS11_SLOT) :
  pin_memory_ok w ->
  let r := (let '(rv, w2) := PKCS11_login e w slot in
            if negb (rv =? 0) then (0, ctx_destroy_pin w2) else (1, w2)) in
  pin_memory_ok (snd r) /\ (fst r = 0 -> pin (ctx (snd r)) = None).
Proof.
  intros Hok. cbn zeta.
  destruct (PKCS11_login_frame w slot) as [Hc Hh].
  destruct (PKCS11_login e w slot) as [rv w2]. cbn [snd] in Hc, Hh.
  assert (Hok2 : pin_memory_ok w2)
    by (unfold pin_memory_ok; rewrite Hc, Hh; exact Hok).
  destruct (negb (rv =? 0)); cbn [fst snd].
  - destruct (destroy_ok w2 Hok2) as (Hd & Hn & _). auto.
  - split; [exact Hok2|discriminate].
Qed.

(** [ctx_login] keeps the memory in order; when it fails the context
    holds no PIN. *)
Lemma ctx_login_ok (w : world) (slot : PKCS11_SLOT) (tok : PKCS11_TOKEN) :
  pin_memory_ok w ->
  pin_memory_ok (snd (ctx_login MAX_PIN_LENGTH e w slot tok))
  /\ (fst (ctx_login MAX_PIN_LENGTH e w slot tok) = 0 ->
      pin (ctx (snd (ctx_login MAX_PIN_LENGTH e w slot tok))) = None).
Proof.
  intros Hok0. unfold ctx_login.
  set (w1 := Lookup.emit (EvCtxLogin slot) w).
  assert (Hok : pin_memory_ok w1) by exact Hok0.
  clearbody w1. clear Hok0 w.
  destruct (negb (force_login (ctx w1) || loginRequired tok)
            || slot_logged_in e w1 slot).
  { cbn. split; [exact Hok|discriminate]. }
  unfold ctx_login_body.
  destruct (secureLogin tok && negb (forced_pin (ctx w1))).
  { destruct (destroy_ok w1 Hok) as (Hd & _).
    exact (login_finish_ok _ slot Hd). }
  destruct (pin (ctx w1)) as [p0|] eqn:Ep0.
  { exact (login_finish_ok _ slot Hok). }
  pose proof (alloc_clear_ok w1 Hok Ep0) as Ha.
  destruct (pin (ctx (set_pin_length MAX_PIN_LENGTH
                        (alloc_pin MAX_PIN_LENGTH e w1)))) as [p|] eqn:Ep.
  - change (pin (ctx (alloc_pin MAX_PIN_LENGTH e w1)) = Some p) in Ep.
    rewrite Ep in Ha.
    set (w2 := set_heap _ _).
    assert (Hok2 : pin_memory_ok w2) by exact Ha.
    clearbody w2.
    pose proof (ctx_get_pin_ok w2 Hok2) as Hg.
    destruct (ctx_get_pin MAX_PIN_LENGTH e w2) as [got w3].
    cbn [snd] in Hg.
    destruct (got =? 0).
    + destruct (destroy_ok w3 Hg) as (Hd & Hn & _). cbn. auto.
    + exact (login_finish_ok _ slot Hg).
  - change (pin (ctx (alloc_pin MAX_PIN_LENGTH e w1)) = None) in Ep.
    rewrite Ep in Ha. cbn [fst snd]. split; [|intros _; cbn; exact Ep].
    unfold pin_memory_ok in *. cbn.
    eapply mem_ok_no_pin; [exact Ha|exact Ep|cbn; exact Ep].
Qed.

End PinMemory.

(** C6.  Starting from PIN memory that is in order, [ctx_destroy_pin],
    [ctx_get_pin] and [ctx_login] leave it in order: every buffer they
    free holds only zeros when it is freed, and no buffer is dropped
    without being freed.  That covers the refused login, the buffer
    replaced for the prompt, and the login through the keypad of the
    token.  After [ctx_destroy_pin], and after a [ctx_login] that
    failed, the context holds no PIN. *)
Theorem pin_zeroed_on_every_path
    (MAX_PIN_LENGTH : nat) (object : Type) (e : Lookup.env object)
    (w : Lookup.world) (slot : Lookup.PKCS11_SLOT)
    (tok : Lookup.PKCS11_TOKEN) :
  pin_memory_ok w ->
  (pin_memory_ok (Lookup.ctx_destroy_pin w)
   /\ Lookup.pin (Lookup.ctx (Lookup.ctx_destroy_pin w)) = None)
  /\ pin_memory_ok (snd (Lookup.ctx_get_pin MAX_PIN_LENGTH e w))
  /\ pin_memory_ok (snd (Lookup.ctx_login MAX_PIN_LENGTH e w slot tok))
  /\ (fst (Lookup.ctx_login MAX_PIN_LENGTH e w slot tok) = 0 ->
      Lookup.pin
        (Lookup.ctx (snd (Lookup.ctx_login MAX_PIN_LENGTH e w slot tok)))
      = None).
Proof.
  intros Hok.
  destruct (destroy_ok w Hok) as (Hd & Hn & _).
  destruct (ctx_login_ok MAX_PIN_LENGTH object e w slot tok Hok) as [Hl Hf].
  split; [split; assumption|].
  split; [exact (ctx_get_pin_ok MAX_PIN_LENGTH object e w Hok)|].
  split; assumption.
Qed.

Lemma world_with_pin_ok : pin_memory_ok world_with_pin.
Proof.
  split.
  - intros [|p] b H; cbn in H; [|destruct p; discriminate H].
    injection H as <-. unfold block_ok. cbn. repeat split.
  - intros p H. cbn in H. injection H as <-. eexists.
    split; reflexivity.
Qed.

(** The cached PIN ["1234"] is refused by the token: the buffer is freed
    with zeros in it and the context holds no PIN. *)
Lemma pin_zeroed_on_every_path_witness :
  Lookup.pin
    (Lookup.ctx
       (snd (Lookup.ctx_login 8 (refusing Lookup.no_selector) world_with_pin
               (demo_slot 0 true) (demo_token true))))
  = None.
Proof.
  apply (pin_zeroed_on_every_path 8 nat (refusing Lookup.no_selector)
           world_with_pin (demo_slot 0 true) (demo_token true)
           world_with_pin_ok).
  reflexivity.
Defined.

Example refused_login_memory :
  Lookup.heap
    (snd (Lookup.ctx_login 8 (refusing Lookup.no_selector) world_with_pin
            (demo_slot 0 true) (demo_token true)))
  = [{| Lookup.bytes := [0; 0; 0; 0; 0]; Lookup.live := false |}].
Proof. reflexivity. Qed.

(** ** Login during a lookup *)

Section LookupLogin.

Import Lookup.

Variable MAX_PIN_LENGTH : nat.
Variable object : Type.
Variable e : env object.

Lemma ctx_login_calls_app (a b : list event) :
  ctx_login_calls (a ++ b) = ctx_login_calls a ++ ctx_login_calls b.
Proof.
  induction a as [|ev a IH]; cbn; [reflexivity|].
  destruct ev; cbn; rewrite IH; reflexivity.
Qed.

Lemma token_logins_app (a b : list event) :
  token_logins (a ++ b) = token_logins a ++ token_logins b.
Proof.
  induction a as [|ev a IH]; cbn; [reflexivity|].
  destruct ev; cbn; rewrite IH; reflexivity.
Qed.

Lemma ctx_login_calls_matches (slots : list PKCS11_SLOT) :
  ctx_login_calls (map EvMatch slots) = []
  /\ token_logins (map EvMatch slots) = [].
Proof. induction slots as [|s r [IH1 IH2]]; cbn; auto. Qed.

Lemma ctx_login_calls_candidates (slots : list PKCS11_SLOT) : forall m,
  ctx_login_calls (candidate_lines m slots) = []
  /\ token_logins (candidate_lines m slots) = [].
Proof. induction slots as [|s r IH]; intros m; cbn; auto. Qed.

(** *** What each step adds to the trace *)

Lemma trace_destroy (w : world) : trace (ctx_destroy_pin w) = trace w.
Proof. unfold ctx_destroy_pin. destruct (pin (ctx w)); reflexivity. Qed.

Lemma trace_alloc (w : world) :
  trace (alloc_pin MAX_PIN_LENGTH e w) = trace w.
Proof.
  unfold alloc_pin, OPENSSL_malloc.
  destruct (malloc_ok e (length (heap w))); reflexivity.
Qed.

Lemma trace_get_pin (w : world) :
  trace (snd (ctx_get_pin MAX_PIN_LENGTH e w)) = trace w.
Proof.
  unfold ctx_get_pin.
  destruct (ui e) as [| | |rv entered]; [reflexivity| | |]; cbn zeta;
    destruct (pin (ctx (alloc_pin MAX_PIN_LENGTH e (ctx_destroy_pin w))));
    try destruct (negb (rv =? 0)); cbn;
    rewrite trace_alloc, trace_destroy; reflexivity.
Qed.

(** The login itself: one call of [PKCS11_login] on the slot. *)
Lemma login_finish_trace (w : world) (slot : PKCS11_SLOT) :
  let r := (let '(rv, w2) := PKCS11_login e w slot in
            if negb (rv =? 0) then (0, ctx_destroy_pin w2) else (1, w2)) in
  exists pin0, trace (snd r) = trace w ++ [EvPKCS11Login slot pin0].
Proof.
  cbn zeta. unfold PKCS11_login. exists (pin_string w).
  destruct (login_rv e slot (pin_string w) =? 0) eqn:E; cbn;
    rewrite E; cbn; rewrite ?trace_destroy; reflexivity.
Qed.

(** [ctx_login] notes the call and hands at most one PIN to the token,
    for the same slot. *)
Lemma ctx_login_trace (w : world) (slot : PKCS11_SLOT) (tok : PKCS11_TOKEN) :
  exists evs,
    trace (snd (ctx_login MAX_PIN_LENGTH e w slot tok))
    = trace w ++ EvCtxLogin slot :: evs
    /\ (evs = [] \/ exists pin0, evs = [EvPKCS11Login slot pin0]).
Proof.
  unfold ctx_login.
  set (w1 := Lookup.emit (EvCtxLogin slot) w).
  assert (Hw1 : trace w1 = trace w ++ [EvCtxLogin slot]) by reflexivity.
  clearbody w1.
  assert (Hfin : forall w2, trace w2 = trace w1 ->
    let r := (let '(rv, w3) := PKCS11_login e w2 slot in
              if negb (rv =? 0) then (0, ctx_destroy_pin w3) else (1, w3)) in
    exists evs,
      trace (snd r) = trace w ++ EvCtxLogin slot :: evs
      /\ (evs = [] \/ exists pin0, evs = [EvPKCS11Login slot pin0])).
  { intros w2 Hw2. destruct (login_finish_trace w2 slot) as [pin0 Hp].
    exists [EvPKCS11Login slot pin0]. split; [|right; eauto].
    cbn zeta in Hp |- *. rewrite Hp, Hw2, Hw1, <- app_assoc. reflexivity. }
  assert (Hnone : forall w2, trace w2 = trace w1 ->
    exists evs,
      trace w2 = trace w ++ EvCtxLogin slot :: evs
      /\ (evs = [] \/ exists pin0, evs = [EvPKCS11Login slot pin0])).
  { intros w2 Hw2. exists []. split; [|left; reflexivity].
    rewrite Hw2, Hw1. reflexivity. }
  destruct (negb (force_login (ctx w1) || loginRequired tok)
            || slot_logged_in e w1 slot).
  { apply Hnone. reflexivity. }
  unfold ctx_login_body.
  destruct (secureLogin tok && negb (forced_pin (ctx w1))).
  { apply Hfin. apply trace_destroy. }
  destruct (pin (ctx w1)).
  { apply Hfin. reflexivity. }
  destruct (pin (ctx (set_pin_length MAX_PIN_LENGTH
                        (alloc_pin MAX_PIN_LENGTH e w1)))) as [p|].
  - set (w2 := set_heap _ _).
    assert (Hw2 : trace w2 = trace w1) by (apply trace_alloc).
    clearbody w2.
    pose proof (trace_get_pin w2) as Hg.
    destruct (ctx_get_pin MAX_PIN_LENGTH e w2) as [got w3].
    cbn [snd] in Hg.
    destruct (got =? 0).
    + apply Hnone. cbn [snd]. rewrite trace_destroy. congruence.
    + apply Hfin. congruence.
  - apply Hnone. cbn [snd]. apply trace_alloc.
Qed.

Lemma call_match_trace (sel : selector) (slot : PKCS11_SLOT) (w : world) :
  trace (snd (call_match e sel slot w)) = trace w ++ [EvMatch slot].
Proof. reflexivity. Qed.

(** The slot chosen for login: a call of [ctx_login] exactly when the
    token asks for login or login is forced, for this slot only. *)
Lemma login_and_match_trace (sel : selector) (slot : PKCS11_SLOT)
    (tok : PKCS11_TOKEN) (w : world) :
  token slot = Some tok ->
  exists evs,
    trace (snd (login_and_match MAX_PIN_LENGTH e sel slot w)) = trace w ++ evs
    /\ ctx_login_calls evs
       = (if loginRequired tok || force_login (ctx w) then [slot] else [])
    /\ (forall s, In s (token_logins evs) -> In s (ctx_login_calls evs)).
Proof.
  intros Htok. unfold login_and_match. rewrite Htok.
  destruct (loginRequired tok || force_login (ctx w)).
  - destruct (ctx_login_trace w slot tok) as (evs & Htr & Hevs).
    destruct (ctx_login MAX_PIN_LENGTH e w slot tok) as [ok w1].
    cbn [snd] in Htr.
    assert (Hc : ctx_login_calls (EvCtxLogin slot :: evs) = [slot]
                 /\ forall s, In s (token_logins (EvCtxLogin slot :: evs)) ->
                              In s [slot]).
    { destruct Hevs as [->|[pin0 ->]]; cbn; split; try reflexivity;
        intros s Hs; [contradiction|exact Hs]. }
    destruct Hc as [Hc1 Hc2].
    destruct (ok =? 0).
    + exists (EvCtxLogin slot :: evs). cbn [snd].
      split; [exact Htr|]. split; [exact Hc1|].
      rewrite Hc1. exact Hc2.
    + exists ((EvCtxLogin slot :: evs) ++ [EvMatch slot]).
      rewrite call_match_trace, Htr, ctx_login_calls_app, token_logins_app,
        <- app_assoc.
      rewrite Hc1. cbn [ctx_login_calls token_logins].
      split; [reflexivity|]. split; [reflexivity|].
      rewrite app_nil_r. exact Hc2.
  - exists [EvMatch slot]. rewrite call_match_trace. cbn.
    split; [reflexivity|]. split; [reflexivity|]. intros s [].
Qed.

Lemma list_candidates_trace (slots : list PKCS11_SLOT) : forall m w,
  trace (list_candidates m slots w) = trace w ++ candidate_lines m slots
  /\ ctx (list_candidates m slots w) = ctx w.
Proof.
  induction slots as [|slot rest IH]; intros m w; cbn.
  - rewrite app_nil_r. auto.
  - destruct (IH (S m) (Lookup.emit (EvCandidate (S m) slot) w)) as [H1 H2].
    rewrite H1, H2. cbn. rewrite <- app_assoc. auto.
Qed.

(** The scan of the uninitialized tokens only calls the match function,
    slot after slot. *)
Lemma scan_uninit_trace (sel : selector) (slots : list PKCS11_SLOT) :
  forall w, exists k,
    trace (snd (scan_uninit e sel slots w))
    = trace w ++ map EvMatch (firstn k slots).
Proof.
  induction slots as [|slot rest IH]; intros w; cbn [scan_uninit].
  - exists 0%nat. cbn. rewrite app_nil_r. reflexivity.
  - unfold call_match at 1.
    destruct (match_func e (session w) slot (obj_id sel) (obj_label sel)).
    + exists 1%nat. reflexivity.
    + destruct (IH (Lookup.emit (EvMatch slot) w)) as [k Hk].
      exists (S k). rewrite Hk. cbn. rewrite <- app_assoc. reflexivity.
Qed.

(** *** The slots that matched *)

Lemma has_token_Some (slot : PKCS11_SLOT) (tok : PKCS11_TOKEN) :
  token slot = Some tok -> has_token slot = true.
Proof.
  intros H. unfold has_token. rewrite H. apply bool_decide_eq_true_2. eauto.
Qed.

Lemma has_token_None (slot : PKCS11_SLOT) :
  token slot = None -> has_token slot = false.
Proof.
  intros H. unfold has_token. rewrite H. apply bool_decide_eq_false_2.
  intros [tok Htok]. discriminate Htok.
Qed.

(** The loop over the slots comes to its end exactly when every slot
    holds a token; it has then collected the slots found, in the order
    of the list.  With a slot that holds none it reads through the null
    pointer in the round of the first such slot. *)
Lemma slot_loop_eq (sel : selector) : forall slot_list matched,
  slot_loop sel slot_list matched
  = if forallb has_token slot_list
    then Returns
           (matched
            ++ List.filter (fun slot => slot_found sel slot && has_token slot)
                 slot_list)
    else NullRead.
Proof.
  induction slot_list as [|slot rest IH]; intros matched;
    cbn [slot_loop forallb List.filter].
  - rewrite app_nil_r. reflexivity.
  - destruct (token slot) as [tok|] eqn:Htok.
    + rewrite (has_token_Some slot tok Htok), IH.
      destruct (slot_found sel slot); cbn [andb];
        rewrite ?(has_token_Some slot tok Htok);
        destruct (forallb has_token rest); try reflexivity.
      rewrite <- app_assoc. reflexivity.
    + rewrite (has_token_None slot Htok). reflexivity.
Qed.

Lemma matched_slots_eq (sel : selector) (slot_list : list PKCS11_SLOT) :
  matched_slots e sel slot_list
  = if forallb has_token slot_list
    then Returns
           match List.filter
                   (fun slot => slot_found sel slot && has_token slot)
                   slot_list with
           | [] =>
               if bool_decide (is_Some (match_tok sel)) then None
               else if negb (slot_nr sel =? -1) then None
               else match PKCS11_find_token e slot_list with
                    | Some found_slot =>
                        if has_token found_slot then Some [found_slot]
                        else None
                    | None => None
                    end
           | matched => Some matched
           end
    else NullRead.
Proof.
  unfold matched_slots. rewrite slot_loop_eq.
  destruct (forallb has_token slot_list); [|reflexivity].
  cbn [app].
  destruct (List.filter (fun slot => slot_found sel slot && has_token slot)
              slot_list); reflexivity.
Qed.

(** With a token in every slot the slots are matched and the loop
    returns; one slot without a token is enough for the null read. *)
Lemma matched_slots_returns (sel : selector) (slot_list : list PKCS11_SLOT) :
  (Forall (fun slot => is_Some (token slot)) slot_list ->
   exists matched, matched_slots e sel slot_list = Returns matched)
  /\ (forall slot, In slot slot_list -> token slot = None ->
      matched_slots e sel slot_list = NullRead).
Proof.
  rewrite matched_slots_eq. split.
  - intros Hall.
    replace (forallb has_token slot_list) with true; [eauto|].
    symmetry. apply forallb_forall. intros slot Hin.
    rewrite List.Forall_forall in Hall.
    destruct (Hall slot Hin) as [tok Htok].
    exact (has_token_Some slot tok Htok).
  - intros slot Hin Htok.
    destruct (forallb has_token slot_list) eqn:Hf; [|reflexivity].
    rewrite forallb_forall in Hf. specialize (Hf slot Hin).
    rewrite (has_token_None slot Htok) in Hf. discriminate Hf.
Qed.

(** The slots of [matched_slots] hold a token and are selected. *)
Lemma matched_slots_selected (sel : selector)
    (slot_list matched : list PKCS11_SLOT) :
  matched_slots e sel slot_list = Returns (Some matched) ->
  forall s, In s matched ->
    is_Some (token s) /\ selected e sel slot_list s.
Proof.
  rewrite matched_slots_eq.
  destruct (forallb has_token slot_list); [|discriminate].
  destruct (List.filter (fun slot => slot_found sel slot && has_token slot)
              slot_list) as [|m0 ms] eqn:Hf.
  - destruct (bool_decide (is_Some (match_tok sel))) eqn:Hmt; [discriminate|].
    destruct (slot_nr sel =? -1) eqn:Hnr; cbn [negb]; [|discriminate].
    destruct (PKCS11_find_token e slot_list) as [found|] eqn:Hft;
      [|discriminate].
    destruct (has_token found) eqn:Hht; [|discriminate].
    intros [= <-] s [<-|[]]. split.
    + unfold has_token in Hht. apply bool_decide_eq_true in Hht. exact Hht.
    + right. apply bool_decide_eq_false in Hmt. apply Z.eqb_eq in Hnr.
      split; [|auto].
      destruct (match_tok sel); [exfalso; apply Hmt; eauto|reflexivity].
  - intros [= <-] s Hs. rewrite <- Hf in Hs.
    apply List.filter_In in Hs as [Hin Hs].
    apply andb_prop in Hs as [Hfound Hht]. split.
    + unfold has_token in Hht. apply bool_decide_eq_true in Hht. exact Hht.
    + left. auto.
Qed.

(** *** The searches *)

(** The scan of the uninitialized tokens looks at them in order and
    stops behind the first that has the object. *)
Lemma scan_uninit_search (sel : selector) (slots : list PKCS11_SLOT) :
  forall w, exists searched,
    trace (snd (scan_uninit e sel slots w))
    = trace w ++ map EvMatch searched
    /\ searched_in_order
         (fun slot => match_func e (session w) slot (obj_id sel) (obj_label sel))
         slots searched (fst (scan_uninit e sel slots w)).
Proof.
  induction slots as [|slot rest IH]; intros w; cbn [scan_uninit].
  - exists []. cbn. rewrite app_nil_r. auto.
  - unfold call_match.
    destruct (match_func e (session w) slot (obj_id sel) (obj_label sel))
      as [obj|] eqn:Hf.
    + exists [slot]. cbn [fst snd]. split; [reflexivity|].
      unfold searched_in_order. exists [], slot, rest. auto.
    + destruct (IH (Lookup.emit (EvMatch slot) w)) as (searched & Htr & Hs).
      exists (slot :: searched). split.
      { rewrite Htr. cbn. rewrite <- app_assoc. reflexivity. }
      change (session (Lookup.emit (EvMatch slot) w)) with (session w) in Hs.
      destruct (fst (scan_uninit e sel rest (Lookup.emit (EvMatch slot) w)))
        as [obj|]; unfold searched_in_order in *.
      * destruct Hs as (before & s & after & -> & -> & Hb & Hfound).
        exists (slot :: before), s, after. auto.
      * destruct Hs as [-> Hall]. auto.
Qed.

(** The pass without login does the same on slots that hold a token. *)
Lemma scan_public_search (sel : selector) (slots : list PKCS11_SLOT) :
  Forall (fun slot => is_Some (token slot)) slots ->
  forall w, exists searched,
    trace (snd (scan_public e sel slots w))
    = trace w ++ map EvMatch searched
    /\ searched_in_order
         (fun slot => match_func e (session w) slot (obj_id sel) (obj_label sel))
         slots searched (fst (scan_public e sel slots w)).
Proof.
  induction 1 as [|slot rest [tok Htok] _ IH]; intros w; cbn [scan_public].
  - exists []. cbn. rewrite app_nil_r. auto.
  - rewrite Htok. unfold call_match.
    destruct (match_func e (session w) slot (obj_id sel) (obj_label sel))
      as [obj|] eqn:Hf.
    + exists [slot]. cbn [fst snd]. split; [reflexivity|].
      unfold searched_in_order. exists [], slot, rest. auto.
    + destruct (IH (Lookup.emit (EvMatch slot) w)) as (searched & Htr & Hs).
      exists (slot :: searched). split.
      { rewrite Htr. cbn. rewrite <- app_assoc. reflexivity. }
      change (session (Lookup.emit (EvMatch slot) w)) with (session w) in Hs.
      destruct (fst (scan_public e sel rest (Lookup.emit (EvMatch slot) w)))
        as [obj|]; unfold searched_in_order in *.
      * destruct Hs as (before & s & after & -> & -> & Hb & Hfound).
        exists (slot :: before), s, after. auto.
      * destruct Hs as [-> Hall]. auto.
Qed.

Lemma session_candidates (slots : list PKCS11_SLOT) : forall m w,
  session (list_candidates m slots w) = session w.
Proof.
  induction slots as [|slot rest IH]; intros m w; cbn; [reflexivity|].
  rewrite IH. reflexivity.
Qed.

(** The slot chosen for login, step by step.  With no login due it is
    searched at once.  With a login due [ctx_login] is called first; the
    slot is searched when the login went through and the lookup ends
    without an object when it did not. *)
Lemma login_and_match_search (sel : selector) (slot : PKCS11_SLOT)
    (tok : PKCS11_TOKEN) (w : world) :
  token slot = Some tok ->
  let r := login_and_match MAX_PIN_LENGTH e sel slot w in
  if loginRequired tok || force_login (ctx w)
  then let l := ctx_login MAX_PIN_LENGTH e w slot tok in
       if fst l =? 0 then r = (None, snd l)
       else r = (match_func e (session (snd l)) slot (obj_id sel)
                   (obj_label sel),
                 Lookup.emit (EvMatch slot) (snd l))
  else r = (match_func e (session w) slot (obj_id sel) (obj_label sel),
            Lookup.emit (EvMatch slot) w).
Proof.
  intros Htok. cbn zeta. unfold login_and_match. rewrite Htok.
  destruct (loginRequired tok || force_login (ctx w)); [|reflexivity].
  destruct (ctx_login MAX_PIN_LENGTH e w slot tok) as [ok w1].
  cbn [fst snd]. destruct (ok =? 0); reflexivity.
Qed.

End LookupLogin.

(** C2 (amended).  In a lookup pass with login requested that comes to
    search its slots, the pass returns, [ctx_login] is called for at
    most one slot, and [PKCS11_login] only for that slot.  When exactly
    one slot matched, or several matched and exactly one of them holds
    an initialized token, this slot is the only one the pass works on.
    If its token asks for login or login is forced, [ctx_login] is
    called for it first; the slot is searched when [ctx_login] returns
    non-zero, and the pass ends without an object and without a search
    when it returns 0.  Otherwise there is no login and the slot is
    searched at once, the object found there being the result.  When
    several slots matched and more than one of them holds an initialized
    token, there is no login at all: the warning with the number of
    candidates and one line per candidate are logged, and then the
    uninitialized tokens among the matched slots are searched in order,
    up to the first that has the object. *)
Theorem login_on_at_most_one_slot
    (MAX_PIN_LENGTH : nat) (object : Type) (e : Lookup.env object)
    (slot_list : list Lookup.PKCS11_SLOT) (w : Lookup.world)
    (c : Lookup.ENGINE_CTX) (h : list Lookup.block)
    (sel : Lookup.selector) (matched : list Lookup.PKCS11_SLOT) :
  Lookup.prelude e (Lookup.ctx w) (Lookup.heap w) = (c, h, Some sel) ->
  Lookup.calloc_ok e 0 = true ->
  Lookup.calloc_ok e 1 = true ->
  Lookup.calloc_ok e 2 = true ->
  Lookup.matched_slots e sel slot_list = Lookup.Returns (Some matched) ->
  let init_slots := List.filter Lookup.is_initialized matched in
  let uninit_slots := List.filter Lookup.is_uninitialized matched in
  let w1 := Lookup.set_heap h (Lookup.set_ctx c w) in
  exists obj w' evs,
    Lookup.ctx_try_load_object MAX_PIN_LENGTH e slot_list true w
    = Lookup.Returns (obj, w')
    /\ Lookup.trace w' = Lookup.trace w ++ evs
    /\ (length (Lookup.ctx_login_calls evs) <= 1)%nat
    /\ (forall s, In s (Lookup.token_logins evs) ->
                  In s (Lookup.ctx_login_calls evs))
    /\ (forall slot tok,
          matched = [slot]
          \/ (length matched <> 1%nat /\ init_slots = [slot]) ->
          Lookup.token slot = Some tok ->
          Lookup.ctx_login_calls evs
          = (if Lookup.loginRequired tok || Lookup.force_login c
             then [slot] else [])
          /\ (Lookup.loginRequired tok || Lookup.force_login c = false ->
              evs = [Lookup.EvMatch slot]
              /\ obj = Lookup.match_func e (Lookup.session w) slot
                         (Lookup.obj_id sel) (Lookup.obj_label sel))
          /\ (Lookup.loginRequired tok || Lookup.force_login c = true ->
              let l := Lookup.ctx_login MAX_PIN_LENGTH e w1 slot tok in
              (exists levs,
                 (levs = []
                  \/ exists pin0, levs = [Lookup.EvPKCS11Login slot pin0])
                 /\ Lookup.trace (snd l)
                    = Lookup.trace w ++ Lookup.EvCtxLogin slot :: levs)
              /\ if fst l =? 0
                 then obj = None /\ w' = snd l
                 else obj = Lookup.match_func e (Lookup.session (snd l)) slot
                              (Lookup.obj_id sel) (Lookup.obj_label sel)
                      /\ w' = Lookup.emit (Lookup.EvMatch slot) (snd l)))
    /\ (length matched <> 1%nat -> (1 < length init_slots)%nat ->
        Lookup.ctx_login_calls evs = []
        /\ Lookup.token_logins evs = []
        /\ exists searched,
             evs = Lookup.EvMultipleMatching (length init_slots)
                   :: candidate_lines 0 init_slots
                   ++ map Lookup.EvMatch searched
             /\ searched_in_order
                  (fun slot => Lookup.match_func e (Lookup.session w) slot
                                 (Lookup.obj_id sel) (Lookup.obj_label sel))
                  uninit_slots searched obj).
Proof.
  intros Hpre Hc0 Hc1 Hc2 Hm. cbn zeta.
  unfold Lookup.ctx_try_load_object. rewrite Hpre, Hc0, Hm. cbn [negb].
  remember (Lookup.set_heap h (Lookup.set_ctx c w)) as w1 eqn:Hw1def.
  assert (Hw1 : Lookup.trace w1 = Lookup.trace w) by (rewrite Hw1def; reflexivity).
  assert (Hcw1 : Lookup.ctx w1 = c) by (rewrite Hw1def; reflexivity).
  assert (Hsw1 : Lookup.session w1 = Lookup.session w)
    by (rewrite Hw1def; reflexivity).
  clear Hw1def.
  pose (Post := fun r : option object * Lookup.world =>
    exists evs,
      Lookup.trace (snd r) = Lookup.trace w ++ evs
      /\ (length (Lookup.ctx_login_calls evs) <= 1)%nat
      /\ (forall s, In s (Lookup.token_logins evs) ->
                    In s (Lookup.ctx_login_calls evs))
      /\ (forall slot tok,
            matched = [slot]
            \/ (length matched <> 1%nat
                /\ List.filter Lookup.is_initialized matched = [slot]) ->
            Lookup.token slot = Some tok ->
            Lookup.ctx_login_calls evs
            = (if Lookup.loginRequired tok || Lookup.force_login c
               then [slot] else [])
            /\ (Lookup.loginRequired tok || Lookup.force_login c = false ->
                evs = [Lookup.EvMatch slot]
                /\ fst r = Lookup.match_func e (Lookup.session w) slot
                             (Lookup.obj_id sel) (Lookup.obj_label sel))
            /\ (Lookup.loginRequired tok || Lookup.force_login c = true ->
                (exists levs,
                   (levs = []
                    \/ exists pin0, levs = [Lookup.EvPKCS11Login slot pin0])
                   /\ Lookup.trace
                        (snd (Lookup.ctx_login MAX_PIN_LENGTH e w1 slot tok))
                      = Lookup.trace w ++ Lookup.EvCtxLogin slot :: levs)
                /\ if fst (Lookup.ctx_login MAX_PIN_LENGTH e w1 slot tok) =? 0
                   then fst r = None
                        /\ snd r
                           = snd (Lookup.ctx_login MAX_PIN_LENGTH e w1 slot
                                    tok)
                   else fst r
                        = Lookup.match_func e
                            (Lookup.session
                               (snd (Lookup.ctx_login MAX_PIN_LENGTH e w1
                                       slot tok)))
                            slot (Lookup.obj_id sel) (Lookup.obj_label sel)
                        /\ snd r
                           = Lookup.emit (Lookup.EvMatch slot)
                               (snd (Lookup.ctx_login MAX_PIN_LENGTH e w1
                                       slot tok))))
      /\ (length matched <> 1%nat ->
          (1 < length (List.filter Lookup.is_initialized matched))%nat ->
          Lookup.ctx_login_calls evs = []
          /\ Lookup.token_logins evs = []
          /\ exists searched,
               evs = Lookup.EvMultipleMatching
                       (length (List.filter Lookup.is_initialized matched))
                     :: candidate_lines 0
                          (List.filter Lookup.is_initialized matched)
                     ++ map Lookup.EvMatch searched
               /\ searched_in_order
                    (fun slot => Lookup.match_func e (Lookup.session w) slot
                                   (Lookup.obj_id sel) (Lookup.obj_label sel))
                    (List.filter Lookup.is_uninitialized matched)
                    searched (fst r))).
  enough (HP : Post match matched with
                    | [slot] =>
                        Lookup.login_and_match MAX_PIN_LENGTH e sel slot w1
                    | _ => Lookup.multiple_slots MAX_PIN_LENGTH e sel matched w1
                    end).
  { destruct HP as (evs & HP).
    destruct (match matched with
              | [slot] => Lookup.login_and_match MAX_PIN_LENGTH e sel slot w1
              | _ => Lookup.multiple_slots MAX_PIN_LENGTH e sel matched w1
              end) as [obj w'].
    exists obj, w', evs. split; [reflexivity|exact HP]. }
  (* the slot chosen for login *)
  assert (Hone : forall slot,
    (matched = [slot]
     \/ (length matched <> 1%nat
         /\ List.filter Lookup.is_initialized matched = [slot])) ->
    Post (Lookup.login_and_match MAX_PIN_LENGTH e sel slot w1)).
  { intros slot Hslot.
    assert (Huniq : forall slot',
      matched = [slot']
      \/ (length matched <> 1%nat
          /\ List.filter Lookup.is_initialized matched = [slot']) ->
      slot' = slot).
    { intros slot' [H1|[H1 H2]]; destruct Hslot as [H3|[H3 H4]];
        subst; cbn in *; congruence. }
    assert (Hin : In slot matched).
    { destruct Hslot as [->|[_ Hi]]; [left; reflexivity|].
      assert (Hs : In slot (List.filter Lookup.is_initialized matched))
        by (rewrite Hi; left; reflexivity).
      apply List.filter_In in Hs. tauto. }
    destruct (matched_slots_selected object e sel slot_list matched Hm
                slot Hin) as [[tok Htok] _].
    destruct (login_and_match_trace MAX_PIN_LENGTH object e sel slot tok
                w1 Htok) as (evs & Htr & Hcalls & Hsub).
    pose proof (login_and_match_search MAX_PIN_LENGTH object e sel slot tok
                  w1 Htok) as Hsearch.
    pose proof (ctx_login_trace MAX_PIN_LENGTH object e w1 slot tok)
      as (levs & Hltr & Hlevs).
    cbn zeta in Hsearch. rewrite Hcw1 in Hcalls, Hsearch.
    rewrite Hw1 in Hltr.
    exists evs. rewrite Htr, Hw1.
    split; [reflexivity|]. split.
    { rewrite Hcalls. destruct (_ || _); cbn; lia. }
    split; [exact Hsub|]. split.
    - intros slot' tok' Hs' Htok'. rewrite (Huniq slot' Hs') in *.
      replace tok' with tok by congruence.
      split; [exact Hcalls|].
      destruct (Lookup.loginRequired tok || Lookup.force_login c).
      + split; [discriminate|]. intros _. split; [eauto|].
        destruct (fst (Lookup.ctx_login MAX_PIN_LENGTH e w1 slot tok) =? 0);
          rewrite Hsearch; split; reflexivity.
      + split; [|discriminate]. intros _.
        rewrite Hsearch in Htr |- *. cbn [fst snd Lookup.emit Lookup.trace] in *.
        rewrite Hw1 in Htr. apply app_inv_head in Htr.
        rewrite Hsw1. auto.
    - intros Hlen Hinit. exfalso.
      destruct Hslot as [->|[_ Hi]]; [cbn in Hlen; lia|].
      rewrite Hi in Hinit. cbn in Hinit. lia. }
  (* several candidates, or none *)
  assert (Hmulti : length matched <> 1%nat ->
    Post (Lookup.multiple_slots MAX_PIN_LENGTH e sel matched w1)).
  { intros Hlen. unfold Lookup.multiple_slots. rewrite Hc1, Hc2. cbn [negb].
    destruct (List.filter Lookup.is_initialized matched)
      as [|s1 [|s2 rest]] eqn:Hinit.
    - (* no initialized token *)
      cbn [length Nat.ltb Nat.leb Lookup.list_candidates].
      destruct (scan_uninit_search object e sel
                  (List.filter Lookup.is_uninitialized matched) w1)
        as (searched & Hk & _).
      exists (map Lookup.EvMatch searched).
      destruct (ctx_login_calls_matches searched) as [Hn1 Hn2].
      rewrite Hk, Hw1, Hn1, Hn2.
      split; [reflexivity|]. split; [cbn; lia|].
      split; [intros s []|]. split.
      + intros slot' tok [->|[_ Hi]] _; [cbn in Hlen; lia|discriminate Hi].
      + intros _ Hi. cbn in Hi. lia.
    - (* exactly one *)
      apply Hone. right. split; [exact Hlen|reflexivity].
    - (* more than one *)
      set (init := s1 :: s2 :: rest) in *.
      assert (Hgt : (1 <? length init)%nat = true) by reflexivity.
      rewrite Hgt.
      set (w2 := Lookup.list_candidates 0 init
                   (Lookup.emit (Lookup.EvMultipleMatching (length init)) w1)).
      destruct (list_candidates_trace init 0
                  (Lookup.emit (Lookup.EvMultipleMatching (length init)) w1))
        as [Hl _].
      assert (Hsw2 : Lookup.session w2 = Lookup.session w).
      { unfold w2. rewrite session_candidates. exact Hsw1. }
      fold w2 in Hl.
      destruct (scan_uninit_search object e sel
                  (List.filter Lookup.is_uninitialized matched) w2)
        as (searched & Hk & Hs).
      rewrite Hsw2 in Hs.
      exists (Lookup.EvMultipleMatching (length init)
              :: candidate_lines 0 init ++ map Lookup.EvMatch searched).
      destruct (ctx_login_calls_matches searched) as [Hn1 Hn2].
      destruct (ctx_login_calls_candidates init 0) as [Hn3 Hn4].
      assert (Hno : Lookup.ctx_login_calls
                      (Lookup.EvMultipleMatching (length init)
                       :: candidate_lines 0 init
                       ++ map Lookup.EvMatch searched) = []
                    /\ Lookup.token_logins
                         (Lookup.EvMultipleMatching (length init)
                          :: candidate_lines 0 init
                          ++ map Lookup.EvMatch searched) = []).
      { cbn [Lookup.ctx_login_calls Lookup.token_logins].
        rewrite ctx_login_calls_app, token_logins_app, Hn1, Hn2, Hn3, Hn4.
        split; reflexivity. }
      destruct Hno as [Hno1 Hno2]. rewrite Hno1, Hno2.
      split.
      { rewrite Hk, Hl. cbn. rewrite Hw1, <- !app_assoc. reflexivity. }
      split; [cbn; lia|]. split; [intros s []|]. split.
      + intros slot' tok [->|[_ Hi]] _; [cbn in Hlen; lia|].
        unfold init in Hi. discriminate Hi.
      + intros _ _. split; [reflexivity|]. split; [reflexivity|].
        exists searched. split; [reflexivity|exact Hs]. }
  destruct matched as [|slot [|slot2 rest]].
  - apply Hmulti. cbn. lia.
  - apply Hone. left. reflexivity.
  - apply Hmulti. cbn. lia.
Qed.

(** Two initialized tokens and an uninitialized one carry the label
    asked for: no login, no PIN handed to any token, and the
    uninitialized token is the one searched. *)
Lemma login_on_at_most_one_slot_witness :
  exists obj w' evs,
    Lookup.ctx_try_load_object 8 (refusing by_label) three_slots true world0
    = Lookup.Returns (obj, w')
    /\ Lookup.trace w' = Lookup.trace world0 ++ evs
    /\ Lookup.ctx_login_calls evs = []
    /\ Lookup.token_logins evs = []
    /\ exists searched,
         evs = Lookup.EvMultipleMatching 2
               :: candidate_lines 0 [demo_slot 0 true; demo_slot 1 true]
               ++ map Lookup.EvMatch searched
         /\ searched_in_order
              (fun slot => Lookup.match_func (refusing by_label)
                             (Lookup.session world0) slot
                             (Lookup.obj_id by_label)
                             (Lookup.obj_label by_label))
              [demo_slot 2 false] searched obj.
Proof.
  destruct (login_on_at_most_one_slot 8 nat (refusing by_label) three_slots
              world0 (Lookup.ctx world0) (Lookup.heap world0) by_label
              three_slots eq_refl eq_refl eq_refl eq_refl eq_refl)
    as (obj & w' & evs & Hr & Htr & _ & _ & _ & Hamb).
  exists obj, w', evs. split; [exact Hr|]. split; [exact Htr|].
  destruct Hamb as (H1 & H2 & H3); [cbn; lia|cbn; lia|].
  split; [exact H1|]. split; [exact H2|exact H3].
Defined.

Example ambiguous_tokens_trace :
  Lookup.ctx_try_load_object 8 (refusing by_label) three_slots true world0
  = Lookup.Returns
      (None,
       {| Lookup.ctx := Lookup.ctx world0;
          Lookup.heap := [];
          Lookup.session := [];
          Lookup.trace :=
            [Lookup.EvMultipleMatching 2;
             Lookup.EvCandidate 1 (demo_slot 0 true);
             Lookup.EvCandidate 2 (demo_slot 1 true);
             Lookup.EvMatch (demo_slot 2 false)] |}).
Proof. reflexivity. Qed.

(** A slot without a token in the list: the pass does not get as far as
    the login or a search. *)
Example empty_slot_null_read :
  Lookup.ctx_try_load_object 8 (refusing by_label)
    [demo_slot 0 true; empty_slot] true world0
  = Lookup.NullRead.
Proof. reflexivity. Qed.

(** C2 as stated fails: exactly one slot matches, login is requested,
    and no login is attempted, because the token does not ask for it and
    login is not forced. *)
Lemma single_match_without_login :
  ~ single_match_logs_in 8 (refusing slot_0) [open_slot] world0.
Proof.
  intros H.
  specialize (H slot_0 open_slot
                (None, Lookup.emit (Lookup.EvMatch open_slot) world0)
                eq_refl eq_refl eq_refl).
  vm_compute in H. exact H.
Qed.

(** ** The two passes of a lookup *)

Section TwoPasses.

Import Lookup.

Variable MAX_PIN_LENGTH : nat.
Variable object : Type.
Variable e : env object.

(** The pass without login only calls the match function. *)
Lemma scan_public_trace (sel : selector) (slots : list PKCS11_SLOT) :
  forall w, exists k,
    trace (snd (scan_public e sel slots w))
    = trace w ++ map EvMatch (firstn k slots).
Proof.
  induction slots as [|slot rest IH]; intros w; cbn [scan_public].
  - exists 0%nat. cbn. rewrite app_nil_r. reflexivity.
  - destruct (token slot).
    + unfold call_match at 1.
      destruct (match_func e (session w) slot (obj_id sel) (obj_label sel)).
      * exists 1%nat. reflexivity.
      * destruct (IH (Lookup.emit (EvMatch slot) w)) as [k Hk].
        exists (S k). rewrite Hk. cbn. rewrite <- app_assoc. reflexivity.
    + exists 0%nat. cbn. rewrite app_nil_r. reflexivity.
Qed.

(** With a token in every slot a pass returns. *)
Lemma pass_returns (slot_list : list PKCS11_SLOT) (login : bool) (w : world) :
  Forall (fun slot => is_Some (token slot)) slot_list ->
  exists r, ctx_try_load_object MAX_PIN_LENGTH e slot_list login w = Returns r.
Proof.
  intros Hall. unfold ctx_try_load_object.
  destruct (prelude e (ctx w) (heap w)) as [[c h] parsed].
  destruct parsed as [sel|]; [|eauto].
  destruct (negb (calloc_ok e 0)); [eauto|].
  destruct (proj1 (matched_slots_returns object e sel slot_list) Hall)
    as [matched ->].
  destruct matched; eauto.
Qed.

(** The pass without login, when it returns: its steps are searches of
    slots, and when it got as far as the matched slots it searched them
    in order up to the first that has the object. *)
Lemma pass_without_login (slot_list : list PKCS11_SLOT) (w : world)
    (obj : option object) (w1 : world) :
  ctx_try_load_object MAX_PIN_LENGTH e slot_list false w = Returns (obj, w1) ->
  exists searched,
    trace w1 = trace w ++ map EvMatch searched
    /\ forall sel matched,
         snd (prelude e (ctx w) (heap w)) = Some sel ->
         calloc_ok e 0 = true ->
         matched_slots e sel slot_list = Returns (Some matched) ->
         searched_in_order
           (fun slot =>
              match_func e (session w) slot (obj_id sel) (obj_label sel))
           matched searched obj.
Proof.
  unfold ctx_try_load_object.
  destruct (prelude e (ctx w) (heap w)) as [[c h] parsed]. cbn [snd].
  assert (Hnone : forall P : Prop,
            Returns (@None object, set_heap h (set_ctx c w))
            = Returns (obj, w1) ->
            exists searched : list PKCS11_SLOT,
              trace w1 = trace w ++ map EvMatch searched
              /\ (P -> searched = [])).
  { intros P [= <- <-]. exists []. cbn. rewrite app_nil_r. auto. }
  destruct parsed as [sel|].
  2:{ intros Hr. destruct (Hnone True Hr) as (searched & Htr & _).
      exists searched. split; [exact Htr|]. intros sel m Hs. discriminate Hs. }
  destruct (calloc_ok e 0) eqn:Hc; cbn [negb].
  2:{ intros Hr. destruct (Hnone True Hr) as (searched & Htr & _).
      exists searched. split; [exact Htr|]. intros sel' m _ Hs. discriminate Hs. }
  destruct (matched_slots e sel slot_list) as [[matched|]|] eqn:Hm.
  - intros [= Hr].
    assert (Htok : Forall (fun slot => is_Some (token slot)) matched).
    { apply List.Forall_forall. intros s Hs.
      apply (matched_slots_selected object e sel slot_list matched Hm s Hs). }
    destruct (scan_public_search object e sel matched Htok
                (set_heap h (set_ctx c w))) as (searched & Htr & Hs).
    rewrite Hr in Htr, Hs. cbn [fst snd] in Htr, Hs.
    exists searched. split; [exact Htr|].
    intros sel' matched' [= <-] _ Hm'. rewrite Hm in Hm'.
    injection Hm' as <-. exact Hs.
  - intros Hr. destruct (Hnone True Hr) as (searched & Htr & _).
    exists searched. split; [exact Htr|].
    intros sel' m [= <-] _ Hs. rewrite Hm in Hs. discriminate Hs.
  - discriminate.
Qed.

End TwoPasses.



(** * Further properties *)

(** ** Hex dump and decoder *)

Section HexRoundTrip.

Lemma hex_digit_decodes (v : Z) :
  0 <= v < 16 ->
  hexval (hex_digit v) = Some v
  /\ hex_digit v <> 0 /\ hex_digit v <> ch_colon
  /\ hex_digit v <> ch_percent.
Proof.
  intros H.
  assert (Hv : v = 0 \/ v = 1 \/ v = 2 \/ v = 3 \/ v = 4 \/ v = 5 \/ v = 6
               \/ v = 7 \/ v = 8 \/ v = 9 \/ v = 10 \/ v = 11 \/ v = 12
               \/ v = 13 \/ v = 14 \/ v = 15) by lia.
  repeat destruct Hv as [->|Hv]; try subst v;
    repeat split; try reflexivity; discriminate.
Qed.

Lemma nybbles_compose (v1 v2 : Z) :
  0 <= v1 < 16 -> 0 <= v2 < 16 ->
  Z.lor (Z.shiftl (Z.lor (Z.shiftl 0 4) v1) 4) v2 = 16 * v1 + v2.
Proof.
  intros H1 H2.
  rewrite Z.shiftl_0_l, Z.lor_0_l, Z.shiftl_mul_pow2 by lia.
  change (2 ^ 4) with 16.
  assert (Hv : v2 = 0 \/ v2 = 1 \/ v2 = 2 \/ v2 = 3 \/ v2 = 4 \/ v2 = 5
               \/ v2 = 6 \/ v2 = 7 \/ v2 = 8 \/ v2 = 9 \/ v2 = 10 \/ v2 = 11
               \/ v2 = 12 \/ v2 = 13 \/ v2 = 14 \/ v2 = 15) by lia.
  assert (Hu : v1 = 0 \/ v1 = 1 \/ v1 = 2 \/ v1 = 3 \/ v1 = 4 \/ v1 = 5
               \/ v1 = 6 \/ v1 = 7 \/ v1 = 8 \/ v1 = 9 \/ v1 = 10 \/ v1 = 11
               \/ v1 = 12 \/ v1 = 13 \/ v1 = 14 \/ v1 = 15) by lia.
  repeat destruct Hu as [->|Hu]; try subst v1;
    repeat destruct Hv as [->|Hv]; try subst v2; reflexivity.
Qed.

(** The inner loop reads back the two digits printed for a byte. *)
Lemma nybble_loop_sprintf (b : Z) (tail : list Z) :
  is_byte b ->
  nybble_loop 2 (sprintf_02X b ++ tail) 0 = Some (b, tail).
Proof.
  intros Hb. unfold is_byte in Hb. unfold sprintf_02X.
  rewrite (Z.mod_small b 256) by lia.
  assert (H1 : 0 <= b / 16 < 16)
    by (split; [apply Z.div_pos; lia|apply Z.div_lt_upper_bound; lia]).
  assert (H2 : 0 <= b mod 16 < 16) by (apply Z.mod_pos_bound; lia).
  destruct (hex_digit_decodes _ H1) as (Hd1 & Hz1 & Hc1 & _).
  destruct (hex_digit_decodes _ H2) as (Hd2 & Hz2 & Hc2 & _).
  apply Z.eqb_neq in Hz1, Hc1, Hz2, Hc2.
  cbn [app nybble_loop cur hd next tl].
  rewrite Hz1, Hc1, Hd1. cbn [orb]. rewrite Hz2, Hc2, Hd2. cbn [orb].
  rewrite nybbles_compose by assumption.
  f_equal. f_equal. pose proof (Z.div_mod b 16). lia.
Qed.

Lemma sprintf_first (b : Z) (tail : list Z) :
  is_byte b ->
  cur (sprintf_02X b ++ tail) <> 0
  /\ cur (sprintf_02X b ++ tail) <> ch_colon
  /\ cur (sprintf_02X b ++ tail) <> ch_percent.
Proof.
  intros Hb. unfold is_byte in Hb. unfold sprintf_02X.
  rewrite (Z.mod_small b 256) by lia.
  assert (H1 : 0 <= b / 16 < 16)
    by (split; [apply Z.div_pos; lia|apply Z.div_lt_upper_bound; lia]).
  destruct (hex_digit_decodes _ H1) as (_ & Hz1 & Hc1 & Hp1).
  cbn. auto.
Qed.

(** The outer loop on a string of groups: one byte per group. *)
Lemma hex_loop_groups (groups : list (Z * bool)) :
  forall fuel left out rest,
    Forall (fun g => is_byte (fst g)) groups ->
    cur rest = 0 ->
    (length groups < fuel)%nat ->
    (length groups <= left)%nat ->
    hex_loop fuel (hex_groups groups ++ rest) left out
    = Some (HexOut 1 (out ++ map fst groups)
              (length (out ++ map fst groups))).
Proof.
  induction groups as [|[b sep] gs IH]; intros fuel left out rest Hb Hr Hf Hl.
  - destruct fuel; [cbn in Hf; lia|]. cbn [hex_groups flat_map app hex_loop].
    rewrite Hr. cbn. rewrite app_nil_r. reflexivity.
  - destruct fuel; [cbn in Hf; lia|].
    inversion Hb as [|? ? Hb1 Hb2]; subst. cbn [fst] in Hb1.
    change (hex_groups ((b, sep) :: gs) ++ rest)
      with ((sprintf_02X b ++ (if sep then [ch_colon] else []) ++ hex_groups gs)
            ++ rest).
    rewrite <- !app_assoc.
    cbn [hex_loop].
    destruct (sprintf_first b
                ((if sep then [ch_colon] else []) ++ hex_groups gs ++ rest) Hb1)
      as (Hz & _).
    apply Z.eqb_neq in Hz. rewrite Hz.
    rewrite nybble_loop_sprintf by assumption.
    destruct left as [|l]; [cbn in Hl; lia|].
    assert (Hnext :
      (if cur ((if sep then [ch_colon] else []) ++ hex_groups gs ++ rest)
          =? ch_colon
       then next ((if sep then [ch_colon] else []) ++ hex_groups gs ++ rest)
       else (if sep then [ch_colon] else []) ++ hex_groups gs ++ rest)
      = hex_groups gs ++ rest).
    { destruct sep; [reflexivity|]. cbn [app].
      destruct gs as [|[b2 sep2] gs2].
      - cbn [hex_groups flat_map app]. rewrite Hr. reflexivity.
      - inversion Hb2 as [|? ? Hb3 _]; subst. cbn [fst] in Hb3.
        change (hex_groups ((b2, sep2) :: gs2) ++ rest)
          with ((sprintf_02X b2
                 ++ (if sep2 then [ch_colon] else []) ++ hex_groups gs2)
                ++ rest).
        rewrite <- !app_assoc.
        destruct (sprintf_first b2
                    ((if sep2 then [ch_colon] else [])
                     ++ hex_groups gs2 ++ rest) Hb3) as (_ & Hc & _).
        apply Z.eqb_neq in Hc. rewrite Hc. reflexivity. }
    rewrite Hnext.
    rewrite IH; try assumption; [|cbn in Hf; lia|cbn in Hl; lia].
    cbn [map fst]. rewrite <- !app_assoc. reflexivity.
Qed.

Lemma hex_groups_length (groups : list (Z * bool)) :
  (2 * length groups <= length (hex_groups groups))%nat.
Proof.
  induction groups as [|[b sep] gs IH]; cbn [hex_groups flat_map length];
    [lia|].
  rewrite !length_app. cbn [sprintf_02X length fst snd].
  fold (hex_groups gs). lia.
Qed.

(** [hex_to_bin] on a string of groups. *)
Lemma hex_to_bin_groups (groups : list (Z * bool)) (rest : list Z)
    (cap : nat) :
  Forall (fun g => is_byte (fst g)) groups ->
  cur rest = 0 ->
  (length groups <= cap)%nat ->
  hex_to_bin (Some (hex_groups groups ++ rest)) cap
  = HexOut 1 (map fst groups) (length groups).
Proof.
  intros Hb Hr Hcap. unfold hex_to_bin.
  destruct groups as [|[b sep] gs].
  - cbn [hex_groups flat_map app]. rewrite Hr. reflexivity.
  - assert (Hz : cur (hex_groups ((b, sep) :: gs) ++ rest) <> 0).
    { inversion Hb as [|? ? Hb1 _]; subst. cbn [fst] in Hb1.
      change (hex_groups ((b, sep) :: gs) ++ rest)
        with ((sprintf_02X b
               ++ (if sep then [ch_colon] else []) ++ hex_groups gs) ++ rest).
      rewrite <- !app_assoc. apply sprintf_first. exact Hb1. }
    apply Z.eqb_neq in Hz. rewrite Hz.
    rewrite (hex_loop_groups ((b, sep) :: gs)); try assumption.
    + cbn [app]. rewrite length_map. reflexivity.
    + pose proof (hex_groups_length ((b, sep) :: gs)).
      rewrite length_app. lia.
Qed.

(** The buffer [dump_hex] returns: the digits of all bytes and one
    terminator. *)
Lemma dump_loop_spec (val : list Z) : forall (j : nat) (buf : list Z),
  val <> [] ->
  (j + 2 * length val + 1 <= length buf)%nat ->
  dump_loop val j buf
  = firstn j buf ++ flat_map sprintf_02X val
    ++ 0 :: skipn (j + 2 * length val + 1) buf.
Proof.
  induction val as [|b r IH]; intros j buf Hne Hlen; [congruence|].
  cbn [dump_loop length] in *.
  assert (Hst : store buf j (sprintf_02X b ++ [0])
                = firstn j buf ++ (sprintf_02X b ++ [0]) ++ skipn (j + 3) buf).
  { rewrite store_spec by (cbn; lia). reflexivity. }
  destruct r as [|b2 r'].
  - cbn [dump_loop flat_map length]. rewrite Hst, app_nil_r.
    rewrite <- app_assoc. cbn [app].
    replace (j + 2 * 1 + 1)%nat with (j + 3)%nat by lia. reflexivity.
  - rewrite IH; [|discriminate|rewrite Hst, !length_app, length_take,
                               length_drop; cbn [length sprintf_02X] in *; lia].
    assert (Hj : length (firstn j buf) = j) by (rewrite length_take; lia).
    rewrite Hst.
    replace (firstn (j + 2)
               (firstn j buf ++ (sprintf_02X b ++ [0]) ++ skipn (j + 3) buf))
      with (firstn j buf ++ sprintf_02X b).
    2:{ rewrite <- (app_assoc (sprintf_02X b)), app_assoc.
        symmetry. apply take_app_length'. rewrite length_app, Hj.
        reflexivity. }
    replace (skipn (j + 2 + 2 * length (b2 :: r') + 1)
               (firstn j buf ++ (sprintf_02X b ++ [0]) ++ skipn (j + 3) buf))
      with (skipn (j + 2 * S (length (b2 :: r')) + 1) buf).
    2:{ rewrite app_assoc.
        rewrite drop_app_ge
          by (rewrite !length_app, Hj; cbn [length sprintf_02X]; lia).
        rewrite drop_drop. f_equal.
        rewrite !length_app, Hj. cbn [length sprintf_02X]. lia. }
    cbn [flat_map]. rewrite <- !app_assoc. reflexivity.
Qed.

End HexRoundTrip.

(** X1.  Decoding what [dump_hex] printed gives the bytes back: for a
    non-empty sequence of bytes that fits the capacity, [hex_to_bin]
    applied to the string of [dump_hex] returns 1 with exactly these
    bytes. *)
Theorem hex_to_bin_dump_hex
    (val : list Z) (fresh : list Z) (cap : nat) :
  val <> [] ->
  Forall is_byte val ->
  length fresh = (2 * length val + 1)%nat ->
  (length val <= cap)%nat ->
  hex_to_bin (dump_hex val (Some fresh)) cap = HexOut 1 val (length val).
Proof.
  intros Hne Hb Hlen Hcap. unfold dump_hex.
  rewrite dump_loop_spec by (try assumption; lia).
  cbn [firstn app].
  pose proof (hex_to_bin_groups (map (fun b => (b, false)) val)
                (0 :: skipn (0 + 2 * length val + 1) fresh) cap) as H.
  assert (Hg : hex_groups (map (fun b => (b, false)) val)
               = flat_map sprintf_02X val).
  { unfold hex_groups. clear. induction val as [|b r IH]; [reflexivity|].
    cbn [map flat_map fst snd]. rewrite IH, app_nil_r. reflexivity. }
  rewrite Hg, map_map, map_id, length_map in H.
  apply H; [|reflexivity|exact Hcap].
  apply Forall_map. exact Hb.
Qed.

Lemma hex_to_bin_dump_hex_witness :
  hex_to_bin (dump_hex [1; 2; 171] (Some (repeat 170 7))) 3
  = HexOut 1 [1; 2; 171] 3.
Proof.
  apply (hex_to_bin_dump_hex [1; 2; 171] (repeat 170 7) 3).
  - discriminate.
  - repeat constructor; unfold is_byte; lia.
  - reflexivity.
  - cbn. lia.
Defined.

(** X2.  [hex_to_bin] reads a string of two-digit groups, each followed
    by a colon or not, as one byte per group; the string ends at its
    terminator. *)
Theorem hex_to_bin_colon_groups
    (groups : list (Z * bool)) (rest : list Z) (cap : nat) :
  Forall (fun g => is_byte (fst g)) groups ->
  cur rest = 0 ->
  (length groups <= cap)%nat ->
  hex_to_bin (Some (hex_groups groups ++ rest)) cap
  = HexOut 1 (map fst groups) (length groups).
Proof. apply hex_to_bin_groups. Qed.

(** ["01:AB"] *)
Lemma hex_to_bin_colon_groups_witness :
  hex_to_bin (Some [48; 49; 58; 65; 66]) 4 = HexOut 1 [1; 171] 2.
Proof.
  apply (hex_to_bin_colon_groups [(1, true); (171, false)] [] 4).
  - repeat constructor; unfold is_byte; cbn; lia.
  - reflexivity.
  - cbn. lia.
Defined.


Section HexBounds.

Lemma hexval_bound (c v : Z) : hexval c = Some v -> 0 <= v < 16.
Proof.
  unfold hexval.
  destruct ((48 <=? c) && (c <=? 57)) eqn:E1.
  - intros [= <-]. apply andb_prop in E1 as [? ?]. lia.
  - destruct ((97 <=? c) && (c <=? 102)) eqn:E2.
    + intros [= <-]. apply andb_prop in E2 as [? ?]. lia.
    + destruct ((65 <=? c) && (c <=? 70)) eqn:E3; [|discriminate].
      intros [= <-]. apply andb_prop in E3 as [? ?]. lia.
Qed.

(** Two nybbles make a byte. *)
Lemma nybble_loop_byte (s s1 : list Z) (byte : Z) :
  nybble_loop 2 s 0 = Some (byte, s1) -> is_byte byte.
Proof.
  cbn [nybble_loop]. unfold is_byte.
  destruct ((cur s =? 0) || (cur s =? ch_colon)).
  { intros [= <- _]. lia. }
  destruct (hexval (cur s)) as [v1|] eqn:E1; [|discriminate].
  apply hexval_bound in E1.
  destruct ((cur (next s) =? 0) || (cur (next s) =? ch_colon)).
  { intros [= <- _]. rewrite Z.shiftl_0_l, Z.lor_0_l. lia. }
  destruct (hexval (cur (next s))) as [v2|] eqn:E2; [|discriminate].
  apply hexval_bound in E2.
  intros [= <- _]. rewrite nybbles_compose by assumption. lia.
Qed.

(** Whatever the outcome, the loop stores bytes, and no more of them
    than there is room for. *)
Lemma hex_loop_stored (fuel : nat) : forall s left out r,
  hex_loop fuel s left out = Some r ->
  (length (hx_out r) <= length out + left)%nat
  /\ (Forall is_byte out -> Forall is_byte (hx_out r)).
Proof.
  induction fuel as [|f IH]; intros s left out r H; [discriminate|].
  cbn [hex_loop] in H. destruct (cur s =? 0).
  { injection H as <-. cbn. split; [lia|auto]. }
  destruct (nybble_loop 2 s 0) as [[byte s1]|] eqn:En.
  - destruct left as [|l].
    + injection H as <-. cbn. split; [lia|auto].
    + apply IH in H. rewrite length_app in H. cbn [length] in H.
      destruct H as [H1 H2]. split; [lia|].
      intros Hout. apply H2. apply Forall_app. split; [exact Hout|].
      constructor; [|constructor]. eapply nybble_loop_byte; eauto.
  - injection H as <-. cbn. split; [lia|auto].
Qed.

(** The same for the whole function. *)
Lemma hex_to_bin_stored (input : option (list Z)) (cap : nat) :
  (length (hx_out (hex_to_bin input cap)) <= cap)%nat
  /\ Forall is_byte (hx_out (hex_to_bin input cap))
  /\ (hx_ret (hex_to_bin input cap) = 1
       /\ hx_outlen (hex_to_bin input cap)
          = length (hx_out (hex_to_bin input cap))
      \/ hx_ret (hex_to_bin input cap) = 0
         /\ hx_outlen (hex_to_bin input cap) = 0%nat).
Proof.
  unfold hex_to_bin.
  destruct input as [s|].
  2:{ cbn. split; [lia|]. split; [constructor|]. left. auto. }
  destruct (cur s =? 0).
  { cbn. split; [lia|]. split; [constructor|]. left. auto. }
  destruct (hex_loop_fuel (S (length s)) s cap []) as [r Hr]; [lia|].
  rewrite Hr.
  destruct (hex_loop_stored _ _ _ _ _ Hr) as [H1 H2].
  destruct (hex_loop_result _ _ _ _ _ Hr) as [H3|(H3 & H4 & _)].
  - split; [exact H1|]. split; [apply H2; constructor|]. right. exact H3.
  - split; [exact H1|]. split; [apply H2; constructor|]. left. auto.
Qed.

End HexBounds.

(** X3.  [hex_to_bin] never stores more bytes than the capacity it was
    given, whether it succeeds or fails, and every value it stores is a
    byte.  It returns 1 or 0; with 1 the length reported is the number
    of bytes stored, with 0 it is 0. *)
Theorem hex_to_bin_within_capacity (input : option (list Z)) (cap : nat) :
  let r := hex_to_bin input cap in
  (length (hx_out r) <= cap)%nat
  /\ Forall is_byte (hx_out r)
  /\ (hx_ret r = 1 /\ hx_outlen r = length (hx_out r)
      \/ hx_ret r = 0 /\ hx_outlen r = 0%nat).
Proof. exact (hex_to_bin_stored input cap). Qed.

(** ** Percent escapes *)

Section PercentRoundTrip.

Lemma uri_text_length (items : list uri_item) :
  (length items <= length (uri_text items))%nat.
Proof.
  induction items as [|i r IH]; cbn [uri_text flat_map length]; [lia|].
  rewrite length_app. fold (uri_text r). destruct i; cbn; lia.
Qed.

Lemma hex_to_bin_escape (b : Z) :
  is_byte b ->
  hex_to_bin (Some (sprintf_02X b)) 1 = HexOut 1 [b] 1.
Proof.
  intros Hb.
  pose proof (hex_to_bin_groups [(b, false)] [] 1) as H.
  cbn [hex_groups flat_map fst snd app map length] in H.
  rewrite !app_nil_r in H. apply H; [|reflexivity|lia].
  constructor; [exact Hb|constructor].
Qed.

(** The loop on the text of a list of items with room for all of them:
    one byte per item. *)
Lemma attr_loop_items (items : list uri_item) :
  forall room rest field outlen,
    Forall item_ok items ->
    (length items <= room)%nat ->
    attr_loop room (uri_text items ++ rest)
      (Z.of_nat (length (uri_text items))) field outlen
    = AttrState 1 0 (store field outlen (map item_value items))
        (outlen + length items).
Proof.
  induction items as [|i r IH]; intros room rest field outlen Hok Hroom.
  - cbn [uri_text flat_map length app map store].
    rewrite Nat.add_0_r. destruct room; reflexivity.
  - inversion Hok as [|? ? Hi Hr]; subst.
    destruct room as [|room]; [cbn in Hroom; lia|].
    cbn [length] in Hroom.
    change (uri_text (i :: r)) with (item_text i ++ uri_text r).
    rewrite <- app_assoc, length_app.
    cbn [attr_loop].
    destruct i as [c|b]; cbn [item_text item_ok item_value] in *.
    + destruct Hi as [Hc _].
      replace (Z.of_nat (length [c] + length (uri_text r)) =? 0) with false
        by (symmetry; apply Z.eqb_neq; cbn; lia).
      cbn [app cur hd next tl].
      apply Z.eqb_neq in Hc. rewrite Hc.
      replace (Z.of_nat (length [c] + length (uri_text r)) - 1)
        with (Z.of_nat (length (uri_text r))) by (cbn [length]; lia).
      rewrite IH by (try assumption; lia).
      cbn [map store length]. f_equal. lia.
    + replace (Z.of_nat (length (ch_percent :: sprintf_02X b)
                         + length (uri_text r)) =? 0) with false
        by (symmetry; apply Z.eqb_neq; cbn; lia).
      cbn [app cur hd].
      replace (ch_percent =? ch_percent) with true by reflexivity.
      replace (Z.of_nat (length (ch_percent :: sprintf_02X b)
                         + length (uri_text r)) <? 3) with false
        by (symmetry; apply Z.ltb_ge; cbn; lia).
      change [at_ (ch_percent :: sprintf_02X b ++ uri_text r ++ rest) 1;
              at_ (ch_percent :: sprintf_02X b ++ uri_text r ++ rest) 2]
        with (sprintf_02X b).
      rewrite hex_to_bin_escape by exact Hi.
      cbn [hx_ret hx_out Z.eqb store].
      change (skipn 3 (ch_percent :: sprintf_02X b ++ uri_text r ++ rest))
        with (uri_text r ++ rest).
      replace (Z.of_nat (length (ch_percent :: sprintf_02X b)
                         + length (uri_text r)) - 3)
        with (Z.of_nat (length (uri_text r))) by (cbn [length sprintf_02X]; lia).
      rewrite IH by (try assumption; lia).
      cbn [map store length]. f_equal. lia.
Qed.

(** ... and with less room than there are items: the loop stops with the
    output full and input left over. *)
Lemma attr_loop_overflow (items : list uri_item) :
  forall room rest field outlen,
    Forall item_ok items ->
    (room < length items)%nat ->
    let st := attr_loop room (uri_text items ++ rest)
                (Z.of_nat (length (uri_text items))) field outlen in
    as_attrlen st <> 0 /\ as_outlen st = (outlen + room)%nat.
Proof.
  induction items as [|i r IH]; intros room rest field outlen Hok Hroom;
    [cbn in Hroom; lia|].
  inversion Hok as [|? ? Hi Hr]; subst. cbn zeta.
  change (uri_text (i :: r)) with (item_text i ++ uri_text r).
  rewrite <- app_assoc, length_app.
  destruct room as [|room].
  { cbn [attr_loop as_attrlen as_outlen]. split; [|lia].
    destruct i; cbn; lia. }
  cbn [length] in Hroom. cbn [attr_loop].
  destruct i as [c|b]; cbn [item_text item_ok item_value] in *.
  - destruct Hi as [Hc _].
    replace (Z.of_nat (length [c] + length (uri_text r)) =? 0) with false
      by (symmetry; apply Z.eqb_neq; cbn; lia).
    cbn [app cur hd next tl].
    apply Z.eqb_neq in Hc. rewrite Hc.
    replace (Z.of_nat (length [c] + length (uri_text r)) - 1)
      with (Z.of_nat (length (uri_text r))) by (cbn [length]; lia).
    destruct (IH room rest (<[outlen:=c]> field) (S outlen) Hr ltac:(lia))
      as [H1 H2].
    split; [exact H1|]. rewrite H2. lia.
  - replace (Z.of_nat (length (ch_percent :: sprintf_02X b)
                       + length (uri_text r)) =? 0) with false
      by (symmetry; apply Z.eqb_neq; cbn; lia).
    cbn [app cur hd].
    replace (ch_percent =? ch_percent) with true by reflexivity.
    replace (Z.of_nat (length (ch_percent :: sprintf_02X b)
                       + length (uri_text r)) <? 3) with false
      by (symmetry; apply Z.ltb_ge; cbn; lia).
    change [at_ (ch_percent :: sprintf_02X b ++ uri_text r ++ rest) 1;
            at_ (ch_percent :: sprintf_02X b ++ uri_text r ++ rest) 2]
      with (sprintf_02X b).
    rewrite hex_to_bin_escape by exact Hi.
    cbn [hx_ret hx_out Z.eqb store].
    change (skipn 3 (ch_percent :: sprintf_02X b ++ uri_text r ++ rest))
      with (uri_text r ++ rest).
    replace (Z.of_nat (length (ch_percent :: sprintf_02X b)
                       + length (uri_text r)) - 3)
      with (Z.of_nat (length (uri_text r))) by (cbn [length sprintf_02X]; lia).
    destruct (IH room rest (<[outlen:=b]> field) (S outlen) Hr ltac:(lia))
      as [H1 H2].
    split; [exact H1|]. rewrite H2. lia.
Qed.

(** The decoder on the text of a list of items that fits. *)
Lemma percent_decoder_round_trip_aux
    (items : list uri_item) (rest field : list Z) (cap : nat) :
  Forall item_ok items ->
  (length items <= cap)%nat ->
  (cap <= length field)%nat ->
  ao_ret (parse_uri_attr_len (uri_text items ++ rest)
            (Z.of_nat (length (uri_text items))) field cap) = 1
  /\ ao_len (parse_uri_attr_len (uri_text items ++ rest)
               (Z.of_nat (length (uri_text items))) field cap) = length items
  /\ firstn (length items)
       (ao_field (parse_uri_attr_len (uri_text items ++ rest)
                    (Z.of_nat (length (uri_text items))) field cap))
     = map item_value items
  /\ skipn (length items)
       (ao_field (parse_uri_attr_len (uri_text items ++ rest)
                    (Z.of_nat (length (uri_text items))) field cap))
     = skipn (length items) field.
Proof.
  intros Hok Hcap Hfield. unfold parse_uri_attr_len.
  rewrite attr_loop_items by assumption.
  cbn. split; [reflexivity|]. split; [reflexivity|].
  rewrite store_spec by (rewrite length_map; lia).
  rewrite length_map. change (take 0 field) with (@nil Z). cbn [app Nat.add].
  split.
  - apply take_app_length'. rewrite length_map. reflexivity.
  - apply drop_app_length'. rewrite length_map. reflexivity.
Qed.

(** [parse_uri_attr] on the text of a list of items. *)
Lemma parse_uri_attr_items
    (items : list uri_item) (rest fresh : list Z) :
  Forall item_ok items ->
  length fresh = (length (uri_text items) + 1)%nat ->
  exists buf,
    parse_uri_attr (uri_text items ++ rest)
      (Z.of_nat (length (uri_text items))) (Some fresh) = Some buf
    /\ firstn (length items) buf = map item_value items
    /\ buf !! length items = Some 0.
Proof.
  intros Hok Hfresh. unfold parse_uri_attr.
  pose proof (uri_text_length items) as Hlen.
  replace (Z.to_nat (Z.of_nat (length (uri_text items)) + 1))
    with (length (uri_text items) + 1)%nat by lia.
  destruct (percent_decoder_round_trip_aux items rest fresh
              (length (uri_text items) + 1) Hok ltac:(lia) ltac:(lia))
    as (H1 & H2 & H3 & _).
  rewrite H1, H2. cbn [Z.eqb].
  eexists. split; [reflexivity|]. split.
  - rewrite take_insert_ge by lia. exact H3.
  - apply list_lookup_insert_eq.
    destruct (percent_decoder_round_trip_aux items rest fresh
                (length (uri_text items) + 1) Hok ltac:(lia) ltac:(lia))
      as (_ & _ & _ & H4).
    assert (Hl : length (skipn (length items)
                           (ao_field
                              (parse_uri_attr_len (uri_text items ++ rest)
                                 (Z.of_nat (length (uri_text items))) fresh
                                 (length (uri_text items) + 1))))
                 = (length fresh - length items)%nat)
      by (rewrite H4, length_drop; reflexivity).
    rewrite length_drop in Hl. lia.
Qed.

End PercentRoundTrip.

(** X4.  Percent decoding undoes percent encoding: for a value written
    as literal characters and escapes of two upper-case hex digits,
    [parse_uri_attr_len] returns 1, reports one byte per item, and the
    output starts with the characters and the escaped bytes, provided
    the capacity covers them. *)
Theorem percent_decoder_round_trip
    (items : list uri_item) (rest field : list Z) (cap : nat) :
  Forall item_ok items ->
  (length items <= cap)%nat ->
  (cap <= length field)%nat ->
  let r := parse_uri_attr_len (uri_text items ++ rest)
             (Z.of_nat (length (uri_text items))) field cap in
  ao_ret r = 1
  /\ ao_len r = length items
  /\ firstn (length items) (ao_field r) = map item_value items
  /\ skipn (length items) (ao_field r) = skipn (length items) field.
Proof.
  intros Hok Hcap Hfield. cbn zeta.
  exact (percent_decoder_round_trip_aux items rest field cap Hok Hcap Hfield).
Qed.

(** ["a%2Fb"] decodes to ["a/b"]. *)
Lemma percent_decoder_round_trip_witness :
  let r := parse_uri_attr_len [97; 37; 50; 70; 98] 5 (repeat 0 8) 8 in
  ao_ret r = 1 /\ ao_len r = 3%nat /\ firstn 3 (ao_field r) = [97; 47; 98].
Proof.
  destruct (percent_decoder_round_trip [Lit 97; Esc 47; Lit 98] []
              (repeat 0 8) 8) as (H1 & H2 & H3 & _).
  - repeat constructor; unfold is_byte; try discriminate; lia.
  - cbn. lia.
  - cbn. lia.
  - cbn zeta. auto.
Defined.

(** X5.  The percent decoder does not truncate: when a well-formed value
    has more items than the capacity, [parse_uri_attr_len] returns 0 and
    leaves the length where it was; and whenever it returns a non-zero
    value, the loop has used up all the input and the length reported is
    within the capacity. *)
Theorem percent_decoder_no_truncation
    (attr : list Z) (attrlen : Z) (field : list Z) (cap : nat) :
  (ao_ret (parse_uri_attr_len attr attrlen field cap) <> 0 ->
   as_attrlen (attr_loop cap attr attrlen field 0) = 0
   /\ (ao_len (parse_uri_attr_len attr attrlen field cap) <= cap)%nat)
  /\ (forall items rest,
        attr = uri_text items ++ rest ->
        attrlen = Z.of_nat (length (uri_text items)) ->
        Forall item_ok items ->
        (cap < length items)%nat ->
        ao_ret (parse_uri_attr_len attr attrlen field cap) = 0
        /\ ao_len (parse_uri_attr_len attr attrlen field cap) = cap).
Proof.
  split.
  - apply parse_uri_attr_len_no_truncation.
  - intros items rest -> -> Hok Hlt. unfold parse_uri_attr_len. cbn zeta.
    destruct (attr_loop_overflow items cap rest field 0%nat Hok Hlt)
      as [H1 H2].
    cbn zeta in H1, H2. apply Z.eqb_neq in H1. rewrite H1, H2.
    cbn [negb andb Nat.add]. rewrite Nat.eqb_refl. cbn. auto.
Qed.

(** ["abc"] does not fit two bytes. *)
Lemma percent_decoder_no_truncation_witness :
  ao_ret (parse_uri_attr_len [97; 98; 99] 3 (repeat 0 8) 2) = 0
  /\ ao_len (parse_uri_attr_len [97; 98; 99] 3 (repeat 0 8) 2) = 2%nat.
Proof.
  apply (proj2 (percent_decoder_no_truncation [97; 98; 99] 3 (repeat 0 8) 2)
           [Lit 97; Lit 98; Lit 99] []).
  - reflexivity.
  - reflexivity.
  - repeat constructor; discriminate.
  - cbn. lia.
Defined.

(** X6.  [parse_uri_attr] always has room: it decodes a well-formed
    value of any length into the buffer it allocates, and terminates
    it. *)
Theorem parse_uri_attr_round_trip
    (items : list uri_item) (rest fresh : list Z) :
  Forall item_ok items ->
  length fresh = (length (uri_text items) + 1)%nat ->
  exists buf,
    parse_uri_attr (uri_text items ++ rest)
      (Z.of_nat (length (uri_text items))) (Some fresh) = Some buf
    /\ firstn (length items) buf = map item_value items
    /\ buf !! length items = Some 0.
Proof. exact (parse_uri_attr_items items rest fresh). Qed.

Lemma parse_uri_attr_round_trip_witness :
  exists buf,
    parse_uri_attr [97; 37; 50; 70; 98] 5 (Some (repeat 170 6)) = Some buf
    /\ firstn 3 buf = [97; 47; 98]
    /\ buf !! 3%nat = Some 0.
Proof.
  apply (parse_uri_attr_round_trip [Lit 97; Esc 47; Lit 98] []
           (repeat 170 6)).
  - repeat constructor; unfold is_byte; try discriminate; lia.
  - reflexivity.
Defined.


(** ** PIN source: bounds, rejected syntax and the path opened *)

Section PinSourceEdges.

Lemma length_store (bs : list Z) : forall (buf : list Z) (pos : nat),
  length (store buf pos bs) = length buf.
Proof.
  induction bs as [|b r IH]; intros buf pos; cbn [store]; [reflexivity|].
  rewrite IH. apply length_insert.
Qed.

Lemma read_from_file_bounds (file : option (list Z))
    (txt0 field : list Z) (field_len : nat) :
  length txt0 = (field_len + 1)%nat ->
  (field_len <= length field)%nat ->
  (fo_ret (read_from_file file txt0 field field_len) = 1
   \/ fo_ret (read_from_file file txt0 field field_len) = 0)
  /\ (fo_len (read_from_file file txt0 field field_len) <= field_len)%nat
  /\ length (fo_field (read_from_file file txt0 field field_len))
     = length field
  /\ (fo_ret (read_from_file file txt0 field field_len) = 0 ->
      file = None
      /\ read_from_file file txt0 field field_len
         = FileOut 0 field field_len).
Proof.
  intros Htxt Hfield. destruct file as [content|].
  2:{ cbn. split; [right; reflexivity|]. split; [lia|]. split; auto. }
  unfold read_from_file, BIO_gets.
  replace (pred (field_len + 1)) with field_len by lia.
  pose proof (line_upto_length field_len content) as Hline.
  set (line := line_upto field_len content) in *.
  assert (Hst : store txt0 0 (line ++ [0])
                = line ++ 0 :: skipn (length line + 1) txt0).
  { rewrite store_spec by (rewrite length_app; cbn; lia).
    cbn [firstn app]. rewrite <- app_assoc, length_app. reflexivity. }
  assert (Hlen : length (store txt0 0 (line ++ [0])) = (field_len + 1)%nat)
    by (rewrite length_store; exact Htxt).
  revert Hlen. rewrite Hst. intros Hlen.
  unfold strlen. rewrite c_string_app_zero.
  pose proof (c_string_length line) as Hc.
  destruct (0 <? Z.of_nat (length (c_string line)));
    cbn [fo_ret fo_field fo_len].
  - split; [left; reflexivity|]. split; [lia|]. split; [|discriminate].
    unfold memcpy. rewrite length_app, length_take, length_drop. lia.
  - split; [left; reflexivity|]. split; [lia|]. split; [reflexivity|].
    discriminate.
Qed.

(** A buffer that starts with [l] followed by a terminator holds the
    string [l]. *)
Lemma buffer_split (buf l : list Z) (n : nat) :
  firstn n buf = l -> buf !! n = Some 0 ->
  buf = l ++ 0 :: skipn (S n) buf.
Proof.
  intros Hl H0. rewrite <- (take_drop n buf) at 1.
  rewrite Hl. f_equal. rewrite (drop_S _ 0 n H0). reflexivity.
Qed.

Lemma c_string_app_no_zero (l r : list Z) :
  ~ In 0 l -> c_string (l ++ r) = l ++ c_string r.
Proof.
  induction l as [|c l IH]; intros H0; [reflexivity|].
  cbn [app c_string]. destruct (c =? 0) eqn:E.
  - apply Z.eqb_eq in E. exfalso. apply H0. left. congruence.
  - f_equal. apply IH. intros Hin. apply H0. right. exact Hin.
Qed.

Lemma tolower_bar (c : Z) : tolower c = 102 -> c <> ch_bar.
Proof.
  unfold tolower, ch_bar. destruct ((65 <=? c) && (c <=? 90)) eqn:E; [|lia].
  apply andb_prop in E as [? ?]. lia.
Qed.

End PinSourceEdges.

(** X7.  [parse_pin_source] returns 1 or 0 and never reports a PIN
    longer than the capacity of the PIN buffer, whose size it keeps; when
    it returns 0 the buffer and the length are as they were. *)
Theorem pin_source_within_capacity
    (fs : list Z -> option (list Z)) (attr : list Z) (attrlen : Z)
    (fresh : option (list Z)) (txt0 field : list Z) (field_len : nat) :
  length txt0 = (field_len + 1)%nat ->
  (field_len <= length field)%nat ->
  let r := parse_pin_source fs attr attrlen fresh txt0 field field_len in
  (fo_ret r = 1 \/ fo_ret r = 0)
  /\ (fo_len r <= field_len)%nat
  /\ length (fo_field r) = length field
  /\ (fo_ret r = 0 -> r = FileOut 0 field field_len).
Proof.
  intros Htxt Hfield. cbn zeta. unfold parse_pin_source.
  assert (Hfail : (fo_ret (FileOut 0 field field_len) = 1
                   \/ fo_ret (FileOut 0 field field_len) = 0)
                  /\ (fo_len (FileOut 0 field field_len) <= field_len)%nat
                  /\ length (fo_field (FileOut 0 field field_len))
                     = length field
                  /\ (fo_ret (FileOut 0 field field_len) = 0 ->
                      FileOut 0 field field_len = FileOut 0 field field_len)).
  { cbn. split; [right; reflexivity|]. split; [lia|]. split; auto. }
  destruct (parse_uri_attr attr attrlen fresh) as [val|]; [|exact Hfail].
  destruct (has_file_prefix val).
  - destruct (read_from_file_bounds (fs (c_string (skipn 5 val)))
                txt0 field field_len Htxt Hfield) as (H1 & H2 & H3 & H4).
    split; [exact H1|]. split; [exact H2|]. split; [exact H3|].
    intros H. apply H4. exact H.
  - destruct (cur val =? ch_bar); [exact Hfail|].
    destruct (read_from_file_bounds (fs (c_string val))
                txt0 field field_len Htxt Hfield) as (H1 & H2 & H3 & H4).
    split; [exact H1|]. split; [exact H2|]. split; [exact H3|].
    intros H. apply H4. exact H.
Qed.

(** A PIN file of ten characters read into a buffer of four. *)
Lemma pin_source_within_capacity_witness :
  let r := parse_pin_source
             (fun _ => Some [49; 50; 51; 52; 53; 54; 55; 56; 57; 48])
             [47; 112] 2 (Some (repeat 0 3)) (repeat 0 5) (repeat 0 4) 4 in
  (fo_ret r = 1 \/ fo_ret r = 0)
  /\ (fo_len r <= 4)%nat
  /\ length (fo_field r) = 4%nat
  /\ (fo_ret r = 0 -> r = FileOut 0 (repeat 0 4) 4).
Proof.
  apply (pin_source_within_capacity
           (fun _ => Some [49; 50; 51; 52; 53; 54; 55; 56; 57; 48])
           [47; 112] 2 (Some (repeat 0 3)) (repeat 0 5) (repeat 0 4) 4).
  - reflexivity.
  - cbn. lia.
Defined.

(** X8.  A pin-source value whose first character is a vertical bar,
    written literally or as an escape, is refused: [parse_pin_source]
    returns 0 whatever the files are, and leaves the PIN buffer and its
    length alone. *)
Theorem pin_source_command_rejected
    (fs : list Z -> option (list Z)) (i : uri_item) (items : list uri_item)
    (rest fresh txt0 field : list Z) (field_len : nat) :
  Forall item_ok (i :: items) ->
  item_value i = ch_bar ->
  length fresh = (length (uri_text (i :: items)) + 1)%nat ->
  parse_pin_source fs (uri_text (i :: items) ++ rest)
    (Z.of_nat (length (uri_text (i :: items)))) (Some fresh)
    txt0 field field_len
  = FileOut 0 field field_len.
Proof.
  intros Hok Hbar Hfresh. unfold parse_pin_source.
  destruct (parse_uri_attr_items (i :: items) rest fresh Hok Hfresh)
    as (buf & -> & Htake & _).
  cbn [length map] in Htake. rewrite Hbar in Htake.
  destruct buf as [|c buf]; [discriminate Htake|].
  cbn [firstn] in Htake. injection Htake as -> _.
  unfold has_file_prefix. cbn [c_string]. 
  replace (ch_bar =? 0) with false by reflexivity.
  cbn [firstn map]. rewrite bool_decide_eq_false_2.
  - cbn [cur hd]. replace (ch_bar =? ch_bar) with true by reflexivity.
    reflexivity.
  - unfold file_prefix. intros H. discriminate H.
Qed.

(** ["%7Ccat"]. *)
Lemma pin_source_command_rejected_witness :
  parse_pin_source (fun _ => Some [49; 50; 51; 52])
    [37; 55; 67; 99; 97; 116] 6 (Some (repeat 0 7))
    (repeat 0 9) (repeat 0 8) 8
  = FileOut 0 (repeat 0 8) 8.
Proof.
  apply (pin_source_command_rejected (fun _ => Some [49; 50; 51; 52])
           (Esc 124) [Lit 99; Lit 97; Lit 116] [] (repeat 0 7)
           (repeat 0 9) (repeat 0 8) 8).
  - repeat constructor; unfold is_byte; try discriminate; lia.
  - reflexivity.
  - reflexivity.
Defined.

(** X9.  Which file [parse_pin_source] opens.  For a decoded value
    without a zero byte: when it starts with ["file:"] in any
    capitalisation, the path is what follows those five characters;
    otherwise, unless it starts with a vertical bar, the path is the
    whole value.  The result is that of [read_from_file] on this
    path. *)
Theorem pin_source_path
    (fs : list Z -> option (list Z)) (items : list uri_item)
    (rest fresh txt0 field : list Z) (field_len : nat) :
  Forall item_ok items ->
  ~ In 0 (map item_value items) ->
  length fresh = (length (uri_text items) + 1)%nat ->
  let vals := map item_value items in
  let r := parse_pin_source fs (uri_text items ++ rest)
             (Z.of_nat (length (uri_text items))) (Some fresh)
             txt0 field field_len in
  (forall pre path,
      vals = pre ++ path -> map tolower pre = file_prefix ->
      r = read_from_file (fs path) txt0 field field_len)
  /\ (map tolower (firstn 5 vals) <> file_prefix ->
      hd 0 vals <> ch_bar ->
      r = read_from_file (fs vals) txt0 field field_len).
Proof.
  intros Hok Hnz Hfresh. cbn zeta. unfold parse_pin_source.
  destruct (parse_uri_attr_items items rest fresh Hok Hfresh)
    as (buf & -> & Htake & Hend).
  pose proof (buffer_split buf _ _ Htake Hend) as Hbuf.
  set (vals := map item_value items) in *.
  set (tail := skipn (S (length items)) buf) in *.
  assert (Hstr : c_string buf = vals).
  { rewrite Hbuf, c_string_app_zero. apply c_string_no_zero. exact Hnz. }
  unfold has_file_prefix. rewrite Hstr. split.
  - intros pre path Hv Hpre.
    assert (Hl : length pre = 5%nat).
    { rewrite <- (length_map tolower), Hpre. reflexivity. }
    rewrite Hv, take_app_length' by (symmetry; exact Hl).
    rewrite bool_decide_eq_true_2 by exact Hpre.
    rewrite Hbuf, Hv, <- app_assoc, drop_app_length' by (symmetry; exact Hl).
    rewrite c_string_app_zero, c_string_no_zero; [reflexivity|].
    intros Hin. apply Hnz. rewrite Hv. apply in_or_app. right. exact Hin.
  - intros Hpre Hbar. rewrite bool_decide_eq_false_2 by exact Hpre.
    replace (cur buf) with (hd 0 vals).
    + apply Z.eqb_neq in Hbar. rewrite Hbar. reflexivity.
    + rewrite Hbuf. destruct vals; reflexivity.
Qed.

(** ["FILE:/p"] opens [/p]. *)
Lemma pin_source_path_witness :
  parse_pin_source
    (fun p => match p with [47; 112] => Some [49; 50] | _ => None end)
    [70; 73; 76; 69; 58; 47; 112] 7 (Some (repeat 0 8))
    (repeat 0 5) (repeat 0 4) 4
  = read_from_file (Some [49; 50]) (repeat 0 5) (repeat 0 4) 4.
Proof.
  refine (proj1 (pin_source_path
           (fun p => match p with [47; 112] => Some [49; 50] | _ => None end)
           [Lit 70; Lit 73; Lit 76; Lit 69; Lit 58; Lit 47; Lit 112] []
           (repeat 0 8) (repeat 0 5) (repeat 0 4) 4 _ _ _)
         [70; 73; 76; 69; 58] [47; 112] _ _).
  - repeat constructor; discriminate.
  - cbn. intros H. repeat (destruct H as [H|H]; [discriminate H|]). exact H.
  - reflexivity.
  - reflexivity.
  - reflexivity.
Defined.


(** ** Legacy identifiers *)

Section SlotIdStrings.

Lemma hexval_not_end (c v : Z) :
  hexval c = Some v -> ((c =? 0) || (c =? ch_colon)) = false.
Proof.
  intros H. destruct (Z.eqb_spec c 0) as [->|_]; [discriminate H|].
  destruct (Z.eqb_spec c ch_colon) as [->|_]; [discriminate H|].
  reflexivity.
Qed.

Lemma is_hex_cur (c : Z) (t : list Z) :
  is_hex c -> (cur (c :: t) =? ch_colon) = false.
Proof.
  intros [v Hv]. apply hexval_not_end in Hv.
  apply orb_false_elim in Hv as [_ Hv]. exact Hv.
Qed.

Lemma nybble_two (a b va vb : Z) (t : list Z) :
  hexval a = Some va -> hexval b = Some vb ->
  nybble_loop 2 (a :: b :: t) 0
  = Some (Z.lor (Z.shiftl (Z.lor (Z.shiftl 0 4) va) 4) vb, t).
Proof.
  intros Ha Hb. cbn [nybble_loop cur hd next tl].
  rewrite (hexval_not_end a va Ha), Ha.
  rewrite (hexval_not_end b vb Hb), Hb. reflexivity.
Qed.

Lemma nybble_one (a va : Z) (t : list Z) :
  hexval a = Some va -> cur t = 0 ->
  nybble_loop 2 (a :: t) 0 = Some (Z.lor (Z.shiftl 0 4) va, t).
Proof.
  intros Ha Ht. cbn [nybble_loop].
  change (cur (a :: t)) with a. change (next (a :: t)) with t.
  rewrite (hexval_not_end a va Ha), Ha, Ht. reflexivity.
Qed.

Lemma half_SS (k : nat) : ((S (S k) + 1) / 2 = S ((k + 1) / 2))%nat.
Proof.
  replace (S (S k) + 1)%nat with ((k + 1) + 1 * 2)%nat by lia.
  rewrite Nat.div_add by lia. lia.
Qed.

Lemma digit_value_hexval (c v : Z) : hexval c = Some v -> digit_value c = v.
Proof.
  unfold hexval, digit_value.
  destruct ((48 <=? c) && (c <=? 57)); [intros [= <-]; reflexivity|].
  destruct ((97 <=? c) && (c <=? 102)); [intros [= <-]; lia|].
  destruct ((65 <=? c) && (c <=? 70)); [intros [= <-]; lia|discriminate].
Qed.

(** The loop on a string of hex digits without colons: two digits to a
    byte, the first its high half, and a byte for a last digit left
    over. *)
Lemma hex_loop_digits (n : nat) : forall s,
  (length s <= n)%nat -> Forall is_hex s ->
  forall rest fuel left out,
    cur rest = 0 -> (length s < fuel)%nat ->
    ((length s + 1) / 2 <= left)%nat ->
    hex_loop fuel (s ++ rest) left out
    = Some (HexOut 1 (out ++ hex_bytes s)
              (length out + (length s + 1) / 2))
    /\ length (hex_bytes s) = ((length s + 1) / 2)%nat.
Proof.
  induction n as [|n IH]; intros s Hn Hs rest fuel left out Hr Hf Hl.
  - destruct s; [|cbn in Hn; lia].
    destruct fuel as [|f]; [cbn in Hf; lia|].
    cbn [app hex_loop length hex_bytes]. rewrite Hr. cbn.
    rewrite app_nil_r, Nat.add_0_r. auto.
  - destruct fuel as [|f]; [lia|].
    destruct s as [|a [|b s']].
    + cbn [app hex_loop length hex_bytes]. rewrite Hr. cbn.
      rewrite app_nil_r, Nat.add_0_r. auto.
    + inversion Hs as [|? ? [va Ha] _]; subst.
      cbn [length hex_bytes] in *. change ((1 + 1) / 2)%nat with 1%nat in *.
      destruct left as [|l]; [lia|].
      destruct f as [|f]; [lia|].
      cbn [app hex_loop].
      replace (cur (a :: rest) =? 0) with false
        by (symmetry; apply (orb_false_elim _ _ (hexval_not_end a va Ha))).
      rewrite (nybble_one a va rest Ha Hr). rewrite Hr.
      change (0 =? ch_colon) with false.
      cbn [hex_loop]. rewrite Hr. cbn [Z.eqb].
      rewrite Z.shiftl_0_l, Z.lor_0_l, (digit_value_hexval a va Ha).
      rewrite length_app. cbn [length]. split; reflexivity.
    + inversion Hs as [|? ? [va Ha] Hs1]; subst.
      inversion Hs1 as [|? ? [vb Hb] Hs2]; subst.
      cbn [length hex_bytes] in *. rewrite half_SS in *.
      destruct left as [|l]; [lia|].
      cbn [app hex_loop].
      replace (cur (a :: b :: s' ++ rest) =? 0) with false
        by (symmetry; apply (orb_false_elim _ _ (hexval_not_end a va Ha))).
      rewrite (nybble_two a b va vb _ Ha Hb).
      assert (Hc : (cur (s' ++ rest) =? ch_colon) = false).
      { destruct s' as [|c s'']; cbn [app].
        - rewrite Hr. reflexivity.
        - inversion Hs2; subst. apply is_hex_cur. assumption. }
      rewrite Hc.
      rewrite (nybbles_compose va vb (hexval_bound a va Ha)
                 (hexval_bound b vb Hb)).
      rewrite (digit_value_hexval a va Ha), (digit_value_hexval b vb Hb).
      destruct (IH s' ltac:(lia) Hs2 rest f l (out ++ [16 * va + vb])
                  Hr ltac:(lia) ltac:(lia)) as (Hb1 & Hb2).
      rewrite Hb1, <- app_assoc, length_app. cbn [app length].
      split; [|rewrite Hb2; reflexivity].
      do 2 f_equal. lia.
Qed.

Lemma hex_to_bin_digits (s rest : list Z) (cap : nat) :
  Forall is_hex s -> cur rest = 0 ->
  ((length s + 1) / 2 <= cap)%nat ->
  hx_ret (hex_to_bin (Some (s ++ rest)) cap) = 1
  /\ hx_outlen (hex_to_bin (Some (s ++ rest)) cap)
     = ((length s + 1) / 2)%nat
  /\ length (hx_out (hex_to_bin (Some (s ++ rest)) cap))
     = ((length s + 1) / 2)%nat
  /\ hx_out (hex_to_bin (Some (s ++ rest)) cap) = hex_bytes s.
Proof.
  intros Hs Hr Hcap. unfold hex_to_bin.
  destruct (cur (s ++ rest) =? 0) eqn:E.
  - destruct s as [|a s'].
    + cbn. auto.
    + inversion Hs as [|? ? [va Ha] _]; subst.
      apply hexval_not_end, orb_false_elim in Ha as [Ha _].
      cbn [app cur hd] in E. congruence.
  - destruct (hex_loop_digits (length s) s (Nat.le_refl _) Hs rest
                (S (length (s ++ rest))) cap [] Hr
                ltac:(rewrite length_app; lia) Hcap) as (-> & Hb).
    cbn. auto.
Qed.

Lemma hex_text_groups (val : list Z) :
  hex_text val = hex_groups (map (fun b => (b, false)) val).
Proof.
  unfold hex_text, hex_groups.
  induction val as [|b r IH]; [reflexivity|].
  cbn [flat_map map fst snd]. rewrite app_nil_r, IH. reflexivity.
Qed.

Lemma hex_text_decodes (val rest : list Z) (cap : nat) :
  Forall is_byte val -> cur rest = 0 -> (length val <= cap)%nat ->
  hx_out (hex_to_bin (Some (hex_text val ++ rest)) cap) = val.
Proof.
  intros Hv Hr Hcap. rewrite hex_text_groups.
  rewrite hex_to_bin_groups.
  - cbn [hx_out]. rewrite map_map. cbn [fst]. apply map_id.
  - apply Forall_map. cbn [fst]. exact Hv.
  - exact Hr.
  - rewrite length_map. exact Hcap.
Qed.

Lemma hex_text_length (val : list Z) :
  length (hex_text val) = (2 * length val)%nat.
Proof.
  unfold hex_text. induction val as [|b r IH]; [reflexivity|].
  cbn [flat_map]. rewrite length_app, IH. cbn [length sprintf_02X]. lia.
Qed.

(** [hex_id] on hex digits that fit. *)
Lemma hex_id_accepts (n : Z) (hex rest : list Z) (cap : nat)
    (label : option (list Z)) :
  Forall is_hex hex -> cur rest = 0 ->
  ((length hex + 1) / 2 <= cap)%nat ->
  accepts_id hex n label (hex_id n (hex ++ rest) cap label).
Proof.
  intros Hs Hr Hcap. unfold accepts_id, hex_id. cbn zeta.
  destruct (hex_to_bin_digits hex rest cap Hs Hr Hcap)
    as (H1 & H2 & H3 & H4).
  cbn [so_ret so_slot so_label so_id_len so_id].
  repeat split; try assumption; try reflexivity; [congruence|].
  intros val Hv ->. apply hex_text_decodes; try assumption.
  rewrite hex_text_length in Hcap.
  replace ((2 * length val + 1) / 2)%nat with (length val) in Hcap; [lia|].
  replace (2 * length val + 1)%nat with (1 + length val * 2)%nat by lia.
  rewrite Nat.div_add by lia. reflexivity.
Qed.

Lemma hex_accept (c : Z) :
  is_hex c -> (c =? 0) = false /\ existsb (Z.eqb c) HEXDIGITS = true.
Proof.
  intros [v Hv]. split.
  { apply hexval_not_end, orb_false_elim in Hv as [Hv _]. exact Hv. }
  unfold hexval in Hv.
  destruct ((48 <=? c) && (c <=? 57)) eqn:E1.
  { apply andb_prop in E1 as [? ?].
    assert (Hc : c = 48 \/ c = 49 \/ c = 50 \/ c = 51 \/ c = 52 \/ c = 53
                \/ c = 54 \/ c = 55 \/ c = 56 \/ c = 57) by lia.
    repeat (destruct Hc as [->|Hc]; [reflexivity|]). subst. reflexivity. }
  destruct ((97 <=? c) && (c <=? 102)) eqn:E2.
  { apply andb_prop in E2 as [? ?].
    assert (Hc : c = 97 \/ c = 98 \/ c = 99 \/ c = 100 \/ c = 101 \/ c = 102)
      by lia.
    repeat (destruct Hc as [->|Hc]; [reflexivity|]). subst. reflexivity. }
  destruct ((65 <=? c) && (c <=? 70)) eqn:E3; [|discriminate].
  apply andb_prop in E3 as [? ?].
  assert (Hc : c = 65 \/ c = 66 \/ c = 67 \/ c = 68 \/ c = 69 \/ c = 70)
    by lia.
  repeat (destruct Hc as [->|Hc]; [reflexivity|]). subst. reflexivity.
Qed.

Lemma strspn_end (rest accept : list Z) :
  cur rest = 0 -> strspn rest accept = 0%nat.
Proof.
  destruct rest as [|c r]; [reflexivity|]. cbn. intros ->. reflexivity.
Qed.

Lemma strlen_end (rest : list Z) : cur rest = 0 -> strlen rest = 0%nat.
Proof.
  destruct rest as [|c r]; [reflexivity|]. unfold strlen. cbn.
  intros ->. reflexivity.
Qed.

Lemma strspn_app (accept s rest : list Z) :
  Forall (fun c => (c =? 0) = false /\ existsb (Z.eqb c) accept = true) s ->
  strspn (s ++ rest) accept = (length s + strspn rest accept)%nat.
Proof.
  induction 1 as [|c s [H0 Hc] _ IH]; [reflexivity|].
  cbn [app strspn length]. rewrite H0, Hc, IH. reflexivity.
Qed.

Lemma strlen_app (s rest : list Z) :
  Forall (fun c => (c =? 0) = false) s ->
  strlen (s ++ rest) = (length s + strlen rest)%nat.
Proof.
  unfold strlen. induction 1 as [|c s H0 _ IH]; [reflexivity|].
  cbn [app c_string length]. rewrite H0. cbn [length]. rewrite IH.
  reflexivity.
Qed.

Lemma strspn_hex (s rest : list Z) :
  Forall is_hex s ->
  strspn (s ++ rest) HEXDIGITS = (length s + strspn rest HEXDIGITS)%nat.
Proof.
  intros Hs. apply strspn_app.
  eapply Forall_impl; [exact Hs|]. intros c Hc. apply hex_accept. exact Hc.
Qed.

Lemma strlen_hex (s rest : list Z) :
  Forall is_hex s -> strlen (s ++ rest) = (length s + strlen rest)%nat.
Proof.
  intros Hs. apply strlen_app.
  eapply Forall_impl; [exact Hs|]. intros c Hc. apply hex_accept. exact Hc.
Qed.

End SlotIdStrings.

(** X10.  An identifier made of hex digits only, of either case, is an
    object id and no slot number: [parse_slot_id_string] sets the slot
    to -1 and stores the bytes the digits denote, two digits to a byte
    with the first as its high half and a byte of its own for a last
    digit left over; the label is left alone.  When the bytes do not fit
    the capacity it returns 0 and changes nothing. *)
Theorem slot_id_hex_only
    (strdup_ok : bool) (hex rest : list Z) (slot : Z) (cap : nat)
    (label : option (list Z)) :
  Forall is_hex hex -> cur rest = 0 ->
  let r := parse_slot_id_string strdup_ok (hex ++ rest) slot cap label in
  (((length hex + 1) / 2 <= cap)%nat -> accepts_id hex (-1) label r)
  /\ ((cap < (length hex + 1) / 2)%nat -> r = SlotIdOut 0 slot [] cap label).
Proof.
  intros Hs Hr. cbn zeta. unfold parse_slot_id_string. cbn zeta.
  rewrite strspn_hex, strlen_hex by exact Hs.
  rewrite (strspn_end rest _ Hr), (strlen_end rest Hr).
  rewrite Nat.eqb_refl, Nat.add_0_r. split; intros Hcap.
  - replace (cap <? (length hex + 1) / 2)%nat with false
      by (symmetry; apply Nat.ltb_ge; exact Hcap).
    apply hex_id_accepts; assumption.
  - replace (cap <? (length hex + 1) / 2)%nat with true
      by (symmetry; apply Nat.ltb_lt; exact Hcap).
    reflexivity.
Qed.

(** ["12"] is the id 0x12, not slot 12. *)
Example slot_id_two_digits :
  parse_slot_id_string true [49; 50] 7 3 None = SlotIdOut 1 (-1) [18] 1 None.
Proof. reflexivity. Qed.

(** ["abc"], lower case and an odd number of digits, is the id
    0xab 0x0c. *)
Lemma slot_id_hex_only_witness :
  accepts_id [97; 98; 99] (-1) None
    (parse_slot_id_string true [97; 98; 99] 7 3 None)
  /\ so_id (parse_slot_id_string true [97; 98; 99] 7 3 None) = [171; 12].
Proof.
  assert (H : accepts_id [97; 98; 99] (-1) None
                (parse_slot_id_string true [97; 98; 99] 7 3 None)).
  { apply (proj1 (slot_id_hex_only true [97; 98; 99] [] 7 3 None
                    ltac:(repeat constructor; eexists; reflexivity)
                    eq_refl)).
    vm_compute. lia. }
  split; [exact H|]. exact (proj1 (proj2 (proj2 (proj2 H)))).
Defined.


Section SlotIdNumbers.

Lemma digit_facts (c : Z) :
  is_digit c ->
  isdigit c = true /\ is_hex c /\ (c =? 0) = false
  /\ existsb (Z.eqb c) DIGITS = true.
Proof.
  unfold is_digit. intros Hc.
  assert (H : c = 48 \/ c = 49 \/ c = 50 \/ c = 51 \/ c = 52 \/ c = 53
              \/ c = 54 \/ c = 55 \/ c = 56 \/ c = 57) by lia.
  clear Hc.
  repeat (destruct H as [->|H];
          [repeat split; try reflexivity; eexists; reflexivity|]).
  subst. repeat split; try reflexivity. eexists; reflexivity.
Qed.

Lemma digits_value_app (ds tail : list Z) :
  Forall is_digit ds -> isdigit (cur tail) = false ->
  forall acc,
    digits_value (ds ++ tail) acc
    = fold_left (fun a c => 10 * a + (c - 48)) ds acc.
Proof.
  intros Hds Ht. induction Hds as [|c ds Hc _ IH]; intros acc.
  - cbn [app fold_left]. destruct tail as [|t ts]; [reflexivity|].
    cbn [digits_value]. cbn [cur hd] in Ht. rewrite Ht. reflexivity.
  - cbn [app digits_value fold_left].
    destruct (digit_facts c Hc) as (-> & _). apply IH.
Qed.

(** [sscanf] with ["%d"] on a string that starts with the digits [ds],
    followed by something that is no digit. *)
Lemma sscanf_d_digits (ds tail : list Z) :
  ds <> [] -> Forall is_digit ds -> isdigit (cur tail) = false ->
  sscanf_d (ds ++ tail) = Some (decimal_value ds).
Proof.
  intros Hne Hds Ht. destruct ds as [|c ds]; [congruence|].
  pose proof (digits_value_app (c :: ds) tail Hds Ht 0) as Hv.
  inversion Hds as [|? ? Hc _]; subst.
  unfold sscanf_d. cbn [app skip_space] in *.
  unfold is_digit in Hc.
  replace (isspace c) with false
    by (symmetry; unfold isspace; apply orb_false_intro;
        [apply Z.eqb_neq|apply andb_false_intro2, Z.leb_gt]; lia).
  cbn [cur hd].
  replace (c =? ch_minus) with false
    by (symmetry; apply Z.eqb_neq; unfold ch_minus; lia).
  replace (c =? ch_plus) with false
    by (symmetry; apply Z.eqb_neq; unfold ch_plus; lia).
  cbn [cur hd].
  destruct (digit_facts c Hc) as (-> & _).
  rewrite Hv. reflexivity.
Qed.

Lemma strspn_digits (ds tail : list Z) :
  Forall is_digit ds ->
  strspn (ds ++ tail) DIGITS = (length ds + strspn tail DIGITS)%nat.
Proof.
  intros Hds. apply strspn_app.
  eapply Forall_impl; [exact Hds|]. intros c Hc.
  destruct (digit_facts c Hc) as (_ & _ & H0 & H1). auto.
Qed.

Lemma digits_hex (ds : list Z) : Forall is_digit ds -> Forall is_hex ds.
Proof.
  intros Hds. eapply Forall_impl; [exact Hds|]. intros c Hc.
  apply (digit_facts c Hc).
Qed.

Lemma at_app (l r : list Z) (k : nat) :
  at_ (l ++ r) (length l + k) = at_ r k.
Proof. unfold at_. induction l as [|c l IH]; [reflexivity|exact IH]. Qed.

Lemma at_0 (l : list Z) : at_ l 0 = cur l.
Proof. destruct l; reflexivity. Qed.

Lemma skipn_app_add (l r : list Z) (k : nat) :
  skipn (length l + k) (l ++ r) = skipn k r.
Proof. induction l as [|c l IH]; [reflexivity|exact IH]. Qed.

Lemma hex_text_nil (val : list Z) : [] = hex_text val -> val = [].
Proof. destruct val; [reflexivity|discriminate]. Qed.

(** The identifier is over after the slot number. *)
Lemma accepts_no_id (n : Z) (label : option (list Z)) :
  accepts_id [] n label (SlotIdOut 1 n [] 0 label).
Proof.
  unfold accepts_id. cbn. repeat split.
  intros val _ H. symmetry. apply hex_text_nil. exact H.
Qed.

(** The steps shared by the forms that end in hex digits: the test that
    the rest is hex, the length test and the decoding. *)
Lemma id_tail (n : Z) (hex rest : list Z) (cap i len : nat)
    (label : option (list Z)) (fail : slot_id_out) :
  Forall is_hex hex -> cur rest = 0 ->
  len = (i + length hex)%nat ->
  let r :=
    if negb (strspn (hex ++ rest) HEXDIGITS + i =? len)%nat then fail
    else if (cap <? (len - i + 1) / 2)%nat then fail
    else hex_id n (hex ++ rest) cap label in
  (((length hex + 1) / 2 <= cap)%nat -> accepts_id hex n label r)
  /\ ((cap < (length hex + 1) / 2)%nat -> r = fail).
Proof.
  intros Hs Hr ->. cbn zeta.
  rewrite strspn_hex, (strspn_end rest _ Hr), Nat.add_0_r by exact Hs.
  replace (length hex + i =? i + length hex)%nat with true
    by (symmetry; apply Nat.eqb_eq; lia).
  replace (i + length hex - i)%nat with (length hex) by lia.
  cbn [negb]. split; intros Hcap.
  - replace (cap <? (length hex + 1) / 2)%nat with false
      by (symmetry; apply Nat.ltb_ge; exact Hcap).
    apply hex_id_accepts; assumption.
  - replace (cap <? (length hex + 1) / 2)%nat with true
      by (symmetry; apply Nat.ltb_lt; exact Hcap).
    reflexivity.
Qed.

End SlotIdNumbers.

(** X11.  The form [N:HEX], a decimal slot number, a colon and hex
    digits of either case: [parse_slot_id_string] stores the number as
    the slot and the bytes the digits denote as the object id, two
    digits to a byte and a byte of its own for a last digit left over;
    with nothing after the colon the id is empty.  When the bytes do not
    fit the capacity it returns 0 and changes nothing. *)
Theorem slot_id_number_colon_hex
    (strdup_ok : bool) (ds hex rest : list Z) (slot : Z) (cap : nat)
    (label : option (list Z)) :
  ds <> [] -> Forall is_digit ds -> decimal_value ds < 2 ^ 31 ->
  Forall is_hex hex -> cur rest = 0 ->
  let r := parse_slot_id_string strdup_ok (ds ++ ch_colon :: hex ++ rest)
             slot cap label in
  (((length hex + 1) / 2 <= cap)%nat ->
   accepts_id hex (decimal_value ds) label r)
  /\ ((cap < (length hex + 1) / 2)%nat -> r = SlotIdOut 0 slot [] cap label).
Proof.
  intros Hne Hds _ Hs Hr. cbn zeta. unfold parse_slot_id_string. cbn zeta.
  assert (Hlen : strlen (ds ++ ch_colon :: hex ++ rest)
                 = (S (length ds) + length hex)%nat).
  { rewrite strlen_hex by (apply digits_hex; exact Hds).
    change (ch_colon :: hex ++ rest) with ([ch_colon] ++ hex ++ rest).
    rewrite strlen_app by (repeat constructor).
    rewrite strlen_hex, (strlen_end rest Hr) by exact Hs.
    cbn [length]. lia. }
  rewrite Hlen.
  rewrite strspn_hex by (apply digits_hex; exact Hds).
  change (strspn (ch_colon :: hex ++ rest) HEXDIGITS) with 0%nat.
  replace (length ds + 0 =? S (length ds) + length hex)%nat with false
    by (symmetry; apply Nat.eqb_neq; lia).
  rewrite sscanf_d_digits by (try assumption; reflexivity).
  rewrite strspn_digits by exact Hds.
  change (strspn (ch_colon :: hex ++ rest) DIGITS) with 0%nat.
  rewrite (at_app ds _ 0). change (at_ (ch_colon :: hex ++ rest) 0)
    with ch_colon.
  replace (ch_colon =? ch_colon) with true by reflexivity. cbn [negb].
  replace (S (length ds + 0)) with (length ds + 1)%nat by lia.
  rewrite (at_app ds _ 1), (skipn_app_add ds _ 1).
  change (at_ (ch_colon :: hex ++ rest) 1) with (at_ (hex ++ rest) 0).
  change (skipn 1 (ch_colon :: hex ++ rest)) with (hex ++ rest).
  rewrite at_0.
  destruct hex as [|h hex'].
  - cbn [app]. rewrite Hr. cbn [Z.eqb]. split.
    + intros _. apply accepts_no_id.
    + cbn. lia.
  - inversion Hs as [|? ? Hh _]; subst.
    replace (cur ((h :: hex') ++ rest) =? 0) with false
      by (symmetry; apply (hex_accept h Hh)).
    apply id_tail; [exact Hs|exact Hr|lia].
Qed.

(** ["3:0a1B"] is slot 3 with the id 0x0a 0x1b. *)
Lemma slot_id_number_colon_hex_witness :
  accepts_id [48; 97; 49; 66] 3 None
    (parse_slot_id_string true [51; 58; 48; 97; 49; 66] (-1) 7 None)
  /\ so_id (parse_slot_id_string true [51; 58; 48; 97; 49; 66] (-1) 7 None)
     = [10; 27].
Proof.
  assert (H : accepts_id [48; 97; 49; 66] 3 None
                (parse_slot_id_string true [51; 58; 48; 97; 49; 66] (-1) 7
                   None)).
  { refine (proj1 (slot_id_number_colon_hex true [51] [48; 97; 49; 66] []
                     (-1) 7 None _ _ _ _ _) _).
    - discriminate.
    - repeat constructor; unfold is_digit; lia.
    - reflexivity.
    - repeat constructor; eexists; reflexivity.
    - reflexivity.
    - vm_compute. lia. }
  split; [exact H|]. exact (proj1 (proj2 (proj2 (proj2 H)))).
Defined.


Section SlotIdNamed.

Lemma strspn_no_digit (tail : list Z) :
  isdigit (cur tail) = false -> strspn tail DIGITS = 0%nat.
Proof.
  destruct tail as [|c r]; [reflexivity|]. cbn [cur hd strspn].
  intros Hc. destruct (c =? 0); [reflexivity|].
  replace (existsb (Z.eqb c) DIGITS) with false; [reflexivity|].
  symmetry. unfold isdigit in Hc. unfold DIGITS. cbn [existsb].
  apply andb_false_iff in Hc.
  repeat (apply orb_false_intro; [apply Z.eqb_neq; lia|]). reflexivity.
Qed.

(** The string after ["slot_"] and a number: position arithmetic. *)
Lemma slot_number_at (ds tail : list Z) (k : nat) :
  at_ (lit_slot ++ ds ++ tail) (length ds + 0 + 5 + k) = at_ tail k.
Proof.
  replace (length ds + 0 + 5 + k)%nat
    with (length lit_slot + (length ds + k))%nat by (cbn [lit_slot length]; lia).
  rewrite at_app, at_app. reflexivity.
Qed.

Lemma slot_number_skipn (ds tail : list Z) (k : nat) :
  skipn (5 + (length ds + 0) + k) (lit_slot ++ ds ++ tail) = skipn k tail.
Proof.
  replace (5 + (length ds + 0) + k)%nat
    with (length lit_slot + (length ds + k))%nat by (cbn [lit_slot length]; lia).
  rewrite skipn_app_add, skipn_app_add. reflexivity.
Qed.

(** The steps of [parse_slot_id_string] up to and including the number
    after ["slot_"]. *)
Lemma slot_number_read (strdup_ok : bool) (ds tail : list Z)
    (slot : Z) (cap : nat) (label : option (list Z)) :
  ds <> [] -> Forall is_digit ds -> isdigit (cur tail) = false ->
  parse_slot_id_string strdup_ok (lit_slot ++ ds ++ tail) slot cap label
  = let fail := SlotIdOut 0 slot [] cap label in
    let n := decimal_value ds in
    let len := strlen (lit_slot ++ ds ++ tail) in
    if cur tail =? 0 then SlotIdOut 1 n [] 0 label
    else if negb (cur tail =? ch_minus) then fail
    else
      let i := (5 + (length ds + 0) + 1)%nat in
      if strncmp_0 (skipn 1 tail) lit_id then
        if negb (strspn (skipn 4 tail) HEXDIGITS + 3 + i =? len)%nat
        then fail
        else if (cap <? (len - i - 3 + 1) / 2)%nat then fail
        else hex_id n (skipn 4 tail) cap label
      else if strncmp_0 (skipn 1 tail) lit_label then
        dup_label strdup_ok n (skipn 7 tail)
      else fail.
Proof.
  intros Hne Hds Ht. unfold parse_slot_id_string. cbn zeta.
  set (len := strlen (lit_slot ++ ds ++ tail)).
  assert (Hlen : (5 <= len)%nat).
  { unfold len. rewrite strlen_app by (repeat constructor).
    cbn [lit_slot length]. lia. }
  change (strspn (lit_slot ++ ds ++ tail) HEXDIGITS) with 0%nat.
  replace (0 =? len)%nat with false by (symmetry; apply Nat.eqb_neq; lia).
  change (sscanf_d (lit_slot ++ ds ++ tail)) with (@None Z).
  change (strncmp_0 (lit_slot ++ ds ++ tail) lit_id) with false.
  change (strncmp_0 (lit_slot ++ ds ++ tail) lit_label) with false.
  change (strncmp_0 (lit_slot ++ ds ++ tail) lit_slot) with true.
  change (skipn 5 (lit_slot ++ ds ++ tail)) with (ds ++ tail).
  cbn [negb].
  rewrite sscanf_d_digits by assumption.
  rewrite strspn_digits, (strspn_no_digit tail Ht) by exact Hds.
  pose proof (slot_number_at ds tail 0) as Hat.
  rewrite Nat.add_0_r, at_0 in Hat. rewrite Hat.
  rewrite (slot_number_skipn ds tail 1).
  replace (5 + (length ds + 0) + 1 + 3)%nat
    with (5 + (length ds + 0) + 4)%nat by lia.
  replace (5 + (length ds + 0) + 1 + 6)%nat
    with (5 + (length ds + 0) + 7)%nat by lia.
  rewrite (slot_number_skipn ds tail 4), (slot_number_skipn ds tail 7).
  reflexivity.
Qed.

Lemma c_string_text (l rest : list Z) :
  Forall (fun c => (c =? 0) = false) l -> cur rest = 0 ->
  c_string (l ++ rest) = l.
Proof.
  intros Hl Hr. induction Hl as [|c l Hc _ IH]; cbn [app c_string].
  - destruct rest as [|r rs]; [reflexivity|]. cbn [cur hd] in Hr.
    cbn [c_string]. rewrite Hr. reflexivity.
  - rewrite Hc, IH. reflexivity.
Qed.

End SlotIdNamed.

(** X12.  The forms [id_HEX] and [slot_N-id_HEX]: the bytes the hex
    digits denote, two digits of either case to a byte and a byte of its
    own for a last digit left over, are stored as the object id; the
    slot is -1 in the first form and the number [N] in the second.  The
    label is left alone. *)
Theorem slot_id_named_id
    (strdup_ok : bool) (ds hex rest : list Z) (slot : Z) (cap : nat)
    (label : option (list Z)) :
  ds <> [] -> Forall is_digit ds -> decimal_value ds < 2 ^ 31 ->
  Forall is_hex hex -> cur rest = 0 ->
  ((length hex + 1) / 2 <= cap)%nat ->
  accepts_id hex (-1) label
    (parse_slot_id_string strdup_ok (lit_id ++ hex ++ rest) slot cap label)
  /\ accepts_id hex (decimal_value ds) label
       (parse_slot_id_string strdup_ok
          (lit_slot ++ ds ++ ch_minus :: lit_id ++ hex ++ rest)
          slot cap label).
Proof.
  intros Hne Hds _ Hs Hr Hcap. split.
  - unfold parse_slot_id_string. cbn zeta.
    assert (Hlen : strlen (lit_id ++ hex ++ rest) = (3 + length hex)%nat).
    { rewrite strlen_app by (repeat constructor).
      rewrite strlen_hex, (strlen_end rest Hr) by exact Hs.
      cbn [lit_id length]. lia. }
    rewrite Hlen.
    change (strspn (lit_id ++ hex ++ rest) HEXDIGITS) with 0%nat.
    change (0 =? 3 + length hex)%nat with false.
    change (sscanf_d (lit_id ++ hex ++ rest)) with (@None Z).
    change (strncmp_0 (lit_id ++ hex ++ rest) lit_id) with true.
    change (skipn 3 (lit_id ++ hex ++ rest)) with (hex ++ rest).
    cbv iota.
    apply (proj1 (id_tail (-1) hex rest cap 3 (3 + length hex) label
                    (SlotIdOut 0 slot [] cap label) Hs Hr eq_refl)).
    exact Hcap.
  - rewrite slot_number_read by (try assumption; reflexivity).
    cbn zeta.
    assert (Hlen : strlen (lit_slot ++ ds ++ ch_minus :: lit_id ++ hex ++ rest)
                   = (5 + (length ds + 0) + 1 + 3 + length hex)%nat).
    { rewrite strlen_app by (repeat constructor).
      rewrite strlen_hex by (apply digits_hex; exact Hds).
      change (ch_minus :: lit_id ++ hex ++ rest)
        with ((ch_minus :: lit_id) ++ hex ++ rest).
      rewrite strlen_app by (repeat constructor).
      rewrite strlen_hex, (strlen_end rest Hr) by exact Hs.
      cbn [lit_id lit_slot length]. lia. }
    rewrite Hlen.
    change (cur (ch_minus :: lit_id ++ hex ++ rest)) with ch_minus.
    change (ch_minus =? 0) with false.
    change (ch_minus =? ch_minus) with true.
    change (skipn 1 (ch_minus :: lit_id ++ hex ++ rest))
      with (lit_id ++ hex ++ rest).
    change (skipn 4 (ch_minus :: lit_id ++ hex ++ rest)) with (hex ++ rest).
    change (strncmp_0 (lit_id ++ hex ++ rest) lit_id) with true.
    cbv iota. cbn [negb].
    rewrite strspn_hex, (strspn_end rest _ Hr) by exact Hs.
    replace (length hex + 0 + 3 + (5 + (length ds + 0) + 1)
             =? 5 + (length ds + 0) + 1 + 3 + length hex)%nat with true
      by (symmetry; apply Nat.eqb_eq; lia).
    replace (5 + (length ds + 0) + 1 + 3 + length hex
             - (5 + (length ds + 0) + 1) - 3 + 1)%nat
      with (length hex + 1)%nat by lia.
    cbn [negb].
    replace (cap <? (length hex + 1) / 2)%nat with false
      by (symmetry; apply Nat.ltb_ge; exact Hcap).
    apply hex_id_accepts; assumption.
Qed.

(** ["id_0aF"] and ["slot_12-id_0aF"]: the id is 0x0a 0x0f in both. *)
Lemma slot_id_named_id_witness :
  (accepts_id [48; 97; 70] (-1) None
     (parse_slot_id_string true [105; 100; 95; 48; 97; 70] 7 4 None)
   /\ so_id (parse_slot_id_string true [105; 100; 95; 48; 97; 70] 7 4 None)
      = [10; 15])
  /\ (accepts_id [48; 97; 70] 12 None
        (parse_slot_id_string true
           [115; 108; 111; 116; 95; 49; 50; 45; 105; 100; 95; 48; 97; 70]
           7 4 None)
      /\ so_id (parse_slot_id_string true
                  [115; 108; 111; 116; 95; 49; 50; 45; 105; 100; 95;
                   48; 97; 70] 7 4 None)
         = [10; 15]).
Proof.
  assert (H : accepts_id [48; 97; 70] (-1) None
                (parse_slot_id_string true [105; 100; 95; 48; 97; 70] 7 4
                   None)
              /\ accepts_id [48; 97; 70] 12 None
                   (parse_slot_id_string true
                      [115; 108; 111; 116; 95; 49; 50; 45; 105; 100; 95;
                       48; 97; 70] 7 4 None)).
  { apply (slot_id_named_id true [49; 50] [48; 97; 70] [] 7 4 None).
    - discriminate.
    - repeat constructor; unfold is_digit; lia.
    - reflexivity.
    - repeat constructor; eexists; reflexivity.
    - reflexivity.
    - vm_compute. lia. }
  destruct H as [H1 H2].
  split; (split; [assumption|]).
  - exact (proj1 (proj2 (proj2 (proj2 H1)))).
  - exact (proj1 (proj2 (proj2 (proj2 H2)))).
Defined.

(** X13.  The forms that name no object id.  [label_L] takes the label
    [L] with slot -1, [slot_N-label_L] takes it with slot [N], and
    [slot_N] alone takes the slot and leaves the label as it was; the
    length of the id becomes 0 in all three, whatever the capacity.  When
    the copy of the label cannot be allocated, the return value is 0 and
    the label is null, with the slot and the length already stored. *)
Theorem slot_id_named_label
    (strdup_ok : bool) (ds text rest : list Z) (slot : Z) (cap : nat)
    (label : option (list Z)) :
  ds <> [] -> Forall is_digit ds -> decimal_value ds < 2 ^ 31 ->
  Forall (fun c => c <> 0) text -> cur rest = 0 ->
  let taken (n : Z) :=
    if strdup_ok then SlotIdOut 1 n [] 0 (Some text)
    else SlotIdOut 0 n [] 0 None in
  parse_slot_id_string strdup_ok (lit_label ++ text ++ rest) slot cap label
  = taken (-1)
  /\ parse_slot_id_string strdup_ok
       (lit_slot ++ ds ++ ch_minus :: lit_label ++ text ++ rest)
       slot cap label
     = taken (decimal_value ds)
  /\ parse_slot_id_string strdup_ok (lit_slot ++ ds ++ rest) slot cap label
     = SlotIdOut 1 (decimal_value ds) [] 0 label.
Proof.
  intros Hne Hds _ Htext Hr. cbn zeta.
  assert (Htext' : Forall (fun c => (c =? 0) = false) text).
  { eapply Forall_impl; [exact Htext|]. intros c Hc. apply Z.eqb_neq, Hc. }
  split; [|split].
  - unfold parse_slot_id_string. cbn zeta.
    assert (Hlen : (6 <= strlen (lit_label ++ text ++ rest))%nat).
    { rewrite strlen_app by (repeat constructor). cbn [lit_label length]. lia. }
    change (strspn (lit_label ++ text ++ rest) HEXDIGITS) with 0%nat.
    replace (0 =? strlen (lit_label ++ text ++ rest))%nat with false
      by (symmetry; apply Nat.eqb_neq; lia).
    change (sscanf_d (lit_label ++ text ++ rest)) with (@None Z).
    change (strncmp_0 (lit_label ++ text ++ rest) lit_id) with false.
    change (strncmp_0 (lit_label ++ text ++ rest) lit_label) with true.
    change (skipn 6 (lit_label ++ text ++ rest)) with (text ++ rest).
    cbv iota. unfold dup_label.
    rewrite c_string_text by assumption. reflexivity.
  - rewrite slot_number_read by (try assumption; reflexivity).
    cbn zeta.
    change (cur (ch_minus :: lit_label ++ text ++ rest)) with ch_minus.
    change (ch_minus =? 0) with false.
    change (ch_minus =? ch_minus) with true.
    change (skipn 1 (ch_minus :: lit_label ++ text ++ rest))
      with (lit_label ++ text ++ rest).
    change (skipn 7 (ch_minus :: lit_label ++ text ++ rest))
      with (text ++ rest).
    change (strncmp_0 (lit_label ++ text ++ rest) lit_id) with false.
    change (strncmp_0 (lit_label ++ text ++ rest) lit_label) with true.
    cbv iota. cbn [negb]. unfold dup_label.
    rewrite c_string_text by assumption. reflexivity.
  - rewrite slot_number_read
      by (try assumption; rewrite Hr; reflexivity).
    cbn zeta. rewrite Hr. reflexivity.
Qed.

(** ["label_k1"], ["slot_2-label_k1"] and ["slot_2"]. *)
Lemma slot_id_named_label_witness :
  parse_slot_id_string true [108; 97; 98; 101; 108; 95; 107; 49] 7 0 None
  = SlotIdOut 1 (-1) [] 0 (Some [107; 49])
  /\ parse_slot_id_string true
       [115; 108; 111; 116; 95; 50; 45; 108; 97; 98; 101; 108; 95; 107; 49]
       7 0 None
     = SlotIdOut 1 2 [] 0 (Some [107; 49])
  /\ parse_slot_id_string true [115; 108; 111; 116; 95; 50] 7 0 None
     = SlotIdOut 1 2 [] 0 None.
Proof.
  apply (slot_id_named_label true [50] [107; 49] [] 7 0 None).
  - discriminate.
  - repeat constructor; unfold is_digit; lia.
  - reflexivity.
  - repeat constructor; discriminate.
  - reflexivity.
Defined.


Section SlotIdBounds.

Lemma hex_id_stored (n : Z) (s : list Z) (cap : nat)
    (label : option (list Z)) :
  (so_ret (hex_id n s cap label) = 1 \/ so_ret (hex_id n s cap label) = 0)
  /\ (length (so_id (hex_id n s cap label)) <= cap)%nat
  /\ Forall is_byte (so_id (hex_id n s cap label))
  /\ (so_ret (hex_id n s cap label) = 1 ->
      so_id_len (hex_id n s cap label)
      = length (so_id (hex_id n s cap label))).
Proof.
  unfold hex_id. cbn [so_ret so_id so_id_len].
  destruct (hex_to_bin_stored (Some s) cap) as (H1 & H2 & [[H3 H4]|[H3 H4]]).
  - split; [left; exact H3|]. split; [exact H1|]. split; [exact H2|].
    intros _. exact H4.
  - split; [right; exact H3|]. split; [exact H1|]. split; [exact H2|].
    rewrite H3. discriminate.
Qed.

Lemma dup_label_stored (strdup_ok : bool) (n : Z) (s : list Z) (cap : nat) :
  (so_ret (dup_label strdup_ok n s) = 1
   \/ so_ret (dup_label strdup_ok n s) = 0)
  /\ (length (so_id (dup_label strdup_ok n s)) <= cap)%nat
  /\ Forall is_byte (so_id (dup_label strdup_ok n s))
  /\ (so_ret (dup_label strdup_ok n s) = 1 ->
      so_id_len (dup_label strdup_ok n s)
      = length (so_id (dup_label strdup_ok n s))).
Proof.
  destruct strdup_ok; cbn.
  - split; [left; reflexivity|]. split; [lia|]. split; [constructor|auto].
  - split; [right; reflexivity|]. split; [lia|]. split; [constructor|auto].
Qed.

End SlotIdBounds.

(** X14.  Whatever the identifier, [parse_slot_id_string] returns 1 or
    0, stores only bytes through [id] and never more of them than the
    capacity found in [*id_len]; when it returns 1, [*id_len] is the
    number of bytes stored. *)
Theorem slot_id_within_capacity
    (strdup_ok : bool) (slot_id : list Z) (slot : Z) (cap : nat)
    (label : option (list Z)) :
  let r := parse_slot_id_string strdup_ok slot_id slot cap label in
  (so_ret r = 1 \/ so_ret r = 0)
  /\ (length (so_id r) <= cap)%nat
  /\ Forall is_byte (so_id r)
  /\ (so_ret r = 1 -> so_id_len r = length (so_id r)).
Proof.
  cbn zeta.
  assert (Hfail : forall f, f = SlotIdOut 0 slot [] cap label ->
            (so_ret f = 1 \/ so_ret f = 0)
            /\ (length (so_id f) <= cap)%nat
            /\ Forall is_byte (so_id f)
            /\ (so_ret f = 1 -> so_id_len f = length (so_id f))).
  { intros f ->. cbn. split; [right; reflexivity|]. split; [lia|].
    split; [constructor|discriminate]. }
  assert (Hslot : forall n,
            (so_ret (SlotIdOut 1 n [] 0 label) = 1
             \/ so_ret (SlotIdOut 1 n [] 0 label) = 0)
            /\ (length (so_id (SlotIdOut 1 n [] 0 label)) <= cap)%nat
            /\ Forall is_byte (so_id (SlotIdOut 1 n [] 0 label))
            /\ (so_ret (SlotIdOut 1 n [] 0 label) = 1 ->
                so_id_len (SlotIdOut 1 n [] 0 label)
                = length (so_id (SlotIdOut 1 n [] 0 label)))).
  { intros n. cbn. split; [left; reflexivity|]. split; [lia|].
    split; [constructor|auto]. }
  unfold parse_slot_id_string. cbn zeta.
  repeat match goal with
         | |- context [if ?b then _ else _] => destruct b
         | |- context [match ?o with Some _ => _ | None => _ end] =>
             destruct o
         end;
    first [ apply Hfail; reflexivity
          | apply Hslot
          | apply hex_id_stored
          | apply dup_label_stored ].
Qed.


(** ** PKCS#11 URIs *)

Ltac decide_prefix l :=
  match goal with
  | |- context [strncmp_0 ?p l] =>
      let b := eval lazy in (strncmp_0 p l) in
      change (strncmp_0 p l) with b; cbv iota
  end.

Ltac plain_chars :=
  repeat (apply orb_false_intro; [apply Z.eqb_neq; lia|]); reflexivity.

Section UriLoop.

Variable alloc : nat -> option (list Z).
Variable scratch : nat -> list Z.
Variable fs : list Z -> option (list Z).

Lemma attr_end_length (p : list Z) : (length (attr_end p) <= length p)%nat.
Proof.
  induction p as [|c r IH]; [reflexivity|]. cbn [attr_end].
  destruct ((c =? 0) || existsb (Z.eqb c) delimiters); cbn [length]; lia.
Qed.

Lemma uri_step_end (st : uri_state) :
  u_end (uri_step alloc scratch fs st) = attr_end (next (u_end st)).
Proof.
  unfold uri_step. cbn zeta.
  repeat match goal with
         | |- context [if ?b then _ else _] => destruct b
         | |- context [let '(_, _) := ?x in _] => destruct x
         end; reflexivity.
Qed.

(** The loop ends. *)
Lemma uri_loop_fuel (fuel : nat) : forall st,
  (length (u_end st) < fuel)%nat ->
  exists st', uri_loop alloc scratch fs fuel st = Some st'.
Proof.
  induction fuel as [|f IH]; intros st Hf; [lia|]. cbn [uri_loop].
  destruct (negb (u_rv st =? 0) && negb (cur (u_end st) =? 0)
            && negb (at_ (u_end st) 1 =? 0)) eqn:E; [|eauto].
  apply IH. rewrite uri_step_end.
  pose proof (attr_end_length (next (u_end st))) as Hl.
  destruct (u_end st) as [|c r]; cbn [next tl length] in *; [|lia].
  cbn in E. rewrite andb_false_r in E. discriminate E.
Qed.

Lemma attr_end_app (s tail : list Z) :
  Forall plain s -> stops tail -> attr_end (s ++ tail) = tail.
Proof.
  intros Hs Ht. induction Hs as [|c s Hc _ IH]; cbn [app attr_end].
  - destruct tail as [|t ts]; [reflexivity|]. cbn [attr_end].
    unfold stops in Ht. cbn [cur hd] in Ht. rewrite Ht. reflexivity.
  - unfold plain in Hc. rewrite Hc. exact IH.
Qed.

Lemma len_app (s tail : list Z) :
  (length (s ++ tail) - length tail)%nat = length s.
Proof. rewrite length_app. lia. Qed.

Lemma hex_digit_plain (v : Z) : 0 <= v < 16 -> plain (hex_digit v).
Proof.
  intros Hv. unfold plain, hex_digit, delimiters. cbn [existsb].
  destruct (v <? 10) eqn:E; [apply Z.ltb_lt in E|apply Z.ltb_ge in E];
    plain_chars.
Qed.

Lemma uri_text_plain (items : list uri_item) :
  value_ok items -> Forall plain (uri_text items).
Proof.
  intros [_ Hp]. unfold uri_text.
  induction Hp as [|i r Hi _ IH]; cbn [flat_map]; [constructor|].
  apply Forall_app. split; [|exact IH].
  destruct i as [c|b]; cbn [item_text sprintf_02X].
  - constructor; [exact Hi|constructor].
  - constructor; [reflexivity|].
    pose proof (Z.mod_pos_bound b 256 ltac:(lia)) as Hu.
    constructor;
      [apply hex_digit_plain; split;
       [apply Z.div_pos; lia|apply Z.div_lt_upper_bound; lia]|].
    constructor; [apply hex_digit_plain, Z.mod_pos_bound; lia|constructor].
Qed.

End UriLoop.


Section UriSteps.

Variable alloc : nat -> option (list Z).
Variable scratch : nat -> list Z.
Variable fs : list Z -> option (list Z).

Hypothesis alloc_ok : allocates alloc.

Lemma str_of_snoc (k : str_key) (done : list uri_attr) (a : uri_attr) :
  str_of k (done ++ [a]) = str_step k (str_of k done) a.
Proof. unfold str_of. rewrite fold_left_app. reflexivity. Qed.

Lemma id_of_snoc (done : list uri_attr) (a : uri_attr) :
  id_of (done ++ [a]) = id_step (id_of done) a.
Proof. unfold id_of. rewrite fold_left_app. reflexivity. Qed.

Lemma pin_value_of_snoc (done : list uri_attr) (a : uri_attr) :
  pin_value_of (done ++ [a]) = pin_step (pin_value_of done) a.
Proof. unfold pin_value_of. rewrite fold_left_app. reflexivity. Qed.

Lemma existsb_snoc (f : uri_attr -> bool) (done : list uri_attr)
    (a : uri_attr) :
  existsb f (done ++ [a]) = existsb f done || f a.
Proof. rewrite existsb_app. cbn. rewrite orb_false_r. reflexivity. Qed.

Lemma id_of_none (done : list uri_attr) :
  existsb is_id done = false -> id_of done = None.
Proof.
  induction done as [|a done IH] using rev_ind; [reflexivity|].
  rewrite existsb_snoc, id_of_snoc. intros H.
  apply orb_false_elim in H as [H1 H2].
  destruct a; cbn in *; try discriminate; auto.
Qed.

Lemma pin_value_of_none (done : list uri_attr) :
  existsb is_pin done = false -> pin_value_of done = None.
Proof.
  induction done as [|a done IH] using rev_ind; [reflexivity|].
  rewrite existsb_snoc, pin_value_of_snoc. intros H.
  apply orb_false_elim in H as [H1 H2].
  destruct a; cbn in *; try discriminate; auto.
Qed.

Ltac reads_after_string Hstr Hbuf Hids Hid Hpins Hpin :=
  unfold reads; cbn; repeat split;
  [ let k' := fresh "k" in
    intros k'; rewrite str_of_snoc; destruct k'; cbn;
    first [ exact (Hstr KModel) | exact (Hstr KManufacturer)
          | exact (Hstr KToken) | exact (Hstr KSerial)
          | exact (Hstr KObject)
          | unfold string_at; cbn; rewrite Hbuf; reflexivity ]
  | rewrite existsb_snoc, orb_false_r; exact Hids
  | rewrite id_of_snoc; exact Hid
  | rewrite existsb_snoc, orb_false_r; exact Hpins
  | rewrite pin_value_of_snoc; exact Hpin ].

Lemma step_end (st : uri_state) (d : Z) (s tail : list Z) :
  u_end st = d :: s ++ tail -> Forall plain s -> stops tail ->
  u_end (uri_step alloc scratch fs st) = tail.
Proof.
  intros He Hs Ht. rewrite uri_step_end, He. cbn [next tl].
  apply attr_end_app; assumption.
Qed.

(** A string attribute: the value lands, terminated, in a buffer of its
    own. *)
Lemma string_attr_items (items : list uri_item) (tail : list Z)
    (old : option (list Z)) :
  Forall item_ok items ->
  exists buf,
    string_attr alloc (uri_text items ++ tail) (length (uri_text items)) old
    = (1, Some buf)
    /\ c_string buf = c_string (map item_value items).
Proof.
  intros Hok.
  destruct (alloc_ok (length (uri_text items) + 1)%nat) as (fresh & Hf & Hl).
  unfold string_attr. rewrite Hf.
  destruct (parse_uri_attr_items items tail fresh Hok Hl)
    as (buf & -> & Htake & Hend).
  exists buf. split; [reflexivity|].
  rewrite (buffer_split buf _ _ Htake Hend). apply c_string_app_zero.
Qed.

Lemma key_text_plain (k : str_key) : Forall plain (key_text k).
Proof. destruct k; repeat constructor. Qed.

Lemma step_str (done : list uri_attr) (k : str_key)
    (items : list uri_item) (st : uri_state) (d : Z) (tail : list Z)
    (id0 : list Z) (id_len0 : nat) (pin0 : list Z) (pin_len0 : nat) :
  reads done id0 id_len0 pin0 pin_len0 st ->
  u_end st = d :: attr_text (AStr k items) ++ tail ->
  stops tail -> value_ok items ->
  reads (done ++ [AStr k items]) id0 id_len0 pin0 pin_len0
    (uri_step alloc scratch fs st).
Proof.
  intros (Hrv & Hstr & Hids & Hid & Hpins & Hpin) He Ht Hv.
  assert (Hp : Forall plain (attr_text (AStr k items))).
  { cbn [attr_text]. apply Forall_app. split;
      [apply key_text_plain|apply uri_text_plain; exact Hv]. }
  unfold uri_step. cbn zeta. rewrite He. cbn [next tl].
  rewrite (attr_end_app _ tail Hp Ht).
  cbn [attr_text]. rewrite <- app_assoc.
  destruct Hv as [Hok _].
  destruct k; cbn [key_text].
  - decide_prefix lit_model.
    change (skipn 6 (lit_model ++ uri_text items ++ tail))
      with (uri_text items ++ tail).
    rewrite len_app.
    destruct (string_attr_items items tail
                (Lookup.f_model (u_tok st)) Hok) as (buf & -> & Hbuf).
    reads_after_string Hstr Hbuf Hids Hid Hpins Hpin.
  - decide_prefix lit_model. decide_prefix lit_manufacturer.
    change (skipn 13 (lit_manufacturer ++ uri_text items ++ tail))
      with (uri_text items ++ tail).
    rewrite len_app.
    destruct (string_attr_items items tail
                (Lookup.f_manufacturer (u_tok st)) Hok) as (buf & -> & Hbuf).
    reads_after_string Hstr Hbuf Hids Hid Hpins Hpin.
  - decide_prefix lit_model. decide_prefix lit_manufacturer.
    decide_prefix lit_token.
    change (skipn 6 (lit_token ++ uri_text items ++ tail))
      with (uri_text items ++ tail).
    rewrite len_app.
    destruct (string_attr_items items tail
                (Lookup.f_label (u_tok st)) Hok) as (buf & -> & Hbuf).
    reads_after_string Hstr Hbuf Hids Hid Hpins Hpin.
  - decide_prefix lit_model. decide_prefix lit_manufacturer.
    decide_prefix lit_token. decide_prefix lit_serial.
    change (skipn 7 (lit_serial ++ uri_text items ++ tail))
      with (uri_text items ++ tail).
    rewrite len_app.
    destruct (string_attr_items items tail
                (Lookup.f_serialnr (u_tok st)) Hok) as (buf & -> & Hbuf).
    reads_after_string Hstr Hbuf Hids Hid Hpins Hpin.
  - decide_prefix lit_model. decide_prefix lit_manufacturer.
    decide_prefix lit_token. decide_prefix lit_serial.
    decide_prefix lit_object.
    change (skipn 7 (lit_object ++ uri_text items ++ tail))
      with (uri_text items ++ tail).
    rewrite len_app.
    destruct (string_attr_items items tail (u_newlabel st) Hok)
      as (buf & -> & Hbuf).
    reads_after_string Hstr Hbuf Hids Hid Hpins Hpin.
Qed.

End UriSteps.


Ltac keep_strings Hstr :=
  first [ exact (Hstr KModel) | exact (Hstr KManufacturer)
        | exact (Hstr KToken) | exact (Hstr KSerial)
        | exact (Hstr KObject) ].

Section UriAttributes.

Variable alloc : nat -> option (list Z).
Variable scratch : nat -> list Z.
Variable fs : list Z -> option (list Z).

Hypothesis alloc_ok : allocates alloc.

Lemma step_id (done : list uri_attr) (items : list uri_item)
    (st : uri_state) (d : Z) (tail : list Z)
    (id0 : list Z) (id_len0 : nat) (pin0 : list Z) (pin_len0 : nat) :
  reads done id0 id_len0 pin0 pin_len0 st ->
  u_end st = d :: attr_text (AId items) ++ tail ->
  stops tail -> value_ok items ->
  (length items <= id_len0)%nat -> (id_len0 <= length id0)%nat ->
  existsb is_id done = false ->
  reads (done ++ [AId items]) id0 id_len0 pin0 pin_len0
    (uri_step alloc scratch fs st).
Proof.
  intros (Hrv & Hstr & Hids & Hid & Hpins & Hpin) He Ht Hv Hlen Hcap Hno.
  assert (Hp : Forall plain (attr_text (AId items))).
  { cbn [attr_text]. apply Forall_app. split;
      [repeat constructor|apply uri_text_plain; exact Hv]. }
  rewrite (id_of_none done Hno) in Hid. destruct Hid as [Hid1 Hid2].
  unfold uri_step. cbn zeta. rewrite He. cbn [next tl].
  rewrite (attr_end_app _ tail Hp Ht).
  cbn [attr_text]. rewrite <- app_assoc.
  destruct Hv as [Hok _].
  decide_prefix lit_model. decide_prefix lit_manufacturer.
  decide_prefix lit_token. decide_prefix lit_serial.
  decide_prefix lit_object. decide_prefix lit_id_eq.
  change (skipn 3 (lit_id_eq ++ uri_text items ++ tail))
    with (uri_text items ++ tail).
  rewrite len_app, Hid1, Hid2.
  destruct (percent_decoder_round_trip_aux items tail id0 id_len0
              Hok Hlen Hcap) as (H1 & H2 & H3 & _).
  set (r := parse_uri_attr_len _ _ _ _) in *. clearbody r.
  unfold reads. cbn. repeat split.
  - exact H1.
  - intros k. rewrite str_of_snoc. destruct k; cbn; keep_strings Hstr.
  - rewrite existsb_snoc. cbn. rewrite orb_true_r. reflexivity.
  - rewrite id_of_snoc. cbn. split.
    + rewrite H2, length_map. reflexivity.
    + rewrite H2. exact H3.
  - rewrite existsb_snoc, orb_false_r. exact Hpins.
  - rewrite pin_value_of_snoc. exact Hpin.
Qed.

Lemma step_pin (done : list uri_attr) (items : list uri_item)
    (st : uri_state) (d : Z) (tail : list Z)
    (id0 : list Z) (id_len0 : nat) (pin0 : list Z) (pin_len0 : nat) :
  reads done id0 id_len0 pin0 pin_len0 st ->
  u_end st = d :: attr_text (APin items) ++ tail ->
  stops tail -> value_ok items ->
  (length items <= pin_len0)%nat -> (pin_len0 <= length pin0)%nat ->
  existsb is_pin done = false ->
  reads (done ++ [APin items]) id0 id_len0 pin0 pin_len0
    (uri_step alloc scratch fs st).
Proof.
  intros (Hrv & Hstr & Hids & Hid & Hpins & Hpin) He Ht Hv Hlen Hcap Hno.
  assert (Hp : Forall plain (attr_text (APin items))).
  { cbn [attr_text]. apply Forall_app. split;
      [repeat constructor|apply uri_text_plain; exact Hv]. }
  rewrite (pin_value_of_none done Hno) in Hpin.
  destruct Hpin as [Hpin1 Hpin2]. rewrite Hno in Hpins.
  unfold uri_step. cbn zeta. rewrite He. cbn [next tl].
  rewrite (attr_end_app _ tail Hp Ht).
  cbn [attr_text]. rewrite <- app_assoc.
  destruct Hv as [Hok _].
  decide_prefix lit_model. decide_prefix lit_manufacturer.
  decide_prefix lit_token. decide_prefix lit_serial.
  decide_prefix lit_object. decide_prefix lit_id_eq.
  decide_prefix lit_pin_value.
  change (skipn 10 (lit_pin_value ++ uri_text items ++ tail))
    with (uri_text items ++ tail).
  rewrite len_app, Hpins, Hpin1, Hpin2.
  destruct (percent_decoder_round_trip_aux items tail pin0 pin_len0
              Hok Hlen Hcap) as (H1 & H2 & H3 & _).
  set (r := parse_uri_attr_len _ _ _ _) in *. clearbody r.
  unfold reads. cbn. repeat split.
  - exact H1.
  - intros k. rewrite str_of_snoc. destruct k; cbn; keep_strings Hstr.
  - rewrite existsb_snoc, orb_false_r. exact Hids.
  - rewrite id_of_snoc. exact Hid.
  - rewrite existsb_snoc. cbn. rewrite orb_true_r. reflexivity.
  - rewrite pin_value_of_snoc. cbn. split.
    + rewrite H2, length_map. reflexivity.
    + rewrite H2. exact H3.
Qed.

Lemma step_type (done : list uri_attr) (long : bool) (k : obj_kind)
    (st : uri_state) (d : Z) (tail : list Z)
    (id0 : list Z) (id_len0 : nat) (pin0 : list Z) (pin_len0 : nat) :
  reads done id0 id_len0 pin0 pin_len0 st ->
  u_end st = d :: attr_text (AType long k) ++ tail ->
  stops tail ->
  reads (done ++ [AType long k]) id0 id_len0 pin0 pin_len0
    (uri_step alloc scratch fs st).
Proof.
  intros (Hrv & Hstr & Hids & Hid & Hpins & Hpin) He Ht.
  assert (Hp : Forall plain (attr_text (AType long k))).
  { destruct long, k; repeat constructor. }
  unfold uri_step. cbn zeta. rewrite He. cbn [next tl].
  rewrite (attr_end_app _ tail Hp Ht).
  cbn [attr_text]. rewrite <- app_assoc.
  assert (Hq : after_equals
                 ((if long then lit_object_type else lit_type)
                  ++ kind_text k ++ tail)
               = kind_text k ++ tail)
    by (destruct long; reflexivity).
  rewrite Hq, len_app.
  destruct long, k; cbn [kind_text];
    decide_prefix lit_model; decide_prefix lit_manufacturer;
    decide_prefix lit_token; decide_prefix lit_serial;
    decide_prefix lit_object; decide_prefix lit_id_eq;
    decide_prefix lit_pin_value; decide_prefix lit_pin_source;
    decide_prefix lit_type; try decide_prefix lit_object_type;
    cbn [orb];
    match goal with
    | |- context [if ?c then _ else _] =>
        let b := eval lazy in c in change c with b; cbv iota
    end;
    (unfold reads; cbn; repeat split;
     [ exact Hrv
     | intros k'; rewrite str_of_snoc; destruct k'; cbn; keep_strings Hstr
     | rewrite existsb_snoc, orb_false_r; exact Hids
     | rewrite id_of_snoc; exact Hid
     | rewrite existsb_snoc, orb_false_r; exact Hpins
     | rewrite pin_value_of_snoc; exact Hpin ]).
Qed.

End UriAttributes.


Section UriRoundTrip.

Variable alloc : nat -> option (list Z).
Variable scratch : nat -> list Z.
Variable fs : list Z -> option (list Z).
Variables (id0 : list Z) (id_len0 : nat) (pin0 : list Z) (pin_len0 : nat).

Hypothesis alloc_ok : allocates alloc.
Hypothesis id_room : (id_len0 <= length id0)%nat.
Hypothesis pin_room : (pin_len0 <= length pin0)%nat.

Lemma attr_text_plain (a : uri_attr) :
  attr_ok id_len0 pin_len0 a -> Forall plain (attr_text a).
Proof.
  destruct a as [k items|items|items|long k]; cbn [attr_ok attr_text].
  - intros Hv. apply Forall_app. split;
      [apply key_text_plain|apply uri_text_plain; exact Hv].
  - intros [Hv _]. apply Forall_app. split;
      [repeat constructor|apply uri_text_plain; exact Hv].
  - intros [Hv _]. apply Forall_app. split;
      [repeat constructor|apply uri_text_plain; exact Hv].
  - intros _. destruct long, k; repeat constructor.
Qed.

Lemma attr_text_first (a : uri_attr) (tail : list Z) :
  (cur (attr_text a ++ tail) =? 0) = false.
Proof. destruct a as [[]| | |[] []]; reflexivity. Qed.

Lemma existsb_count (f : uri_attr -> bool) (done : list uri_attr)
    (a : uri_attr) (more : list uri_attr) :
  (length (List.filter f (done ++ a :: more)) <= 1)%nat ->
  f a = true -> existsb f done = false.
Proof.
  intros Hc Ha. rewrite List.filter_app, length_app in Hc.
  cbn [List.filter] in Hc. rewrite Ha in Hc. cbn [length] in Hc.
  destruct (existsb f done) eqn:E; [|reflexivity].
  apply existsb_exists in E as (x & Hin & Hx).
  assert (Hin' : In x (List.filter f done))
    by (apply List.filter_In; split; assumption).
  destruct (List.filter f done); [destruct Hin'|cbn [length] in Hc; lia].
Qed.

Lemma step_attr (done : list uri_attr) (a : uri_attr) (st : uri_state)
    (d : Z) (tail : list Z) :
  reads done id0 id_len0 pin0 pin_len0 st ->
  u_end st = d :: attr_text a ++ tail ->
  stops tail -> attr_ok id_len0 pin_len0 a ->
  (is_id a = true -> existsb is_id done = false) ->
  (is_pin a = true -> existsb is_pin done = false) ->
  reads (done ++ [a]) id0 id_len0 pin0 pin_len0
    (uri_step alloc scratch fs st).
Proof.
  intros Hr He Ht Ha Hid Hpin.
  destruct a as [k items|items|items|long k]; cbn [attr_ok] in Ha.
  - eapply step_str; eassumption.
  - destruct Ha as [Hv Hl].
    eapply step_id; try eassumption. apply Hid. reflexivity.
  - destruct Ha as [Hv Hl].
    eapply step_pin; try eassumption. apply Hpin. reflexivity.
  - eapply step_type; eassumption.
Qed.

Lemma delimiter_stops (d : Z) (t : list Z) :
  In d delimiters -> stops (d :: t).
Proof.
  intros Hd. unfold stops. cbn [cur hd]. apply orb_true_iff. right.
  apply existsb_exists. exists d. split; [exact Hd|apply Z.eqb_refl].
Qed.

Lemma delimiter_nonzero (d : Z) : In d delimiters -> d <> 0.
Proof. intros [<-|[<-|[<-|[]]]]; discriminate. Qed.

(** The loop over a run of well-formed attributes: all of them are
    read, and the loop goes on behind them. *)
Lemma uri_loop_reads (todo : list (Z * uri_attr)) :
  forall (done : list uri_attr) (st : uri_state) (fuel : nat)
         (tail : list Z),
    reads done id0 id_len0 pin0 pin_len0 st ->
    u_end st = attrs_text todo ++ tail ->
    Forall (fun da => fst da <> 0) todo ->
    Forall (fun da => In (fst da) delimiters) (tl todo) ->
    stops tail ->
    Forall (attr_ok id_len0 pin_len0) (map snd todo) ->
    (length (List.filter is_id (done ++ map snd todo)) <= 1)%nat ->
    (length (List.filter is_pin (done ++ map snd todo)) <= 1)%nat ->
    (length (u_end st) < fuel)%nat ->
    exists st' fuel',
      uri_loop alloc scratch fs fuel st = uri_loop alloc scratch fs fuel' st'
      /\ (length (u_end st') < fuel')%nat
      /\ reads (done ++ map snd todo) id0 id_len0 pin0 pin_len0 st'
      /\ u_end st' = tail.
Proof.
  induction todo as [|[d a] more IH];
    intros done st fuel tail Hr He Hnz Hdel Ht Hok Hid Hpin Hf.
  - exists st, fuel. cbn [map]. rewrite app_nil_r. auto.
  - cbn [attrs_text flat_map fst snd map tl] in *.
    fold (attrs_text more) in He. rewrite <- !app_assoc in He.
    cbn [app] in He.
    inversion Hnz as [|? ? Hd Hnz']; subst. cbn [fst] in Hd.
    inversion Hok as [|? ? Ha Hok']; subst.
    assert (Ht' : stops (attrs_text more ++ tail)).
    { destruct more as [|[d' a'] more']; [exact Ht|].
      inversion Hdel; subst. cbn [attrs_text flat_map fst app].
      apply delimiter_stops. assumption. }
    pose proof (attr_text_plain a Ha) as Hp.
    pose proof (step_end alloc scratch fs st d _ _ He Hp Ht') as He'.
    assert (Hr' : reads (done ++ [a]) id0 id_len0 pin0 pin_len0
                    (uri_step alloc scratch fs st)).
    { eapply step_attr; try eassumption.
      - intros Hi. eapply existsb_count; eassumption.
      - intros Hi. eapply existsb_count; eassumption. }
    destruct fuel as [|f]; [lia|].
    assert (Hlen : (length (attrs_text more ++ tail) < f)%nat).
    { rewrite He in Hf. cbn [length] in Hf. rewrite length_app in Hf. lia. }
    destruct (IH (done ++ [a]) (uri_step alloc scratch fs st) f tail)
      as (st' & fuel' & H1 & H2 & H3 & H4); try assumption.
    + destruct more as [|? more']; [constructor|].
      inversion Hdel; subst. assumption.
    + rewrite <- app_assoc. exact Hid.
    + rewrite <- app_assoc. exact Hpin.
    + rewrite He'. exact Hlen.
    + exists st', fuel'. rewrite <- app_assoc in H3. cbn [app] in H3.
      split; [|auto].
      rewrite <- H1. cbn [uri_loop].
      destruct Hr as (Hrv & _). rewrite Hrv, He.
      cbn [cur hd]. change (at_ (d :: attr_text a ++ attrs_text more ++ tail) 1)
        with (at_ (attr_text a ++ attrs_text more ++ tail) 0).
      rewrite at_0, attr_text_first.
      apply Z.eqb_neq in Hd. rewrite Hd. reflexivity.
Qed.

Lemma id_of_some (done : list uri_attr) :
  existsb is_id done = true -> id_of done <> None.
Proof.
  induction done as [|a done IH] using rev_ind; [discriminate|].
  rewrite existsb_snoc, id_of_snoc. intros H.
  destruct a; cbn in *; try discriminate;
    rewrite orb_false_r in H; auto.
Qed.

Lemma pin_value_of_some (done : list uri_attr) :
  existsb is_pin done = true -> pin_value_of done <> None.
Proof.
  induction done as [|a done IH] using rev_ind; [discriminate|].
  rewrite existsb_snoc, pin_value_of_snoc. intros H.
  destruct a; cbn in *; try discriminate;
    rewrite orb_false_r in H; auto.
Qed.

(** The loop stops behind the last attribute. *)
Lemma uri_loop_last (st : uri_state) (fuel : nat) :
  (length (u_end st) < fuel)%nat ->
  cur (u_end st) = 0 \/ at_ (u_end st) 1 = 0 ->
  uri_loop alloc scratch fs fuel st = Some st.
Proof.
  intros Hf Hend. destruct fuel as [|f]; [lia|]. cbn [uri_loop].
  destruct Hend as [-> | ->]; cbn [Z.eqb negb];
    rewrite ?andb_false_r; reflexivity.
Qed.

(** The whole function on a well-formed URI. *)
Lemma parse_pkcs11_uri_reads (attrs : list (Z * uri_attr)) (rest : list Z)
    (tok0 : option Lookup.token_filter) (label0 : option (list Z)) :
  attrs <> [] -> separated attrs ->
  attrs_ok id_len0 pin_len0 (map snd attrs) ->
  last_stop rest ->
  exists st,
    reads (map snd attrs) id0 id_len0 pin0 pin_len0 st
    /\ parse_pkcs11_uri alloc scratch fs true (uri_of attrs ++ rest)
         tok0 id0 id_len0 pin0 pin_len0 label0
       = UriOut 1 (Some (u_tok st)) (u_id st)
           (if u_id_set st then u_id_len st else O)
           (u_pin st) (if u_pin_set st then u_pin_len st else O)
           (u_newlabel st).
Proof.
  intros Hne Hsep (Hok & Hid & Hpin) (Hstop & Hlast).
  unfold parse_pkcs11_uri. cbn [negb].
  set (st0 := UriState 1 _ _ _ _ _ _ _ _ _).
  assert (He0 : u_end st0 = attrs_text attrs ++ rest).
  { unfold st0, uri_of. cbn [u_end]. rewrite <- app_assoc. reflexivity. }
  destruct (uri_loop_reads attrs [] st0
              (S (length (uri_of attrs ++ rest))) rest)
    as (st & fuel' & H1 & H2 & H3 & H4); try assumption.
  - unfold reads, st0. cbn. repeat split. intros k. destruct k; reflexivity.
  - destruct attrs as [|[d a] more]; [congruence|].
    destruct Hsep as [-> Hdel]. constructor; [discriminate|].
    eapply Forall_impl; [exact Hdel|]. intros da Hda.
    apply delimiter_nonzero. exact Hda.
  - destruct attrs as [|[d a] more]; [congruence|].
    destruct Hsep as [_ Hdel]. exact Hdel.
  - rewrite He0. unfold uri_of. rewrite <- app_assoc, !length_app.
    cbn [lit_pkcs11 length]. lia.
  - rewrite H1, (uri_loop_last st fuel' H2) by (rewrite H4; exact Hlast).
    exists st. split; [exact H3|].
    destruct H3 as (Hrv & _). rewrite Hrv. reflexivity.
Qed.

End UriRoundTrip.

(** X15.  [parse_pkcs11_uri] on a well-formed URI: attributes of the
    known names, separated by [;], [?] or [&], with percent-encoded
    values, at most one id and one PIN value that fit their buffers,
    and possibly one delimiter at the very end.  It returns 1; each
    string of the token template and the object label hold the decoded
    value of the last attribute of that name, or are null when there is
    none; the id and the PIN buffers start with the decoded bytes and
    the lengths count them, or are 0 when the URI has none. *)
Theorem pkcs11_uri_round_trip
    (alloc : nat -> option (list Z)) (scratch : nat -> list Z)
    (fs : list Z -> option (list Z))
    (attrs : list (Z * uri_attr)) (rest : list Z)
    (tok0 : option Lookup.token_filter) (id : list Z) (id_len : nat)
    (pin : list Z) (pin_len : nat) (label0 : option (list Z)) :
  allocates alloc ->
  (id_len <= length id)%nat -> (pin_len <= length pin)%nat ->
  attrs <> [] -> separated attrs ->
  attrs_ok id_len pin_len (map snd attrs) ->
  last_stop rest ->
  let said := map snd attrs in
  let r := parse_pkcs11_uri alloc scratch fs true (uri_of attrs ++ rest)
             tok0 id id_len pin pin_len label0 in
  uo_ret r = 1
  /\ (exists tok,
        uo_tok r = Some tok
        /\ string_at (Lookup.f_label tok) = str_of KToken said
        /\ string_at (Lookup.f_manufacturer tok) = str_of KManufacturer said
        /\ string_at (Lookup.f_serialnr tok) = str_of KSerial said
        /\ string_at (Lookup.f_model tok) = str_of KModel said)
  /\ string_at (uo_label r) = str_of KObject said
  /\ holds (id_of said) id 0 (uo_id r) (uo_id_len r)
  /\ holds (pin_value_of said) pin 0 (uo_pin r) (uo_pin_len r).
Proof.
  intros Halloc Hid Hpin Hne Hsep Hok Hlast. cbn zeta.
  destruct (parse_pkcs11_uri_reads alloc scratch fs id id_len pin pin_len
              Halloc Hid Hpin attrs rest tok0 label0 Hne Hsep Hok Hlast)
    as (st & (Hrv & Hstr & Hids & Hidv & Hpins & Hpinv) & ->).
  cbn [uo_ret uo_tok uo_label uo_id uo_id_len uo_pin uo_pin_len].
  split; [reflexivity|]. split.
  { exists (u_tok st). split; [reflexivity|].
    split; [exact (Hstr KToken)|]. split; [exact (Hstr KManufacturer)|].
    split; [exact (Hstr KSerial)|exact (Hstr KModel)]. }
  split; [exact (Hstr KObject)|]. split.
  - rewrite Hids. destruct (existsb is_id (map snd attrs)) eqn:E.
    + apply id_of_some in E.
      destruct (id_of (map snd attrs)); [exact Hidv|congruence].
    + rewrite (id_of_none _ E) in *. destruct Hidv as [-> _].
      split; reflexivity.
  - rewrite Hpins. destruct (existsb is_pin (map snd attrs)) eqn:E.
    + apply pin_value_of_some in E.
      destruct (pin_value_of (map snd attrs)); [exact Hpinv|congruence].
    + rewrite (pin_value_of_none _ E) in *. destruct Hpinv as [-> _].
      split; reflexivity.
Qed.


(** ["pkcs11:token=ab;id=%01%02"]. *)
Lemma pkcs11_uri_round_trip_witness :
  let r := parse_pkcs11_uri (fun n => Some (repeat 0 n))
             (fun n => repeat 0 n) (fun _ => None) true
             ([112; 107; 99; 115; 49; 49; 58; 116; 111; 107; 101; 110; 61;
               97; 98; 59; 105; 100; 61; 37; 48; 49; 37; 48; 50] ++ [])
             None (repeat 0 8) 8 (repeat 0 8) 8 None in
  uo_ret r = 1
  /\ holds (Some [1; 2]) (repeat 0 8) 0 (uo_id r) (uo_id_len r)
  /\ holds None (repeat 0 8) 0 (uo_pin r) (uo_pin_len r).
Proof.
  destruct (pkcs11_uri_round_trip (fun n => Some (repeat 0 n))
              (fun n => repeat 0 n) (fun _ => None)
              [(ch_colon, AStr KToken [Lit 97; Lit 98]);
               (59, AId [Esc 1; Esc 2])] []
              None (repeat 0 8) 8 (repeat 0 8) 8 None)
    as (H1 & _ & _ & H2 & H3).
  - intros n. exists (repeat 0 n). split; [reflexivity|apply repeat_length].
  - cbn. lia.
  - cbn. lia.
  - discriminate.
  - split; [reflexivity|]. repeat constructor.
  - split; [|split; cbn; lia].
    repeat constructor; unfold is_byte; try discriminate; cbn; lia.
  - split; [reflexivity|left; reflexivity].
  - cbn zeta. auto.
Defined.

Section UriRejects.

Variable alloc : nat -> option (list Z).
Variable scratch : nat -> list Z.
Variable fs : list Z -> option (list Z).
Variables (id0 : list Z) (id_len0 : nat) (pin0 : list Z) (pin_len0 : nat).

Lemma stop_not_plain (t l : Z) (ts : list Z) :
  stops (t :: ts) -> plain l -> (t =? l) = false.
Proof.
  unfold stops, plain. cbn [cur hd]. intros Ht Hl.
  destruct (Z.eqb_spec t l) as [->|_]; [congruence|reflexivity].
Qed.

(** A name is looked for inside the attribute only. *)
Lemma strncmp_0_app (lit : list Z) : forall seg tail,
  Forall plain lit -> stops tail ->
  strncmp_0 (seg ++ tail) lit = strncmp_0 seg lit.
Proof.
  induction lit as [|l lr IH]; intros seg tail Hlit Ht; [reflexivity|].
  inversion Hlit as [|? ? Hl Hlr]; subst.
  destruct seg as [|c s]; cbn [app strncmp_0].
  - destruct tail as [|t ts]; [reflexivity|].
    rewrite (stop_not_plain t l ts Ht Hl). reflexivity.
  - rewrite IH by assumption. reflexivity.
Qed.

Lemma strncmp_0_exact (lit : list Z) : forall v tail,
  length v = length lit -> strncmp_0 (v ++ tail) lit = true -> v = lit.
Proof.
  induction lit as [|l lr IH]; intros v tail Hlen Hs.
  - destruct v; [reflexivity|discriminate Hlen].
  - destruct v as [|c v']; [discriminate Hlen|].
    cbn [app strncmp_0] in Hs. apply andb_prop in Hs as [Hc Hs].
    apply Z.eqb_eq in Hc. subst c. f_equal.
    apply (IH v' tail); [cbn in Hlen; lia|exact Hs].
Qed.

Lemma type_value_unknown (v tail : list Z) :
  v <> lit_cert -> v <> lit_public -> v <> lit_private ->
  ((length v =? 4)%nat && strncmp_0 (v ++ tail) lit_cert
   || (length v =? 6)%nat && strncmp_0 (v ++ tail) lit_public
   || (length v =? 7)%nat && strncmp_0 (v ++ tail) lit_private) = false.
Proof.
  intros H1 H2 H3.
  apply orb_false_intro; [apply orb_false_intro|].
  - destruct (Nat.eqb_spec (length v) 4) as [E|_]; [|reflexivity].
    destruct (strncmp_0 (v ++ tail) lit_cert) eqn:Es; [|reflexivity].
    exfalso. apply H1. eapply strncmp_0_exact; eassumption.
  - destruct (Nat.eqb_spec (length v) 6) as [E|_]; [|reflexivity].
    destruct (strncmp_0 (v ++ tail) lit_public) eqn:Es; [|reflexivity].
    exfalso. apply H2. eapply strncmp_0_exact; eassumption.
  - destruct (Nat.eqb_spec (length v) 7) as [E|_]; [|reflexivity].
    destruct (strncmp_0 (v ++ tail) lit_private) eqn:Es; [|reflexivity].
    exfalso. apply H3. eapply strncmp_0_exact; eassumption.
Qed.

(** A round of the loop on an attribute that is not accepted. *)
Lemma step_bad (done : list uri_attr) (st : uri_state) (d : Z)
    (seg tail : list Z) :
  reads done id0 id_len0 pin0 pin_len0 st ->
  u_end st = d :: seg ++ tail ->
  Forall plain seg -> stops tail ->
  bad_segment (existsb is_pin done) seg ->
  u_rv (uri_step alloc scratch fs st) = 0.
Proof.
  intros (Hrv & Hstr & Hids & Hid & Hpins & Hpin) He Hp Ht Hbad.
  unfold uri_step. cbn zeta. rewrite He. cbn [next tl].
  rewrite (attr_end_app _ tail Hp Ht).
  destruct Hbad as [seg Hk|v Hhas|v Hhas|long v H1 H2 H3].
  - unfold known_key in Hk.
    repeat match type of Hk with
           | (_ || _) = false =>
               let H := fresh "Hk" in
               apply orb_false_elim in Hk as [Hk H]
           end.
    rewrite !strncmp_0_app by (try assumption; repeat constructor).
    repeat match goal with
           | H : strncmp_0 seg _ = false |- _ => rewrite H; clear H
           end.
    reflexivity.
  - rewrite <- app_assoc.
    decide_prefix lit_model. decide_prefix lit_manufacturer.
    decide_prefix lit_token. decide_prefix lit_serial.
    decide_prefix lit_object. decide_prefix lit_id_eq.
    decide_prefix lit_pin_value.
    rewrite Hpins, Hhas. reflexivity.
  - rewrite <- app_assoc.
    decide_prefix lit_model. decide_prefix lit_manufacturer.
    decide_prefix lit_token. decide_prefix lit_serial.
    decide_prefix lit_object. decide_prefix lit_id_eq.
    decide_prefix lit_pin_value. decide_prefix lit_pin_source.
    rewrite Hpins, Hhas. reflexivity.
  - rewrite <- app_assoc.
    assert (Hq : after_equals
                   ((if long then lit_object_type else lit_type)
                    ++ v ++ tail) = v ++ tail)
      by (destruct long; reflexivity).
    rewrite Hq, len_app, (type_value_unknown v tail H1 H2 H3).
    destruct long;
      decide_prefix lit_model; decide_prefix lit_manufacturer;
      decide_prefix lit_token; decide_prefix lit_serial;
      decide_prefix lit_object; decide_prefix lit_id_eq;
      decide_prefix lit_pin_value; decide_prefix lit_pin_source;
      decide_prefix lit_type; try decide_prefix lit_object_type;
      reflexivity.
Qed.

End UriRejects.


(** X16.  [parse_pkcs11_uri] refuses a URI in which well-formed
    attributes are followed by one that is not accepted: a name it does
    not know (an empty attribute included), a second PIN, given as
    [pin-value] or [pin-source], or an object type other than [cert],
    [public] and [private].  It returns 0 and leaves [*p_tok] and
    [*label] as they were, whatever comes after that attribute. *)
Theorem pkcs11_uri_rejects
    (alloc : nat -> option (list Z)) (scratch : nat -> list Z)
    (fs : list Z -> option (list Z))
    (good : list (Z * uri_attr)) (d : Z) (seg tail : list Z)
    (tok0 : option Lookup.token_filter) (id : list Z) (id_len : nat)
    (pin : list Z) (pin_len : nat) (label0 : option (list Z)) :
  allocates alloc ->
  (id_len <= length id)%nat -> (pin_len <= length pin)%nat ->
  separated good ->
  match good with [] => d = ch_colon | _ => In d delimiters end ->
  attrs_ok id_len pin_len (map snd good) ->
  Forall plain seg -> stops tail -> cur (seg ++ tail) <> 0 ->
  bad_segment (existsb is_pin (map snd good)) seg ->
  let r := parse_pkcs11_uri alloc scratch fs true
             (uri_of good ++ d :: seg ++ tail)
             tok0 id id_len pin pin_len label0 in
  uo_ret r = 0 /\ uo_tok r = tok0 /\ uo_label r = label0.
Proof.
  intros Halloc Hid Hpin Hsep Hd (Hok & Hcid & Hcpin) Hp Ht Hcur Hbad.
  cbn zeta. unfold parse_pkcs11_uri. cbn [negb].
  set (st0 := UriState 1 _ _ _ _ _ _ _ _ _).
  set (fuel := S (length (uri_of good ++ d :: seg ++ tail))).
  assert (He0 : u_end st0 = attrs_text good ++ d :: seg ++ tail).
  { unfold st0, uri_of. cbn [u_end]. rewrite <- app_assoc. reflexivity. }
  assert (Hr0 : reads [] id id_len pin pin_len st0).
  { unfold reads, st0. cbn. repeat split. intros k. destruct k; reflexivity. }
  assert (Hf0 : (length (u_end st0) < fuel)%nat).
  { rewrite He0. unfold fuel, uri_of. rewrite <- app_assoc, !length_app.
    cbn [lit_pkcs11 length]. lia. }
  assert (Hd0 : d <> 0).
  { destruct good; [subst d; discriminate|].
    apply delimiter_nonzero. exact Hd. }
  assert (Hloop : exists st fuel',
             uri_loop alloc scratch fs fuel st0
             = uri_loop alloc scratch fs fuel' st
             /\ (length (u_end st) < fuel')%nat
             /\ reads (map snd good) id id_len pin pin_len st
             /\ u_end st = d :: seg ++ tail).
  { destruct good as [|[d1 a1] more].
    - exists st0, fuel. auto.
    - destruct Hsep as [-> Hdel].
      apply (uri_loop_reads alloc scratch fs id id_len pin pin_len
               Halloc Hid Hpin ((ch_colon, a1) :: more) [] st0 fuel);
        try assumption.
      + constructor; [discriminate|].
        eapply Forall_impl; [exact Hdel|]. intros da Hda.
        apply delimiter_nonzero. exact Hda.
      + apply delimiter_stops. exact Hd. }
  destruct Hloop as (st & fuel' & -> & Hf & Hr & He).
  pose proof (step_bad alloc scratch fs id id_len pin pin_len
                (map snd good) st d seg tail Hr He Hp Ht Hbad) as Hrv.
  destruct fuel' as [|f1]; [lia|].
  destruct f1 as [|f2]; [rewrite He in Hf; cbn [length] in Hf; lia|].
  cbn [uri_loop].
  destruct Hr as (Hrv1 & _). rewrite Hrv1, He. cbn [cur hd].
  change (at_ (d :: seg ++ tail) 1) with (at_ (seg ++ tail) 0).
  rewrite at_0.
  apply Z.eqb_neq in Hd0, Hcur. rewrite Hd0, Hcur. cbn [Z.eqb negb andb].
  rewrite Hrv. cbn [Z.eqb negb andb]. rewrite Hrv. cbn. auto.
Qed.

(** ["pkcs11:pin-value=1;pin-value=2"]: a second PIN. *)
Lemma pkcs11_uri_rejects_witness :
  let r := parse_pkcs11_uri (fun n => Some (repeat 0 n))
             (fun n => repeat 0 n) (fun _ => None) true
             ([112; 107; 99; 115; 49; 49; 58;
               112; 105; 110; 45; 118; 97; 108; 117; 101; 61; 49]
              ++ 59 :: [112; 105; 110; 45; 118; 97; 108; 117; 101; 61; 50]
              ++ [])
             None (repeat 0 8) 8 (repeat 0 8) 8 None in
  uo_ret r = 0 /\ uo_tok r = None /\ uo_label r = None.
Proof.
  apply (pkcs11_uri_rejects (fun n => Some (repeat 0 n))
           (fun n => repeat 0 n) (fun _ => None)
           [(ch_colon, APin [Lit 49])] 59
           (lit_pin_value ++ [50]) []
           None (repeat 0 8) 8 (repeat 0 8) 8 None).
  - intros n. exists (repeat 0 n). split; [reflexivity|apply repeat_length].
  - cbn. lia.
  - cbn. lia.
  - split; [reflexivity|constructor].
  - left. reflexivity.
  - split; [|split; cbn; lia].
    repeat constructor; try discriminate; try (cbn; lia).
  - repeat constructor.
  - reflexivity.
  - discriminate.
  - apply BadPinValue. reflexivity.
Defined.


(** ** Certificate selection without assumptions on the comparison *)

Section CertSoundness.

Variable X509_cmp : X509 -> X509 -> Z.
Variable certs : list PKCS11_CERT.
Variables (obj_id : list Z) (obj_label : option (list Z)).

Lemma cert_cmp_either (a b : option nat) :
  cert_cmp X509_cmp certs a b = a \/ cert_cmp X509_cmp certs a b = b.
Proof.
  unfold cert_cmp. destruct (x509_of certs a) as [xa|]; [|auto].
  destruct (x509_of certs b) as [xb|]; [|auto].
  destruct (ASN1_TIME_diff _ _) as [[pday psec]|].
  - destruct ((pday <? 0) || (psec <? 0)); [auto|].
    destruct ((pday >? 0) || (psec >? 0)); [auto|].
    destruct (X509_cmp xa xb <? 1); auto.
  - destruct (X509_cmp xa xb <? 1); auto.
Qed.

Lemma cert_cmp_first (b : option nat) :
  cert_cmp X509_cmp certs None b = b.
Proof. reflexivity. Qed.

(** The first loop keeps a matching certificate once it has one, and
    has one as soon as it has seen one. *)
Lemma cert_loop_sound (n : nat) : forall m selected,
  match selected with
  | Some s => exists c, cert_match certs obj_id obj_label s c
  | None =>
      forall i c, (i < m)%nat -> ~ cert_match certs obj_id obj_label i c
  end ->
  match cert_loop X509_cmp certs n m obj_id obj_label selected with
  | Some s => exists c, cert_match certs obj_id obj_label s c
  | None =>
      forall i c, (i < m + n)%nat -> ~ cert_match certs obj_id obj_label i c
  end.
Proof.
  induction n as [|n IH]; intros m selected Hinv; cbn [cert_loop].
  - rewrite Nat.add_0_r. exact Hinv.
  - replace (m + S n)%nat with (S m + n)%nat by lia. apply IH.
    destruct (certs !! m) as [k|] eqn:Ek.
    + destruct (selects (cert_id k) (cert_label k) obj_id obj_label) eqn:Es.
      * assert (Hm : cert_match certs obj_id obj_label m k)
          by (split; assumption).
        destruct selected as [s|].
        -- destruct (cert_cmp_either (Some s) (Some m)) as [-> | ->];
             [exact Hinv|eauto].
        -- rewrite cert_cmp_first. eauto.
      * destruct selected as [s|]; [exact Hinv|].
        intros i c Hi [Hc Hsel].
        destruct (Nat.eq_dec i m) as [->|Hne].
        -- congruence.
        -- apply (Hinv i c); [lia|split; assumption].
    + destruct selected as [s|]; [exact Hinv|].
      intros i c Hi [Hc Hsel].
      destruct (Nat.eq_dec i m) as [->|Hne].
      * congruence.
      * apply (Hinv i c); [lia|split; assumption].
Qed.

(** The second loop: the first certificate with an id whose first byte
    is not zero. *)
Lemma first_with_id_spec (n : nat) : forall m selected,
  match selected with
  | Some s =>
      exists c, certs !! s = Some c /\ id_present c = true
                /\ forall j cj, (j < s)%nat -> certs !! j = Some cj ->
                                id_present cj = false
  | None =>
      forall j cj, (j < m)%nat -> certs !! j = Some cj ->
                   id_present cj = false
  end ->
  match first_with_id certs n m selected with
  | Some s =>
      exists c, certs !! s = Some c /\ id_present c = true
                /\ forall j cj, (j < s)%nat -> certs !! j = Some cj ->
                                id_present cj = false
  | None =>
      forall j cj, (j < m + n)%nat -> certs !! j = Some cj ->
                   id_present cj = false
  end.
Proof.
  induction n as [|n IH]; intros m selected Hinv; cbn [first_with_id].
  - rewrite Nat.add_0_r. exact Hinv.
  - replace (m + S n)%nat with (S m + n)%nat by lia. apply IH.
    destruct selected as [s|]; [exact Hinv|].
    destruct (certs !! m) as [k|] eqn:Ek.
    + destruct (id_present k) eqn:Ep.
      * exists k. auto.
      * intros j cj Hj Hcj. destruct (Nat.eq_dec j m) as [->|Hne].
        -- congruence.
        -- apply (Hinv j cj); [lia|exact Hcj].
    + intros j cj Hj Hcj. destruct (Nat.eq_dec j m) as [->|Hne].
      * congruence.
      * apply (Hinv j cj); [lia|exact Hcj].
Qed.

End CertSoundness.

(** X17.  With an id or a label given, a certificate returned by
    [match_cert] matches them, whatever the comparison of certificates
    does; and nothing is returned only when the search template could
    not be allocated, the enumeration failed, or no certificate
    matches. *)
Theorem match_cert_sound
    (X509_cmp : X509 -> X509 -> Z) (template_ok : bool)
    (enum : option (list PKCS11_CERT))
    (obj_id : list Z) (obj_label : option (list Z)) :
  obj_id <> [] \/ obj_label <> None ->
  match match_cert X509_cmp template_ok enum obj_id obj_label with
  | Some s =>
      exists certs c,
        enum = Some certs /\ cert_match certs obj_id obj_label s c
  | None =>
      template_ok = false \/ enum = None
      \/ exists certs,
           enum = Some certs
           /\ forall i c, ~ cert_match certs obj_id obj_label i c
  end.
Proof.
  intros Hsel. unfold match_cert.
  destruct template_ok; cbn [negb]; [|auto].
  destruct enum as [certs|]; [|auto].
  destruct (Nat.eqb_spec (length certs) 0) as [E|E].
  { right. right. exists certs. split; [reflexivity|].
    intros i c [Hc _]. apply lookup_lt_Some in Hc. lia. }
  replace (negb (Nat.eqb (length obj_id) 0) || bool_decide (is_Some obj_label))
    with true.
  2:{ symmetry. destruct Hsel as [H|H].
      - destruct obj_id; [congruence|reflexivity].
      - destruct obj_label; [|congruence].
        rewrite bool_decide_eq_true_2 by eauto. apply orb_true_r. }
  pose proof (cert_loop_sound X509_cmp certs obj_id obj_label
                (length certs) 0 None) as H.
  cbn beta iota in H.
  destruct (cert_loop X509_cmp certs (length certs) 0 obj_id obj_label None)
    as [s|].
  - destruct H as [c Hc]; [intros i c Hi; lia|]. eauto.
  - right. right. exists certs. split; [reflexivity|].
    intros i c Hm. apply (H ltac:(intros; lia) i c); [|exact Hm].
    destruct Hm as [Hc _]. apply lookup_lt_Some in Hc. cbn. exact Hc.
Qed.

(** The three sample certificates, searched by their id. *)
Lemma match_cert_sound_witness :
  match match_cert cmp_first_byte true (Some three_certs) [7] None with
  | Some s =>
      exists certs c,
        Some three_certs = Some certs /\ cert_match certs [7] None s c
  | None =>
      true = false \/ Some three_certs = None
      \/ exists certs,
           Some three_certs = Some certs
           /\ forall i c, ~ cert_match certs [7] None i c
  end.
Proof.
  apply (match_cert_sound cmp_first_byte true (Some three_certs) [7] None).
  left. discriminate.
Defined.

(** X18.  With neither an id nor a label given, [match_cert] returns
    the first certificate that has an id starting with a non-zero byte,
    and the first certificate of all when there is none such. *)
Theorem match_cert_without_selector
    (X509_cmp : X509 -> X509 -> Z) (certs : list PKCS11_CERT) :
  certs <> [] ->
  exists s,
    match_cert X509_cmp true (Some certs) [] None = Some s
    /\ ((exists c,
           certs !! s = Some c /\ id_present c = true
           /\ forall j cj, (j < s)%nat -> certs !! j = Some cj ->
                           id_present cj = false)
        \/ (s = 0%nat
            /\ forall j cj, certs !! j = Some cj -> id_present cj = false)).
Proof.
  intros Hne. unfold match_cert. cbn [negb length Nat.eqb orb].
  destruct (Nat.eqb_spec (length certs) 0) as [E|_].
  { destruct certs; [congruence|discriminate E]. }
  rewrite bool_decide_eq_false_2 by (intros [x Hx]; discriminate Hx).
  pose proof (first_with_id_spec certs (length certs) 0 None) as H.
  cbn beta iota in H.
  destruct (first_with_id certs (length certs) 0 None) as [s|].
  - exists s. split; [reflexivity|]. left. apply H. intros; lia.
  - exists 0%nat. split; [reflexivity|]. right. split; [reflexivity|].
    intros j cj Hcj. apply (H ltac:(intros; lia) j cj); [|exact Hcj].
    apply lookup_lt_Some in Hcj. cbn. exact Hcj.
Qed.

Lemma match_cert_without_selector_witness :
  exists s,
    match_cert cmp_first_byte true (Some three_certs) [] None = Some s
    /\ ((exists c,
           three_certs !! s = Some c /\ id_present c = true
           /\ forall j cj, (j < s)%nat -> three_certs !! j = Some cj ->
                           id_present cj = false)
        \/ (s = 0%nat
            /\ forall j cj, three_certs !! j = Some cj ->
                            id_present cj = false)).
Proof.
  apply (match_cert_without_selector cmp_first_byte three_certs).
  discriminate.
Defined.


(** ** The interceptor: lock, size query and output bound *)

Section InterceptorProtocol.

Import Pkey.

Lemma lock_after_app (a b : list event) :
  lock_after (a ++ b) = fold_left lock_step b (lock_after a).
Proof. unfold lock_after. apply fold_left_app. Qed.

(** The tail of the sign method, entered with the lock held, leaves it
    held exactly when it leaves the operation initialized. *)
Lemma sign_tail_lock (tok : replies) (sig_null : bool) (siglen rv : Z)
    (s : state) :
  lock_after (trace s) = Some Held ->
  lock_after (trace (st (sign_tail tok sig_null siglen rv s)))
  = Some (if sign_initialized (st (sign_tail tok sig_null siglen rv s))
          then Held else Free)
  /\ decrypt_initialized (st (sign_tail tok sig_null siglen rv s))
     = decrypt_initialized s.
Proof.
  intros Hl. unfold sign_tail.
  destruct (rv =? 0) eqn:Erv;
    [destruct (rv_Sign tok =? 0) eqn:Es|];
    destruct sig_null;
    cbn -[lock_after]; rewrite ?Erv, ?Es; cbn -[lock_after];
    rewrite ?lock_after_app, Hl; split; reflexivity.
Qed.

Lemma decrypt_tail_lock (tok : replies) (key : token_key) (out_null : bool)
    (outlen rv : Z) (s : state) :
  lock_after (trace s) = Some Held ->
  lock_after (trace (st (decrypt_tail tok key out_null outlen rv s)))
  = Some (if decrypt_initialized (st (decrypt_tail tok key out_null outlen
                                        rv s))
          then Held else Free)
  /\ sign_initialized (st (decrypt_tail tok key out_null outlen rv s))
     = sign_initialized s.
Proof.
  intros Hl. unfold decrypt_tail, CKR_OK.
  destruct (rv =? 0) eqn:Erv; destruct (always_authenticate key);
    cbn [andb];
    destruct (rv_authenticate tok =? 0) eqn:Eau;
    destruct (rv_Decrypt tok =? 0) eqn:Ed;
    destruct out_null;
    cbn -[lock_after]; rewrite ?Erv, ?Eau, ?Ed; cbn -[lock_after];
    destruct (outlen <? size_Decrypt tok);
    cbn -[lock_after]; rewrite ?lock_after_app, Hl; split; reflexivity.
Qed.

Lemma sign_lock_state (tok : replies) (ctx : EVP_PKEY_CTX)
    (sig_null : bool) (siglen tbslen : Z) (s : state) :
  decrypt_initialized s = false ->
  lock_after (trace s) = Some (lock_wanted s) ->
  lock_after (trace (st (pkcs11_pkey_rsa_sign tok ctx sig_null siglen
                           tbslen s)))
  = Some (lock_wanted (st (pkcs11_pkey_rsa_sign tok ctx sig_null siglen
                             tbslen s)))
  /\ decrypt_initialized (st (pkcs11_pkey_rsa_sign tok ctx sig_null siglen
                                tbslen s)) = false.
Proof.
  intros Hd Hl. unfold lock_wanted in *. rewrite Hd, orb_false_r in Hl.
  assert (Htry :
    lock_after (trace (st (pkcs11_try_pkey_rsa_sign tok ctx sig_null siglen
                             tbslen s)))
    = Some (if sign_initialized
                 (st (pkcs11_try_pkey_rsa_sign tok ctx sig_null siglen
                        tbslen s))
            then Held else Free)
    /\ decrypt_initialized
         (st (pkcs11_try_pkey_rsa_sign tok ctx sig_null siglen tbslen s))
       = false).
  { unfold pkcs11_try_pkey_rsa_sign. cbn zeta.
    destruct (token_key_of ctx) as [key|]; [|cbn [st]; auto].
    destruct (ctx_signature_md ctx) as [md|]; [|cbn [st]; auto].
    destruct (negb (tbslen =? to_ulong (EVP_MD_size md))); [cbn [st]; auto|].
    destruct (sign_initialized s) eqn:Hsi; cbn [negb].
    - destruct (sign_tail_lock tok sig_null siglen 0 s Hl) as [H1 H2].
      rewrite H2. auto.
    - destruct (negb (ctx_padding ctx =? RSA_PKCS1_PSS_PADDING));
        [cbn [st]; rewrite Hsi; auto|].
      destruct (pkcs11_params_pss ctx) as [params|];
        [|cbn [st]; rewrite Hsi; auto].
      destruct ((rv_SignInit tok =? 0) && always_authenticate key);
        match goal with
        | |- context [sign_tail tok sig_null siglen ?rv ?s2] =>
            destruct (sign_tail_lock tok sig_null siglen rv s2) as [H1 H2];
              [cbn [emit trace]; rewrite !lock_after_app, Hl; reflexivity
              |rewrite H2; cbn [emit decrypt_initialized]; auto]
        end. }
  unfold pkcs11_pkey_rsa_sign. cbn zeta.
  destruct Htry as [H1 H2].
  set (r := pkcs11_try_pkey_rsa_sign tok ctx sig_null siglen tbslen s) in *.
  destruct (ret r <? 0);
    cbn [st emit trace sign_initialized decrypt_initialized];
    rewrite ?lock_after_app, H1, H2, orb_false_r;
    [|split; reflexivity].
  destruct (sign_initialized (st r)); split; reflexivity.
Qed.

Lemma decrypt_lock_state (tok : replies) (ctx : EVP_PKEY_CTX)
    (out_null : bool) (outlen : Z) (s : state) :
  sign_initialized s = false ->
  lock_after (trace s) = Some (lock_wanted s) ->
  lock_after (trace (st (pkcs11_pkey_rsa_decrypt tok ctx out_null outlen s)))
  = Some (lock_wanted (st (pkcs11_pkey_rsa_decrypt tok ctx out_null outlen
                             s)))
  /\ sign_initialized (st (pkcs11_pkey_rsa_decrypt tok ctx out_null outlen
                             s)) = false.
Proof.
  intros Hd Hl. unfold lock_wanted in *. rewrite Hd, orb_false_l in Hl.
  assert (Htry :
    lock_after (trace (st (pkcs11_try_pkey_rsa_decrypt tok ctx out_null
                             outlen s)))
    = Some (if decrypt_initialized
                 (st (pkcs11_try_pkey_rsa_decrypt tok ctx out_null outlen s))
            then Held else Free)
    /\ sign_initialized
         (st (pkcs11_try_pkey_rsa_decrypt tok ctx out_null outlen s))
       = false).
  { unfold pkcs11_try_pkey_rsa_decrypt. cbn zeta.
    destruct (token_key_of ctx) as [key|]; [|cbn [st]; auto].
    destruct (decrypt_initialized s) eqn:Hdi; cbn [negb].
    - destruct (decrypt_tail_lock tok key out_null outlen 0 s Hl) as [H1 H2].
      rewrite H2. auto.
    - destruct (ctx_padding ctx =? RSA_PKCS1_OAEP_PADDING).
      + destruct (pkcs11_params_oaep ctx) as [params|];
          [|cbn [st]; rewrite Hdi; auto].
        match goal with
        | |- context [decrypt_tail tok key out_null outlen ?rv ?s2] =>
            destruct (decrypt_tail_lock tok key out_null outlen rv s2)
              as [H1 H2];
              [cbn [emit trace]; rewrite !lock_after_app, Hl; reflexivity
              |rewrite H2; cbn [emit sign_initialized]; auto]
        end.
      + destruct (ctx_padding ctx =? CKM_RSA_PKCS);
          [|cbn [st]; rewrite Hdi; auto].
        match goal with
        | |- context [decrypt_tail tok key out_null outlen ?rv ?s2] =>
            destruct (decrypt_tail_lock tok key out_null outlen rv s2)
              as [H1 H2];
              [cbn [emit trace]; rewrite !lock_after_app, Hl; reflexivity
              |rewrite H2; cbn [emit sign_initialized]; auto]
        end. }
  unfold pkcs11_pkey_rsa_decrypt. cbn zeta.
  destruct Htry as [H1 H2].
  set (r := pkcs11_try_pkey_rsa_decrypt tok ctx out_null outlen s) in *.
  destruct (ret r <? 0);
    cbn [st emit trace sign_initialized decrypt_initialized];
    rewrite ?lock_after_app, H1, H2, orb_false_l;
    [|split; reflexivity].
  destruct (decrypt_initialized (st r)); split; reflexivity.
Qed.

End InterceptorProtocol.


(** X19.  The context lock is not recursive.  As long as the operations
    of the sign method and of the decrypt method do not overlap, the
    lock is requested only while it is free and released only while it
    is held, and after a call it is held exactly when the call left an
    operation initialized on the token.  When that is so before a call
    of the sign method with no decrypt operation pending, or before a
    call of the decrypt method with no sign operation pending, it is so
    after the call, whatever the token answers and whichever way the
    call ends, and there is still no operation of the other kind. *)
Theorem lock_held_per_operation
    (tok : Pkey.replies) (ctx : Pkey.EVP_PKEY_CTX) (is_null : bool)
    (buflen tbslen : Z) (s : Pkey.state) :
  lock_after (Pkey.trace s) = Some (lock_wanted s) ->
  (Pkey.decrypt_initialized s = false ->
   let r := Pkey.pkcs11_pkey_rsa_sign tok ctx is_null buflen tbslen s in
   lock_after (Pkey.trace (Pkey.st r)) = Some (lock_wanted (Pkey.st r))
   /\ Pkey.decrypt_initialized (Pkey.st r) = false)
  /\ (Pkey.sign_initialized s = false ->
      let r := Pkey.pkcs11_pkey_rsa_decrypt tok ctx is_null buflen s in
      lock_after (Pkey.trace (Pkey.st r)) = Some (lock_wanted (Pkey.st r))
      /\ Pkey.sign_initialized (Pkey.st r) = false).
Proof.
  intros H. cbn zeta. split; intros Hother.
  - apply sign_lock_state; assumption.
  - apply decrypt_lock_state; assumption.
Qed.

(** A size query for a PSS signature on an idle context leaves the lock
    held; a size query for an OAEP decryption on an idle context does
    too. *)
Lemma lock_held_per_operation_witness :
  (let r := Pkey.pkcs11_pkey_rsa_sign (ready_token 256) (pss_ctx 2048 (-1))
              true 0 32 idle in
   lock_after (Pkey.trace (Pkey.st r)) = Some Held
   /\ Pkey.decrypt_initialized (Pkey.st r) = false)
  /\ (let r := Pkey.pkcs11_pkey_rsa_decrypt (ready_token 256)
                 (oaep_ctx 2048) true 0 idle in
      lock_after (Pkey.trace (Pkey.st r)) = Some Held
      /\ Pkey.sign_initialized (Pkey.st r) = false).
Proof.
  destruct (lock_held_per_operation (ready_token 256) (pss_ctx 2048 (-1))
              true 0 32 idle eq_refl) as [Hsign _].
  destruct (lock_held_per_operation (ready_token 256) (oaep_ctx 2048)
              true 0 32 idle eq_refl) as [_ Hdecrypt].
  split; [exact (Hsign eq_refl)|exact (Hdecrypt eq_refl)].
Defined.

(** Where the operations do overlap the lock is asked for a second time:
    with the size query of a signature pending, a decryption that
    reaches the token requests the lock the thread already holds. *)
Example decrypt_during_sign_query :
  let r1 := Pkey.pkcs11_pkey_rsa_sign (ready_token 256) (pss_ctx 2048 (-1))
              true 0 32 idle in
  let r2 := Pkey.pkcs11_pkey_rsa_decrypt (ready_token 256) (oaep_ctx 2048)
              true 0 (Pkey.st r1) in
  lock_after (Pkey.trace (Pkey.st r1)) = Some Held
  /\ lock_after (Pkey.trace (Pkey.st r2)) = None.
Proof. vm_compute. split; reflexivity. Qed.

(** X20.  The size query and the signature that follows it are one
    operation on the token.  A first call of the sign method without a
    signature buffer initializes PSS signing, asks the token for the
    size and keeps the operation and the lock; the next call, with a
    buffer, issues [C_Sign] again without a second [C_SignInit] and
    without looking at the padding or the parameters of its context,
    then ends the operation and releases the lock. *)
Theorem sign_size_query_then_sign
    (tok tok2 : Pkey.replies) (ctx ctx2 : Pkey.EVP_PKEY_CTX)
    (key key2 : Pkey.token_key) (md md2 : Pkey.EVP_MD)
    (params : Pkey.CK_RSA_PKCS_PSS_PARAMS)
    (siglen tbslen tbslen2 : Z) (s : Pkey.state) :
  Pkey.token_key_of ctx = Some key ->
  Pkey.always_authenticate key = false ->
  Pkey.ctx_signature_md ctx = Some md ->
  tbslen = to_ulong (Pkey.EVP_MD_size md) ->
  Pkey.sign_initialized s = false ->
  Pkey.ctx_padding ctx = Pkey.RSA_PKCS1_PSS_PADDING ->
  Pkey.pkcs11_params_pss ctx = Some params ->
  Pkey.rv_SignInit tok = 0 -> Pkey.rv_Sign tok = 0 ->
  Pkey.token_key_of ctx2 = Some key2 ->
  Pkey.ctx_signature_md ctx2 = Some md2 ->
  tbslen2 = to_ulong (Pkey.EVP_MD_size md2) ->
  Pkey.rv_Sign tok2 = 0 ->
  let r1 := Pkey.pkcs11_pkey_rsa_sign tok ctx true siglen tbslen s in
  let r2 := Pkey.pkcs11_pkey_rsa_sign tok2 ctx2 false (Pkey.len r1) tbslen2
              (Pkey.st r1) in
  Pkey.ret r1 = 1 /\ Pkey.len r1 = Pkey.size_Sign tok
  /\ Pkey.sign_initialized (Pkey.st r1) = true
  /\ Pkey.ret r2 = 1 /\ Pkey.len r2 = Pkey.size_Sign tok2
  /\ Pkey.sign_initialized (Pkey.st r2) = false
  /\ Pkey.trace (Pkey.st r2)
     = Pkey.trace s
       ++ [Pkey.EvWriteLock;
           Pkey.EvSignInit
             {| Pkey.mechanism := Some Pkey.CKM_RSA_PKCS_PSS;
                Pkey.pParameter := Pkey.PssParameter params |};
           Pkey.EvSign; Pkey.EvSign; Pkey.EvUnlock].
Proof.
  intros Hkey Hauth Hmd Htbs Hinit Hpad Hpar Hsi Hsign
         Hkey2 Hmd2 Htbs2 Hsign2.
  cbn zeta.
  assert (E1 : Pkey.pkcs11_pkey_rsa_sign tok ctx true siglen tbslen s
               = {| Pkey.ret := 1; Pkey.len := Pkey.size_Sign tok;
                    Pkey.st :=
                      {| Pkey.sign_initialized := true;
                         Pkey.decrypt_initialized :=
                           Pkey.decrypt_initialized s;
                         Pkey.trace :=
                           ((Pkey.trace s ++ [Pkey.EvWriteLock])
                            ++ [Pkey.EvSignInit
                                  {| Pkey.mechanism :=
                                       Some Pkey.CKM_RSA_PKCS_PSS;
                                     Pkey.pParameter :=
                                       Pkey.PssParameter params |}])
                           ++ [Pkey.EvSign] |} |}).
  { unfold Pkey.pkcs11_pkey_rsa_sign, Pkey.pkcs11_try_pkey_rsa_sign.
    rewrite Hkey, Hmd, Htbs, Z.eqb_refl, Hinit, Hpad, Z.eqb_refl, Hpar.
    cbn [negb]. rewrite Hsi, Hauth. cbn [Z.eqb andb].
    unfold Pkey.sign_tail. cbn [Z.eqb]. rewrite Hsign. reflexivity. }
  rewrite E1. cbn [Pkey.ret Pkey.len Pkey.st Pkey.sign_initialized].
  unfold Pkey.pkcs11_pkey_rsa_sign, Pkey.pkcs11_try_pkey_rsa_sign.
  rewrite Hkey2, Hmd2, Htbs2, Z.eqb_refl.
  cbn [negb Pkey.sign_initialized].
  unfold Pkey.sign_tail. cbn [Z.eqb]. rewrite Hsign2.
  cbn. rewrite <- !app_assoc. cbn. repeat split; reflexivity.
Qed.

Lemma sign_size_query_then_sign_witness :
  let r1 := Pkey.pkcs11_pkey_rsa_sign (ready_token 256) (pss_ctx 2048 (-1))
              true 0 32 idle in
  let r2 := Pkey.pkcs11_pkey_rsa_sign (ready_token 256) (oaep_ctx 2048)
              false (Pkey.len r1) 32 (Pkey.st r1) in
  Pkey.ret r1 = 1 /\ Pkey.len r1 = 256
  /\ Pkey.sign_initialized (Pkey.st r1) = true
  /\ Pkey.ret r2 = 1 /\ Pkey.len r2 = 256
  /\ Pkey.sign_initialized (Pkey.st r2) = false
  /\ Pkey.trace (Pkey.st r2)
     = [] ++ [Pkey.EvWriteLock;
              Pkey.EvSignInit
                {| Pkey.mechanism := Some Pkey.CKM_RSA_PKCS_PSS;
                   Pkey.pParameter :=
                     Pkey.PssParameter
                       {| Pkey.pss_hashAlg := Pkey.CKM_SHA256;
                          Pkey.pss_mgf := Pkey.CKG_MGF1_SHA256;
                          Pkey.pss_sLen := 32 |} |};
              Pkey.EvSign; Pkey.EvSign; Pkey.EvUnlock].
Proof.
  apply (sign_size_query_then_sign (ready_token 256) (ready_token 256)
           (pss_ctx 2048 (-1)) (oaep_ctx 2048)
           {| Pkey.always_authenticate := false |}
           {| Pkey.always_authenticate := false |}
           sha256 sha256
           {| Pkey.pss_hashAlg := Pkey.CKM_SHA256;
              Pkey.pss_mgf := Pkey.CKG_MGF1_SHA256;
              Pkey.pss_sLen := 32 |}
           0 32 32 idle); reflexivity.
Defined.

Section DecryptBound.

Import Pkey.

Lemma decrypt_tail_fits (tok : replies) (key : token_key) (out_null : bool)
    (outlen rv : Z) (s : state) :
  ret (decrypt_tail tok key out_null outlen rv s) = 1 ->
  rv_Decrypt tok = 0
  /\ len (decrypt_tail tok key out_null outlen rv s) = size_Decrypt tok
  /\ (out_null = false -> size_Decrypt tok <= outlen).
Proof.
  unfold decrypt_tail, CKR_OK.
  destruct (rv =? 0) eqn:Erv; destruct (always_authenticate key);
    cbn [andb];
    destruct (rv_authenticate tok =? 0) eqn:Eau;
    destruct (rv_Decrypt tok =? 0) eqn:Ed;
    destruct out_null; cbn; rewrite ?Erv, ?Eau, ?Ed; cbn;
    try discriminate;
    intros Hret;
    destruct (outlen <? size_Decrypt tok) eqn:El; cbn in Hret;
    try discriminate Hret;
    (split; [apply Z.eqb_eq; exact Ed|]);
    cbn; rewrite ?orb_true_r; cbn;
    (split;
     [ first [ reflexivity
             | apply Z.ltb_ge in El;
               replace (outlen >=? size_Decrypt tok) with true
                 by (symmetry; apply Z.geb_le; lia);
               reflexivity ]
     | intros; try discriminate; apply Z.ltb_ge in El; lia ]).
Qed.

End DecryptBound.

(** X21.  When the token path of the decrypt method succeeds, the
    length it reports is the length of the plaintext the token
    returned, and with an output buffer given the plaintext fits it:
    the method does not copy more than [*outlen] bytes. *)
Theorem decrypt_fits_buffer
    (tok : Pkey.replies) (ctx : Pkey.EVP_PKEY_CTX) (out_null : bool)
    (outlen : Z) (s : Pkey.state) :
  let r := Pkey.pkcs11_try_pkey_rsa_decrypt tok ctx out_null outlen s in
  Pkey.ret r = 1 ->
  Pkey.rv_Decrypt tok = 0
  /\ Pkey.len r = Pkey.size_Decrypt tok
  /\ (out_null = false -> Pkey.size_Decrypt tok <= outlen).
Proof.
  cbn zeta. unfold Pkey.pkcs11_try_pkey_rsa_decrypt. cbn zeta.
  destruct (Pkey.token_key_of ctx) as [key|]; [|discriminate].
  destruct (negb (Pkey.decrypt_initialized s));
    [|apply decrypt_tail_fits].
  destruct (Pkey.ctx_padding ctx =? Pkey.RSA_PKCS1_OAEP_PADDING).
  - destruct (Pkey.pkcs11_params_oaep ctx); [|discriminate].
    apply decrypt_tail_fits.
  - destruct (Pkey.ctx_padding ctx =? Pkey.CKM_RSA_PKCS); [|discriminate].
    apply decrypt_tail_fits.
Qed.

Lemma decrypt_fits_buffer_witness :
  Pkey.rv_Decrypt (ready_token 32) = 0
  /\ Pkey.len (Pkey.pkcs11_try_pkey_rsa_decrypt (ready_token 32)
                 (oaep_ctx 2048) false 256 idle)
     = Pkey.size_Decrypt (ready_token 32)
  /\ (false = false -> Pkey.size_Decrypt (ready_token 32) <= 256).
Proof.
  apply (decrypt_fits_buffer (ready_token 32) (oaep_ctx 2048) false 256 idle).
  reflexivity.
Defined.


(** ** The slots a lookup works on *)

Section LookupSlots.

Import Lookup.

Variable MAX_PIN_LENGTH : nat.
Variable object : Type.
Variable e : env object.

Lemma slots_of_app (a b : list event) :
  slots_of (a ++ b) = slots_of a ++ slots_of b.
Proof. unfold slots_of. apply flat_map_app. Qed.

Lemma slots_of_match (slots : list PKCS11_SLOT) :
  slots_of (map EvMatch slots) = slots.
Proof.
  induction slots as [|s r IH]; [reflexivity|]. cbn. f_equal. exact IH.
Qed.

Lemma slots_of_candidates (slots : list PKCS11_SLOT) : forall m,
  slots_of (candidate_lines m slots) = [].
Proof.
  induction slots as [|s r IH]; intros m; [reflexivity|]. cbn. apply IH.
Qed.

Lemma ctx_login_slots (w : world) (slot : PKCS11_SLOT) (tok : PKCS11_TOKEN) :
  exists evs,
    trace (snd (ctx_login MAX_PIN_LENGTH e w slot tok)) = trace w ++ evs
    /\ forall s, In s (slots_of evs) -> s = slot.
Proof.
  destruct (ctx_login_trace MAX_PIN_LENGTH object e w slot tok)
    as (evs & Htr & Hevs).
  exists (EvCtxLogin slot :: evs). split; [exact Htr|].
  intros s Hs. destruct Hevs as [->|[pin0 ->]]; cbn in Hs; intuition.
Qed.

Lemma login_and_match_slots (sel : selector) (slot : PKCS11_SLOT)
    (w : world) :
  exists evs,
    trace (snd (login_and_match MAX_PIN_LENGTH e sel slot w)) = trace w ++ evs
    /\ forall s, In s (slots_of evs) -> s = slot.
Proof.
  unfold login_and_match.
  destruct (token slot) as [tok|].
  2:{ exists []. cbn. rewrite app_nil_r. split; [reflexivity|intros s []]. }
  destruct (loginRequired tok || force_login (ctx w)).
  - destruct (ctx_login_slots w slot tok) as (evs & Htr & Hevs).
    destruct (ctx_login MAX_PIN_LENGTH e w slot tok) as [ok w1].
    cbn [snd] in Htr. destruct (ok =? 0).
    + exists evs. auto.
    + exists (evs ++ [EvMatch slot]). cbn [call_match snd Lookup.emit trace].
      rewrite Htr, <- app_assoc. split; [reflexivity|].
      intros s Hs. rewrite slots_of_app in Hs. apply in_app_or in Hs.
      destruct Hs as [Hs|Hs]; [auto|]. cbn in Hs. intuition.
  - exists [EvMatch slot]. split; [reflexivity|].
    intros s Hs. cbn in Hs. intuition.
Qed.

Lemma multiple_slots_slots (sel : selector) (matched : list PKCS11_SLOT)
    (w : world) :
  exists evs,
    trace (snd (multiple_slots MAX_PIN_LENGTH e sel matched w))
    = trace w ++ evs
    /\ forall s, In s (slots_of evs) -> In s matched.
Proof.
  unfold multiple_slots.
  destruct (negb (calloc_ok e 1)).
  { exists []. cbn. rewrite app_nil_r. split; [reflexivity|intros s []]. }
  destruct (negb (calloc_ok e 2)).
  { exists []. cbn. rewrite app_nil_r. split; [reflexivity|intros s []]. }
  assert (Hscan : forall w1 pre,
    trace w1 = trace w ++ pre -> slots_of pre = [] ->
    exists evs,
      trace (snd (scan_uninit e sel (List.filter is_uninitialized matched)
                    (list_candidates 0 (List.filter is_initialized matched)
                       w1)))
      = trace w ++ evs
      /\ forall s, In s (slots_of evs) -> In s matched).
  { intros w1 pre Hw1 Hpre.
    destruct (scan_uninit_trace object e sel
                (List.filter is_uninitialized matched)
                (list_candidates 0 (List.filter is_initialized matched) w1))
      as [k Hk].
    destruct (list_candidates_trace
                (List.filter is_initialized matched) 0 w1) as [Hc _].
    eexists. rewrite Hk, Hc, Hw1, <- !app_assoc. split; [reflexivity|].
    intros s Hs. rewrite !slots_of_app, Hpre, slots_of_candidates,
      slots_of_match in Hs. cbn [app] in Hs.
    assert (Hin : In s (List.filter is_uninitialized matched)).
    { rewrite <- (firstn_skipn k). apply in_or_app. left. exact Hs. }
    apply List.filter_In in Hin. tauto. }
  destruct (List.filter is_initialized matched) as [|s1 [|s2 rest]] eqn:Hinit.
  - apply (Hscan w []); [symmetry; apply app_nil_r|reflexivity].
  - destruct (login_and_match_slots sel s1 w) as (evs & Htr & Hevs).
    exists evs. split; [exact Htr|]. intros s Hs.
    rewrite (Hevs s Hs).
    assert (Hin : In s1 (List.filter is_initialized matched))
      by (rewrite Hinit; left; reflexivity).
    apply List.filter_In in Hin. tauto.
  - cbn [length Nat.ltb Nat.leb].
    apply (Hscan _ [EvMultipleMatching (S (S (length rest)))]);
      reflexivity.
Qed.

End LookupSlots.


Section LookupSelected.

Import Lookup.

Variable MAX_PIN_LENGTH : nat.
Variable object : Type.
Variable e : env object.

Lemma try_load_slots (slot_list : list PKCS11_SLOT) (login : bool)
    (w : world) (r : option object * world) (slot : PKCS11_SLOT) :
  ctx_try_load_object MAX_PIN_LENGTH e slot_list login w = Returns r ->
  In slot (slots_of (steps_since w (snd r))) ->
  exists sel,
    snd (prelude e (ctx w) (heap w)) = Some sel
    /\ is_Some (token slot) /\ selected e sel slot_list slot.
Proof.
  unfold ctx_try_load_object, steps_since.
  destruct (prelude e (ctx w) (heap w)) as [[c h] parsed].
  set (w1 := set_heap h (set_ctx c w)).
  assert (Hw1 : trace w1 = trace w) by reflexivity.
  assert (Hnone : Returns (@None object, w1) = Returns r ->
            In slot (slots_of (skipn (length (trace w)) (trace (snd r)))) ->
            False).
  { intros [= <-]. cbn [snd]. rewrite Hw1, drop_all. intros []. }
  destruct parsed as [sel|]; [|intros Hr H; destruct (Hnone Hr H)].
  destruct (negb (calloc_ok e 0)); [intros Hr H; destruct (Hnone Hr H)|].
  destruct (matched_slots e sel slot_list) as [[matched|]|] eqn:Hm;
    [|intros Hr H; destruct (Hnone Hr H)|discriminate].
  intros [= <-].
  assert (Hin : forall evs (r : option object * world),
            trace (snd r) = trace w ++ evs ->
            (forall s, In s (slots_of evs) -> In s matched) ->
            In slot (slots_of (skipn (length (trace w)) (trace (snd r)))) ->
            exists sel0,
              snd (c, h, Some sel) = Some sel0
              /\ is_Some (token slot) /\ selected e sel0 slot_list slot).
  { intros evs r Htr Hsub Hs. rewrite Htr, drop_app_length in Hs.
    exists sel. split; [reflexivity|].
    apply (matched_slots_selected object e sel slot_list matched Hm). auto. }
  destruct login.
  - destruct matched as [|s1 [|s2 rest]].
    + destruct (multiple_slots_slots MAX_PIN_LENGTH object e sel [] w1)
        as (evs & Htr & Hsub).
      apply (Hin evs); [rewrite Htr, Hw1; reflexivity|exact Hsub].
    + destruct (login_and_match_slots MAX_PIN_LENGTH object e sel s1 w1)
        as (evs & Htr & Hsub).
      apply (Hin evs); [rewrite Htr, Hw1; reflexivity|].
      intros s Hs. left. symmetry. auto.
    + destruct (multiple_slots_slots MAX_PIN_LENGTH object e sel
                  (s1 :: s2 :: rest) w1) as (evs & Htr & Hsub).
      apply (Hin evs); [rewrite Htr, Hw1; reflexivity|exact Hsub].
  - destruct (scan_public_trace object e sel matched w1) as [k Hk].
    apply (Hin (map EvMatch (firstn k matched)));
      [rewrite Hk, Hw1; reflexivity|].
    intros s Hs. rewrite slots_of_match in Hs.
    rewrite <- (firstn_skipn k matched). apply in_or_app. left. exact Hs.
Qed.

End LookupSelected.

(** X22.  A pass of the lookup only works on slots the identifier
    selects: when the pass returns, every slot on which it started or
    made a login, or which it searched, holds a token and either is in
    the slot list and is selected by the slot number or by the token
    searched for, or no selection was made at all and it is the slot
    that [PKCS11_find_token] proposes.  The pass returns when every slot
    of the list holds a token. *)
Theorem lookup_stays_on_selected_slots
    (MAX_PIN_LENGTH : nat) (object : Type) (e : Lookup.env object)
    (slot_list : list Lookup.PKCS11_SLOT) (login : bool)
    (w : Lookup.world) :
  (Forall (fun slot => is_Some (Lookup.token slot)) slot_list ->
   exists r,
     Lookup.ctx_try_load_object MAX_PIN_LENGTH e slot_list login w
     = Lookup.Returns r)
  /\ forall r slot,
       Lookup.ctx_try_load_object MAX_PIN_LENGTH e slot_list login w
       = Lookup.Returns r ->
       In slot (slots_of (steps_since w (snd r))) ->
       exists sel,
         snd (Lookup.prelude e (Lookup.ctx w) (Lookup.heap w)) = Some sel
         /\ is_Some (Lookup.token slot)
         /\ selected e sel slot_list slot.
Proof.
  split; [apply pass_returns|].
  intros r slot. apply try_load_slots.
Qed.

(** The first of the three sample slots is searched in the pass without
    login. *)
Lemma lookup_stays_on_selected_slots_witness :
  exists sel,
    snd (Lookup.prelude (public_object by_label) (Lookup.ctx world0)
           (Lookup.heap world0)) = Some sel
    /\ is_Some (Lookup.token (demo_slot 0 true))
    /\ selected (public_object by_label) sel three_slots (demo_slot 0 true).
Proof.
  apply (proj2 (lookup_stays_on_selected_slots 8 nat (public_object by_label)
                  three_slots false world0)
           (Some 7%nat,
            Lookup.emit (Lookup.EvMatch (demo_slot 0 true)) world0)
           (demo_slot 0 true) eq_refl).
  left. reflexivity.
Defined.


(** ** The PIN handed to the token *)

Section LoginPin.

Import Lookup.

Variable MAX_PIN_LENGTH : nat.
Variable object : Type.
Variable e : env object.

Lemma heap_length_destroy (w : world) :
  length (heap (ctx_destroy_pin w)) = length (heap w).
Proof.
  unfold ctx_destroy_pin. destruct (pin (ctx w)) as [p|]; [|reflexivity].
  cbn. unfold OPENSSL_free, OPENSSL_cleanse, update_bytes.
  destruct (heap w !! p) as [b|] eqn:E.
  - rewrite list_lookup_insert_eq by (apply lookup_lt_Some in E; exact E).
    rewrite !length_insert. reflexivity.
  - rewrite E. reflexivity.
Qed.

Lemma pin_none_destroy (w : world) : pin (ctx (ctx_destroy_pin w)) = None.
Proof.
  unfold ctx_destroy_pin. destruct (pin (ctx w)) eqn:E; [reflexivity|exact E].
Qed.

Lemma pin_string_destroy (w : world) : pin_string (ctx_destroy_pin w) = None.
Proof. unfold pin_string. rewrite pin_none_destroy. reflexivity. Qed.

Lemma session_destroy (w : world) : session (ctx_destroy_pin w) = session w.
Proof. unfold ctx_destroy_pin. destruct (pin (ctx w)); reflexivity. Qed.

(** A terminated text stored at the start of a buffer is the string the
    buffer holds. *)
Lemma store_terminated (buf l : list Z) :
  (length l < length buf)%nat ->
  c_string (store buf 0 (l ++ [0])) = c_string l.
Proof.
  intros Hlen. rewrite store_spec by (rewrite length_app; cbn; lia).
  change (firstn 0 buf) with (@nil Z). cbn [app].
  rewrite <- app_assoc. apply c_string_app_zero.
Qed.

(** [ctx_get_pin] when the user interface runs: the buffer holds the
    text typed, cut at [MAX_PIN_LENGTH] characters. *)
Lemma get_pin_typed (w : world) (rv : Z) (entered : list Z) :
  ui e = UI_processed rv entered ->
  malloc_ok e (length (heap w)) = true ->
  fst (ctx_get_pin MAX_PIN_LENGTH e w) = (if negb (rv =? 0) then 0 else 1)
  /\ pin_string (snd (ctx_get_pin MAX_PIN_LENGTH e w))
     = Some (c_string (firstn MAX_PIN_LENGTH entered))
  /\ trace (snd (ctx_get_pin MAX_PIN_LENGTH e w)) = trace w
  /\ session (snd (ctx_get_pin MAX_PIN_LENGTH e w)) = session w.
Proof.
  intros Hui Hm. unfold ctx_get_pin. rewrite Hui.
  unfold alloc_pin, OPENSSL_malloc.
  rewrite <- (heap_length_destroy w) in Hm.
  rewrite Hm. cbn [pin ctx set_ctx set_heap heap].
  unfold memset0.
  erewrite update_bytes_at
    by (apply lookup_snoc_Some; right; split; reflexivity).
  rewrite insert_last. cbn [bytes live set_pin_length set_heap set_ctx heap].
  unfold ui_store.
  erewrite update_bytes_at
    by (apply lookup_snoc_Some; right; split; reflexivity).
  rewrite insert_last. cbn [bytes live].
  assert (Hstr : forall w',
            pin (ctx w') = Some (length (heap (ctx_destroy_pin w))) ->
            heap w'
            = heap (ctx_destroy_pin w)
              ++ [{| bytes :=
                       store
                         (zero (MAX_PIN_LENGTH + 1)
                            (map (junk e) (seq 0 (MAX_PIN_LENGTH + 1))))
                         0 (firstn MAX_PIN_LENGTH entered ++ [0]);
                     live := true |}] ->
            pin_string w'
            = Some (c_string (firstn MAX_PIN_LENGTH entered))).
  { intros w' Hp Hh. unfold pin_string. rewrite Hp, Hh.
    rewrite list_lookup_middle by reflexivity. cbn [bytes].
    rewrite store_terminated; [reflexivity|].
    rewrite length_zero, length_map, length_seq, length_take. lia. }
  destruct (negb (rv =? 0)); cbn [fst snd];
    (split; [reflexivity|]);
    (split; [apply Hstr; reflexivity|]);
    cbn; rewrite ?trace_destroy, ?session_destroy; auto.
Qed.

(** The login itself, with what follows a refusal. *)
Lemma login_finish_result (w : world) (slot : PKCS11_SLOT) :
  let r := (let '(rv, w2) := PKCS11_login e w slot in
            if negb (rv =? 0) then (0, ctx_destroy_pin w2) else (1, w2)) in
  trace (snd r) = trace w ++ [EvPKCS11Login slot (pin_string w)]
  /\ (login_rv e slot (pin_string w) = 0 ->
      fst r = 1 /\ ctx (snd r) = ctx w /\ heap (snd r) = heap w
      /\ session (snd r) = slot_id slot :: session w)
  /\ (login_rv e slot (pin_string w) <> 0 ->
      fst r = 0 /\ pin (ctx (snd r)) = None).
Proof.
  cbn zeta. unfold PKCS11_login.
  destruct (login_rv e slot (pin_string w) =? 0) eqn:Erv;
    cbv beta iota; rewrite Erv; cbn [negb fst snd].
  - apply Z.eqb_eq in Erv. cbn. split; [reflexivity|].
    split; [auto|]. intros H. congruence.
  - apply Z.eqb_neq in Erv. rewrite trace_destroy, pin_none_destroy.
    cbn. split; [reflexivity|]. split; [intros H; congruence|auto].
Qed.

(** An allocation of the PIN buffer that finds memory. *)
Lemma alloc_pin_ok (w : world) :
  malloc_ok e (length (heap w)) = true ->
  alloc_pin MAX_PIN_LENGTH e w
  = set_ctx {| pin := Some (length (heap w));
               pin_length := pin_length (ctx w);
               forced_pin := forced_pin (ctx w);
               force_login := force_login (ctx w) |}
      (set_heap
         (heap w ++ [{| bytes := map (junk e) (seq 0 (MAX_PIN_LENGTH + 1));
                        live := true |}]) w).
Proof.
  intros H. unfold alloc_pin, OPENSSL_malloc. rewrite H. reflexivity.
Qed.

End LoginPin.


(** X23.  Which PIN [ctx_login] hands to the token when a login is
    due.  For a token with a keypad of its own, unless a PIN was forced,
    the cached PIN is destroyed and the login is made with a null PIN.
    Otherwise a cached PIN is used as it is: when the token accepts it,
    [ctx_login] returns 1 and the PIN stays cached; when the token
    refuses it, [ctx_login] returns 0 and the PIN is gone. *)
Theorem login_pin_choice
    (MAX_PIN_LENGTH : nat) (object : Type) (e : Lookup.env object)
    (w : Lookup.world) (slot : Lookup.PKCS11_SLOT)
    (tok : Lookup.PKCS11_TOKEN) :
  Lookup.force_login (Lookup.ctx w) || Lookup.loginRequired tok = true ->
  Lookup.slot_logged_in e w slot = false ->
  let r := Lookup.ctx_login MAX_PIN_LENGTH e w slot tok in
  (Lookup.secureLogin tok = true ->
   Lookup.forced_pin (Lookup.ctx w) = false ->
   Lookup.trace (snd r)
   = Lookup.trace w
     ++ [Lookup.EvCtxLogin slot; Lookup.EvPKCS11Login slot None]
   /\ Lookup.pin (Lookup.ctx (snd r)) = None)
  /\ (Lookup.secureLogin tok && negb (Lookup.forced_pin (Lookup.ctx w))
      = false ->
      forall p, Lookup.pin (Lookup.ctx w) = Some p ->
      Lookup.trace (snd r)
      = Lookup.trace w
        ++ [Lookup.EvCtxLogin slot;
            Lookup.EvPKCS11Login slot (Lookup.pin_string w)]
      /\ (Lookup.login_rv e slot (Lookup.pin_string w) = 0 ->
          fst r = 1
          /\ Lookup.ctx (snd r) = Lookup.ctx w
          /\ Lookup.heap (snd r) = Lookup.heap w
          /\ Lookup.session (snd r)
             = Lookup.slot_id slot :: Lookup.session w)
      /\ (Lookup.login_rv e slot (Lookup.pin_string w) <> 0 ->
          fst r = 0 /\ Lookup.pin (Lookup.ctx (snd r)) = None)).
Proof.
  intros Hdue Hout. cbn zeta. unfold Lookup.ctx_login. cbn zeta.
  change (Lookup.ctx (Lookup.emit (Lookup.EvCtxLogin slot) w))
    with (Lookup.ctx w).
  change (Lookup.slot_logged_in e (Lookup.emit (Lookup.EvCtxLogin slot) w)
            slot)
    with (Lookup.slot_logged_in e w slot).
  rewrite Hdue, Hout. cbn [negb orb].
  unfold Lookup.ctx_login_body. cbn zeta.
  change (Lookup.ctx (Lookup.emit (Lookup.EvCtxLogin slot) w))
    with (Lookup.ctx w).
  split.
  - intros Hsec Hforced. rewrite Hsec, Hforced. cbn [negb andb].
    pose proof (login_finish_result object e
                  (Lookup.ctx_destroy_pin
                     (Lookup.emit (Lookup.EvCtxLogin slot) w)) slot) as H.
    cbn zeta in H. rewrite pin_string_destroy, trace_destroy in H.
    destruct H as (Htr & H0 & H1). split.
    + rewrite Htr. cbn. rewrite <- app_assoc. reflexivity.
    + destruct (Z.eq_dec (Lookup.login_rv e slot None) 0) as [E|E].
      * destruct (H0 E) as (_ & -> & _). apply pin_none_destroy.
      * apply (H1 E).
  - intros Hkey p Hp. rewrite Hkey, Hp.
    pose proof (login_finish_result object e
                  (Lookup.emit (Lookup.EvCtxLogin slot) w) slot) as H.
    cbn zeta in H.
    change (Lookup.pin_string (Lookup.emit (Lookup.EvCtxLogin slot) w))
      with (Lookup.pin_string w) in H.
    destruct H as (Htr & H0 & H1). split; [|split].
    + rewrite Htr. cbn. rewrite <- app_assoc. reflexivity.
    + exact H0.
    + exact H1.
Qed.

(** The context with the cached PIN ["1234"] and a token that asks for
    login. *)
Lemma login_pin_choice_witness :
  Lookup.trace
    (snd (Lookup.ctx_login 8 (public_object by_label) world_with_pin
            (demo_slot 0 true) (demo_token true)))
  = Lookup.trace world_with_pin
    ++ [Lookup.EvCtxLogin (demo_slot 0 true);
        Lookup.EvPKCS11Login (demo_slot 0 true)
          (Lookup.pin_string world_with_pin)].
Proof.
  apply (proj2 (login_pin_choice 8 nat (public_object by_label)
                  world_with_pin (demo_slot 0 true) (demo_token true)
                  eq_refl eq_refl) eq_refl 0%nat eq_refl).
Defined.

(** X24.  The PIN typed by the user is the PIN sent to the token.  When
    a login is due, no PIN is cached, memory is there and the user
    interface delivers a text, [ctx_login] makes the login with that
    text, cut at [MAX_PIN_LENGTH] characters and at a zero byte.  When
    the token accepts it, the text is the cached PIN afterwards; when
    the token refuses it, no PIN is cached. *)
Theorem login_with_typed_pin
    (MAX_PIN_LENGTH : nat) (object : Type) (e : Lookup.env object)
    (w : Lookup.world) (slot : Lookup.PKCS11_SLOT)
    (tok : Lookup.PKCS11_TOKEN) (entered : list Z) :
  Lookup.force_login (Lookup.ctx w) || Lookup.loginRequired tok = true ->
  Lookup.slot_logged_in e w slot = false ->
  Lookup.secureLogin tok && negb (Lookup.forced_pin (Lookup.ctx w)) = false ->
  Lookup.pin (Lookup.ctx w) = None ->
  Lookup.ui e = Lookup.UI_processed 0 entered ->
  Lookup.malloc_ok e (length (Lookup.heap w)) = true ->
  Lookup.malloc_ok e (S (length (Lookup.heap w))) = true ->
  let typed := c_string (firstn MAX_PIN_LENGTH entered) in
  let r := Lookup.ctx_login MAX_PIN_LENGTH e w slot tok in
  Lookup.trace (snd r)
  = Lookup.trace w
    ++ [Lookup.EvCtxLogin slot; Lookup.EvPKCS11Login slot (Some typed)]
  /\ (Lookup.login_rv e slot (Some typed) = 0 ->
      fst r = 1 /\ Lookup.pin_string (snd r) = Some typed
      /\ Lookup.session (snd r) = Lookup.slot_id slot :: Lookup.session w)
  /\ (Lookup.login_rv e slot (Some typed) <> 0 ->
      fst r = 0 /\ Lookup.pin (Lookup.ctx (snd r)) = None).
Proof.
  intros Hdue Hout Hkey Hpin Hui Hm1 Hm2. cbn zeta.
  unfold Lookup.ctx_login. cbn zeta.
  change (Lookup.ctx (Lookup.emit (Lookup.EvCtxLogin slot) w))
    with (Lookup.ctx w).
  change (Lookup.slot_logged_in e (Lookup.emit (Lookup.EvCtxLogin slot) w)
            slot)
    with (Lookup.slot_logged_in e w slot).
  rewrite Hdue, Hout. cbn [negb orb].
  unfold Lookup.ctx_login_body. cbn zeta.
  change (Lookup.ctx (Lookup.emit (Lookup.EvCtxLogin slot) w))
    with (Lookup.ctx w).
  rewrite Hkey, Hpin.
  rewrite (alloc_pin_ok MAX_PIN_LENGTH object e
             (Lookup.emit (Lookup.EvCtxLogin slot) w) Hm1).
  cbn [Lookup.pin Lookup.ctx Lookup.set_ctx Lookup.set_heap Lookup.heap
       Lookup.set_pin_length Lookup.emit].
  unfold Lookup.memset0.
  erewrite update_bytes_at
    by (apply lookup_snoc_Some; right; split; reflexivity).
  rewrite insert_last. cbn [Lookup.bytes Lookup.live].
  set (w2 := Lookup.set_heap _ _).
  assert (Hlen : length (Lookup.heap w2) = S (length (Lookup.heap w))).
  { unfold w2. cbn. rewrite length_app. cbn. lia. }
  rewrite <- Hlen in Hm2.
  destruct (get_pin_typed MAX_PIN_LENGTH object e w2 0 entered Hui Hm2)
    as (Hfst & Hstr & Htr & Hses).
  destruct (Lookup.ctx_get_pin MAX_PIN_LENGTH e w2) as [got w3].
  cbn [fst snd] in Hfst, Hstr, Htr, Hses. rewrite Hfst.
  cbn [Z.eqb negb].
  pose proof (login_finish_result object e w3 slot) as H.
  cbn zeta in H. rewrite Hstr, Htr, Hses in H.
  destruct H as (Htr3 & H0 & H1). split; [|split].
  - rewrite Htr3. cbn. rewrite <- app_assoc. reflexivity.
  - intros E. destruct (H0 E) as (Hf & Hc & Hh & Hs).
    split; [exact Hf|]. split; [|exact Hs].
    unfold Lookup.pin_string in *. rewrite Hc, Hh. exact Hstr.
  - exact H1.
Qed.

(** The user types ["1234"]. *)
Lemma login_with_typed_pin_witness :
  Lookup.trace
    (snd (Lookup.ctx_login 8 (typing [49; 50; 51; 52]) world0
            (demo_slot 0 true) (demo_token true)))
  = Lookup.trace world0
    ++ [Lookup.EvCtxLogin (demo_slot 0 true);
        Lookup.EvPKCS11Login (demo_slot 0 true)
          (Some (c_string (firstn 8 [49; 50; 51; 52])))].
Proof.
  apply (proj1 (login_with_typed_pin 8 nat (typing [49; 50; 51; 52]) world0
                  (demo_slot 0 true) (demo_token true) [49; 50; 51; 52]
                  eq_refl eq_refl eq_refl eq_refl eq_refl eq_refl eq_refl)).
Defined.


(** ** Escapes the percent decoder refuses *)

Section BadEscapes.

(** The loop on well-formed items followed by more input: one byte per
    item, then the loop goes on behind them. *)
Lemma attr_loop_prefix (items : list uri_item) :
  forall room rest k field outlen,
    Forall item_ok items ->
    (length items <= room)%nat -> 0 <= k ->
    attr_loop room (uri_text items ++ rest)
      (Z.of_nat (length (uri_text items)) + k) field outlen
    = attr_loop (room - length items) rest k
        (store field outlen (map item_value items))
        (outlen + length items).
Proof.
  induction items as [|i r IH]; intros room rest k field outlen Hok Hroom Hk.
  - cbn [uri_text flat_map length app map store].
    rewrite Nat.sub_0_r, Nat.add_0_r. reflexivity.
  - inversion Hok as [|? ? Hi Hr]; subst.
    destruct room as [|room]; [cbn in Hroom; lia|].
    cbn [length] in Hroom.
    change (uri_text (i :: r)) with (item_text i ++ uri_text r).
    rewrite <- app_assoc, length_app.
    cbn [attr_loop].
    destruct i as [c|b]; cbn [item_text item_ok item_value] in *.
    + destruct Hi as [Hc _].
      replace (Z.of_nat (length [c] + length (uri_text r)) + k =? 0)
        with false by (symmetry; apply Z.eqb_neq; cbn; lia).
      cbn [app cur hd next tl].
      apply Z.eqb_neq in Hc. rewrite Hc.
      replace (Z.of_nat (length [c] + length (uri_text r)) + k - 1)
        with (Z.of_nat (length (uri_text r)) + k) by (cbn [length]; lia).
      rewrite IH by (try assumption; lia).
      cbn [map store length Nat.sub]. f_equal. lia.
    + replace (Z.of_nat (length (ch_percent :: sprintf_02X b)
                         + length (uri_text r)) + k =? 0) with false
        by (symmetry; apply Z.eqb_neq; cbn; lia).
      cbn [app cur hd].
      replace (ch_percent =? ch_percent) with true by reflexivity.
      replace (Z.of_nat (length (ch_percent :: sprintf_02X b)
                         + length (uri_text r)) + k <? 3) with false
        by (symmetry; apply Z.ltb_ge; cbn; lia).
      change [at_ (ch_percent :: sprintf_02X b ++ uri_text r ++ rest) 1;
              at_ (ch_percent :: sprintf_02X b ++ uri_text r ++ rest) 2]
        with (sprintf_02X b).
      rewrite hex_to_bin_escape by exact Hi.
      cbn [hx_ret hx_out Z.eqb store].
      change (skipn 3 (ch_percent :: sprintf_02X b ++ uri_text r ++ rest))
        with (uri_text r ++ rest).
      replace (Z.of_nat (length (ch_percent :: sprintf_02X b)
                         + length (uri_text r)) + k - 3)
        with (Z.of_nat (length (uri_text r)) + k)
        by (cbn [length sprintf_02X]; lia).
      rewrite IH by (try assumption; lia).
      cbn [map store length Nat.sub]. f_equal. lia.
Qed.

Lemma hex_to_bin_bad_escape (a b : Z) :
  bad_escape a b -> hx_ret (hex_to_bin (Some [a; b]) 1) = 0.
Proof.
  intros [(Ha & Ha0 & Hac)|([va Ha] & Hb & Hb0 & Hbc)];
    unfold hex_to_bin; cbn [cur hd length hex_loop nybble_loop next tl].
  - apply Z.eqb_neq in Ha0, Hac. rewrite Ha0, Hac, Ha. reflexivity.
  - pose proof (hexval_not_end a va Ha) as Hend.
    apply orb_false_elim in Hend as [Ha0 Hac].
    apply Z.eqb_neq in Hb0, Hbc.
    rewrite Ha0, Hac, Ha, Hb0, Hbc, Hb. reflexivity.
Qed.

(** A failing loop makes [parse_uri_attr_len] fail and keep the
    length. *)
Lemma attr_loop_failed (attr : list Z) (attrlen : Z) (field : list Z)
    (cap : nat) :
  as_ret (attr_loop cap attr attrlen field 0) = 0 ->
  ao_ret (parse_uri_attr_len attr attrlen field cap) = 0
  /\ ao_len (parse_uri_attr_len attr attrlen field cap) = cap.
Proof.
  intros H. unfold parse_uri_attr_len. cbn zeta. rewrite H.
  destruct (negb (as_attrlen _ =? 0) && Nat.eqb _ cap); cbn; auto.
Qed.

End BadEscapes.

(** X25.  An escape that is cut short or malformed makes the percent
    decoder fail.  After well-formed items that leave room in the
    output, a percent sign with fewer than two characters left in the
    attribute, or followed by two characters that are no escape, makes
    [parse_uri_attr_len] return 0 and leave [*field_len] as it was. *)
Theorem percent_decoder_rejects_bad_escape
    (items : list uri_item) (a b : Z) (rest field : list Z)
    (k : Z) (cap : nat) :
  Forall item_ok items ->
  (length items < cap)%nat ->
  (1 <= k < 3 \/ (3 <= k /\ bad_escape a b)) ->
  let r := parse_uri_attr_len
             (uri_text items ++ ch_percent :: a :: b :: rest)
             (Z.of_nat (length (uri_text items)) + k) field cap in
  ao_ret r = 0 /\ ao_len r = cap.
Proof.
  intros Hok Hroom Hk. cbn zeta. apply attr_loop_failed.
  rewrite attr_loop_prefix by (try assumption; lia).
  destruct (cap - length items)%nat as [|room] eqn:E; [lia|].
  cbn [attr_loop].
  replace (k =? 0) with false by (symmetry; apply Z.eqb_neq; lia).
  cbn [cur hd]. replace (ch_percent =? ch_percent) with true by reflexivity.
  destruct Hk as [Hk|[Hk Hbad]].
  - replace (k <? 3) with true by (symmetry; apply Z.ltb_lt; lia).
    reflexivity.
  - replace (k <? 3) with false by (symmetry; apply Z.ltb_ge; lia).
    change [at_ (ch_percent :: a :: b :: rest) 1;
            at_ (ch_percent :: a :: b :: rest) 2] with [a; b].
    rewrite (hex_to_bin_bad_escape a b Hbad). reflexivity.
Qed.

(** ["ab%zz"] and ["ab%4"]. *)
Lemma percent_decoder_rejects_bad_escape_witness :
  (ao_ret (parse_uri_attr_len [97; 98; 37; 122; 122] 5 (repeat 0 8) 8) = 0
   /\ ao_len (parse_uri_attr_len [97; 98; 37; 122; 122] 5 (repeat 0 8) 8)
      = 8%nat)
  /\ (ao_ret (parse_uri_attr_len [97; 98; 37; 52; 0] 4 (repeat 0 8) 8) = 0
      /\ ao_len (parse_uri_attr_len [97; 98; 37; 52; 0] 4 (repeat 0 8) 8)
         = 8%nat).
Proof.
  split.
  - apply (percent_decoder_rejects_bad_escape [Lit 97; Lit 98] 122 122 []
             (repeat 0 8) 3 8).
    + repeat constructor; discriminate.
    + cbn. lia.
    + right. split; [lia|]. left. repeat split; discriminate.
  - apply (percent_decoder_rejects_bad_escape [Lit 97; Lit 98] 52 0 []
             (repeat 0 8) 2 8).
    + repeat constructor; discriminate.
    + cbn. lia.
    + left. lia.
Defined.


(** ** A PIN file named in a URI *)

Section UriPinSource.

Variable alloc : nat -> option (list Z).
Variable scratch : nat -> list Z.
Variable fs : list Z -> option (list Z).
Variables (id0 : list Z) (id_len0 : nat) (pin0 : list Z) (pin_len0 : nat).

(** A round of the loop on a [pin-source] attribute when no PIN has
    been seen. *)
Lemma step_pin_source (done : list uri_attr) (items : list uri_item)
    (st : uri_state) (d : Z) (tail : list Z) :
  reads done id0 id_len0 pin0 pin_len0 st ->
  u_end st = d :: (lit_pin_source ++ uri_text items) ++ tail ->
  stops tail -> value_ok items ->
  existsb is_pin done = false ->
  uri_step alloc scratch fs st
  = let f := parse_pin_source fs (uri_text items ++ tail)
               (Z.of_nat (length (uri_text items)))
               (alloc (length (uri_text items) + 1))
               (scratch (pin_len0 + 1)) pin0 pin_len0 in
    set_pin (fo_ret f) (fo_field f) (fo_len f) (set_end tail st).
Proof.
  intros (Hrv & Hstr & Hids & Hid & Hpins & Hpin) He Ht Hv Hno.
  assert (Hp : Forall plain (lit_pin_source ++ uri_text items)).
  { apply Forall_app. split;
      [repeat constructor|apply uri_text_plain; exact Hv]. }
  rewrite (pin_value_of_none done Hno) in Hpin.
  destruct Hpin as [Hpin1 Hpin2]. rewrite Hno in Hpins.
  unfold uri_step. cbn zeta. rewrite He. cbn [next tl].
  rewrite (attr_end_app _ tail Hp Ht). rewrite <- app_assoc.
  decide_prefix lit_model. decide_prefix lit_manufacturer.
  decide_prefix lit_token. decide_prefix lit_serial.
  decide_prefix lit_object. decide_prefix lit_id_eq.
  decide_prefix lit_pin_value. decide_prefix lit_pin_source.
  change (skipn 11 (lit_pin_source ++ uri_text items ++ tail))
    with (uri_text items ++ tail).
  rewrite len_app, Hpins, Hpin1, Hpin2. reflexivity.
Qed.

End UriPinSource.

(** X26.  A PIN file named in a URI.  When well-formed attributes
    without a PIN are followed by a last attribute [pin-source], the
    PIN buffer and its length are what [parse_pin_source] makes of the
    value, and so is the return value: a file that cannot be read makes
    the whole URI fail. *)
Theorem pkcs11_uri_pin_source
    (alloc : nat -> option (list Z)) (scratch : nat -> list Z)
    (fs : list Z -> option (list Z))
    (good : list (Z * uri_attr)) (d : Z) (items : list uri_item)
    (rest : list Z)
    (tok0 : option Lookup.token_filter) (id : list Z) (id_len : nat)
    (pin : list Z) (pin_len : nat) (label0 : option (list Z)) :
  allocates alloc ->
  (id_len <= length id)%nat -> (pin_len <= length pin)%nat ->
  separated good ->
  match good with [] => d = ch_colon | _ => In d delimiters end ->
  attrs_ok id_len pin_len (map snd good) ->
  existsb is_pin (map snd good) = false ->
  value_ok items -> last_stop rest ->
  let f := parse_pin_source fs (uri_text items ++ rest)
             (Z.of_nat (length (uri_text items)))
             (alloc (length (uri_text items) + 1)%nat)
             (scratch (pin_len + 1)%nat) pin pin_len in
  let r := parse_pkcs11_uri alloc scratch fs true
             (uri_of good ++ d :: (lit_pin_source ++ uri_text items) ++ rest)
             tok0 id id_len pin pin_len label0 in
  uo_ret r = fo_ret f /\ uo_pin r = fo_field f /\ uo_pin_len r = fo_len f.
Proof.
  intros Halloc Hid Hpin Hsep Hd (Hok & Hcid & Hcpin) Hno Hv (Hstop & Hlast).
  cbn zeta. unfold parse_pkcs11_uri. cbn [negb].
  set (seg := lit_pin_source ++ uri_text items).
  set (st0 := UriState 1 _ _ _ _ _ _ _ _ _).
  set (fuel := S (length (uri_of good ++ d :: seg ++ rest))).
  assert (He0 : u_end st0 = attrs_text good ++ d :: seg ++ rest).
  { unfold st0, uri_of. cbn [u_end]. rewrite <- app_assoc. reflexivity. }
  assert (Hr0 : reads [] id id_len pin pin_len st0).
  { unfold reads, st0. cbn. repeat split. intros k. destruct k; reflexivity. }
  assert (Hf0 : (length (u_end st0) < fuel)%nat).
  { rewrite He0. unfold fuel, uri_of. rewrite <- app_assoc, !length_app.
    cbn [lit_pkcs11 length]. lia. }
  assert (Hd0 : d <> 0).
  { destruct good; [subst d; discriminate|].
    apply delimiter_nonzero. exact Hd. }
  assert (Hloop : exists st fuel',
             uri_loop alloc scratch fs fuel st0
             = uri_loop alloc scratch fs fuel' st
             /\ (length (u_end st) < fuel')%nat
             /\ reads (map snd good) id id_len pin pin_len st
             /\ u_end st = d :: seg ++ rest).
  { destruct good as [|[d1 a1] more].
    - exists st0, fuel. auto.
    - destruct Hsep as [-> Hdel].
      apply (uri_loop_reads alloc scratch fs id id_len pin pin_len
               Halloc Hid Hpin ((ch_colon, a1) :: more) [] st0 fuel);
        try assumption.
      + constructor; [discriminate|].
        eapply Forall_impl; [exact Hdel|]. intros da Hda.
        apply delimiter_nonzero. exact Hda.
      + apply delimiter_stops. exact Hd. }
  destruct Hloop as (st & fuel' & -> & Hf & Hr & He).
  pose proof (step_pin_source alloc scratch fs id id_len pin pin_len
                (map snd good) items st d rest Hr He Hstop Hv Hno) as Hstep.
  cbn zeta in Hstep.
  set (f := parse_pin_source _ _ _ _ _ _ _) in *.
  destruct fuel' as [|f1]; [lia|].
  destruct f1 as [|f2]; [rewrite He in Hf; cbn [length] in Hf; lia|].
  cbn [uri_loop].
  destruct Hr as (Hrv1 & _). rewrite Hrv1, He. cbn [cur hd].
  change (at_ (d :: seg ++ rest) 1) with (at_ (seg ++ rest) 0).
  rewrite at_0.
  change (cur (seg ++ rest)) with 112.
  apply Z.eqb_neq in Hd0. rewrite Hd0. cbn [Z.eqb negb andb].
  rewrite Hstep.
  cbn [u_rv u_end set_pin set_end].
  assert (Hend : (negb (fo_ret f =? 0) && negb (cur rest =? 0)
                  && negb (at_ rest 1 =? 0)) = false).
  { destruct Hlast as [-> | ->]; cbn [Z.eqb negb];
      rewrite ?andb_false_r; reflexivity. }
  rewrite Hend.
  cbn [u_rv u_pin u_pin_len u_pin_set u_id u_id_len u_id_set u_tok
       u_newlabel set_pin set_end].
  destruct (fo_ret f =? 0) eqn:E; cbn [negb uo_ret uo_pin uo_pin_len].
  - apply Z.eqb_eq in E. auto.
  - auto.
Qed.

(** ["pkcs11:token=ab;pin-source=/p"], the file holding ["12"]. *)
Lemma pkcs11_uri_pin_source_witness :
  let f := parse_pin_source (fun _ => Some [49; 50]) ([47; 112] ++ [])
             2 (Some (repeat 0 3)) (repeat 0 9) (repeat 0 8) 8 in
  let r := parse_pkcs11_uri (fun n => Some (repeat 0 n))
             (fun n => repeat 0 n) (fun _ => Some [49; 50]) true
             ([112; 107; 99; 115; 49; 49; 58; 116; 111; 107; 101; 110; 61;
               97; 98]
              ++ 59 :: ([112; 105; 110; 45; 115; 111; 117; 114; 99; 101; 61]
                        ++ [47; 112]) ++ [])
             None (repeat 0 8) 8 (repeat 0 8) 8 None in
  uo_ret r = fo_ret f /\ uo_pin r = fo_field f /\ uo_pin_len r = fo_len f.
Proof.
  apply (pkcs11_uri_pin_source (fun n => Some (repeat 0 n))
           (fun n => repeat 0 n) (fun _ => Some [49; 50])
           [(ch_colon, AStr KToken [Lit 97; Lit 98])] 59
           [Lit 47; Lit 112] []
           None (repeat 0 8) 8 (repeat 0 8) 8 None).
  - intros n. exists (repeat 0 n). split; [reflexivity|apply repeat_length].
  - cbn. lia.
  - cbn. lia.
  - split; [reflexivity|constructor].
  - left. reflexivity.
  - split; [|split; cbn; lia].
    repeat constructor; try discriminate.
  - reflexivity.
  - split; repeat constructor; discriminate.
  - split; [reflexivity|left; reflexivity].
Defined.
